(** * Operations-Research Toolkit: the LP tableau engine and Branch-and-Bound

    A shallow embedding of [methods/simplex/script.js] and
    [methods/branch-and-bound/script.js].

    Numbers.  A JavaScript number is modelled as an exact rational ([Q]);
    every arithmetic operation returns its result in lowest terms, so that
    two equal numbers computed along different paths are the same term.  The
    tolerances of the code ([1e-10], [1e-6]) and the Big-M constant are the
    rationals they denote.  Division is only ever performed by a pivot element
    or a ratio-test coefficient, which the code has tested to be away from
    zero.

    Arrays.  A JavaScript array is a [list]; [a[i]] is [get a i] and the
    assignment [a[i] = v] is [upd i v a].  All index loops
    [for (let j = 0; j < n; j++)] are folds over [seq 0 n]. *)

From Stdlib Require Import QArith Qround Qabs Qreduction ZArith List Bool Lia Lqa Arith PeanoNat.
Import ListNotations.

Set Implicit Arguments.

Close Scope Q_scope.

(* ------------------------------------------------------------------ *)
(** ** Numbers *)

Definition nadd (a b : Q) : Q := Qred (a + b)%Q.
Definition nsub (a b : Q) : Q := Qred (a - b)%Q.
Definition nmul (a b : Q) : Q := Qred (a * b)%Q.
Definition ndiv (a b : Q) : Q := Qred (a / b)%Q.
Definition nneg (a : Q) : Q := Qopp a.

(** [a < b], [a <= b], [a > b], [a >= b] of JavaScript. *)
Definition nlt (a b : Q) : bool := negb (Qle_bool b a).
Definition nle (a b : Q) : bool := Qle_bool a b.
Definition ngt (a b : Q) : bool := nlt b a.
Definition nge (a b : Q) : bool := nle b a.

(** The literal [1e-10]. *)
Definition eps10 : Q := (1 # 10000000000)%Q.
(** The literal [1e-6]. *)
Definition eps6 : Q := (1 # 1000000)%Q.

(** [Math.round]: nearest integer, halves towards plus infinity. *)
Definition Math_round (x : Q) : Z := Qfloor (x + (1 # 2))%Q.
(** [Math.floor] and [Math.ceil]. *)
Definition Math_floor (x : Q) : Z := Qfloor x.
Definition Math_ceil (x : Q) : Z := Qceiling x.

(** [Math.round(x * 10000) / 10000], the four-decimal rounding used for
    every value that is shown. *)
Definition round4 (x : Q) : Q :=
  ndiv (inject_Z (Math_round (nmul x 10000%Q))) 10000%Q.

(* ------------------------------------------------------------------ *)
(** ** Arrays *)

Definition get (a : list Q) (i : nat) : Q := nth i a 0%Q.

Fixpoint upd {A : Type} (i : nat) (v : A) (a : list A) : list A :=
  match a, i with
  | [], _ => []
  | _ :: t, O => v :: t
  | h :: t, S i' => h :: upd i' v t
  end.

(** [t[i][j]] and [t[i][j] = v] on an array of rows. *)
Definition cell (t : list (list Q)) (i j : nat) : Q := get (nth i t []) j.

Definition setCell (t : list (list Q)) (i j : nat) (v : Q) : list (list Q) :=
  upd i (upd j v (nth i t [])) t.

(** [for (let j = 0; j < n; j++) body]. *)
Definition for_upto {S : Type} (n : nat) (body : S -> nat -> S) (s : S) : S :=
  fold_left body (seq 0 n) s.

(** [arr.includes(x)] on an array of indices. *)
Definition includes (a : list nat) (x : nat) : bool :=
  existsb (Nat.eqb x) a.

(** The last element of an array, [a[a.length - 1]]. *)
Definition last_opt {A : Type} (a : list A) : option A :=
  match rev a with [] => None | x :: _ => Some x end.

(* ------------------------------------------------------------------ *)
(** ** Data model shared by the two scripts *)

(** The [type] field of a constraint: ["<="], [">="] or ["="]. *)
Inductive rel := Le | Ge | Eq.

Record constraint := mkCon { coeffs : list Q; type : rel; rhs : Q }.

Definition rel_eqb (a b : rel) : bool :=
  match a, b with
  | Le, Le | Ge, Ge | Eq, Eq => true
  | _, _ => false
  end.

(* ------------------------------------------------------------------ *)
(** ** methods/simplex/script.js *)

Module Simplex.

(** [let M = 1000000]. *)
Definition M : Q := 1000000%Q.

Inductive sense := Max | Min.

(** The value returned by [collectData]. *)
Record data := mkData {
  objType : sense;
  objCoeffs : list Q;
  constraints : list constraint
}.

(** Variable names [x1], [s1], [e1], [a1], ...: the letter and the number. *)
Inductive varName := VarX (k : nat) | VarS (k : nat) | VarE (k : nat) | VarA (k : nat).

Inductive method := Converted | BigM | DualSimplex | PrimalSimplex.

Record state := mkState {
  tableau : list (list Q);
  zRow : list Q;
  varNames : list varName;
  basicVars : list nat;
  artificialVarIndices : list nat;
  methodsUsed : list method;
  wasMinimization : bool;
  totalVars : nat
}.

Section WithNumVars.

(** The global [numVars]. *)
Variable numVars : nat.

(** The three counters of the first loop of [buildTableau]. *)
Definition countKinds (cons : list constraint) : nat * nat * nat :=
  fold_left
    (fun '(slackCount, surplusCount, artificialCount) con =>
       match type con with
       | Le => (S slackCount, surplusCount, artificialCount)
       | Ge => (slackCount, S surplusCount, S artificialCount)
       | Eq => (slackCount, surplusCount, S artificialCount)
       end)
    cons (0, 0, 0)%nat.

(** The naming loop: [varNames] and [artificialVarIndices]. *)
Definition nameVars (cons : list constraint)
  : list varName * list nat :=
  let names0 := map (fun j => VarX (j + 1)) (seq 0 numVars) in
  let '(names, _, _, _, arts) :=
    fold_left
      (fun '(names, slackIdx, surplusIdx, artificialIdx, arts) con =>
         match type con with
         | Le => (names ++ [VarS slackIdx], S slackIdx, surplusIdx, artificialIdx, arts)
         | Ge =>
             let names1 := names ++ [VarE surplusIdx] in
             let names2 := names1 ++ [VarA artificialIdx] in
             (names2, slackIdx, S surplusIdx, S artificialIdx,
              arts ++ [length names2 - 1])
         | Eq =>
             let names1 := names ++ [VarA artificialIdx] in
             (names1, slackIdx, surplusIdx, S artificialIdx,
              arts ++ [length names1 - 1])
         end)
      cons (names0, 1, 1, 1, [])%nat in
  (names, arts).

(** One constraint row: the decision coefficients, the slack / surplus /
    artificial entries and the right-hand side. *)
Definition buildRow (totalVars : nat) (con : constraint) (varIndex : nat)
  : list Q * list nat * nat :=
  let row0 := repeat 0%Q (totalVars + 1) in
  let row1 := for_upto numVars (fun row j => upd j (get (coeffs con) j) row) row0 in
  let '(row2, pushed, varIndex') :=
    match type con with
    | Le => (upd varIndex 1%Q row1, [varIndex], S varIndex)
    | Ge =>
        let r := upd varIndex (-1)%Q row1 in
        let v := S varIndex in
        (upd v 1%Q r, [v], S v)
    | Eq => (upd varIndex 1%Q row1, [varIndex], S varIndex)
    end in
  (upd totalVars (rhs con) row2, pushed, varIndex').

Definition buildRows (totalVars : nat) (cons : list constraint)
  : list (list Q) * list nat :=
  let '(tableau, basicVars, _) :=
    fold_left
      (fun '(tableau, basicVars, varIndex) con =>
         let '(row, pushed, varIndex') := buildRow totalVars con varIndex in
         (tableau ++ [row], basicVars ++ pushed, varIndex'))
      cons ([], [], numVars) in
  (tableau, basicVars).

(** The objective row: negated coefficients, [M] on artificial columns, then
    the rows of the artificial basic variables subtracted [M] times. *)
Definition buildZRow (totalVars : nat) (objCoeffs : list Q)
    (tableau : list (list Q)) (basicVars arts : list nat) : list Q :=
  let z0 := repeat 0%Q (totalVars + 1) in
  let z1 := for_upto numVars (fun z j => upd j (nneg (get objCoeffs j)) z) z0 in
  let z2 := fold_left (fun z artIdx => upd artIdx M z) arts z1 in
  for_upto (length basicVars)
    (fun z i =>
       if includes arts (nth i basicVars 0%nat) then
         for_upto (totalVars + 1)
           (fun z j => upd j (nsub (get z j) (nmul M (cell tableau i j))) z) z
       else z)
    z2.

Definition buildTableau (d : data) : state :=
  let wasMin := match objType d with Min => true | Max => false end in
  let objC := if wasMin then map nneg (objCoeffs d) else objCoeffs d in
  let methods0 := if wasMin then [Converted] else [] in
  let '(slackCount, surplusCount, artificialCount) := countKinds (constraints d) in
  let methods1 :=
    if (0 <? artificialCount)%nat then methods0 ++ [BigM] else methods0 in
  let totalVars := (numVars + slackCount + surplusCount + artificialCount)%nat in
  let '(names, arts) := nameVars (constraints d) in
  let '(tableau, basicVars) := buildRows totalVars (constraints d) in
  let zRow := buildZRow totalVars objC tableau basicVars arts in
  mkState tableau zRow names basicVars arts methods1 wasMin totalVars.

(** [isOptimal]. *)
Definition isOptimal (zRow : list Q) (totalVars : nat) : bool :=
  forallb (fun j => negb (nlt (get zRow j) (- eps10)%Q)) (seq 0 totalVars).

(** [hasNegativeRHS]: the last entry of some row is below [-1e-10]. *)
Definition hasNegativeRHS (tableau : list (list Q)) : bool :=
  existsb (fun row => nlt (get row (length row - 1)) (- eps10)%Q) tableau.

(** [findPivotColumn]; [-1] is [None]. *)
Definition findPivotColumn (zRow : list Q) (totalVars : nat) : option nat :=
  snd (for_upto totalVars
         (fun '(minVal, pivotCol) j =>
            if nlt (get zRow j) minVal then (get zRow j, Some j)
            else (minVal, pivotCol))
         (0%Q, None)).

(** [findPivotRow]; the running minimum starts at [Infinity], which is
    [None] here, and [ratios] is the list shown next to the tableau. *)
Definition findPivotRow (tableau : list (list Q)) (pivotCol totalVars : nat)
  : option nat * list (nat * option Q) :=
  let '(_, pivotRow, ratios) :=
    for_upto (length tableau)
      (fun '(minRatio, pivotRow, ratios) i =>
         let rhs := cell tableau i totalVars in
         let coeff := cell tableau i pivotCol in
         if ngt coeff eps10 then
           let ratio := ndiv rhs coeff in
           let ratios' := ratios ++ [(i, Some ratio)] in
           if nge ratio 0%Q &&
              match minRatio with None => true | Some m => nlt ratio m end
           then (Some ratio, Some i, ratios')
           else (minRatio, pivotRow, ratios')
         else (minRatio, pivotRow, ratios ++ [(i, None)]))
      (None, None, []) in
  (pivotRow, ratios).

(** [findDualPivotRow]. *)
Definition findDualPivotRow (tableau : list (list Q)) (totalVars : nat)
  : option nat :=
  snd (for_upto (length tableau)
         (fun '(minRHS, pivotRow) i =>
            let rhs := cell tableau i totalVars in
            if nlt rhs minRHS then (rhs, Some i) else (minRHS, pivotRow))
         (0%Q, None)).

(** [findDualPivotCol]. *)
Definition findDualPivotCol (tableau : list (list Q)) (zRow : list Q)
    (pivotRow totalVars : nat) : option nat :=
  snd (for_upto totalVars
         (fun '(minRatio, pivotCol) j =>
            let aij := cell tableau pivotRow j in
            if nlt aij (- eps10)%Q then
              let ratio := Qabs (ndiv (get zRow j) aij) in
              if match minRatio with None => true | Some m => nlt ratio m end
              then (Some ratio, Some j)
              else (minRatio, pivotCol)
            else (minRatio, pivotCol))
         (None, None)).

(** [pivot]: the three loops, in the order of the source.  The pivot
    element, each row's factor and the objective row's factor are read
    before the loop that uses them. *)
Definition pivot (tableau : list (list Q)) (zRow : list Q)
    (pivotRow pivotCol : nat) (basicVars : list nat) (totalVars : nat)
  : list (list Q) * list Q * list nat :=
  let pivotElement := cell tableau pivotRow pivotCol in
  let t1 :=
    for_upto (totalVars + 1)
      (fun t j => setCell t pivotRow j (ndiv (cell t pivotRow j) pivotElement))
      tableau in
  let t2 :=
    for_upto (length t1)
      (fun t i =>
         if (i =? pivotRow)%nat then t
         else
           let factor := cell t i pivotCol in
           for_upto (totalVars + 1)
             (fun t j =>
                setCell t i j (nsub (cell t i j) (nmul factor (cell t pivotRow j))))
             t)
      t1 in
  let zFactor := get zRow pivotCol in
  let z' :=
    for_upto (totalVars + 1)
      (fun z j => upd j (nsub (get z j) (nmul zFactor (cell t2 pivotRow j))) z)
      zRow in
  (t2, z', upd pivotRow pivotCol basicVars).

(** The kind of a recorded step and the reason given in its description. *)
Inductive stepType := StepInitial | StepPivot | StepOptimal | StepInfeasible | StepUnbounded.

Inductive stepReason :=
| InitialTableau            (* 'Tableau after adding slack, surplus, ...' *)
| DualIteration             (* 'Dual Simplex Iteration n' *)
| PrimalIteration           (* 'Iteration n' *)
| DualNoPivotColumn         (* 'Dual Simplex cannot find a valid pivot column' *)
| ArtificialInBasis         (* 'Artificial variable(s) remain in the optimal basis' *)
| AllNonNegative            (* 'All coefficients in Z row are non-negative.' *)
| NoNegativeCoefficient     (* 'No negative coefficient in Z row.' *)
| NoPositiveInColumn.       (* 'No positive coefficient in pivot column' *)

Record step := mkStep { step_type : stepType; step_reason : stepReason }.

(** The variables the [while] loop of [solve] reads and writes. *)
Record loopState := mkLoop {
  l_tableau : list (list Q);
  l_zRow : list Q;
  l_basicVars : list nat;
  l_useDualSimplex : bool;
  l_steps : list step;
  l_iteration : nat
}.

(** The artificial-variable scan run when the objective row is optimal. *)
Definition hasArtificialInBasis (tableau : list (list Q)) (basicVars arts : list nat)
    (totalVars : nat) : bool :=
  existsb
    (fun i =>
       includes arts (nth i basicVars 0%nat) &&
       ngt (Qabs (cell tableau i totalVars)) eps10)
    (seq 0 (length basicVars)).

(** How one pass through the loop body ends. *)
Inductive passEnd := Continue (s : loopState) | Break (s : loopState).

Definition push (s : loopState) (ty : stepType) (why : stepReason) : loopState :=
  mkLoop (l_tableau s) (l_zRow s) (l_basicVars s) (l_useDualSimplex s)
         (l_steps s ++ [mkStep ty why]) (l_iteration s).

Definition doPivot (s : loopState) (pivotRow pivotCol totalVars : nat) : loopState :=
  let '(t, z, b) := pivot (l_tableau s) (l_zRow s) pivotRow pivotCol (l_basicVars s) totalVars in
  mkLoop t z b (l_useDualSimplex s) (l_steps s) (l_iteration s).

(** The body of [while (iteration < maxIterations)], after [iteration++]. *)
Definition loopBody (arts : list nat) (totalVars : nat) (s0 : loopState) : passEnd :=
  let s := mkLoop (l_tableau s0) (l_zRow s0) (l_basicVars s0) (l_useDualSimplex s0)
                  (l_steps s0) (S (l_iteration s0)) in
  if l_useDualSimplex s && hasNegativeRHS (l_tableau s) then
    match findDualPivotRow (l_tableau s) totalVars with
    | None =>
        Continue (mkLoop (l_tableau s) (l_zRow s) (l_basicVars s) false
                         (l_steps s) (l_iteration s))
    | Some pivotRow =>
        match findDualPivotCol (l_tableau s) (l_zRow s) pivotRow totalVars with
        | None => Break (push s StepInfeasible DualNoPivotColumn)
        | Some pivotCol =>
            Continue (doPivot (push s StepPivot DualIteration) pivotRow pivotCol totalVars)
        end
    end
  else if isOptimal (l_zRow s) totalVars then
    if hasArtificialInBasis (l_tableau s) (l_basicVars s) arts totalVars
    then Break (push s StepInfeasible ArtificialInBasis)
    else Break (push s StepOptimal AllNonNegative)
  else
    match findPivotColumn (l_zRow s) totalVars with
    | None => Break (push s StepOptimal NoNegativeCoefficient)
    | Some pivotCol =>
        match fst (findPivotRow (l_tableau s) pivotCol totalVars) with
        | None => Break (push s StepUnbounded NoPositiveInColumn)
        | Some pivotRow =>
            Continue (doPivot (push s StepPivot PrimalIteration) pivotRow pivotCol totalVars)
        end
    end.

(** The [while] loop; [fuel] is [maxIterations - iteration].  The flag says
    whether the loop was left by a [break] ([true]) or because the counter
    reached the cap ([false]). *)
Fixpoint loop (fuel : nat) (arts : list nat) (totalVars : nat) (s : loopState)
  : loopState * bool :=
  match fuel with
  | O => (s, false)
  | S fuel' =>
      match loopBody arts totalVars s with
      | Break s' => (s', true)
      | Continue s' => loop fuel' arts totalVars s'
      end
  end.

Definition maxIterations : nat := 100.

(** [extractSolution]: the object with keys [x1..xn] is the list of its
    values in key order, so the key [xk] is position [k - 1].  A name read
    past the end of [varNames] is [undefined], on which [startsWith] would
    throw; no basic variable is ever out of range, and the model skips it. *)
Definition extractSolution (tableau : list (list Q)) (basicVars : list nat)
    (varNames : list varName) (totalVars : nat) : list Q :=
  let solution0 := repeat 0%Q numVars in
  for_upto (length basicVars)
    (fun solution i =>
       let varIdx := nth i basicVars 0%nat in
       match nth_error varNames varIdx with
       | Some (VarX k) => upd (k - 1) (round4 (cell tableau i totalVars)) solution
       | _ => solution
       end)
    solution0.

(** [roundNum], whose result is a number or the text ['M'] / ['-M']. *)
Inductive shown := ShownNum (q : Q) | ShownM | ShownNegM.

Definition roundNum (num : Q) : shown :=
  if nlt (Qabs num) eps10 then ShownNum 0%Q
  else if nge (Qabs num) (ndiv M 2%Q) then (if ngt num 0%Q then ShownM else ShownNegM)
  else ShownNum (round4 num).

(** The final banner written by [displayResults]. *)
Inductive finalResult :=
| NoFeasibleSolution
| UnboundedSolution
| OptimalSolution (solution : list Q) (z : shown).

Definition displayFinal (steps : list step) (solution : list Q) (finalZ : Q)
  : finalResult :=
  match option_map step_type (last_opt steps) with
  | Some StepInfeasible => NoFeasibleSolution
  | Some StepUnbounded => UnboundedSolution
  | _ => OptimalSolution solution (roundNum finalZ)
  end.

(** What [solve] leaves behind: the values handed to [displayResults], the
    globals written by [storeSolutionData], the loop counter, whether the
    loop was left by [break], and whether the what-if section is shown. *)
Record solved := mkSolved {
  steps : list step;
  methods : list method;
  solution : list Q;
  finalZ : Q;
  lastOptimalTableau : list (list Q);
  lastOptimalZRow : list Q;
  lastOptimalBasicVars : list nat;
  lastVarNames : list varName;
  lastTotalVars : nat;
  lastArtificial : list nat;
  iterations : nat;
  brokeOut : bool;
  final : finalResult;
  whatIfShown : bool
}.

(** [solve] up to the end of its [while] loop. *)
Definition run (d : data) : loopState * bool :=
  let st := buildTableau d in
  let steps0 := [mkStep StepInitial InitialTableau] in
  let useDualSimplex := hasNegativeRHS (tableau st) in
  loop maxIterations (artificialVarIndices st) (totalVars st)
       (mkLoop (tableau st) (zRow st) (basicVars st) useDualSimplex steps0 0).

Definition solve (d : data) : solved :=
  let st := buildTableau d in
  let useDualSimplex := hasNegativeRHS (tableau st) in
  let methods1 :=
    methodsUsed st ++ [if useDualSimplex then DualSimplex else PrimalSimplex] in
  let s := fst (run d) in
  let solution := extractSolution (l_tableau s) (l_basicVars s) (varNames st) (totalVars st) in
  let zValue := get (l_zRow s) (totalVars st) in
  let finalZ := if wasMinimization st then nneg zValue else zValue in
  mkSolved (l_steps s) methods1 solution finalZ
           (l_tableau s) (l_zRow s) (l_basicVars s) (varNames st) (totalVars st)
           (artificialVarIndices st) (l_iteration s) (snd (run d))
           (displayFinal (l_steps s) solution finalZ)
           (match option_map step_type (last_opt (l_steps s)) with
            | Some StepOptimal => true
            | _ => false
            end).

(** The verdict of the what-if analysis of one objective coefficient. *)
Inductive cjVerdict :=
| RecommendResolve           (* 'Re-solve the problem with the new cj value.' *)
| RemainsOptimal (z : shown) (* 'Current basis remains optimal. Z = ...' *)
| ReoptimizationRequired.    (* 'Re-optimization required.' *)

(** [analyzeChangeCj]: [varIdx] and [newValue] are read from the what-if
    form, [originalValue] from the objective input of that variable; the
    rest comes from the globals stored by the last solve. *)
Definition analyzeChangeCj (r : solved) (varIdx : nat) (newValue originalValue : Q)
  : cjVerdict :=
  let delta := nsub newValue originalValue in
  let isBasic := existsb (fun bv => bv =? varIdx)%nat (lastOptimalBasicVars r) in
  if isBasic then RecommendResolve
  else
    let currentReducedCost := get (lastOptimalZRow r) varIdx in
    let newReducedCost := nadd currentReducedCost delta in
    if nge newReducedCost (- eps10)%Q then RemainsOptimal (roundNum (finalZ r))
    else ReoptimizationRequired.

(** The value [sensitivity] handed to [displayResults]: the reduced costs
    with the name of their variable ([undefined] is [None]), and the shadow
    prices with the number in their label [C1], [C2], ... *)
Record analysis := mkAnalysis {
  reducedCosts : list (option varName * Q);
  shadowPrices : list (nat * Q)
}.

(** [performSensitivityAnalysis].  The first loop lists every column that
    [basicVars] does not include; the second runs over the columns from
    [numVars] on and calls [startsWith] on the column's name, which throws
    on a name read past the end of [varNames]: the result is [None] then. *)
Definition performSensitivityAnalysis (tableau : list (list Q)) (zRow : list Q)
    (basicVars : list nat) (varNames : list varName) (totalVars : nat)
  : option analysis :=
  let reduced :=
    for_upto totalVars
      (fun acc j =>
         if includes basicVars j then acc
         else acc ++ [(nth_error varNames j, round4 (get zRow j))])
      [] in
  let shadow :=
    fold_left
      (fun st j =>
         match st with
         | None => None
         | Some (slackIdx, acc) =>
             match nth_error varNames j with
             | None => None
             | Some (VarS _) =>
                 Some (S slackIdx, acc ++ [(S slackIdx, round4 (nneg (get zRow j)))])
             | Some _ => Some (slackIdx, acc)
             end
         end)
      (seq numVars (totalVars - numVars)) (Some (0%nat, [])) in
  match shadow with
  | None => None
  | Some (_, prices) => Some (mkAnalysis reduced prices)
  end.

(** The scan that looks for the slack column of constraint [idx], written
    out in [analyzeChangeBi] and in [analyzeAddVariable]: it reads the
    relation selected in the form for the constraints [0 .. idx]
    ([conTypes], one entry per constraint row of the form) and counts the
    ["<="] ones.  The inner [option] is [slackVar], [-1] being [None].  In
    [analyzeChangeBi] a missing row makes [.value] throw ([optional = false],
    the result is [None]); [analyzeAddVariable] reads with [?.value], which
    is [undefined] there and matches no relation ([optional = true]). *)
Definition findSlackVar (optional : bool) (conTypes : list rel) (idx : nat)
  : option (option nat) :=
  option_map fst
    (for_upto (idx + 1)
       (fun st i =>
          match st with
          | None => None
          | Some (slackVar, slackCount) =>
              match nth_error conTypes i with
              | None => if optional then Some (slackVar, slackCount) else None
              | Some Le =>
                  Some (if (i =? idx)%nat then Some (numVars + slackCount)%nat else slackVar,
                        S slackCount)
              | Some _ => Some (slackVar, slackCount)
              end
          end)
       (Some (None, 0%nat))).

(** The verdict of the what-if analysis of one right-hand side: the shadow
    price, the change in Z and the new Z as computed (each is shown through
    [roundNum]), or the advice to re-solve. *)
Inductive biVerdict :=
| ShadowEstimate (shadowPrice deltaZ newZ : Q)
| NoSlackResolve.            (* 'This constraint does not have a slack variable' *)

(** [analyzeChangeBi]: [conIdx] and [newValue] are read from the what-if
    form, [originalValue] from the right-hand-side input of that constraint
    and [conTypes] from the relation selects; [None] is an exception. *)
Definition analyzeChangeBi (r : solved) (conTypes : list rel) (conIdx : nat)
    (newValue originalValue : Q) : option biVerdict :=
  let deltab := nsub newValue originalValue in
  match findSlackVar false conTypes conIdx with
  | None => None
  | Some (Some slackVar) =>
      let shadowPrice := nneg (get (lastOptimalZRow r) slackVar) in
      let deltaZ := nmul shadowPrice deltab in
      let newZ := nadd (finalZ r) deltaZ in
      Some (ShadowEstimate shadowPrice deltaZ newZ)
  | Some None => Some NoSlackResolve
  end.

(** The verdict of the what-if analysis of a new constraint, with the
    left-hand side evaluated at the stored solution. *)
Inductive addConVerdict :=
| StillSatisfied (lhs : Q) (z : shown)  (* 'Current solution satisfies the new constraint!' *)
| Violated (lhs : Q).                   (* 'Current solution violates the new constraint!' *)

(** [analyzeAddConstraint]: [coeffs], [conType] and [rhs] are read from the
    what-if form; [lastSolution] is the solution stored by the last solve,
    whose keys [x1..xn] are the positions of the list. *)
Definition analyzeAddConstraint (r : solved) (coeffs : list Q) (conType : rel)
    (rhs : Q) : addConVerdict :=
  let lhs :=
    for_upto numVars
      (fun lhs j => nadd lhs (nmul (get coeffs j) (get (solution r) j))) 0%Q in
  let satisfied :=
    match conType with
    | Le => nle lhs (nadd rhs eps10)
    | Ge => nge lhs (nsub rhs eps10)
    | Eq => nlt (Qabs (nsub lhs rhs)) eps10
    end in
  if satisfied then StillSatisfied lhs (roundNum (finalZ r)) else Violated lhs.

(** The verdict of the what-if analysis of a new variable, with the reduced
    cost as computed. *)
Inductive addVarVerdict :=
| StaysOptimal (reducedCost : Q) (z : shown)  (* 'Current solution remains optimal.' *)
| ShouldEnter (reducedCost : Q).              (* 'Re-optimization required.' *)

(** [analyzeAddVariable]: [objCoef] and [conCoefs] are read from the what-if
    form, which has one coefficient input per constraint row, and
    [conTypes] from the relation selects. *)
Definition analyzeAddVariable (r : solved) (conTypes : list rel) (objCoef : Q)
    (conCoefs : list Q) : addVarVerdict :=
  let reducedCost :=
    for_upto (length (lastOptimalBasicVars r))
      (fun reducedCost i =>
         match findSlackVar true conTypes i with
         | Some (Some slackVarIdx) =>
             let shadowPrice := nneg (get (lastOptimalZRow r) slackVarIdx) in
             nsub reducedCost (nmul shadowPrice (get conCoefs i))
         | _ => reducedCost
         end)
      objCoef in
  if nge reducedCost (- eps10)%Q then StaysOptimal reducedCost (roundNum (finalZ r))
  else ShouldEnter reducedCost.

End WithNumVars.

End Simplex.

(* ------------------------------------------------------------------ *)
(** ** methods/branch-and-bound/script.js *)

Module BB.

(** A number that may be [Infinity] or [-Infinity]: the value of [bestZ]. *)
Inductive ext := NegInf | Fin (q : Q) | PosInf.

(** [z <= e + 1e-6], [z >= e - 1e-6], [z > e], [z < e] for a finite [z]. *)
Definition le_plus_eps (z : Q) (e : ext) : bool :=
  match e with NegInf => false | PosInf => true | Fin b => nle z (nadd b eps6) end.
Definition ge_minus_eps (z : Q) (e : ext) : bool :=
  match e with NegInf => true | PosInf => false | Fin b => nge z (nsub b eps6) end.
Definition gt_ext (z : Q) (e : ext) : bool :=
  match e with NegInf => true | PosInf => false | Fin b => ngt z b end.
Definition lt_ext (z : Q) (e : ext) : bool :=
  match e with NegInf => false | PosInf => true | Fin b => nlt z b end.

(** The object returned by [solveLP]:
    [{feasible: false}], [{feasible: false, unbounded: true}] or
    [{feasible: true, solution, zValue}]. *)
Inductive lpResult :=
| LPInfeasible
| LPUnbounded
| LPFeasible (solution : list Q) (zValue : Q).

(** The text of [branchInfo]: the variable number, the relation, the bound. *)
Record branch := mkBranch { b_var : nat; b_rel : rel; b_bound : Z }.

(** An entry of the queue. *)
Record node := mkNode {
  id : nat;
  extraConstraints : list constraint;
  depth : nat;
  parent : option nat;
  branchInfo : option branch
}.

Inductive status := Infeasible | Pruned | Integer | Branched.

Inductive message :=
| MsgUnbounded
| MsgInfeasible
| MsgPruned (bound : Q) (best : ext)
| MsgInteger.

(** An entry of [nodes]. *)
Record nodeInfo := mkInfo {
  i_id : nat;
  i_depth : nat;
  i_parent : option nat;
  i_branchInfo : option branch;
  i_extraConstraints : list constraint;
  i_status : status;
  i_message : option message;
  i_solution : option (list Q);
  i_zValue : option Q;
  i_fractionalVar : option (nat * Q)
}.

Section WithGlobals.

(** The globals [numVars] and [isMaximization], and the check boxes from
    which [collectData] fills [integerVars]. *)
Variable numVars : nat.
Variable isMaximization : bool.
Variable intChecked : nat -> bool.

(** [integerVars] as [collectData] builds it: the checked indices, in
    increasing order. *)
Definition integerVars : list nat := filter intChecked (seq 0 numVars).

Definition M : Q := 1000000%Q.

Definition countKinds (cons : list constraint) : nat * nat * nat :=
  fold_left
    (fun '(slackCount, surplusCount, artificialCount) con =>
       match type con with
       | Le => (S slackCount, surplusCount, artificialCount)
       | Ge => (slackCount, S surplusCount, S artificialCount)
       | Eq => (slackCount, surplusCount, S artificialCount)
       end)
    cons (0, 0, 0).

(** The tableau-building loop of [solveLP]. *)
Definition buildRows (totalVars : nat) (cons : list constraint)
  : list (list Q) * list nat * list nat :=
  let '(tableau, basicVars, arts, _) :=
    fold_left
      (fun '(tableau, basicVars, arts, varIndex) con =>
         let row0 := repeat 0%Q (totalVars + 1) in
         let row1 :=
           for_upto numVars (fun row j => upd j (get (coeffs con) j) row) row0 in
         let '(row2, basicVars', arts', varIndex') :=
           match type con with
           | Le => (upd varIndex 1%Q row1, basicVars ++ [varIndex], arts, S varIndex)
           | Ge =>
               let r := upd varIndex (-1)%Q row1 in
               let v := S varIndex in
               (upd v 1%Q r, basicVars ++ [v], arts ++ [v], S v)
           | Eq =>
               (upd varIndex 1%Q row1, basicVars ++ [varIndex], arts ++ [varIndex],
                S varIndex)
           end in
         (tableau ++ [upd totalVars (rhs con) row2], basicVars', arts', varIndex'))
      cons ([], [], [], numVars) in
  (tableau, basicVars, arts).

Definition buildZRow (totalVars : nat) (objCoeffs : list Q)
    (tableau : list (list Q)) (basicVars arts : list nat) : list Q :=
  let z0 := repeat 0%Q (totalVars + 1) in
  let z1 :=
    for_upto numVars
      (fun z j =>
         upd j (if isMaximization then nneg (get objCoeffs j) else get objCoeffs j) z)
      z0 in
  let z2 := fold_left (fun z artIdx => upd artIdx M z) arts z1 in
  for_upto (length basicVars)
    (fun z i =>
       if includes arts (nth i basicVars 0) then
         for_upto (totalVars + 1)
           (fun z j => upd j (nsub (get z j) (nmul M (cell tableau i j))) z) z
       else z)
    z2.

(** The entering-column scan; the running minimum starts at [-1e-10]. *)
Definition selectPivotCol (zRow : list Q) (totalVars : nat) : option nat :=
  fst (for_upto totalVars
         (fun '(pivotCol, minVal) j =>
            if nlt (get zRow j) minVal then (Some j, get zRow j)
            else (pivotCol, minVal))
         (None, (- eps10)%Q)).

(** The ratio test. *)
Definition selectPivotRow (tableau : list (list Q)) (pivotCol totalVars : nat)
  : option nat :=
  fst (for_upto (length tableau)
         (fun '(pivotRow, minRatio) i =>
            if ngt (cell tableau i pivotCol) eps10 then
              let ratio := ndiv (cell tableau i totalVars) (cell tableau i pivotCol) in
              if nge ratio 0%Q &&
                 match minRatio with None => true | Some m => nlt ratio m end
              then (Some i, Some ratio)
              else (pivotRow, minRatio)
            else (pivotRow, minRatio))
         (None, None)).

(** The pivot written out in the loop body. *)
Definition pivotStep (tableau : list (list Q)) (zRow : list Q)
    (pivotRow pivotCol : nat) (basicVars : list nat) (totalVars : nat)
  : list (list Q) * list Q * list nat :=
  let pivotElement := cell tableau pivotRow pivotCol in
  let t1 :=
    for_upto (totalVars + 1)
      (fun t j => setCell t pivotRow j (ndiv (cell t pivotRow j) pivotElement))
      tableau in
  let t2 :=
    for_upto (length t1)
      (fun t i =>
         if i =? pivotRow then t
         else
           let factor := cell t i pivotCol in
           for_upto (totalVars + 1)
             (fun t j =>
                setCell t i j (nsub (cell t i j) (nmul factor (cell t pivotRow j))))
             t)
      t1 in
  let zFactor := get zRow pivotCol in
  let z' :=
    for_upto (totalVars + 1)
      (fun z j => upd j (nsub (get z j) (nmul zFactor (cell t2 pivotRow j))) z)
      zRow in
  (t2, z', upd pivotRow pivotCol basicVars).

(** How the [while] loop of [solveLP] is left: by [return] (unbounded), or
    by [break] / the iteration cap with the working arrays as they are. *)
Inductive loopEnd :=
| ReturnUnbounded
| Fallthrough (tableau : list (list Q)) (zRow : list Q) (basicVars : list nat).

Fixpoint loop (fuel : nat) (totalVars : nat)
    (tableau : list (list Q)) (zRow : list Q) (basicVars : list nat) : loopEnd :=
  match fuel with
  | O => Fallthrough tableau zRow basicVars
  | S fuel' =>
      match selectPivotCol zRow totalVars with
      | None => Fallthrough tableau zRow basicVars
      | Some pivotCol =>
          match selectPivotRow tableau pivotCol totalVars with
          | None => ReturnUnbounded
          | Some pivotRow =>
              let '(t, z, b) := pivotStep tableau zRow pivotRow pivotCol basicVars totalVars in
              loop fuel' totalVars t z b
          end
      end
  end.

Definition maxIterations : nat := 100.

(** The artificial-variable scan after the loop. *)
Definition artificialRemains (tableau : list (list Q)) (basicVars arts : list nat)
    (totalVars : nat) : bool :=
  existsb
    (fun i =>
       includes arts (nth i basicVars 0) &&
       ngt (Qabs (cell tableau i totalVars)) eps10)
    (seq 0 (length basicVars)).

(** The read-out of the decision variables. *)
Definition readSolution (tableau : list (list Q)) (basicVars : list nat)
    (totalVars : nat) : list Q :=
  for_upto (length basicVars)
    (fun solution i =>
       if nth i basicVars 0 <? numVars
       then upd (nth i basicVars 0) (cell tableau i totalVars) solution
       else solution)
    (repeat 0%Q numVars).

Definition solveLP (objCoeffs : list Q) (constraints extraConstraints : list constraint)
  : lpResult :=
  let allConstraints := constraints ++ extraConstraints in
  let '(slackCount, surplusCount, artificialCount) := countKinds allConstraints in
  let totalVars := numVars + slackCount + surplusCount + artificialCount in
  let '(tableau, basicVars, arts) := buildRows totalVars allConstraints in
  let zRow := buildZRow totalVars objCoeffs tableau basicVars arts in
  match loop maxIterations totalVars tableau zRow basicVars with
  | ReturnUnbounded => LPUnbounded
  | Fallthrough t z b =>
      if artificialRemains t b arts totalVars then LPInfeasible
      else
        let zValue := get z totalVars in
        LPFeasible (readSolution t b totalVars)
                   (if isMaximization then zValue else nneg zValue)
  end.

(** The test of [getFractionalVar] on one value. *)
Definition isFractional (val : Q) : bool :=
  let frac := nsub val (inject_Z (Math_floor val)) in
  ngt frac eps6 && nlt frac (nsub 1%Q eps6).

(** [getFractionalVar]: the first [j] of [integerVars] that passes the test,
    with its value. *)
Definition getFractionalVar (solution : list Q) : option (nat * Q) :=
  match find (fun j => isFractional (get solution j)) integerVars with
  | Some j => Some (j, get solution j)
  | None => None
  end.

(** The variables of [branchAndBound]. *)
Record search := mkSearch {
  queue : list node;
  nodes : list nodeInfo;
  bestSolution : option (list Q);
  bestZ : ext;
  nodeId : nat
}.

Definition unitCoeffs (index : nat) : list Q :=
  upd index 1%Q (repeat 0%Q numVars).

(** [bestSolution !== null]. *)
Definition notNull (b : option (list Q)) : bool :=
  match b with Some _ => true | None => false end.

(** The bound test: [zValue <= bestZ + 1e-6] when maximizing,
    [zValue >= bestZ - 1e-6] when minimizing. *)
Definition dominated (zValue : Q) (best : ext) : bool :=
  if isMaximization then le_plus_eps zValue best else ge_minus_eps zValue best.

(** One pass through [while (queue.length > 0)]; [None] when the queue is
    empty. *)
Definition visit (objCoeffs : list Q) (constraints : list constraint) (s : search)
  : option search :=
  match queue s with
  | [] => None
  | nd :: rest =>
      let result := solveLP objCoeffs constraints (extraConstraints nd) in
      let info st msg sol z fr :=
        mkInfo (id nd) (depth nd) (parent nd) (branchInfo nd) (extraConstraints nd)
               st msg sol z fr in
      match result with
      | LPInfeasible =>
          Some (mkSearch rest
                  (nodes s ++ [info Infeasible (Some MsgInfeasible) None None None])
                  (bestSolution s) (bestZ s) (nodeId s))
      | LPUnbounded =>
          Some (mkSearch rest
                  (nodes s ++ [info Infeasible (Some MsgUnbounded) None None None])
                  (bestSolution s) (bestZ s) (nodeId s))
      | LPFeasible sol zValue =>
          let shownSol := map round4 sol in
          let shownZ := round4 zValue in
          if notNull (bestSolution s) && dominated zValue (bestZ s) then
            Some (mkSearch rest
                    (nodes s ++ [info Pruned (Some (MsgPruned shownZ (bestZ s)))
                                      (Some shownSol) (Some shownZ) None])
                    (bestSolution s) (bestZ s) (nodeId s))
          else
            match getFractionalVar sol with
            | None =>
                let better :=
                  if isMaximization then gt_ext zValue (bestZ s)
                  else lt_ext zValue (bestZ s) in
                Some (mkSearch rest
                        (nodes s ++ [info Integer (Some MsgInteger)
                                          (Some shownSol) (Some shownZ) None])
                        (if better then Some shownSol else bestSolution s)
                        (if better then Fin shownZ else bestZ s)
                        (nodeId s))
            | Some (index, value) =>
                let floorVal := Math_floor value in
                let ceilVal := Math_ceil value in
                let leftConstraint := mkCon (unitCoeffs index) Le (inject_Z floorVal) in
                let rightConstraint := mkCon (unitCoeffs index) Ge (inject_Z ceilVal) in
                let left :=
                  mkNode (nodeId s) (extraConstraints nd ++ [leftConstraint])
                         (depth nd + 1) (Some (id nd))
                         (Some (mkBranch (index + 1) Le floorVal)) in
                let right :=
                  mkNode (S (nodeId s)) (extraConstraints nd ++ [rightConstraint])
                         (depth nd + 1) (Some (id nd))
                         (Some (mkBranch (index + 1) Ge ceilVal)) in
                Some (mkSearch ((rest ++ [left]) ++ [right])
                        (nodes s ++ [info Branched None (Some shownSol) (Some shownZ)
                                          (Some (index, value))])
                        (bestSolution s) (bestZ s) (S (S (nodeId s))))
            end
      end
  end.

(** The [while] loop over the queue.  The source loop has no bound; [fuel]
    bounds the number of nodes visited and [None] means it ran out. *)
Fixpoint explore (fuel : nat) (objCoeffs : list Q) (constraints : list constraint)
    (s : search) : option search :=
  match visit objCoeffs constraints s with
  | None => Some s
  | Some s' =>
      match fuel with
      | O => None
      | S fuel' => explore fuel' objCoeffs constraints s'
      end
  end.

(** The object returned by [branchAndBound]. *)
Record outcome := mkOutcome {
  o_bestSolution : option (list Q);
  o_bestZ : ext;
  o_nodes : list nodeInfo
}.

Definition branchAndBound (fuel : nat) (objCoeffs : list Q)
    (constraints : list constraint) : option outcome :=
  let start :=
    mkSearch [mkNode 0 [] 0 None None] [] None
             (if isMaximization then NegInf else PosInf) 1 in
  match explore fuel objCoeffs constraints start with
  | None => None
  | Some s => Some (mkOutcome (bestSolution s) (bestZ s) (nodes s))
  end.

(** The final banner of [displayResults]. *)
Inductive finalResult :=
| NoIntegerSolution
| OptimalInteger (solution : list Q) (z : ext).

Definition displayFinal (r : outcome) : finalResult :=
  match o_bestSolution r with
  | None => NoIntegerSolution
  | Some sol => OptimalInteger sol (o_bestZ r)
  end.

End WithGlobals.

End BB.

(* ------------------------------------------------------------------ *)
(** ** The same code over a store of objects

    The definitions above pass arrays by value.  JavaScript passes them by
    reference: the caller's constraint list is an array of references to
    constraint records, each of which refers to its coefficient array, and
    the solver's rows, objective row and solution are further arrays in the
    same store.  Here the store is explicit.  An object is a number array, a
    constraint record or an array of references; the whole store is threaded
    through the code, [new Array(n).fill(0)], array and object literals,
    [map] and spread allocate a new location, and every array element
    assignment of the source is a write at the location its left-hand side
    denotes.  The source assigns to no field of a constraint record and to
    no element of an array of records, so there is no such write operation.

    The arrays of indices and names ([basicVars], [artificialVarIndices],
    [varNames]), the step log, the queue and the node list hold numbers,
    strings or records created on the spot; they stay values.  The outer
    [tableau] array is the list of the locations of its rows.  Functions
    that only read ([isOptimal], [findPivotColumn], ...) are applied to the
    contents read from the store at that moment. *)

Module Store.

Definition loc := nat.

Inductive object :=
| NumArray (a : list Q)
| ConRecord (coeffs : loc) (type : rel) (rhs : Q)
| RefArray (refs : list loc).

Definition store := list object.

(** A computation that reads and updates the store. *)
Definition M (A : Type) : Type := store -> A * store.

Definition ret {A : Type} (a : A) : M A := fun h => (a, h).

Definition bind {A B : Type} (m : M A) (f : A -> M B) : M B :=
  fun h => let '(a, h') := m h in f a h'.

Notation "x <- m ;; k" := (bind m (fun x => k))
  (at level 61, m at next level, right associativity).
Notation "' pat <- m ;; k" := (bind m (fun x => match x with pat => k end))
  (at level 61, pat pattern, m at next level, right associativity).
Notation "m ;;; k" := (bind m (fun _ => k))
  (at level 61, right associativity).

(** A new object. *)
Definition alloc (o : object) : M loc := fun h => (length h, h ++ [o]).

(** The contents of a number array; anything else reads as empty. *)
Definition numbers (l : loc) : M (list Q) :=
  fun h => (match nth_error h l with Some (NumArray a) => a | _ => [] end, h).

(** [a[j]] and [a[j] = v] on the number array at [l]. *)
Definition readNum (l : loc) (j : nat) : M Q :=
  a <- numbers l ;; ret (get a j).

Definition writeNum (l : loc) (j : nat) (v : Q) : M unit :=
  fun h =>
    (tt, match nth_error h l with
         | Some (NumArray a) => upd l (NumArray (upd j v a)) h
         | _ => h
         end).

(** The fields of the constraint record at [l]. *)
Definition readCon (l : loc) : M (loc * rel * Q) :=
  fun h => (match nth_error h l with
            | Some (ConRecord c t r) => (c, t, r)
            | _ => (0, Le, 0%Q)
            end, h).

(** The elements of the array of references at [l]. *)
Definition readRefs (l : loc) : M (list loc) :=
  fun h => (match nth_error h l with Some (RefArray r) => r | _ => [] end, h).

(** [for (x of l) body] and [for (let j = 0; j < n; j++) body]. *)
Fixpoint forEach {A S : Type} (l : list A) (body : S -> A -> M S) (s : S) : M S :=
  match l with
  | [] => ret s
  | x :: t => s' <- body s x ;; forEach t body s'
  end.

Definition forUpto {S : Type} (n : nat) (body : S -> nat -> M S) (s : S) : M S :=
  forEach (seq 0 n) body s.

(** A statement loop: the body returns nothing. *)
Definition doUpto (n : nat) (body : nat -> M unit) : M unit :=
  forUpto n (fun _ j => body j) tt.

(** The constraint record at [l] with the present contents of its
    coefficient array. *)
Definition loadCon (l : loc) : M constraint :=
  ' (c, t, r) <- readCon l ;; a <- numbers c ;; ret (mkCon a t r).

Definition loadCons (ls : list loc) : M (list constraint) :=
  forEach ls (fun acc l => con <- loadCon l ;; ret (acc ++ [con])) [].

(** The present contents of the rows of a tableau. *)
Definition snapshot (rows : list loc) : M (list (list Q)) :=
  forEach rows (fun acc l => a <- numbers l ;; ret (acc ++ [a])) [].

(** [tableau[i][j]] and [tableau[i][j] = v]; past the last row the source
    would throw, here nothing is read or written. *)
Definition readCell (rows : list loc) (i j : nat) : M Q :=
  match nth_error rows i with
  | Some l => readNum l j
  | None => ret 0%Q
  end.

Definition writeCell (rows : list loc) (i j : nat) (v : Q) : M unit :=
  match nth_error rows i with
  | Some l => writeNum l j v
  | None => ret tt
  end.

(** The three loops of [pivot] (the same in both scripts). *)
Definition pivot (rows : list loc) (zRow : loc) (pivotRow pivotCol : nat)
    (basicVars : list nat) (totalVars : nat) : M (list nat) :=
  pivotElement <- readCell rows pivotRow pivotCol ;;
  doUpto (totalVars + 1)
    (fun j =>
       x <- readCell rows pivotRow j ;;
       writeCell rows pivotRow j (ndiv x pivotElement)) ;;;
  doUpto (length rows)
    (fun i =>
       if i =? pivotRow then ret tt
       else
         factor <- readCell rows i pivotCol ;;
         doUpto (totalVars + 1)
           (fun j =>
              x <- readCell rows i j ;;
              y <- readCell rows pivotRow j ;;
              writeCell rows i j (nsub x (nmul factor y)))) ;;;
  zFactor <- readNum zRow pivotCol ;;
  doUpto (totalVars + 1)
    (fun j =>
       x <- readNum zRow j ;;
       y <- readCell rows pivotRow j ;;
       writeNum zRow j (nsub x (nmul zFactor y))) ;;;
  ret (upd pivotRow pivotCol basicVars).

(** One constraint row (the body of the tableau-building loop, the same in
    both scripts up to where the artificial index is recorded). *)
Definition buildRow (numVars totalVars : nat) (conL : loc) (varIndex : nat)
  : M (loc * rel * nat) :=
  ' (c, t, r) <- readCon conL ;;
  row <- alloc (NumArray (repeat 0%Q (totalVars + 1))) ;;
  doUpto numVars (fun j => x <- readNum c j ;; writeNum row j x) ;;;
  v <- match t with
       | Le => writeNum row varIndex 1%Q ;;; ret varIndex
       | Ge =>
           writeNum row varIndex (-1)%Q ;;;
           writeNum row (S varIndex) 1%Q ;;;
           ret (S varIndex)
       | Eq => writeNum row varIndex 1%Q ;;; ret varIndex
       end ;;
  writeNum row totalVars r ;;;
  ret (row, t, v).

(** The tableau-building loop: the rows, the basic variables, and the
    artificial columns as the Branch-and-Bound script records them. *)
Definition buildRows (numVars totalVars : nat) (conLs : list loc)
  : M (list loc * list nat * list nat) :=
  ' (rows, basicVars, arts, _) <-
    forEach conLs
      (fun '(rows, basicVars, arts, varIndex) conL =>
         ' (row, t, v) <- buildRow numVars totalVars conL varIndex ;;
         ret (rows ++ [row], basicVars ++ [v],
              match t with Le => arts | _ => arts ++ [v] end, S v))
      ([], [], [], numVars) ;;
  ret (rows, basicVars, arts).

(** The objective row; [coef] is what is stored for a coefficient [c]
    ([-c] in the engine, [-c] or [c] in Branch-and-Bound). *)
Definition buildZRow (numVars totalVars : nat) (coef : Q -> Q) (objCoeffs : loc)
    (rows : list loc) (basicVars arts : list nat) : M loc :=
  zRow <- alloc (NumArray (repeat 0%Q (totalVars + 1))) ;;
  doUpto numVars (fun j => c <- readNum objCoeffs j ;; writeNum zRow j (coef c)) ;;;
  forEach arts (fun _ artIdx => writeNum zRow artIdx Simplex.M) tt ;;;
  doUpto (length basicVars)
    (fun i =>
       if includes arts (nth i basicVars 0) then
         doUpto (totalVars + 1)
           (fun j =>
              x <- readNum zRow j ;;
              y <- readCell rows i j ;;
              writeNum zRow j (nsub x (nmul Simplex.M y)))
       else ret tt) ;;;
  ret zRow.

(** *** methods/simplex/script.js *)

Section Engine.

Variable numVars : nat.

(** What [buildTableau] returns, with locations for the arrays of numbers. *)
Record state := mkState {
  rows : list loc;
  zRow : loc;
  varNames : list Simplex.varName;
  basicVars : list nat;
  artificialVarIndices : list nat;
  methodsUsed : list Simplex.method;
  wasMinimization : bool;
  totalVars : nat
}.

(** [data] holds the locations of [objCoeffs] and of [constraints]. *)
Definition buildTableau (objType : Simplex.sense) (objCoeffs constraints : loc)
  : M state :=
  let wasMin := match objType with Simplex.Min => true | Simplex.Max => false end in
  objC <- (if wasMin
           then a <- numbers objCoeffs ;; alloc (NumArray (map nneg a))
           else ret objCoeffs) ;;
  conLs <- readRefs constraints ;;
  cons <- loadCons conLs ;;
  let methods0 := if wasMin then [Simplex.Converted] else [] in
  let '(slackCount, surplusCount, artificialCount) := Simplex.countKinds cons in
  let methods1 :=
    if 0 <? artificialCount then methods0 ++ [Simplex.BigM] else methods0 in
  let totalVars := numVars + slackCount + surplusCount + artificialCount in
  let '(names, arts) := Simplex.nameVars numVars cons in
  ' (rows, basicVars, _) <- buildRows numVars totalVars conLs ;;
  zRow <- buildZRow numVars totalVars nneg objC rows basicVars arts ;;
  ret (mkState rows zRow names basicVars arts methods1 wasMin totalVars).

(** The variables of the [while] loop that are not arrays of numbers. *)
Record loopVars := mkVars {
  v_basicVars : list nat;
  v_useDualSimplex : bool;
  v_steps : list Simplex.step;
  v_iteration : nat
}.

Inductive passEnd := Continue (v : loopVars) | Break (v : loopVars).

Definition push (v : loopVars) (ty : Simplex.stepType) (why : Simplex.stepReason)
  : loopVars :=
  mkVars (v_basicVars v) (v_useDualSimplex v)
         (v_steps v ++ [Simplex.mkStep ty why]) (v_iteration v).

Definition doPivot (rows : list loc) (zRow : loc) (v : loopVars)
    (pivotRow pivotCol totalVars : nat) : M loopVars :=
  b <- pivot rows zRow pivotRow pivotCol (v_basicVars v) totalVars ;;
  ret (mkVars b (v_useDualSimplex v) (v_steps v) (v_iteration v)).

Definition loopBody (arts : list nat) (totalVars : nat) (rows : list loc) (zRow : loc)
    (v0 : loopVars) : M passEnd :=
  let v := mkVars (v_basicVars v0) (v_useDualSimplex v0) (v_steps v0)
                  (S (v_iteration v0)) in
  t <- snapshot rows ;;
  z <- numbers zRow ;;
  if v_useDualSimplex v && Simplex.hasNegativeRHS t then
    match Simplex.findDualPivotRow t totalVars with
    | None =>
        ret (Continue (mkVars (v_basicVars v) false (v_steps v) (v_iteration v)))
    | Some pivotRow =>
        match Simplex.findDualPivotCol t z pivotRow totalVars with
        | None => ret (Break (push v Simplex.StepInfeasible Simplex.DualNoPivotColumn))
        | Some pivotCol =>
            v' <- doPivot rows zRow (push v Simplex.StepPivot Simplex.DualIteration)
                          pivotRow pivotCol totalVars ;;
            ret (Continue v')
        end
    end
  else if Simplex.isOptimal z totalVars then
    if Simplex.hasArtificialInBasis t (v_basicVars v) arts totalVars
    then ret (Break (push v Simplex.StepInfeasible Simplex.ArtificialInBasis))
    else ret (Break (push v Simplex.StepOptimal Simplex.AllNonNegative))
  else
    match Simplex.findPivotColumn z totalVars with
    | None => ret (Break (push v Simplex.StepOptimal Simplex.NoNegativeCoefficient))
    | Some pivotCol =>
        match fst (Simplex.findPivotRow t pivotCol totalVars) with
        | None => ret (Break (push v Simplex.StepUnbounded Simplex.NoPositiveInColumn))
        | Some pivotRow =>
            v' <- doPivot rows zRow (push v Simplex.StepPivot Simplex.PrimalIteration)
                          pivotRow pivotCol totalVars ;;
            ret (Continue v')
        end
    end.

Fixpoint loop (fuel : nat) (arts : list nat) (totalVars : nat) (rows : list loc)
    (zRow : loc) (v : loopVars) : M (loopVars * bool) :=
  match fuel with
  | O => ret (v, false)
  | S fuel' =>
      e <- loopBody arts totalVars rows zRow v ;;
      match e with
      | Break v' => ret (v', true)
      | Continue v' => loop fuel' arts totalVars rows zRow v'
      end
  end.

(** [extractSolution]: the object [solution] is a new array of its values. *)
Definition extractSolution (rows : list loc) (basicVars : list nat)
    (varNames : list Simplex.varName) (totalVars : nat) : M loc :=
  solution <- alloc (NumArray (repeat 0%Q numVars)) ;;
  doUpto (length basicVars)
    (fun i =>
       match nth_error varNames (nth i basicVars 0) with
       | Some (Simplex.VarX k) =>
           x <- readCell rows i totalVars ;;
           writeNum solution (k - 1) (round4 x)
       | _ => ret tt
       end) ;;;
  ret solution.

(** [solve]; the record it returns holds the contents of the arrays as
    they are when [displayResults] reads them. *)
Definition solve (objType : Simplex.sense) (objCoeffs constraints : loc)
  : M Simplex.solved :=
  st <- buildTableau objType objCoeffs constraints ;;
  t0 <- snapshot (rows st) ;;
  let useDualSimplex := Simplex.hasNegativeRHS t0 in
  let methods1 :=
    methodsUsed st ++
      [if useDualSimplex then Simplex.DualSimplex else Simplex.PrimalSimplex] in
  ' (v, broke) <-
    loop Simplex.maxIterations (artificialVarIndices st) (totalVars st)
         (rows st) (zRow st)
         (mkVars (basicVars st) useDualSimplex
                 [Simplex.mkStep Simplex.StepInitial Simplex.InitialTableau] 0) ;;
  solution <- extractSolution (rows st) (v_basicVars v) (varNames st) (totalVars st) ;;
  sol <- numbers solution ;;
  zValue <- readNum (zRow st) (totalVars st) ;;
  let finalZ := if wasMinimization st then nneg zValue else zValue in
  t <- snapshot (rows st) ;;
  z <- numbers (zRow st) ;;
  ret (Simplex.mkSolved (v_steps v) methods1 sol finalZ t z (v_basicVars v)
         (varNames st) (totalVars st) (artificialVarIndices st) (v_iteration v) broke
         (Simplex.displayFinal (v_steps v) sol finalZ)
         (match option_map Simplex.step_type (last_opt (v_steps v)) with
          | Some Simplex.StepOptimal => true
          | _ => false
          end)).

End Engine.

(** *** methods/branch-and-bound/script.js *)

Section Search.

Variable numVars : nat.
Variable isMaximization : bool.
Variable intChecked : nat -> bool.

Inductive loopEnd := ReturnUnbounded | Fallthrough (basicVars : list nat).

Fixpoint lpLoop (fuel : nat) (totalVars : nat) (rows : list loc) (zRow : loc)
    (basicVars : list nat) : M loopEnd :=
  match fuel with
  | O => ret (Fallthrough basicVars)
  | S fuel' =>
      t <- snapshot rows ;;
      z <- numbers zRow ;;
      match BB.selectPivotCol z totalVars with
      | None => ret (Fallthrough basicVars)
      | Some pivotCol =>
          match BB.selectPivotRow t pivotCol totalVars with
          | None => ret ReturnUnbounded
          | Some pivotRow =>
              b <- pivot rows zRow pivotRow pivotCol basicVars totalVars ;;
              lpLoop fuel' totalVars rows zRow b
          end
      end
  end.

(** [solveLP]; [constraints] and [extraConstraints] are the locations of
    two arrays of constraint records. *)
Definition solveLP (objCoeffs constraints extraConstraints : loc) : M BB.lpResult :=
  cs <- readRefs constraints ;;
  es <- readRefs extraConstraints ;;
  allConstraints <- alloc (RefArray (cs ++ es)) ;;
  conLs <- readRefs allConstraints ;;
  cons <- loadCons conLs ;;
  let '(slackCount, surplusCount, artificialCount) := BB.countKinds cons in
  let totalVars := numVars + slackCount + surplusCount + artificialCount in
  ' (rows, basicVars, arts) <- buildRows numVars totalVars conLs ;;
  zRow <- buildZRow numVars totalVars
            (fun c => if isMaximization then nneg c else c)
            objCoeffs rows basicVars arts ;;
  e <- lpLoop BB.maxIterations totalVars rows zRow basicVars ;;
  match e with
  | ReturnUnbounded => ret BB.LPUnbounded
  | Fallthrough b =>
      t <- snapshot rows ;;
      if BB.artificialRemains t b arts totalVars then ret BB.LPInfeasible
      else
        solution <- alloc (NumArray (repeat 0%Q numVars)) ;;
        doUpto (length b)
          (fun i =>
             if nth i b 0 <? numVars
             then x <- readCell rows i totalVars ;; writeNum solution (nth i b 0) x
             else ret tt) ;;;
        sol <- numbers solution ;;
        zValue <- readNum zRow totalVars ;;
        ret (BB.LPFeasible sol (if isMaximization then zValue else nneg zValue))
  end.

(** A queue entry and a recorded node; [extraConstraints] is the location
    of the node's array of constraint records. *)
Record node := mkNode {
  id : nat;
  extraConstraints : loc;
  depth : nat;
  parent : option nat;
  branchInfo : option BB.branch
}.

Record nodeInfo := mkInfo {
  i_id : nat;
  i_depth : nat;
  i_parent : option nat;
  i_branchInfo : option BB.branch;
  i_extraConstraints : loc;
  i_status : BB.status;
  i_message : option BB.message;
  i_solution : option (list Q);
  i_zValue : option Q;
  i_fractionalVar : option (nat * Q)
}.

Record search := mkSearch {
  queue : list node;
  nodes : list nodeInfo;
  bestSolution : option (list Q);
  bestZ : BB.ext;
  nodeId : nat
}.

(** A branching constraint: a new coefficient array of zeros with a one
    written at [index], in a new record. *)
Definition newConstraint (index : nat) (t : rel) (bound : Z) : M loc :=
  coeffs <- alloc (NumArray (repeat 0%Q numVars)) ;;
  con <- alloc (ConRecord coeffs t (inject_Z bound)) ;;
  writeNum coeffs index 1%Q ;;;
  ret con.

(** [[...node.extraConstraints, c]]. *)
Definition extend (extra : loc) (c : loc) : M loc :=
  es <- readRefs extra ;; alloc (RefArray (es ++ [c])).

Definition visit (objCoeffs constraints : loc) (s : search) : M (option search) :=
  match queue s with
  | [] => ret None
  | nd :: rest =>
      result <- solveLP objCoeffs constraints (extraConstraints nd) ;;
      let info st msg sol z fr :=
        mkInfo (id nd) (depth nd) (parent nd) (branchInfo nd) (extraConstraints nd)
               st msg sol z fr in
      match result with
      | BB.LPInfeasible =>
          ret (Some (mkSearch rest
                  (nodes s ++ [info BB.Infeasible (Some BB.MsgInfeasible) None None None])
                  (bestSolution s) (bestZ s) (nodeId s)))
      | BB.LPUnbounded =>
          ret (Some (mkSearch rest
                  (nodes s ++ [info BB.Infeasible (Some BB.MsgUnbounded) None None None])
                  (bestSolution s) (bestZ s) (nodeId s)))
      | BB.LPFeasible sol zValue =>
          let shownSol := map round4 sol in
          let shownZ := round4 zValue in
          if BB.notNull (bestSolution s) && BB.dominated isMaximization zValue (bestZ s)
          then
            ret (Some (mkSearch rest
                    (nodes s ++ [info BB.Pruned (Some (BB.MsgPruned shownZ (bestZ s)))
                                      (Some shownSol) (Some shownZ) None])
                    (bestSolution s) (bestZ s) (nodeId s)))
          else
            match BB.getFractionalVar numVars intChecked sol with
            | None =>
                let better :=
                  if isMaximization then BB.gt_ext zValue (bestZ s)
                  else BB.lt_ext zValue (bestZ s) in
                ret (Some (mkSearch rest
                        (nodes s ++ [info BB.Integer (Some BB.MsgInteger)
                                          (Some shownSol) (Some shownZ) None])
                        (if better then Some shownSol else bestSolution s)
                        (if better then BB.Fin shownZ else bestZ s)
                        (nodeId s)))
            | Some (index, value) =>
                let floorVal := Math_floor value in
                let ceilVal := Math_ceil value in
                leftConstraint <- newConstraint index Le floorVal ;;
                rightConstraint <- newConstraint index Ge ceilVal ;;
                leftExtra <- extend (extraConstraints nd) leftConstraint ;;
                rightExtra <- extend (extraConstraints nd) rightConstraint ;;
                let left :=
                  mkNode (nodeId s) leftExtra (depth nd + 1) (Some (id nd))
                         (Some (BB.mkBranch (index + 1) Le floorVal)) in
                let right :=
                  mkNode (S (nodeId s)) rightExtra (depth nd + 1) (Some (id nd))
                         (Some (BB.mkBranch (index + 1) Ge ceilVal)) in
                ret (Some (mkSearch ((rest ++ [left]) ++ [right])
                        (nodes s ++ [info BB.Branched None (Some shownSol) (Some shownZ)
                                          (Some (index, value))])
                        (bestSolution s) (bestZ s) (S (S (nodeId s)))))
            end
      end
  end.

Fixpoint explore (fuel : nat) (objCoeffs constraints : loc) (s : search)
  : M (option search) :=
  r <- visit objCoeffs constraints s ;;
  match r with
  | None => ret (Some s)
  | Some s' =>
      match fuel with
      | O => ret None
      | S fuel' => explore fuel' objCoeffs constraints s'
      end
  end.

(** [branchAndBound]; the root node's [extraConstraints] is a new empty
    array. *)
Definition branchAndBound (fuel : nat) (objCoeffs constraints : loc)
  : M (option search) :=
  root <- alloc (RefArray []) ;;
  explore fuel objCoeffs constraints
    (mkSearch [mkNode 0 root 0 None None] [] None
              (if isMaximization then BB.NegInf else BB.PosInf) 1).

End Search.

End Store.

Definition scenarioA : Simplex.data :=
  Simplex.mkData Simplex.Max [3; 2]%Q
    [ mkCon [1; 1]%Q Le 4%Q; mkCon [1; 0]%Q Le 3%Q ].

Definition scenarioD_cons : list constraint :=
  [ mkCon [6; 4]%Q Le 24%Q; mkCon [1; 2]%Q Le 6%Q ].


(* ------------------------------------------------------------------ *)
(** * Properties *)

(** ** Arrays and loops *)

Lemma for_upto_S {S : Type} (n : nat) (body : S -> nat -> S) (s : S) :
  for_upto (Datatypes.S n) body s = body (for_upto n body s) n.
Proof.
  unfold for_upto. rewrite seq_S, fold_left_app. reflexivity.
Qed.

Lemma for_upto_0 {S : Type} (body : S -> nat -> S) (s : S) :
  for_upto 0 body s = s.
Proof. reflexivity. Qed.

Lemma length_upd {A : Type} (i : nat) (v : A) (a : list A) :
  length (upd i v a) = length a.
Proof.
  revert i; induction a as [|h t IH]; intros [|i]; simpl; auto.
Qed.

Lemma nth_upd_eq {A : Type} (i : nat) (v d : A) (a : list A) :
  i < length a -> nth i (upd i v a) d = v.
Proof.
  revert i; induction a as [|h t IH]; intros [|i] H; simpl in *; try lia; auto.
  apply IH; lia.
Qed.

Lemma nth_upd_neq {A : Type} (i j : nat) (v d : A) (a : list A) :
  i <> j -> nth j (upd i v a) d = nth j a d.
Proof.
  revert i j; induction a as [|h t IH]; intros [|i] [|j] H; simpl; auto; try lia.
Qed.

Lemma upd_out {A : Type} (i : nat) (v : A) (a : list A) :
  length a <= i -> upd i v a = a.
Proof.
  revert i; induction a as [|h t IH]; intros [|i] H; simpl in *; auto; try lia.
  f_equal; apply IH; lia.
Qed.

Lemma nth_upd {A : Type} (i j : nat) (v d : A) (a : list A) :
  nth j (upd i v a) d = if (i =? j) && (i <? length a) then v else nth j a d.
Proof.
  destruct (Nat.eqb_spec i j) as [->|Hne]; simpl.
  - destruct (Nat.ltb_spec j (length a)).
    + now apply nth_upd_eq.
    + now rewrite upd_out.
  - now apply nth_upd_neq.
Qed.

Lemma get_upd (i j : nat) (v : Q) (a : list Q) :
  get (upd i v a) j = if (i =? j) && (i <? length a) then v else get a j.
Proof. apply nth_upd. Qed.

Lemma last_opt_app {A : Type} (a : list A) (x : A) :
  last_opt (a ++ [x]) = Some x.
Proof. unfold last_opt. rewrite rev_app_distr. reflexivity. Qed.

Lemma includes_In (a : list nat) (x : nat) :
  includes a x = true <-> In x a.
Proof.
  unfold includes. rewrite existsb_exists. split.
  - intros [y [Hy E]]. apply Nat.eqb_eq in E. now subst.
  - intros H. exists x. split; auto. apply Nat.eqb_refl.
Qed.

(** ** Numbers *)

Lemma nadd_eq a b : (nadd a b == a + b)%Q.
Proof. apply Qred_correct. Qed.
Lemma nsub_eq a b : (nsub a b == a - b)%Q.
Proof. apply Qred_correct. Qed.
Lemma nmul_eq a b : (nmul a b == a * b)%Q.
Proof. apply Qred_correct. Qed.
Lemma ndiv_eq a b : (ndiv a b == a / b)%Q.
Proof. apply Qred_correct. Qed.

Lemma nlt_iff a b : nlt a b = true <-> (a < b)%Q.
Proof.
  unfold nlt. rewrite negb_true_iff. split.
  - intros H. apply Qnot_le_lt. intros L. apply Qle_bool_iff in L. congruence.
  - intros H. destruct (Qle_bool b a) eqn:E; auto.
    apply Qle_bool_iff in E. exfalso. now apply (Qlt_not_le a b).
Qed.

Lemma nle_iff a b : nle a b = true <-> (a <= b)%Q.
Proof. apply Qle_bool_iff. Qed.

Lemma ngt_iff a b : ngt a b = true <-> (b < a)%Q.
Proof. apply nlt_iff. Qed.

Lemma nge_iff a b : nge a b = true <-> (b <= a)%Q.
Proof. apply nle_iff. Qed.

Lemma nlt_false_iff a b : nlt a b = false <-> (b <= a)%Q.
Proof.
  unfold nlt. rewrite negb_false_iff. apply Qle_bool_iff.
Qed.

Lemma nneg_involutive (a : Q) : nneg (nneg a) = a.
Proof. destruct a as [n d]. unfold nneg, Qopp. simpl. now rewrite Z.opp_involutive. Qed.

(** ** Cell-wise description of the loops that rewrite a row *)

Lemma length_setCell t i j v : length (setCell t i j v) = length t.
Proof. apply length_upd. Qed.

Lemma row_length_setCell t i j v i' :
  length (nth i' (setCell t i j v) []) = length (nth i' t []).
Proof.
  unfold setCell. rewrite nth_upd.
  destruct (Nat.eqb_spec i i') as [->|]; simpl; auto.
  destruct (i' <? length t); auto. apply length_upd.
Qed.

Lemma cell_setCell t i j v i' j' :
  cell (setCell t i j v) i' j' =
  if (i =? i') && (j =? j') && (i <? length t) && (j <? length (nth i t []))
  then v else cell t i' j'.
Proof.
  unfold cell, setCell. rewrite nth_upd.
  destruct (Nat.eqb_spec i i') as [->|]; simpl; auto.
  destruct (i' <? length t); simpl.
  - rewrite get_upd. destruct (j =? j'); reflexivity.
  - now rewrite andb_false_r.
Qed.

(** A loop [for j < n: t[i][j] = g(t, j)] whose right-hand side only looks
    at cells the loop has not yet overwritten computes, cell by cell, the
    values [G j] read off the initial array. *)
Lemma rowLoop_spec (i : nat) (g : list (list Q) -> nat -> Q) (G : nat -> Q)
    (t : list (list Q)) (n : nat) :
  (forall t' j, j < n ->
     (forall i' j', i' <> i \/ j <= j' -> cell t' i' j' = cell t i' j') ->
     g t' j = G j) ->
  let t'' := for_upto n (fun t j => setCell t i j (g t j)) t in
  length t'' = length t /\
  (forall i', length (nth i' t'' []) = length (nth i' t [])) /\
  (forall i' j', cell t'' i' j' =
     if (i' =? i) && (j' <? n) && (i <? length t) && (j' <? length (nth i t []))
     then G j' else cell t i' j').
Proof.
  induction n as [|n IH]; intros Hg; cbv zeta.
  - rewrite for_upto_0. repeat split; auto.
    intros i' j'. now rewrite andb_false_r.
  - rewrite for_upto_S.
    destruct IH as (L & R & C).
    { intros t' j Hj Hc. apply Hg; auto. }
    cbv zeta in L, R, C.
    set (tn := for_upto n (fun t j => setCell t i j (g t j)) t) in *.
    assert (Gn : g tn n = G n).
    { apply Hg; auto. intros i' j' Hij. rewrite C.
      destruct (Nat.eqb_spec i' i); simpl; auto.
      destruct (Nat.ltb_spec j' n); simpl; auto. lia. }
    rewrite Gn. repeat split.
    + now rewrite length_setCell.
    + intros i'. now rewrite row_length_setCell.
    + intros i' j'. rewrite cell_setCell, C, L, R.
      destruct (Nat.eqb_spec i i'), (Nat.eqb_spec i' i); subst; simpl; try congruence.
      destruct (Nat.eqb_spec n j'); subst; simpl.
      * rewrite Nat.ltb_irrefl. simpl.
        replace (j' <? S j') with true by (symmetry; apply Nat.ltb_lt; lia).
        reflexivity.
      * destruct (Nat.ltb_spec j' n), (Nat.ltb_spec j' (S n)); simpl; auto; lia.
Qed.

(** The same for a one-dimensional array. *)
Lemma vecLoop_spec (h : list Q -> nat -> Q) (H : nat -> Q) (z : list Q) (n : nat) :
  (forall z' j, j < n -> (forall j', j <= j' -> get z' j' = get z j') -> h z' j = H j) ->
  let z'' := for_upto n (fun z j => upd j (h z j) z) z in
  length z'' = length z /\
  (forall j', get z'' j' = if (j' <? n) && (j' <? length z) then H j' else get z j').
Proof.
  induction n as [|n IH]; intros Hh; cbv zeta.
  - rewrite for_upto_0. split; auto.
  - rewrite for_upto_S.
    destruct IH as (L & C).
    { intros z' j Hj Hc. apply Hh; auto. }
    cbv zeta in L, C.
    set (zn := for_upto n (fun z j => upd j (h z j) z) z) in *.
    assert (Hn : h zn n = H n).
    { apply Hh; auto. intros j' Hj. rewrite C.
      destruct (Nat.ltb_spec j' n); simpl; auto. lia. }
    rewrite Hn. split.
    + now rewrite length_upd.
    + intros j'. rewrite get_upd, C, L.
      destruct (Nat.eqb_spec n j'); subst; simpl.
      * rewrite Nat.ltb_irrefl. simpl.
        replace (j' <? S j') with true by (symmetry; apply Nat.ltb_lt; lia).
        reflexivity.
      * destruct (Nat.ltb_spec j' n), (Nat.ltb_spec j' (S n)); simpl; auto; lia.
Qed.

(** The elimination loop of [pivot]: every row but the pivot row has the
    pivot row subtracted [factor] times, where [factor] is the row's entry
    in the pivot column before the row is touched. *)
Lemma eliminate_spec (r c w : nat) (t : list (list Q)) (m : nat) :
  let t'' :=
    for_upto m
      (fun t i =>
         if i =? r then t
         else
           let factor := cell t i c in
           for_upto w
             (fun t j => setCell t i j (nsub (cell t i j) (nmul factor (cell t r j))))
             t)
      t in
  length t'' = length t /\
  (forall i', length (nth i' t'' []) = length (nth i' t [])) /\
  (forall i j, cell t'' i j =
     if (i <? m) && negb (i =? r) && (i <? length t) && (j <? w)
        && (j <? length (nth i t []))
     then nsub (cell t i j) (nmul (cell t i c) (cell t r j))
     else cell t i j).
Proof.
  induction m as [|m IH]; cbv zeta.
  - rewrite for_upto_0. repeat split; auto.
  - rewrite for_upto_S. cbv zeta in IH. destruct IH as (L & R & C).
    match goal with |- context [for_upto m ?f t] => set (tm := for_upto m f t) in * end.
    destruct (Nat.eqb_spec m r) as [->|Hmr].
    + repeat split; auto. intros i j. rewrite C.
      destruct (Nat.eqb_spec i r); subst; simpl.
      * now rewrite !andb_false_r.
      * destruct (Nat.ltb_spec i r), (Nat.ltb_spec i (S r)); simpl; auto; lia.
    + pose proof (@rowLoop_spec m
        (fun t j => nsub (cell t m j) (nmul (cell tm m c) (cell t r j)))
        (fun j => nsub (cell tm m j) (nmul (cell tm m c) (cell tm r j)))
        tm w) as RL.
      destruct RL as (L' & R' & C').
      { intros t' j _ Hc. rewrite !Hc; auto. }
      cbv zeta in L', R', C'.
      repeat split.
      * now rewrite L'.
      * intros i'. now rewrite R'.
      * intros i j. rewrite C', L, R.
        rewrite !C.
        replace (m <? m) with false by (symmetry; apply Nat.ltb_irrefl).
        replace (r =? r) with true by (symmetry; apply Nat.eqb_refl).
        rewrite !andb_false_r. simpl. 
        destruct (Nat.eqb_spec i m); subst; simpl.
        -- rewrite Nat.ltb_irrefl. simpl.
           replace (m <? S m) with true by (symmetry; apply Nat.ltb_lt; lia).
           destruct (Nat.eqb_spec m r); try congruence. simpl.
           destruct (j <? w), (m <? length t), (j <? length (nth m t [])); reflexivity.
        -- destruct (Nat.ltb_spec i m), (Nat.ltb_spec i (S m)); simpl; auto; lia.
Qed.

(** ** The pivot, cell by cell *)

(** Every row has [totalVars + 1] entries. *)
Definition rowsWide (t : list (list Q)) (totalVars : nat) : Prop :=
  forall i, i < length t -> length (nth i t []) = totalVars + 1.

Lemma get_out (a : list Q) (j : nat) : length a <= j -> get a j = 0%Q.
Proof. intros H. unfold get. now apply nth_overflow. Qed.

Lemma cell_out_row (t : list (list Q)) (i j : nat) :
  length t <= i -> cell t i j = 0%Q.
Proof.
  intros H. unfold cell. rewrite (nth_overflow t [] H). now destruct j.
Qed.

Lemma pivot_spec (t : list (list Q)) (z : list Q) (r c : nat) (bv : list nat)
    (tv : nat) :
  rowsWide t tv -> r < length t ->
  let p := cell t r c in
  let '(t', z', bv') := Simplex.pivot t z r c bv tv in
  length t' = length t /\ rowsWide t' tv /\ bv' = upd r c bv /\
  (forall j, j <= tv -> cell t' r j = ndiv (cell t r j) p) /\
  (forall i j, i <> r -> i < length t -> j <= tv ->
     cell t' i j = nsub (cell t i j) (nmul (cell t i c) (ndiv (cell t r j) p))) /\
  length z' = length z /\
  (forall j, j <= tv -> j < length z ->
     get z' j = nsub (get z j) (nmul (get z c) (ndiv (cell t r j) p))) /\
  (forall j, tv < j -> get z' j = get z j).
Proof.
  intros W Hr p. unfold Simplex.pivot. fold p.
  destruct (@rowLoop_spec r (fun t j => ndiv (cell t r j) p)
              (fun j => ndiv (cell t r j) p) t (tv + 1)) as (L1 & R1 & C1).
  { intros t' j _ Hc. rewrite Hc; auto. }
  cbv zeta in L1, R1, C1.
  set (t1 := for_upto (tv + 1) _ t) in *.
  destruct (@eliminate_spec r c (tv + 1) t1 (length t1)) as (L2 & R2 & C2).
  cbv zeta in L2, R2, C2.
  set (t2 := for_upto (length t1) _ t1) in *.
  assert (Cr : forall j, j <= tv -> cell t2 r j = ndiv (cell t r j) p).
  { intros j Hj. rewrite C2, Nat.eqb_refl, andb_false_r. simpl.
    rewrite C1, Nat.eqb_refl. simpl.
    rewrite (W r Hr).
    replace (j <? tv + 1) with true by (symmetry; apply Nat.ltb_lt; lia).
    replace (r <? length t) with true by (symmetry; apply Nat.ltb_lt; lia).
    reflexivity. }
  destruct (@vecLoop_spec
              (fun z' j => nsub (get z' j) (nmul (get z c) (cell t2 r j)))
              (fun j => nsub (get z j) (nmul (get z c) (cell t2 r j)))
              z (tv + 1)) as (LZ & CZ).
  { intros z' j _ Hc. rewrite Hc; auto. }
  cbv zeta in LZ, CZ.
  repeat split.
  - now rewrite L2, L1.
  - intros i Hi. rewrite R2, R1. apply W. now rewrite L2, L1 in Hi.
  - exact Cr.
  - intros i j Hne Hi Hj. rewrite C2, L1, R1, (W i Hi).
    replace (i <? length t) with true by (symmetry; apply Nat.ltb_lt; lia).
    replace (j <? tv + 1) with true by (symmetry; apply Nat.ltb_lt; lia).
    destruct (Nat.eqb_spec i r); try congruence. simpl.
    rewrite !C1.
    destruct (Nat.eqb_spec i r); try congruence. simpl.
    rewrite Nat.eqb_refl, (W r Hr). simpl.
    replace (j <? tv + 1) with true by (symmetry; apply Nat.ltb_lt; lia).
    replace (r <? length t) with true by (symmetry; apply Nat.ltb_lt; lia).
    reflexivity.
  - exact LZ.
  - intros j Hj Hjz. rewrite CZ.
    replace (j <? tv + 1) with true by (symmetry; apply Nat.ltb_lt; lia).
    replace (j <? length z) with true by (symmetry; apply Nat.ltb_lt; lia).
    simpl. now rewrite Cr.
  - intros j Hj. rewrite CZ.
    replace (j <? tv + 1) with false by (symmetry; apply Nat.ltb_ge; lia).
    reflexivity.
Qed.

(** ** The basis invariant *)

(** The columns listed in [basicVars] form an identity submatrix: row [i]
    holds 1 in the column that is basic in row [i] and 0 in the column that
    is basic in any other row. *)
Definition identityColumns (t : list (list Q)) (basicVars : list nat) : Prop :=
  length basicVars = length t /\
  forall i k, i < length t -> k < length t ->
    (cell t i (nth k basicVars 0%nat) == (if (i =? k)%nat then 1 else 0))%Q.

Lemma cell_nonzero_inside (t : list (list Q)) (tv i j : nat) :
  rowsWide t tv -> ~ (cell t i j == 0)%Q -> i < length t /\ j <= tv.
Proof.
  intros W H.
  destruct (Nat.ltb_spec i (length t)) as [Hi|Hi].
  - split; auto.
    destruct (Nat.leb_spec j tv); auto.
    exfalso. apply H. unfold cell. rewrite get_out. reflexivity.
    rewrite (W i Hi). lia.
  - exfalso. apply H. now rewrite cell_out_row.
Qed.

(** C7.  The pivot preserves the basis invariant: for every tableau whose
    rows have [totalVars + 1] entries, every objective row and every
    basic-variable vector whose listed columns form an identity submatrix,
    if the pivot element is non-zero then after [pivot] (pivot row divided by
    the pivot element, pivot column eliminated from the other rows and from
    the objective row, [basicVars[pivotRow] = pivotCol]) the columns listed
    in the updated vector again form an identity submatrix. *)
Theorem pivot_preserves_identity
    (t : list (list Q)) (z : list Q) (bv : list nat) (r c tv : nat) :
  rowsWide t tv ->
  identityColumns t bv ->
  ~ (cell t r c == 0)%Q ->
  identityColumns (fst (fst (Simplex.pivot t z r c bv tv)))
                  (snd (Simplex.pivot t z r c bv tv)).
Proof.
  intros W [Lbv I] Hp.
  destruct (cell_nonzero_inside r c W Hp) as [Hr Hc].
  pose proof (@pivot_spec t z r c bv tv W Hr) as S. cbv zeta in S.
  destruct (Simplex.pivot t z r c bv tv) as [[t' z'] bv'].
  destruct S as (L & W' & -> & Cr & Co & _).
  simpl. split.
  - now rewrite length_upd, L.
  - intros i k Hi Hk. rewrite L in Hi, Hk.
    rewrite nth_upd.
    assert (Hcol : nth k bv 0 <= tv).
    { apply (@cell_nonzero_inside t tv k (nth k bv 0) W).
      rewrite (I k k Hk Hk), Nat.eqb_refl. discriminate. }
    replace (r <? length bv) with true by (symmetry; apply Nat.ltb_lt; lia).
    rewrite andb_true_r.
    destruct (Nat.eqb_spec r k) as [<-|Hrk].
    + destruct (Nat.eqb_spec i r) as [->|Hir].
      * rewrite (Cr c Hc), ndiv_eq. now field.
      * rewrite (Co i c Hir Hi Hc), nsub_eq, nmul_eq, ndiv_eq. now field.
    + assert (Z0 : (cell t r (nth k bv 0%nat) == 0)%Q).
      { rewrite (I r k Hr Hk). destruct (Nat.eqb_spec r k); congruence || reflexivity. }
      destruct (Nat.eqb_spec i r) as [->|Hir].
      * rewrite (Cr _ Hcol), ndiv_eq, Z0.
        destruct (Nat.eqb_spec r k); try congruence. now field.
      * rewrite (Co i _ Hir Hi Hcol), nsub_eq, nmul_eq, ndiv_eq, Z0.
        rewrite <- (I i k Hi Hk). now field.
Qed.

(** The invariant and the theorem at the first pivot of scenario A. *)
Lemma pivot_preserves_identity_witness :
  let t := [[1; 1; 1; 0; 4]; [1; 0; 0; 1; 3]]%Q in
  rowsWide t 4 /\ identityColumns t [2; 3] /\ ~ (cell t 1 0 == 0)%Q /\
  identityColumns (fst (fst (Simplex.pivot t [-3; -2; 0; 0; 0]%Q 1 0 [2; 3] 4)))
                  (snd (Simplex.pivot t [-3; -2; 0; 0; 0]%Q 1 0 [2; 3] 4)).
Proof.
  intros t.
  assert (W : rowsWide t 4).
  { intros i Hi. destruct i as [|[|i]]; simpl in *; try reflexivity; lia. }
  assert (I : identityColumns t [2; 3]).
  { split; [reflexivity|].
    intros i k Hi Hk.
    destruct i as [|[|i]], k as [|[|k]]; simpl in *; try lia; reflexivity. }
  assert (P : ~ (cell t 1 0 == 0)%Q) by (vm_compute; discriminate).
  split; [exact W | split; [exact I | split; [exact P |]]].
  exact (@pivot_preserves_identity t _ _ 1 0 4 W I P).
Defined.

(** ** Scenario A *)

(** C1.  Maximize [3 x1 + 2 x2] subject to [x1 + x2 <= 4] and [x1 <= 3]: the
    solve ends on an "optimal" step and reports [x1 = 3], [x2 = 1] and
    [Z = 11]. *)
Theorem scenarioA_optimal :
  let r := Simplex.solve 2 scenarioA in
  Simplex.final r = Simplex.OptimalSolution [3; 1]%Q (Simplex.ShownNum 11%Q) /\
  Simplex.solution r = [3; 1]%Q /\
  Simplex.finalZ r = 11%Q /\
  option_map Simplex.step_type (last_opt (Simplex.steps r)) = Some Simplex.StepOptimal.
Proof. vm_compute. repeat split. Qed.

(** ** Solution extraction *)

Lemma fold_left_inv {A B : Type} (f : A -> B -> A) (P : A -> Prop) (l : list B) (a : A) :
  P a -> (forall a b, P a -> In b l -> P (f a b)) -> P (fold_left f l a).
Proof.
  revert a; induction l as [|b l IH]; intros a Ha Hf; simpl; auto.
  apply IH.
  - apply Hf; simpl; auto.
  - intros a' b' Ha' Hb'. apply Hf; simpl; auto.
Qed.

Definition isX (v : Simplex.varName) : bool :=
  match v with Simplex.VarX _ => true | _ => false end.

(** The names built by [buildTableau]: [x1 .. xn] first, and no other name
    starts with [x]. *)
Lemma nameVars_spec (numVars : nat) (cons : list constraint) :
  exists extra,
    fst (Simplex.nameVars numVars cons) =
      map (fun j => Simplex.VarX (j + 1)) (seq 0 numVars) ++ extra /\
    forallb (fun v => negb (isX v)) extra = true.
Proof.
  unfold Simplex.nameVars.
  match goal with
  | |- context [fold_left ?f cons ?a] =>
      pose proof (@fold_left_inv _ _ f
        (fun st => exists extra,
           fst (fst (fst (fst st))) =
             map (fun j => Simplex.VarX (j + 1)) (seq 0 numVars) ++ extra /\
           forallb (fun v => negb (isX v)) extra = true)
        cons a) as H
  end.
  match type of H with ?A -> ?B -> _ => assert (HA : A); [|assert (HB : B)] end.
  - exists []. simpl. now rewrite app_nil_r.
  - intros [[[[names s] e] a] arts] con [extra [E F]] _. simpl in E. subst names.
    destruct (type con); simpl.
    + exists (extra ++ [Simplex.VarS s]). rewrite app_assoc. split; auto.
      rewrite forallb_app, F. reflexivity.
    + exists (extra ++ [Simplex.VarE e; Simplex.VarA a]). split.
      * rewrite <- !app_assoc. reflexivity.
      * rewrite forallb_app, F. reflexivity.
    + exists (extra ++ [Simplex.VarA a]). rewrite app_assoc. split; auto.
      rewrite forallb_app, F. reflexivity.
  - specialize (H HA HB).
    destruct (fold_left _ cons _) as [[[[names s] e] a] arts].
    exact H.
Qed.

(** A list of names is well formed for [numVars] decision variables when a
    name starts with [x] exactly at the positions below [numVars], where it
    is [x(j+1)]. *)
Definition namesOK (numVars : nat) (names : list Simplex.varName) : Prop :=
  forall v, match nth_error names v with
            | Some (Simplex.VarX k) => v < numVars /\ k = v + 1
            | _ => numVars <= v
            end.

Lemma namesOK_nameVars (numVars : nat) (cons : list constraint) :
  namesOK numVars (fst (Simplex.nameVars numVars cons)).
Proof.
  destruct (nameVars_spec numVars cons) as [extra [E F]]. rewrite E.
  intros v.
  assert (Ln : length (map (fun j => Simplex.VarX (j + 1)) (seq 0 numVars)) = numVars)
    by now rewrite length_map, length_seq.
  destruct (Nat.ltb_spec v numVars) as [Hv|Hv].
  - rewrite nth_error_app1 by lia.
    rewrite (nth_error_nth' _ (Simplex.VarX (0 + 1))) by lia.
    rewrite (map_nth (fun j => Simplex.VarX (j + 1)) (seq 0 numVars) 0 v).
    rewrite seq_nth by lia. simpl. split; auto.
  - rewrite nth_error_app2 by lia. rewrite Ln.
    destruct (nth_error extra (v - numVars)) as [x|] eqn:N; auto.
    apply nth_error_In in N.
    rewrite forallb_forall in F. specialize (F x N).
    destruct x; simpl in F; auto; discriminate.
Qed.

(** The last row below [n] whose basic variable is [j]. *)
Fixpoint lastRow (bv : list nat) (j n : nat) : option nat :=
  match n with
  | O => None
  | S n' => if nth n' bv 0 =? j then Some n' else lastRow bv j n'
  end.

Lemma lastRow_last (bv : list nat) (j i n : nat) :
  i < n -> nth i bv 0 = j ->
  (forall i', i < i' -> i' < n -> nth i' bv 0 <> j) ->
  lastRow bv j n = Some i.
Proof.
  induction n as [|n IH]; intros Hi Hj Hl; [lia|]. simpl.
  destruct (Nat.eqb_spec (nth n bv 0) j) as [E|E].
  - destruct (Nat.eq_dec i n) as [->|Hne]; auto.
    exfalso. apply (Hl n); auto; lia.
  - assert (Hin : i < n) by (destruct (Nat.eq_dec i n); subst; [congruence | lia]).
    apply IH; [exact Hin | exact Hj |].
    intros i' H1 H2. apply Hl; lia.
Qed.

Lemma lastRow_none (bv : list nat) (j n : nat) :
  n <= length bv -> ~ In j bv -> lastRow bv j n = None.
Proof.
  induction n as [|n IH]; intros Hn Hj; simpl; auto.
  destruct (Nat.eqb_spec (nth n bv 0) j) as [E|E].
  - exfalso. apply Hj. rewrite <- E. apply nth_In. lia.
  - apply IH; auto; lia.
Qed.

Lemma get_repeat_0 (n j : nat) : get (repeat 0%Q n) j = 0%Q.
Proof.
  unfold get. destruct (Nat.ltb_spec j n).
  - now rewrite nth_repeat_lt.
  - rewrite nth_overflow; auto. now rewrite repeat_length.
Qed.

Lemma extractSolution_spec (numVars : nat) (t : list (list Q)) (bv : list nat)
    (names : list Simplex.varName) (tv : nat) :
  namesOK numVars names ->
  let sol := Simplex.extractSolution numVars t bv names tv in
  length sol = numVars /\
  forall j, j < numVars ->
    get sol j = match lastRow bv j (length bv) with
                | Some i => round4 (cell t i tv)
                | None => 0%Q
                end.
Proof.
  intros OK. unfold Simplex.extractSolution.
  generalize (length bv) as n.
  induction n as [|n [L C]].
  - rewrite for_upto_0. split.
    + apply repeat_length.
    + intros j _. apply get_repeat_0.
  - rewrite for_upto_S.
    match goal with |- context [for_upto n ?f ?a] => set (sol := for_upto n f a) in * end.
    specialize (OK (nth n bv 0)).
    destruct (nth_error names (nth n bv 0)) as [[k| | |]|]; simpl.
    2-5: (split; auto; intros j Hj; rewrite (C j Hj); simpl;
          destruct (Nat.eqb_spec (nth n bv 0) j); auto; lia).
    destruct OK as [Hv ->].
    replace (nth n bv 0 + 1 - 1) with (nth n bv 0) by lia.
    split.
    + now rewrite length_upd.
    + intros j Hj. rewrite get_upd, L, (C j Hj).
      replace (nth n bv 0 <? numVars) with true by (symmetry; apply Nat.ltb_lt; lia).
      rewrite andb_true_r. now destruct (nth n bv 0 =? j).
Qed.

(** C6 (amended).  In the result extracted after the loop ends, a decision
    variable that is basic is reported as the right-hand side of its row
    (the last row listing it) rounded to four decimals, a decision variable
    that is not basic is reported as zero, and the objective value is the
    last entry of the objective row, negated when the sense was minimize and
    unchanged when it was maximize. *)
Theorem solution_is_rounded_rhs (numVars : nat) (d : Simplex.data) :
  let r := Simplex.solve numVars d in
  let t := Simplex.lastOptimalTableau r in
  let bv := Simplex.lastOptimalBasicVars r in
  let tv := Simplex.lastTotalVars r in
  length (Simplex.solution r) = numVars /\
  (forall j i, j < numVars -> i < length bv -> nth i bv 0 = j ->
     (forall i', i < i' -> i' < length bv -> nth i' bv 0 <> j) ->
     get (Simplex.solution r) j = round4 (cell t i tv)) /\
  (forall j, j < numVars -> ~ In j bv -> get (Simplex.solution r) j = 0%Q) /\
  Simplex.finalZ r =
    match Simplex.objType d with
    | Simplex.Min => nneg (get (Simplex.lastOptimalZRow r) tv)
    | Simplex.Max => get (Simplex.lastOptimalZRow r) tv
    end.
Proof.
  unfold Simplex.solve. cbv zeta. simpl.
  set (s := fst (Simplex.run numVars d)).
  assert (OK : namesOK numVars (Simplex.varNames (Simplex.buildTableau numVars d))).
  { unfold Simplex.buildTableau.
    destruct (Simplex.countKinds _) as [[sc ec] ac].
    pose proof (namesOK_nameVars numVars (Simplex.constraints d)) as N.
    destruct (Simplex.nameVars numVars _) as [names arts].
    destruct (Simplex.buildRows _ _ _) as [tb bvs]. exact N. }
  destruct (@extractSolution_spec numVars (Simplex.l_tableau s) (Simplex.l_basicVars s)
              _ (Simplex.totalVars (Simplex.buildTableau numVars d)) OK) as [L C].
  repeat split.
  - exact L.
  - intros j i Hj Hi E Hl. rewrite (C j Hj), (@lastRow_last _ j i); auto.
  - intros j Hj Hn. rewrite (C j Hj), lastRow_none; auto.
  - unfold Simplex.buildTableau.
    destruct (Simplex.countKinds _) as [[sc ec] ac].
    destruct (Simplex.nameVars numVars _) as [names arts].
    destruct (Simplex.buildRows _ _ _) as [tb bvs]. simpl.
    destruct (Simplex.objType d); reflexivity.
Qed.

Lemma solution_is_rounded_rhs_witness :
  let r := Simplex.solve 2 scenarioA in
  get (Simplex.solution r) 0 = round4 (cell (Simplex.lastOptimalTableau r) 1 (Simplex.lastTotalVars r)).
Proof.
  intros r.
  refine (proj1 (proj2 (@solution_is_rounded_rhs 2 scenarioA)) 0 1 _ _ _ _).
  - lia.
  - vm_compute. lia.
  - reflexivity.
  - intros i' H1 H2. vm_compute in H2. lia.
Defined.

(** The claim as stated: a basic decision variable is reported as exactly
    the right-hand side of its row. *)
Definition reports_exact_rhs (numVars : nat) (d : Simplex.data) : Prop :=
  let r := Simplex.solve numVars d in
  forall j i, j < numVars -> i < length (Simplex.lastOptimalBasicVars r) ->
    nth i (Simplex.lastOptimalBasicVars r) 0 = j ->
    (get (Simplex.solution r) j ==
     cell (Simplex.lastOptimalTableau r) i (Simplex.lastTotalVars r))%Q.

(** Maximize [x1] subject to [3 x1 <= 1]. *)
Definition oneThird : Simplex.data :=
  Simplex.mkData Simplex.Max [1]%Q [mkCon [3]%Q Le 1%Q].

(** C6 fails as stated: on [oneThird] the basic variable [x1] has the
    right-hand side [1/3] and is reported as [0.3333]. *)
Lemma reports_exact_rhs_fails : ~ reports_exact_rhs 1 oneThird.
Proof.
  intros H. specialize (H 0 0).
  vm_compute in H.
  specialize (H (le_n 1) (le_n 1) eq_refl). discriminate.
Qed.

(** ** The entering-column scans of the two scripts *)

Lemma fold_left_rel {A B C : Type} (f : A -> C -> A) (g : B -> C -> B)
    (R : A -> B -> Prop) (l : list C) (a : A) (b : B) :
  R a b -> (forall a b x, R a b -> R (f a x) (g b x)) ->
  R (fold_left f l a) (fold_left g l b).
Proof.
  revert a b; induction l as [|x l IH]; intros a b H Hs; simpl; auto.
Qed.

Lemma isOptimal_S (z : list Q) (n : nat) :
  Simplex.isOptimal z (S n) =
  Simplex.isOptimal z n && negb (nlt (get z n) (- eps10)%Q).
Proof.
  unfold Simplex.isOptimal. rewrite seq_S, forallb_app. simpl.
  now rewrite andb_true_r.
Qed.

(** The scan of [findPivotColumn] (running minimum from 0) and the scan of
    [solveLP] (running minimum from [-1e-10]) side by side: as long as no
    entry is below [-1e-10] the second has selected nothing; from the first
    such entry on the two hold the same minimum and the same column. *)
Lemma pivot_scans (z : list Q) (n : nat) :
  let '(m, pc) :=
    for_upto n
      (fun '(minVal, pivotCol) j =>
         if nlt (get z j) minVal then (get z j, Some j) else (minVal, pivotCol))
      (0%Q, None) in
  let '(pc', m') :=
    for_upto n
      (fun '(pivotCol, minVal) j =>
         if nlt (get z j) minVal then (Some j, get z j) else (pivotCol, minVal))
      (None, (- eps10)%Q) in
  if Simplex.isOptimal z n
  then pc' = None /\ m' = (- eps10)%Q /\ (- eps10 <= m)%Q
  else pc' = pc /\ m' = m /\ pc <> None /\ (m < - eps10)%Q.
Proof.
  induction n as [|n IH].
  - rewrite !for_upto_0. simpl. repeat split; auto. discriminate.
  - rewrite !for_upto_S, isOptimal_S.
    destruct (for_upto n _ (0%Q, None)) as [m pc].
    destruct (for_upto n _ (None, (- eps10)%Q)) as [pc' m'].
    destruct (Simplex.isOptimal z n); simpl.
    + destruct IH as (-> & -> & Hm).
      destruct (nlt (get z n) (- eps10)%Q) eqn:E; simpl.
      * apply nlt_iff in E.
        assert (E' : nlt (get z n) m = true).
        { apply nlt_iff. eapply Qlt_le_trans; eauto. }
        rewrite E'. repeat split; auto. discriminate.
      * apply nlt_false_iff in E.
        destruct (nlt (get z n) m); repeat split; auto.
    + destruct IH as (-> & -> & Hpc & Hm).
      destruct (nlt (get z n) m) eqn:E.
      * apply nlt_iff in E. repeat split; auto; try discriminate.
        eapply Qlt_trans; eauto.
      * repeat split; auto.
Qed.

Lemma selectPivotCol_optimal (z : list Q) (tv : nat) :
  Simplex.isOptimal z tv = true -> BB.selectPivotCol z tv = None.
Proof.
  intros O. pose proof (pivot_scans z tv) as S.
  unfold BB.selectPivotCol.
  destruct (for_upto tv _ (0%Q, None)) as [m pc].
  destruct (for_upto tv _ (None, (- eps10)%Q)) as [pc' m'].
  rewrite O in S. simpl. tauto.
Qed.

Lemma findPivotColumn_not_optimal (z : list Q) (tv : nat) :
  Simplex.isOptimal z tv = false ->
  Simplex.findPivotColumn z tv = BB.selectPivotCol z tv /\
  Simplex.findPivotColumn z tv <> None.
Proof.
  intros O. pose proof (pivot_scans z tv) as S.
  unfold BB.selectPivotCol, Simplex.findPivotColumn.
  destruct (for_upto tv _ (0%Q, None)) as [m pc].
  destruct (for_upto tv _ (None, (- eps10)%Q)) as [pc' m'].
  rewrite O in S. simpl. destruct S as (-> & _ & H & _). auto.
Qed.

Lemma isOptimal_entry (z : list Q) (tv j : nat) :
  Simplex.isOptimal z tv = true -> j < tv -> (- eps10 <= get z j)%Q.
Proof.
  unfold Simplex.isOptimal. rewrite forallb_forall. intros H Hj.
  specialize (H j). rewrite in_seq in H.
  apply nlt_false_iff. apply negb_true_iff. apply H. lia.
Qed.

(** ** The iteration loop of [Simplex.solve] *)

Section Loop.

Variable arts : list nat.
Variable tv : nat.

Lemma loop_inv (Inv : Simplex.loopState -> Prop)
    (Post : Simplex.loopState -> bool -> Prop) :
  (forall s s', Inv s -> Simplex.loopBody arts tv s = Simplex.Continue s' -> Inv s') ->
  (forall s s', Inv s -> Simplex.loopBody arts tv s = Simplex.Break s' -> Post s' true) ->
  (forall s, Inv s -> Post s false) ->
  forall fuel s, Inv s ->
    Post (fst (Simplex.loop fuel arts tv s)) (snd (Simplex.loop fuel arts tv s)).
Proof.
  intros HC HB HF. induction fuel as [|fuel IH]; intros s Hs; simpl.
  - now apply HF.
  - destruct (Simplex.loopBody arts tv s) as [s'|s'] eqn:E.
    + apply IH. eapply HC; eauto.
    + simpl. eapply HB; eauto.
Qed.

(** The type of the last recorded step. *)
Definition lastType (s : Simplex.loopState) : option Simplex.stepType :=
  option_map Simplex.step_type (last_opt (Simplex.l_steps s)).

Definition lastReason (s : Simplex.loopState) : option Simplex.stepReason :=
  option_map Simplex.step_reason (last_opt (Simplex.l_steps s)).

(** The five ways out of the loop body by [break]. *)
Inductive breakCase (s s' : Simplex.loopState) : Prop :=
| BreakDual :
    Simplex.l_useDualSimplex s = true ->
    Simplex.hasNegativeRHS (Simplex.l_tableau s) = true ->
    Simplex.l_steps s' =
      Simplex.l_steps s ++ [Simplex.mkStep Simplex.StepInfeasible Simplex.DualNoPivotColumn] ->
    breakCase s s'
| BreakArtificial :
    Simplex.l_useDualSimplex s && Simplex.hasNegativeRHS (Simplex.l_tableau s) = false ->
    Simplex.isOptimal (Simplex.l_zRow s) tv = true ->
    Simplex.hasArtificialInBasis (Simplex.l_tableau s) (Simplex.l_basicVars s) arts tv = true ->
    Simplex.l_steps s' =
      Simplex.l_steps s ++ [Simplex.mkStep Simplex.StepInfeasible Simplex.ArtificialInBasis] ->
    breakCase s s'
| BreakOptimal :
    Simplex.l_useDualSimplex s && Simplex.hasNegativeRHS (Simplex.l_tableau s) = false ->
    Simplex.isOptimal (Simplex.l_zRow s) tv = true ->
    Simplex.hasArtificialInBasis (Simplex.l_tableau s) (Simplex.l_basicVars s) arts tv = false ->
    Simplex.l_steps s' =
      Simplex.l_steps s ++ [Simplex.mkStep Simplex.StepOptimal Simplex.AllNonNegative] ->
    breakCase s s'
| BreakUnbounded :
    Simplex.l_useDualSimplex s && Simplex.hasNegativeRHS (Simplex.l_tableau s) = false ->
    Simplex.isOptimal (Simplex.l_zRow s) tv = false ->
    Simplex.l_steps s' =
      Simplex.l_steps s ++ [Simplex.mkStep Simplex.StepUnbounded Simplex.NoPositiveInColumn] ->
    breakCase s s'.

Lemma loopBody_break (s s' : Simplex.loopState) :
  Simplex.loopBody arts tv s = Simplex.Break s' ->
  Simplex.l_tableau s' = Simplex.l_tableau s /\
  Simplex.l_zRow s' = Simplex.l_zRow s /\
  Simplex.l_basicVars s' = Simplex.l_basicVars s /\
  breakCase s s'.
Proof.
  unfold Simplex.loopBody. simpl.
  destruct (Simplex.l_useDualSimplex s && Simplex.hasNegativeRHS (Simplex.l_tableau s)) eqn:D.
  - apply andb_true_iff in D. destruct D as [D1 D2].
    destruct (Simplex.findDualPivotRow _ _) as [pr|]; try discriminate.
    destruct (Simplex.findDualPivotCol _ _ _ _) as [pc|]; try discriminate.
    intros E. injection E as <-. simpl. repeat split; auto.
    now apply BreakDual.
  - destruct (Simplex.isOptimal (Simplex.l_zRow s) tv) eqn:O.
    + destruct (Simplex.hasArtificialInBasis _ _ _ _) eqn:A;
        intros E; injection E as <-; simpl; repeat split; auto.
      * now apply BreakArtificial.
      * now apply BreakOptimal.
    + destruct (findPivotColumn_not_optimal _ _ O) as [_ N].
      destruct (Simplex.findPivotColumn _ _) as [pc|]; try congruence.
      destruct (fst (Simplex.findPivotRow _ _ _)) as [pr|].
      * unfold Simplex.doPivot. destruct (Simplex.pivot _ _ _ _ _ _) as [[? ?] ?].
        discriminate.
      * intros E; injection E as <-; simpl; repeat split; auto.
        now apply BreakUnbounded.
Qed.

(** After a pass that continues, the last recorded step is a pivot step
    or the list of steps is as it was. *)
Lemma loopBody_continue (s s' : Simplex.loopState) :
  Simplex.loopBody arts tv s = Simplex.Continue s' ->
  Simplex.l_steps s' = Simplex.l_steps s \/
  exists why, Simplex.l_steps s' = Simplex.l_steps s ++ [Simplex.mkStep Simplex.StepPivot why].
Proof.
  unfold Simplex.loopBody. simpl.
  destruct (Simplex.l_useDualSimplex s && Simplex.hasNegativeRHS (Simplex.l_tableau s)).
  - destruct (Simplex.findDualPivotRow _ _) as [pr|].
    + destruct (Simplex.findDualPivotCol _ _ _ _) as [pc|]; try discriminate.
      unfold Simplex.doPivot. destruct (Simplex.pivot _ _ _ _ _ _) as [[? ?] ?].
      intros E; injection E as <-. simpl. right. eauto.
    + intros E; injection E as <-. simpl. now left.
  - destruct (Simplex.isOptimal _ _).
    + destruct (Simplex.hasArtificialInBasis _ _ _ _); discriminate.
    + destruct (Simplex.findPivotColumn _ _) as [pc|]; try discriminate.
      destruct (fst (Simplex.findPivotRow _ _ _)) as [pr|]; try discriminate.
      unfold Simplex.doPivot. destruct (Simplex.pivot _ _ _ _ _ _) as [[? ?] ?].
      intros E; injection E as <-. simpl. right. eauto.
Qed.

(** While the loop runs, the last recorded step is the initial tableau or a
    pivot. *)
Definition running (s : Simplex.loopState) : Prop :=
  lastType s = Some Simplex.StepInitial \/ lastType s = Some Simplex.StepPivot.

Lemma running_continue (s s' : Simplex.loopState) :
  running s -> Simplex.loopBody arts tv s = Simplex.Continue s' -> running s'.
Proof.
  intros R E. destruct (loopBody_continue _ E) as [H|[why H]].
  - unfold running, lastType in *. now rewrite H.
  - right. unfold lastType. rewrite H, last_opt_app. reflexivity.
Qed.

(** What holds of the state in which the loop is left. *)
Inductive loopExit (s' : Simplex.loopState) : bool -> Prop :=
| ExitCap : running s' -> loopExit s' false
| ExitDual :
    Simplex.hasNegativeRHS (Simplex.l_tableau s') = true ->
    lastType s' = Some Simplex.StepInfeasible ->
    lastReason s' = Some Simplex.DualNoPivotColumn ->
    loopExit s' true
| ExitArtificial :
    Simplex.isOptimal (Simplex.l_zRow s') tv = true ->
    Simplex.hasArtificialInBasis (Simplex.l_tableau s') (Simplex.l_basicVars s') arts tv = true ->
    lastType s' = Some Simplex.StepInfeasible ->
    lastReason s' = Some Simplex.ArtificialInBasis ->
    loopExit s' true
| ExitOptimal :
    Simplex.isOptimal (Simplex.l_zRow s') tv = true ->
    Simplex.hasArtificialInBasis (Simplex.l_tableau s') (Simplex.l_basicVars s') arts tv = false ->
    lastType s' = Some Simplex.StepOptimal ->
    lastReason s' = Some Simplex.AllNonNegative ->
    loopExit s' true
| ExitUnbounded :
    Simplex.isOptimal (Simplex.l_zRow s') tv = false ->
    lastType s' = Some Simplex.StepUnbounded ->
    loopExit s' true.

Lemma loop_exit (fuel : nat) (s : Simplex.loopState) :
  running s ->
  loopExit (fst (Simplex.loop fuel arts tv s)) (snd (Simplex.loop fuel arts tv s)).
Proof.
  apply (@loop_inv running loopExit).
  - apply running_continue.
  - intros s0 s' _ E. destruct (loopBody_break _ E) as (T & Z & B & C).
    destruct C as [D N S|D O A S|D O A S|D O S].
    + apply ExitDual; unfold lastType, lastReason; rewrite ?T, ?S, ?last_opt_app; auto.
    + apply ExitArtificial; unfold lastType, lastReason;
        rewrite ?T, ?Z, ?B, ?S, ?last_opt_app; auto.
    + apply ExitOptimal; unfold lastType, lastReason;
        rewrite ?T, ?Z, ?B, ?S, ?last_opt_app; auto.
    + apply ExitUnbounded; unfold lastType; rewrite ?Z, ?S, ?last_opt_app; auto.
  - intros s0 R. now apply ExitCap.
Qed.

End Loop.

(** ** What [solve] reports *)

Lemma run_exit (numVars : nat) (d : Simplex.data) :
  let st := Simplex.buildTableau numVars d in
  loopExit (Simplex.artificialVarIndices st) (Simplex.totalVars st)
           (fst (Simplex.run numVars d)) (snd (Simplex.run numVars d)).
Proof.
  unfold Simplex.run. cbv zeta. apply loop_exit. left. reflexivity.
Qed.

Lemma totalVars_ge (numVars : nat) (d : Simplex.data) :
  numVars <= Simplex.totalVars (Simplex.buildTableau numVars d).
Proof.
  unfold Simplex.buildTableau.
  destruct (Simplex.countKinds _) as [[sc ec] ac].
  destruct (Simplex.nameVars numVars _) as [names arts].
  destruct (Simplex.buildRows _ _ _) as [tb bvs]. simpl. lia.
Qed.

(** Some row whose basic variable is artificial has a right-hand side of
    absolute value above [1e-10]. *)
Definition artificialNonzero (r : Simplex.solved) : Prop :=
  exists i, i < length (Simplex.lastOptimalBasicVars r) /\
    In (nth i (Simplex.lastOptimalBasicVars r) 0) (Simplex.lastArtificial r) /\
    (eps10 < Qabs (cell (Simplex.lastOptimalTableau r) i (Simplex.lastTotalVars r)))%Q.

Lemma hasArtificialInBasis_iff (t : list (list Q)) (bv arts : list nat) (tv : nat) :
  Simplex.hasArtificialInBasis t bv arts tv = true <->
  exists i, i < length bv /\ In (nth i bv 0) arts /\ (eps10 < Qabs (cell t i tv))%Q.
Proof.
  unfold Simplex.hasArtificialInBasis. rewrite existsb_exists. split.
  - intros [i [Hi H]]. apply in_seq in Hi. apply andb_true_iff in H.
    destruct H as [H1 H2]. exists i. repeat split; try lia.
    + now apply includes_In.
    + now apply ngt_iff.
  - intros [i (Hi & H1 & H2)]. exists i. split.
    + apply in_seq. lia.
    + apply andb_true_iff. split; [now apply includes_In | now apply ngt_iff].
Qed.

Lemma displayFinal_type (steps : list Simplex.step) (sol : list Q) (z : Q) :
  Simplex.displayFinal steps sol z =
  match option_map Simplex.step_type (last_opt steps) with
  | Some Simplex.StepInfeasible => Simplex.NoFeasibleSolution
  | Some Simplex.StepUnbounded => Simplex.UnboundedSolution
  | _ => Simplex.OptimalSolution sol (Simplex.roundNum z)
  end.
Proof. reflexivity. Qed.

(** C2 (amended).  For every input on which the loop of [solve] ends with
    the optimality condition met (no objective-row entry below [-1e-10])
    and with no right-hand side below [-1e-10] left: the engine reports
    Infeasible only if some row whose basic variable is artificial has a
    right-hand side of absolute value above [1e-10]; when the loop was left
    by [break] it does report Infeasible whenever there is such a row; and
    when there is no such row it reports the solution as optimal. *)
Theorem infeasible_iff_artificial_remains (numVars : nat) (d : Simplex.data) :
  let r := Simplex.solve numVars d in
  Simplex.isOptimal (Simplex.lastOptimalZRow r) (Simplex.lastTotalVars r) = true ->
  Simplex.hasNegativeRHS (Simplex.lastOptimalTableau r) = false ->
  (Simplex.final r = Simplex.NoFeasibleSolution -> artificialNonzero r) /\
  (Simplex.brokeOut r = true -> artificialNonzero r ->
   Simplex.final r = Simplex.NoFeasibleSolution) /\
  (~ artificialNonzero r ->
   Simplex.final r =
     Simplex.OptimalSolution (Simplex.solution r) (Simplex.roundNum (Simplex.finalZ r))).
Proof.
  intros r O N.
  pose proof (run_exit numVars d) as X. cbv zeta in X.
  unfold artificialNonzero.
  subst r. unfold Simplex.solve in *. cbv zeta in *. simpl in *.
  rewrite !displayFinal_type.
  rewrite <- hasArtificialInBasis_iff.
  destruct X as [R|D T Y|O' A T Y|O' A T Y|O' T];
    unfold running in *; unfold lastType in *.
  - repeat split.
    + destruct R as [R|R]; rewrite R; discriminate.
    + discriminate.
    + destruct R as [R|R]; now rewrite R.
  - congruence.
  - rewrite T. repeat split; auto. intros C. congruence.
  - rewrite T. repeat split; auto; try discriminate. intros _ C. congruence.
  - congruence.
Qed.

(** The claim as stated: whenever the loop ends with the optimality
    condition met, Infeasible is reported exactly when an artificial
    variable is basic with a non-zero right-hand side. *)
Definition infeasible_iff_artificial (numVars : nat) (d : Simplex.data) : Prop :=
  let r := Simplex.solve numVars d in
  Simplex.isOptimal (Simplex.lastOptimalZRow r) (Simplex.lastTotalVars r) = true ->
  (Simplex.final r = Simplex.NoFeasibleSolution <-> artificialNonzero r).

(** Maximize [-x1] subject to [x1 <= -1]: the right-hand side is negative,
    the objective row [1, 0] meets the optimality condition, and the dual
    Simplex finds no pivot column. *)
Definition dualInfeasible : Simplex.data :=
  Simplex.mkData Simplex.Max [-1]%Q [mkCon [1]%Q Le (-1)%Q].

(** C2 fails as stated: on [dualInfeasible] the loop ends with the
    optimality condition met and Infeasible is reported, yet the problem has
    no artificial variable at all. *)
Lemma infeasible_iff_artificial_fails : ~ infeasible_iff_artificial 1 dualInfeasible.
Proof.
  intros H. unfold infeasible_iff_artificial in H. cbv zeta in H.
  assert (O : Simplex.isOptimal
                (Simplex.lastOptimalZRow (Simplex.solve 1 dualInfeasible))
                (Simplex.lastTotalVars (Simplex.solve 1 dualInfeasible)) = true)
    by (vm_compute; reflexivity).
  assert (F : Simplex.final (Simplex.solve 1 dualInfeasible) = Simplex.NoFeasibleSolution)
    by (vm_compute; reflexivity).
  destruct (proj1 (H O) F) as [i (_ & I & _)].
  vm_compute in I. exact I.
Qed.

(** The theorem at scenario B: [x1 + x2 = 10] with [x1 <= 3] and [x2 <= 3]. *)
Definition scenarioB : Simplex.data :=
  Simplex.mkData Simplex.Max [1; 1]%Q
    [ mkCon [1; 1]%Q Eq 10%Q; mkCon [1; 0]%Q Le 3%Q; mkCon [0; 1]%Q Le 3%Q ].

Lemma infeasible_iff_artificial_remains_witness :
  Simplex.final (Simplex.solve 2 scenarioB) = Simplex.NoFeasibleSolution /\
  artificialNonzero (Simplex.solve 2 scenarioB).
Proof.
  assert (O : Simplex.isOptimal
                (Simplex.lastOptimalZRow (Simplex.solve 2 scenarioB))
                (Simplex.lastTotalVars (Simplex.solve 2 scenarioB)) = true)
    by (vm_compute; reflexivity).
  assert (N : Simplex.hasNegativeRHS
                (Simplex.lastOptimalTableau (Simplex.solve 2 scenarioB)) = false)
    by (vm_compute; reflexivity).
  assert (F : Simplex.final (Simplex.solve 2 scenarioB) = Simplex.NoFeasibleSolution)
    by (vm_compute; reflexivity).
  split; [exact F|].
  exact (proj1 (@infeasible_iff_artificial_remains 2 scenarioB O N) F).
Defined.

(** The artificial-variable test of [solveLP] in Branch-and-Bound: whenever
    its loop is left without returning "unbounded", the result is infeasible
    exactly when the scan finds an artificial basic variable with a non-zero
    right-hand side, and feasible otherwise. *)
Lemma solveLP_artificial_test (numVars : nat) (isMax : bool) (objCoeffs : list Q)
    (cons extra : list constraint) :
  let '(sc, ec, ac) := BB.countKinds (cons ++ extra) in
  let tv := numVars + sc + ec + ac in
  let '(t0, b0, arts) := BB.buildRows numVars tv (cons ++ extra) in
  match BB.loop BB.maxIterations tv t0 (BB.buildZRow numVars isMax tv objCoeffs t0 b0 arts) b0 with
  | BB.ReturnUnbounded =>
      BB.solveLP numVars isMax objCoeffs cons extra = BB.LPUnbounded
  | BB.Fallthrough t z b =>
      (BB.solveLP numVars isMax objCoeffs cons extra = BB.LPInfeasible <->
       BB.artificialRemains t b arts tv = true) /\
      (BB.artificialRemains t b arts tv = false ->
       exists sol zv, BB.solveLP numVars isMax objCoeffs cons extra = BB.LPFeasible sol zv)
  end.
Proof.
  unfold BB.solveLP.
  destruct (BB.countKinds (cons ++ extra)) as [[sc ec] ac].
  destruct (BB.buildRows _ _ _) as [[t0 b0] arts].
  destruct (BB.loop _ _ _ _ _) as [|t z b]; auto.
  destruct (BB.artificialRemains t b arts _); split; try tauto; try discriminate.
  - split; auto; discriminate.
  - eauto.
Qed.

(** ** The iteration cap *)

Lemma loopBody_continue_iteration (arts : list nat) (tv : nat) (s s' : Simplex.loopState) :
  Simplex.loopBody arts tv s = Simplex.Continue s' ->
  Simplex.l_iteration s' = S (Simplex.l_iteration s).
Proof.
  unfold Simplex.loopBody. simpl.
  destruct (Simplex.l_useDualSimplex s && Simplex.hasNegativeRHS (Simplex.l_tableau s)).
  - destruct (Simplex.findDualPivotRow _ _) as [pr|].
    + destruct (Simplex.findDualPivotCol _ _ _ _) as [pc|]; try discriminate.
      unfold Simplex.doPivot. destruct (Simplex.pivot _ _ _ _ _ _) as [[? ?] ?].
      intros E; injection E as <-. reflexivity.
    + intros E; injection E as <-. reflexivity.
  - destruct (Simplex.isOptimal _ _).
    + destruct (Simplex.hasArtificialInBasis _ _ _ _); discriminate.
    + destruct (Simplex.findPivotColumn _ _) as [pc|]; try discriminate.
      destruct (fst (Simplex.findPivotRow _ _ _)) as [pr|]; try discriminate.
      unfold Simplex.doPivot. destruct (Simplex.pivot _ _ _ _ _ _) as [[? ?] ?].
      intros E; injection E as <-. reflexivity.
Qed.

Lemma loop_cap_iterations (arts : list nat) (tv fuel : nat) (s : Simplex.loopState) :
  snd (Simplex.loop fuel arts tv s) = false ->
  Simplex.l_iteration (fst (Simplex.loop fuel arts tv s)) = Simplex.l_iteration s + fuel.
Proof.
  revert s; induction fuel as [|fuel IH]; intros s; simpl.
  - intros _. lia.
  - destruct (Simplex.loopBody arts tv s) as [s'|s'] eqn:E; simpl.
    + intros H. rewrite (IH _ H), (loopBody_continue_iteration _ _ _ E). lia.
    + discriminate.
Qed.

(** C4 (amended).  For every input whose loop is left because the counter
    reached the cap (no [break] was executed), 100 passes have been made,
    the last recorded step is the initial tableau or a pivot, and the final
    result is presented as an optimal solution: the values extracted from
    the last tableau and its objective value.  No distinct non-convergence
    result exists; only the what-if section stays hidden. *)
Theorem cap_reported_as_optimal (numVars : nat) (d : Simplex.data) :
  let r := Simplex.solve numVars d in
  Simplex.brokeOut r = false ->
  Simplex.iterations r = 100 /\
  (option_map Simplex.step_type (last_opt (Simplex.steps r)) = Some Simplex.StepInitial \/
   option_map Simplex.step_type (last_opt (Simplex.steps r)) = Some Simplex.StepPivot) /\
  Simplex.final r =
    Simplex.OptimalSolution
      (Simplex.extractSolution numVars (Simplex.lastOptimalTableau r)
         (Simplex.lastOptimalBasicVars r) (Simplex.lastVarNames r) (Simplex.lastTotalVars r))
      (Simplex.roundNum (Simplex.finalZ r)) /\
  Simplex.whatIfShown r = false.
Proof.
  intros r B.
  pose proof (run_exit numVars d) as X. cbv zeta in X.
  subst r. unfold Simplex.solve in *. cbv zeta in *. simpl in *.
  rewrite displayFinal_type.
  split.
  - unfold Simplex.run in *. cbv zeta in *.
    now rewrite (loop_cap_iterations _ _ _ _ B).
  - rewrite B in X. inversion X as [R| | | |].
    unfold running, lastType in R.
    split; [exact R|].
    destruct R as [R|R]; rewrite R; split; reflexivity.
Qed.

(** The claim as stated: when the cap is reached the final result is not
    presented as an optimal solution. *)
Definition surfaces_non_convergence (numVars : nat) (d : Simplex.data) : Prop :=
  let r := Simplex.solve numVars d in
  Simplex.brokeOut r = false ->
  forall sol z, Simplex.final r <> Simplex.OptimalSolution sol z.

(** A degenerate problem on which the largest-coefficient rule with the
    first-row tie-break cycles with period six: maximize
    [10 x1 - 57 x2 - 9 x3 - 24 x4] subject to
    [x1/2 - 11/2 x2 - 5/2 x3 + 9 x4 <= 0], [x1/2 - 3/2 x2 - x3/2 + x4 <= 0]
    and [x1 <= 1].  Every entry of every tableau of the cycle is a multiple
    of 1/4. *)
Definition cycling : Simplex.data :=
  Simplex.mkData Simplex.Max [10; -57; -9; -24]%Q
    [ mkCon [1 # 2; -11 # 2; -5 # 2; 9]%Q Le 0%Q;
      mkCon [1 # 2; -3 # 2; -1 # 2; 1]%Q Le 0%Q;
      mkCon [1; 0; 0; 0]%Q Le 1%Q ].

(** C4 fails as stated: on [cycling] the loop runs into the cap and the
    final result is shown as the optimal solution [x = 0], [Z = 0] (the
    optimum of the problem is [Z = 1]). *)
Lemma surfaces_non_convergence_fails : ~ surfaces_non_convergence 4 cycling.
Proof.
  intros H.
  apply (H eq_refl [0; 0; 0; 0]%Q (Simplex.ShownNum 0%Q)).
  vm_compute. reflexivity.
Qed.

Lemma cap_reported_as_optimal_witness :
  Simplex.brokeOut (Simplex.solve 4 cycling) = false /\
  Simplex.iterations (Simplex.solve 4 cycling) = 100 /\
  Simplex.final (Simplex.solve 4 cycling) =
    Simplex.OptimalSolution [0; 0; 0; 0]%Q (Simplex.ShownNum 0%Q).
Proof.
  assert (B : Simplex.brokeOut (Simplex.solve 4 cycling) = false)
    by (vm_compute; reflexivity).
  destruct (@cap_reported_as_optimal 4 cycling B) as (I & _ & F & _).
  split; [exact B|]. split; [exact I|].
  rewrite F. vm_compute. reflexivity.
Defined.

(** ** What-if analysis of an objective coefficient *)

(** C5 (amended).  For every solved problem that ended on an "optimal" step
    (the what-if section is shown) and every decision variable, a what-if
    query that changes the objective coefficient to its current value
    reports that the current basis remains optimal, with the objective value
    of the solve, when the variable is non-basic; when the variable is basic
    the analysis recommends re-solving the problem. *)
Theorem noop_change_cj (numVars : nat) (d : Simplex.data) (varIdx : nat) (v : Q) :
  let r := Simplex.solve numVars d in
  Simplex.whatIfShown r = true ->
  varIdx < numVars ->
  Simplex.analyzeChangeCj r varIdx v v =
    if existsb (fun bv => bv =? varIdx) (Simplex.lastOptimalBasicVars r)
    then Simplex.RecommendResolve
    else Simplex.RemainsOptimal (Simplex.roundNum (Simplex.finalZ r)).
Proof.
  intros r W Hv.
  unfold Simplex.analyzeChangeCj.
  destruct (existsb _ (Simplex.lastOptimalBasicVars r)); auto.
  assert (O : Simplex.isOptimal (Simplex.lastOptimalZRow r) (Simplex.lastTotalVars r) = true).
  { pose proof (run_exit numVars d) as X. cbv zeta in X.
    subst r. unfold Simplex.solve in *. cbv zeta in *. simpl in *.
    destruct X as [R|D T Y|O' A T Y|O' A T Y|O' T];
      unfold running in *; unfold lastType in *; auto.
    - destruct R as [R|R]; rewrite R in W; discriminate.
    - rewrite T in W; discriminate.
    - rewrite T in W; discriminate. }
  assert (G : nge (nadd (get (Simplex.lastOptimalZRow r) varIdx) (nsub v v)) (- eps10)%Q = true).
  { apply nge_iff. rewrite nadd_eq, nsub_eq.
    setoid_replace (get (Simplex.lastOptimalZRow r) varIdx + (v - v))%Q
      with (get (Simplex.lastOptimalZRow r) varIdx) by ring.
    apply (@isOptimal_entry _ _ varIdx O).
    pose proof (totalVars_ge numVars d). subst r. simpl. lia. }
  now rewrite G.
Qed.

(** The claim as stated: a no-op change reports "basis remains optimal" for
    every variable. *)
Definition noop_keeps_basis (numVars : nat) (d : Simplex.data) : Prop :=
  let r := Simplex.solve numVars d in
  Simplex.whatIfShown r = true ->
  forall varIdx v, varIdx < numVars ->
    Simplex.analyzeChangeCj r varIdx v v =
      Simplex.RemainsOptimal (Simplex.roundNum (Simplex.finalZ r)).

(** C5 fails as stated: in scenario A the variable [x1] is basic, and
    changing its coefficient from 3 to 3 yields the recommendation to
    re-solve. *)
Lemma noop_keeps_basis_fails : ~ noop_keeps_basis 2 scenarioA.
Proof.
  intros H. specialize (H eq_refl 0 3%Q (Nat.lt_0_succ 1)).
  vm_compute in H. discriminate.
Qed.

(** Maximize [3 x1 + 2 x2] subject to [x1 + x2 <= 4] only: [x2] stays
    non-basic. *)
Definition oneConstraint : Simplex.data :=
  Simplex.mkData Simplex.Max [3; 2]%Q [ mkCon [1; 1]%Q Le 4%Q ].

Lemma noop_change_cj_witness :
  Simplex.analyzeChangeCj (Simplex.solve 2 oneConstraint) 1 2%Q 2%Q =
    Simplex.RemainsOptimal (Simplex.ShownNum 12%Q) /\
  Simplex.analyzeChangeCj (Simplex.solve 2 oneConstraint) 0 3%Q 3%Q =
    Simplex.RecommendResolve.
Proof.
  assert (W : Simplex.whatIfShown (Simplex.solve 2 oneConstraint) = true)
    by (vm_compute; reflexivity).
  split.
  - rewrite (@noop_change_cj 2 oneConstraint 1 2%Q W (Nat.lt_succ_diag_r 1)).
    vm_compute. reflexivity.
  - rewrite (@noop_change_cj 2 oneConstraint 0 3%Q W (Nat.lt_0_succ 1)).
    vm_compute. reflexivity.
Defined.

(** ** Branching *)

(** The value [v] deviates from every integer by more than [1e-6]. *)
Definition deviates (v : Q) : Prop :=
  forall k : Z, (eps6 < Qabs (v - inject_Z k))%Q.

Lemma Qabs_ge_opp (x : Q) : (- x <= Qabs x)%Q.
Proof. rewrite <- Qabs_opp. apply Qle_Qabs. Qed.

(** The test of [getFractionalVar] is the spec's "deviates from an integer
    by more than 1e-6". *)
Lemma isFractional_iff (v : Q) : BB.isFractional v = true <-> deviates v.
Proof.
  unfold BB.isFractional, deviates, Math_floor. cbv zeta.
  rewrite andb_true_iff, ngt_iff, nlt_iff.
  pose proof (Qfloor_le v) as F1. pose proof (Qlt_floor v) as F2.
  rewrite inject_Z_plus in F2. change (inject_Z 1) with 1%Q in F2.
  assert (E1 : (nsub v (inject_Z (Qfloor v)) == v - inject_Z (Qfloor v))%Q)
    by apply nsub_eq.
  assert (E2 : (nsub 1 eps6 == 1 - eps6)%Q) by apply nsub_eq.
  rewrite E1, E2. clear E1 E2.
  split.
  - intros [H1 H2] k.
    destruct (Z_le_gt_dec k (Qfloor v)) as [L|G].
    + rewrite Zle_Qle in L.
      eapply Qlt_le_trans; [|apply Qle_Qabs]. lra.
    + assert (L : (Qfloor v + 1 <= k)%Z) by lia.
      rewrite Zle_Qle, inject_Z_plus in L. change (inject_Z 1) with 1%Q in L.
      eapply Qlt_le_trans; [|apply Qabs_ge_opp]. lra.
  - intros H. split.
    + specialize (H (Qfloor v)).
      rewrite Qabs_pos in H by lra. exact H.
    + specialize (H (Qfloor v + 1)%Z). rewrite inject_Z_plus in H.
      change (inject_Z 1) with 1%Q in H.
      rewrite Qabs_neg in H by lra. lra.
Qed.

Lemma find_filter_seq (test p : nat -> bool) (n a x : nat) :
  find test (filter p (seq a n)) = Some x ->
  test x = true /\ In x (filter p (seq a n)) /\
  forall j, In j (filter p (seq a n)) -> j < x -> test j = false.
Proof.
  revert a; induction n as [|n IH]; intros a; simpl; try discriminate.
  assert (Hrest : forall j, In j (filter p (seq (S a) n)) -> S a <= j).
  { intros j Hj. apply filter_In in Hj. destruct Hj as [Hj _].
    apply in_seq in Hj. lia. }
  destruct (p a) eqn:Pa; simpl.
  - destruct (test a) eqn:Ta.
    + intros E; injection E as <-. repeat split; auto.
      intros j [<-|Hj] Hlt; [lia|]. apply Hrest in Hj. lia.
    + intros E. destruct (IH _ E) as (T & I & L). repeat split; auto.
      intros j [<-|Hj] Hlt; auto.
  - intros E. destruct (IH _ E) as (T & I & L). repeat split; auto.
Qed.

Lemma getFractionalVar_some (numVars : nat) (intChecked : nat -> bool)
    (sol : list Q) (i : nat) (v : Q) :
  BB.getFractionalVar numVars intChecked sol = Some (i, v) ->
  v = get sol i /\ In i (BB.integerVars numVars intChecked) /\ deviates v /\
  forall j, In j (BB.integerVars numVars intChecked) -> j < i -> ~ deviates (get sol j).
Proof.
  unfold BB.getFractionalVar, BB.integerVars.
  destruct (find _ _) as [j|] eqn:F; try discriminate.
  intros E; injection E as <- <-.
  apply find_filter_seq in F. destruct F as (T & I & L).
  repeat split; auto.
  - now apply isFractional_iff.
  - intros k Hk Hlt D. apply isFractional_iff in D.
    rewrite (L k Hk Hlt) in D. discriminate.
Qed.

Lemma getFractionalVar_none (numVars : nat) (intChecked : nat -> bool) (sol : list Q) :
  BB.getFractionalVar numVars intChecked sol = None ->
  forall j, In j (BB.integerVars numVars intChecked) -> ~ deviates (get sol j).
Proof.
  unfold BB.getFractionalVar.
  destruct (find _ _) as [j|] eqn:F; try discriminate.
  intros _ j Hj D. apply isFractional_iff in D.
  rewrite (find_none _ _ F j Hj) in D. discriminate.
Qed.

(** The coefficient vector of a branching constraint is the unit vector of
    the branching variable. *)
Lemma unitCoeffs_spec (numVars i j : nat) :
  i < numVars ->
  get (BB.unitCoeffs numVars i) j = if j =? i then 1%Q else 0%Q.
Proof.
  intros Hi. unfold BB.unitCoeffs. rewrite get_upd, repeat_length, get_repeat_0.
  replace (i <? numVars) with true by (symmetry; apply Nat.ltb_lt; lia).
  rewrite andb_true_r, Nat.eqb_sym. reflexivity.
Qed.

(** C3.  Whenever the node at the head of the queue has a feasible
    relaxation, is not pruned, and some integer-designated variable's
    relaxed value deviates from every integer by more than [1e-6], the pass
    selects the first such variable [i] in index order, with value [v], and
    leaves the rest of the queue followed by exactly two new nodes, whose
    extra constraints are the parent's extended by [x_i <= floor v] and by
    [x_i >= ceil v]; the incumbent is unchanged. *)
Theorem branch_on_first_fractional
    (numVars : nat) (isMax : bool) (intChecked : nat -> bool)
    (objCoeffs : list Q) (constraints : list constraint)
    (s : BB.search) (nd : BB.node) (rest : list BB.node) (sol : list Q) (z : Q) :
  BB.queue s = nd :: rest ->
  BB.solveLP numVars isMax objCoeffs constraints (BB.extraConstraints nd) =
    BB.LPFeasible sol z ->
  BB.notNull (BB.bestSolution s) && BB.dominated isMax z (BB.bestZ s) = false ->
  (exists j, In j (BB.integerVars numVars intChecked) /\ deviates (get sol j)) ->
  exists i s',
    let v := get sol i in
    In i (BB.integerVars numVars intChecked) /\ i < numVars /\ deviates v /\
    (forall j, In j (BB.integerVars numVars intChecked) -> j < i ->
       ~ deviates (get sol j)) /\
    BB.visit numVars isMax intChecked objCoeffs constraints s = Some s' /\
    (exists left right,
       BB.queue s' = rest ++ [left; right] /\
       BB.extraConstraints left =
         BB.extraConstraints nd ++
           [mkCon (BB.unitCoeffs numVars i) Le (inject_Z (Math_floor v))] /\
       BB.extraConstraints right =
         BB.extraConstraints nd ++
           [mkCon (BB.unitCoeffs numVars i) Ge (inject_Z (Math_ceil v))] /\
       BB.parent left = Some (BB.id nd) /\ BB.parent right = Some (BB.id nd) /\
       BB.depth left = BB.depth nd + 1 /\ BB.depth right = BB.depth nd + 1) /\
    (forall j, get (BB.unitCoeffs numVars i) j = if j =? i then 1%Q else 0%Q) /\
    BB.bestSolution s' = BB.bestSolution s /\ BB.bestZ s' = BB.bestZ s.
Proof.
  intros Q L P [j [Hj D]].
  destruct (BB.getFractionalVar numVars intChecked sol) as [[i v]|] eqn:G.
  - destruct (getFractionalVar_some _ _ _ G) as (-> & I & Dv & First).
    assert (Hi : i < numVars).
    { unfold BB.integerVars in I. apply filter_In in I. destruct I as [I _].
      apply in_seq in I. lia. }
    eexists i, _. cbv zeta.
    split; [exact I|]. split; [exact Hi|]. split; [exact Dv|]. split; [exact First|].
    split; [unfold BB.visit; rewrite Q, L, P, G; reflexivity|].
    simpl. split; [|split; [|split; reflexivity]].
    + do 2 eexists. rewrite <- app_assoc. simpl.
      repeat split; reflexivity.
    + intros k. now apply unitCoeffs_spec.
  - exfalso. exact (getFractionalVar_none _ _ _ G j Hj D).
Qed.

Definition scenarioD_obj : list Q := [5; 4]%Q.

(** Scenario D at its root: the relaxation is [x1 = 3], [x2 = 3/2]. *)
Lemma branch_on_first_fractional_witness :
  exists s',
    BB.visit 2 true (fun _ => true) scenarioD_obj scenarioD_cons
      (BB.mkSearch [BB.mkNode 0 [] 0 None None] [] None BB.NegInf 1) = Some s' /\
    map BB.extraConstraints (BB.queue s') =
      [ [mkCon [0; 1]%Q Le 1%Q]; [mkCon [0; 1]%Q Ge 2%Q] ].
Proof.
  assert (D : deviates (3 # 2)).
  { apply isFractional_iff. vm_compute. reflexivity. }
  destruct (@branch_on_first_fractional 2 true (fun _ => true)
              scenarioD_obj scenarioD_cons
              (BB.mkSearch [BB.mkNode 0 [] 0 None None] [] None BB.NegInf 1)
              (BB.mkNode 0 [] 0 None None) [] [3; 3 # 2]%Q 21%Q
              eq_refl eq_refl eq_refl
              (ex_intro _ 1 (conj (or_intror (or_introl eq_refl)) D)))
    as (i & s' & _ & _ & _ & _ & V & _).
  exists s'. split; [exact V|].
  vm_compute in V. injection V as <-. reflexivity.
Defined.

(** ** An unbounded root relaxation *)

Section Incumbent.

Variable numVars : nat.
Variable isMax : bool.
Variable intChecked : nat -> bool.

Definition initialBest : BB.ext := if isMax then BB.NegInf else BB.PosInf.

(** As long as there is no incumbent, [bestZ] is the infinity it started
    from. *)
Definition noIncumbentYet (s : BB.search) : Prop :=
  BB.bestSolution s = None -> BB.bestZ s = initialBest.

Lemma visit_noIncumbentYet (objCoeffs : list Q) (constraints : list constraint)
    (s s' : BB.search) :
  noIncumbentYet s ->
  BB.visit numVars isMax intChecked objCoeffs constraints s = Some s' ->
  noIncumbentYet s'.
Proof.
  unfold BB.visit, noIncumbentYet. intros N.
  destruct (BB.queue s) as [|nd rest]; try discriminate.
  destruct (BB.solveLP _ _ _ _ _) as [| |sol z].
  1-2: intros E; injection E as <-; exact N.
  destruct (BB.notNull _ && BB.dominated _ _ _).
  - intros E; injection E as <-; exact N.
  - destruct (BB.getFractionalVar _ _ _) as [[i v]|].
    + intros E; injection E as <-; exact N.
    + intros E; injection E as <-; simpl.
      destruct (if isMax then BB.gt_ext z (BB.bestZ s) else BB.lt_ext z (BB.bestZ s));
        auto; discriminate.
Qed.

Lemma explore_noIncumbentYet (objCoeffs : list Q) (constraints : list constraint)
    (fuel : nat) (s s' : BB.search) :
  noIncumbentYet s ->
  BB.explore numVars isMax intChecked fuel objCoeffs constraints s = Some s' ->
  noIncumbentYet s'.
Proof.
  revert s; induction fuel as [|fuel IH]; intros s N; simpl.
  - destruct (BB.visit _ _ _ _ _ _); try discriminate.
    intros E; injection E as <-; exact N.
  - destruct (BB.visit _ _ _ _ _ _) as [s1|] eqn:V.
    + apply IH. eapply visit_noIncumbentYet; eauto.
    + intros E; injection E as <-; exact N.
Qed.

(** C10.  If the relaxation of the root node is unbounded, the search ends
    after that one node (any fuel of at least one visit suffices) with
    [bestSolution = null] and [bestZ] still at its initial infinity, the
    node is recorded with status "infeasible" and message "Unbounded", and
    the final banner is "No Integer Solution".  Every search that ends
    without an incumbent (for instance one whose relaxations are all
    infeasible) returns the same [bestSolution] and [bestZ] and shows the
    same banner: only the recorded node message tells them apart. *)
Theorem unbounded_root_no_integer_solution
    (objCoeffs : list Q) (constraints : list constraint) (fuel : nat) :
  BB.solveLP numVars isMax objCoeffs constraints [] = BB.LPUnbounded ->
  1 <= fuel ->
  exists r,
    BB.branchAndBound numVars isMax intChecked fuel objCoeffs constraints = Some r /\
    BB.o_bestSolution r = None /\
    BB.o_bestZ r = initialBest /\
    BB.o_nodes r =
      [BB.mkInfo 0 0 None None [] BB.Infeasible (Some BB.MsgUnbounded) None None None] /\
    BB.displayFinal r = BB.NoIntegerSolution /\
    forall fuel' objCoeffs' constraints' r',
      BB.branchAndBound numVars isMax intChecked fuel' objCoeffs' constraints' = Some r' ->
      BB.o_bestSolution r' = None ->
      BB.o_bestSolution r' = BB.o_bestSolution r /\
      BB.o_bestZ r' = BB.o_bestZ r /\
      BB.displayFinal r' = BB.displayFinal r.
Proof.
  intros U F. destruct fuel as [|fuel]; [lia|].
  set (start := BB.mkSearch [BB.mkNode 0 [] 0 None None] [] None initialBest 1).
  set (s1 := BB.mkSearch [] 
               [BB.mkInfo 0 0 None None [] BB.Infeasible (Some BB.MsgUnbounded)
                          None None None]
               None initialBest 1).
  assert (V : BB.visit numVars isMax intChecked objCoeffs constraints start = Some s1).
  { unfold BB.visit. cbn [BB.queue start BB.extraConstraints]. rewrite U. reflexivity. }
  assert (X : BB.explore numVars isMax intChecked (S fuel) objCoeffs constraints start
              = Some s1).
  { cbn [BB.explore]. rewrite V. destruct fuel; reflexivity. }
  exists (BB.mkOutcome None initialBest (BB.nodes s1)). split.
  - unfold BB.branchAndBound. fold initialBest. fold start. now rewrite X.
  - simpl. do 4 (split; [reflexivity|]).
    intros fuel' o' c' r' B N. split; [exact N|]. split.
    + unfold BB.branchAndBound in B.
      destruct (BB.explore numVars isMax intChecked fuel' o' c' _) as [s'|] eqn:E;
        try discriminate.
      injection B as <-.
      assert (NI : noIncumbentYet s').
      { eapply explore_noIncumbentYet; [|exact E]. intros _. reflexivity. }
      exact (NI N).
    + unfold BB.displayFinal. now rewrite N.
Qed.

End Incumbent.

(** Scenario C: maximize [x1] subject to [x1 >= 0] only. *)
Definition scenarioC_cons : list constraint := [ mkCon [1]%Q Ge 0%Q ].

Lemma unbounded_root_no_integer_solution_witness :
  exists r,
    BB.branchAndBound 1 true (fun _ => true) 1 [1]%Q scenarioC_cons = Some r /\
    BB.displayFinal r = BB.NoIntegerSolution.
Proof.
  destruct (@unbounded_root_no_integer_solution 1 true (fun _ => true)
              [1]%Q scenarioC_cons 1 eq_refl (le_n 1))
    as (r & B & _ & _ & _ & D & _).
  exists r. split; [exact B | exact D].
Defined.

(** ** The relaxation solver of Branch-and-Bound against the engine *)

Lemma pivotStep_eq (t : list (list Q)) (z : list Q) (r c : nat) (b : list nat) (tv : nat) :
  BB.pivotStep t z r c b tv = Simplex.pivot t z r c b tv.
Proof. reflexivity. Qed.

Lemma selectPivotRow_eq (t : list (list Q)) (c tv : nat) :
  BB.selectPivotRow t c tv = fst (Simplex.findPivotRow t c tv).
Proof.
  unfold BB.selectPivotRow, Simplex.findPivotRow, for_upto.
  match goal with
  | |- context [fold_left ?g ?l (None, None)] =>
    match goal with
    | |- context [fold_left ?f l (None, None, [])] =>
      pose proof (@fold_left_rel _ _ _ f g
        (fun x y => snd (fst x) = fst y /\ fst (fst x) = snd y) l
        (None, None, []) (None, None)) as H
    end
  end.
  match type of H with ?A -> ?B -> _ => assert (HA : A); [|assert (HB : B)] end.
  - split; reflexivity.
  - intros [[m p] rs] [p' m'] i [E1 E2]. simpl in E1, E2. subst p' m'.
    destruct (ngt (cell t i c) eps10); simpl; auto.
    destruct (nge _ _ && _); simpl; auto.
  - specialize (H HA HB).
    destruct (fold_left _ (seq 0 (length t)) (None, None, [])) as [[m p] rs].
    destruct (fold_left _ (seq 0 (length t)) (None, None)) as [p' m'].
    simpl in *. now destruct H.
Qed.

Lemma for_upto_ext {S : Type} (n : nat) (f g : S -> nat -> S) (s : S) :
  (forall s j, j < n -> f s j = g s j) -> for_upto n f s = for_upto n g s.
Proof.
  induction n as [|n IH]; intros H; auto.
  rewrite !for_upto_S, IH; auto.
Qed.

Lemma length_for_upto_upd (n : nat) (f : list Q -> nat -> Q) (a : list Q) :
  length (for_upto n (fun row j => upd j (f row j) row) a) = length a.
Proof.
  induction n as [|n IH]; auto.
  now rewrite for_upto_S, length_upd.
Qed.

(** The two tableau-building loops produce the same rows, the same basic
    variables and the same artificial columns. *)
Lemma buildRows_eq (numVars tv : nat) (cons : list constraint) :
  BB.buildRows numVars tv cons =
  (fst (Simplex.buildRows numVars tv cons), snd (Simplex.buildRows numVars tv cons),
   snd (Simplex.nameVars numVars cons)).
Proof.
  unfold BB.buildRows, Simplex.buildRows, Simplex.nameVars.
  match goal with
  | |- context [fold_left ?g cons ([], [], [], numVars)] =>
    match goal with
    | |- context [fold_left ?f cons ([], [], numVars)] =>
      match goal with
      | |- context [fold_left ?h cons (?n0, 1, 1, 1, [])] =>
          set (ia := ([], [], numVars) : list (list Q) * list nat * nat);
          set (ib := ([], [], [], numVars) : list (list Q) * list nat * list nat * nat);
          set (ic := (n0, 1, 1, 1, []) : list Simplex.varName * nat * nat * nat * list nat);
          pose proof (@fold_left_rel _ _ _ f g
        (fun x y => fst (fst x) = fst (fst (fst y)) /\
                    snd (fst x) = snd (fst (fst y)) /\
                    snd x = snd y) cons ia ib) as H1;
      pose proof (@fold_left_rel _ _ _ h g
        (fun x y => snd x = snd (fst y) /\
                    length (fst (fst (fst (fst x)))) = snd y) cons ic ib) as H2
      end
    end
  end.
  match type of H1 with ?A -> ?B -> _ => assert (HA : A); [|assert (HB : B)] end.
  - repeat split.
  - intros [[t b] vi] [[[t' b'] a'] vi'] con (E1 & E2 & E3). simpl in E1, E2, E3.
    subst t' b' vi'. unfold Simplex.buildRow.
    destruct (type con); simpl; repeat split.
  - specialize (H1 HA HB). clear HA HB.
    match type of H2 with ?A -> ?B -> _ => assert (HA : A); [|assert (HB : B)] end.
    + split; simpl; auto. now rewrite length_map, length_seq.
    + intros [[[[names s] e] ar] arts] [[[t' b'] a'] vi'] con [E1 E2]. simpl in E1, E2.
      subst a' vi'.
      destruct (type con); simpl; rewrite ?length_app; simpl; repeat split; auto;
        try lia; repeat f_equal; lia.
    + specialize (H2 HA HB). clear HA HB.
      destruct (fold_left _ cons ib) as [[[t' b'] a'] vi'].
      destruct (fold_left _ cons ia) as [[t b0] vi].
      destruct (fold_left _ cons ic) as [[[[names s] e] ar] arts].
      simpl in *. destruct H1 as (-> & -> & _). destruct H2 as (-> & _).
      reflexivity.
Qed.

Lemma buildRow_row (numVars tv : nat) (con : constraint) (vi : nat) :
  let row := fst (fst (Simplex.buildRow numVars tv con vi)) in
  length row = tv + 1 /\ get row tv = rhs con.
Proof.
  unfold Simplex.buildRow.
  assert (L1 : length (for_upto numVars (fun row j => upd j (get (coeffs con) j) row)
                         (repeat 0%Q (tv + 1))) = tv + 1).
  { rewrite (@length_for_upto_upd numVars (fun _ j => get (coeffs con) j)).
    apply repeat_length. }
  destruct (type con); cbn [fst]; rewrite get_upd, !length_upd, L1, Nat.eqb_refl;
    (replace (tv <? tv + 1) with true by (symmetry; apply Nat.ltb_lt; lia));
    auto.
Qed.

(** The rows built from a list of constraints have [totalVars + 1] entries,
    the last of which is the right-hand side of a constraint of the list. *)
Lemma buildRows_rhs (numVars tv : nat) (cons : list constraint) (row : list Q) :
  In row (fst (Simplex.buildRows numVars tv cons)) ->
  exists con, In con cons /\ length row = tv + 1 /\ get row tv = rhs con.
Proof.
  unfold Simplex.buildRows.
  match goal with
  | |- context [fold_left ?f cons ?a] =>
      pose proof (@fold_left_inv _ _ f
        (fun st => forall row, In row (fst (fst st)) ->
           exists con, In con cons /\ length row = tv + 1 /\ get row tv = rhs con)
        cons a) as H
  end.
  match type of H with ?A -> ?B -> _ => assert (HA : A); [|assert (HB : B)] end.
  - intros r [].
  - intros [[t b] vi] con IH Hc r.
    pose proof (buildRow_row numVars tv con vi) as BR. cbv zeta in BR.
    destruct (Simplex.buildRow numVars tv con vi) as [[row0 pushed] vi'].
    cbn [fst] in *. rewrite in_app_iff.
    intros [Hr|[<-|[]]]; [now apply IH|].
    exists con. tauto.
  - specialize (H HA HB).
    destruct (fold_left _ cons _) as [[t b] vi]. simpl in *. apply H.
Qed.

Lemma initial_rhs_nonnegative (numVars tv : nat) (cons : list constraint) :
  Forall (fun con => (- eps10 <= rhs con)%Q) cons ->
  Simplex.hasNegativeRHS (fst (Simplex.buildRows numVars tv cons)) = false.
Proof.
  intros F. unfold Simplex.hasNegativeRHS.
  destruct (existsb _ _) eqn:E; auto.
  apply existsb_exists in E. destruct E as [row [Hr N]].
  destruct (buildRows_rhs _ _ _ _ Hr) as [con (Hc & L & G)].
  rewrite L in N. replace (tv + 1 - 1) with tv in N by lia. rewrite G in N.
  apply nlt_iff in N. rewrite Forall_forall in F. specialize (F con Hc).
  exfalso. now apply (Qlt_not_le _ _ N).
Qed.

Definition isMaxOf (s : Simplex.sense) : bool :=
  match s with Simplex.Max => true | Simplex.Min => false end.

Lemma get_map_nneg (l : list Q) (j : nat) : get (map nneg l) j = nneg (get l j).
Proof.
  unfold get. change 0%Q with (nneg 0%Q) at 1. apply map_nth.
Qed.

(** The two objective rows coincide: for a minimization the engine negates
    the coefficients twice, the Branch-and-Bound solver not at all. *)
Lemma buildZRow_eq (numVars tv : nat) (sense : Simplex.sense) (objCoeffs : list Q)
    (t : list (list Q)) (b arts : list nat) :
  BB.buildZRow numVars (isMaxOf sense) tv objCoeffs t b arts =
  Simplex.buildZRow numVars tv
    (if negb (isMaxOf sense) then map nneg objCoeffs else objCoeffs)
    t b arts.
Proof.
  unfold BB.buildZRow, Simplex.buildZRow.
  replace (for_upto numVars
             (fun z j => upd j (if isMaxOf sense then nneg (get objCoeffs j)
                                else get objCoeffs j) z)
             (repeat 0%Q (tv + 1)))
    with (for_upto numVars
            (fun z j =>
               upd j (nneg (get (if negb (isMaxOf sense)
                                 then map nneg objCoeffs else objCoeffs) j)) z)
            (repeat 0%Q (tv + 1))).
  - reflexivity.
  - apply for_upto_ext. intros z j _.
    destruct sense; simpl; auto.
    now rewrite get_map_nneg, nneg_involutive.
Qed.

(** In primal mode the loop of the engine and the loop of the
    Branch-and-Bound solver make the same pivots. *)
Lemma loops_agree (arts : list nat) (tv fuel : nat) :
  forall t z b steps it,
  let res := Simplex.loop fuel arts tv (Simplex.mkLoop t z b false steps it) in
  match BB.loop fuel tv t z b with
  | BB.ReturnUnbounded =>
      snd res = true /\ lastType (fst res) = Some Simplex.StepUnbounded
  | BB.Fallthrough t' z' b' =>
      Simplex.l_tableau (fst res) = t' /\
      Simplex.l_zRow (fst res) = z' /\
      Simplex.l_basicVars (fst res) = b' /\
      (snd res = true ->
       lastType (fst res) =
         Some (if BB.artificialRemains t' b' arts tv
               then Simplex.StepInfeasible else Simplex.StepOptimal))
  end.
Proof.
  induction fuel as [|fuel IH]; intros t z b steps it; cbv zeta.
  - simpl. repeat split; auto. discriminate.
  - cbn [Simplex.loop BB.loop]. unfold Simplex.loopBody. cbn [Simplex.l_useDualSimplex
      Simplex.l_tableau Simplex.l_zRow Simplex.l_basicVars Simplex.l_steps
      Simplex.l_iteration andb].
    destruct (Simplex.isOptimal z tv) eqn:O.
    + rewrite (selectPivotCol_optimal _ _ O).
      change (Simplex.hasArtificialInBasis t b arts tv)
        with (BB.artificialRemains t b arts tv).
      destruct (BB.artificialRemains t b arts tv); simpl; repeat split; auto;
        intros _; unfold lastType; simpl; now rewrite last_opt_app.
    + destruct (findPivotColumn_not_optimal _ _ O) as [E N].
      rewrite <- E.
      destruct (Simplex.findPivotColumn z tv) as [pc|]; try congruence.
      rewrite selectPivotRow_eq.
      destruct (fst (Simplex.findPivotRow t pc tv)) as [pr|].
      * rewrite pivotStep_eq. unfold Simplex.doPivot, Simplex.push.
        cbn [Simplex.l_useDualSimplex Simplex.l_tableau Simplex.l_zRow
             Simplex.l_basicVars Simplex.l_steps Simplex.l_iteration].
        destruct (Simplex.pivot t z pr pc b tv) as [[t1 z1] b1].
        apply IH.
      * simpl. split; auto. unfold lastType. simpl. now rewrite last_opt_app.
Qed.

Lemma map_upd {A B : Type} (f : A -> B) (i : nat) (v : A) (a : list A) :
  map f (upd i v a) = upd i (f v) (map f a).
Proof.
  revert i; induction a as [|h t IH]; intros [|i]; simpl; auto.
  now rewrite IH.
Qed.

Lemma round4_0 : round4 0 = 0%Q.
Proof. reflexivity. Qed.

(** The engine's extracted solution is the Branch-and-Bound read-out with
    every value rounded to four decimals. *)
Lemma extract_read (numVars : nat) (t : list (list Q)) (b : list nat)
    (names : list Simplex.varName) (tv : nat) :
  namesOK numVars names ->
  Simplex.extractSolution numVars t b names tv =
  map round4 (BB.readSolution numVars t b tv).
Proof.
  intros OK. unfold Simplex.extractSolution, BB.readSolution.
  generalize (length b) as n.
  induction n as [|n IH].
  - rewrite !for_upto_0, map_repeat. now rewrite round4_0.
  - rewrite !for_upto_S, IH.
    specialize (OK (nth n b 0)).
    destruct (nth_error names (nth n b 0)) as [[k| | |]|].
    2-5: replace (nth n b 0 <? numVars) with false
           by (symmetry; apply Nat.ltb_ge; lia); reflexivity.
    destruct OK as [Hv ->].
    replace (nth n b 0 <? numVars) with true by (symmetry; apply Nat.ltb_lt; lia).
    replace (nth n b 0 + 1 - 1) with (nth n b 0) by lia.
    now rewrite map_upd.
Qed.

(** [buildTableau], field by field. *)
Lemma buildTableau_fields (numVars : nat) (d : Simplex.data) :
  let cons := Simplex.constraints d in
  let '(sc, ec, ac) := Simplex.countKinds cons in
  let tv := numVars + sc + ec + ac in
  let st := Simplex.buildTableau numVars d in
  Simplex.totalVars st = tv /\
  Simplex.tableau st = fst (Simplex.buildRows numVars tv cons) /\
  Simplex.basicVars st = snd (Simplex.buildRows numVars tv cons) /\
  Simplex.varNames st = fst (Simplex.nameVars numVars cons) /\
  Simplex.artificialVarIndices st = snd (Simplex.nameVars numVars cons) /\
  Simplex.wasMinimization st = negb (isMaxOf (Simplex.objType d)) /\
  Simplex.zRow st =
    Simplex.buildZRow numVars tv
      (if negb (isMaxOf (Simplex.objType d))
       then map nneg (Simplex.objCoeffs d) else Simplex.objCoeffs d)
      (fst (Simplex.buildRows numVars tv cons))
      (snd (Simplex.buildRows numVars tv cons))
      (snd (Simplex.nameVars numVars cons)).
Proof.
  cbv zeta. unfold Simplex.buildTableau.
  destruct (Simplex.countKinds _) as [[sc ec] ac].
  destruct (Simplex.nameVars numVars _) as [names arts].
  destruct (Simplex.buildRows _ _ _) as [tb bvs]. simpl.
  destruct (Simplex.objType d); simpl; repeat split.
Qed.

(** C8 (amended).  For every node's subproblem (original constraints plus
    the node's extra constraints) in which no right-hand side is below
    [-1e-10], so that the engine stays in primal mode, and on which the
    engine's loop is left by [break] rather than by the iteration cap, the
    relaxation solver of Branch-and-Bound and the engine's [solve] agree:
    infeasible with infeasible, unbounded with unbounded, and a feasible
    result with an optimal report of the same objective value whose variable
    values are the solver's values rounded to four decimals. *)
Theorem relaxation_agrees_in_primal_mode
    (numVars : nat) (sense : Simplex.sense) (objCoeffs : list Q)
    (constraints extra : list constraint) :
  let r := Simplex.solve numVars (Simplex.mkData sense objCoeffs (constraints ++ extra)) in
  Forall (fun con => (- eps10 <= rhs con)%Q) (constraints ++ extra) ->
  Simplex.brokeOut r = true ->
  match BB.solveLP numVars (isMaxOf sense) objCoeffs constraints extra with
  | BB.LPInfeasible => Simplex.final r = Simplex.NoFeasibleSolution
  | BB.LPUnbounded => Simplex.final r = Simplex.UnboundedSolution
  | BB.LPFeasible sol z =>
      Simplex.final r = Simplex.OptimalSolution (map round4 sol) (Simplex.roundNum z) /\
      Simplex.solution r = map round4 sol /\
      Simplex.finalZ r = z
  end.
Proof.
  intros r F B.
  set (d := Simplex.mkData sense objCoeffs (constraints ++ extra)) in *.
  pose proof (buildTableau_fields numVars d) as TF. cbv zeta in TF.
  pose proof (namesOK_nameVars numVars (constraints ++ extra)) as OK.
  unfold BB.solveLP.
  change (BB.countKinds (constraints ++ extra))
    with (Simplex.countKinds (Simplex.constraints d)).
  destruct (Simplex.countKinds (Simplex.constraints d)) as [[sc ec] ac].
  destruct TF as (Etv & Et & Eb & En & Ea & Ew & Ez).
  cbn [Simplex.constraints Simplex.objType Simplex.objCoeffs d] in *.
  rewrite buildRows_eq, buildZRow_eq.
  set (tv := numVars + sc + ec + ac) in *.
  set (t0 := fst (Simplex.buildRows numVars tv (constraints ++ extra))) in *.
  set (b0 := snd (Simplex.buildRows numVars tv (constraints ++ extra))) in *.
  set (arts := snd (Simplex.nameVars numVars (constraints ++ extra))) in *.
  set (z0 := Simplex.buildZRow numVars tv _ t0 b0 arts) in *.
  pose proof (@loops_agree arts tv 100 t0 z0 b0
                [Simplex.mkStep Simplex.StepInitial Simplex.InitialTableau] 0) as LA.
  cbv zeta in LA.
  assert (R : Simplex.run numVars d =
              Simplex.loop 100 arts tv
                (Simplex.mkLoop t0 z0 b0 false
                   [Simplex.mkStep Simplex.StepInitial Simplex.InitialTableau] 0)).
  { unfold Simplex.run. cbv zeta. rewrite Ea, Etv, Et, Ez, Eb.
    unfold t0. rewrite initial_rhs_nonnegative; auto. }
  subst r. unfold Simplex.solve in *. cbv zeta in *.
  cbn [Simplex.final Simplex.solution Simplex.finalZ Simplex.brokeOut] in *.
  rewrite displayFinal_type. rewrite R in *. rewrite Etv, En, Ew.
  cbv iota beta. change BB.maxIterations with 100.
  destruct (BB.loop 100 tv t0 z0 b0) as [|t' z' b'].
  - destruct LA as [_ LT]. unfold lastType in LT. now rewrite LT.
  - destruct LA as (T & Z & Bv & LT). specialize (LT B). unfold lastType in LT.
    rewrite LT, T, Z, Bv.
    destruct (BB.artificialRemains t' b' arts tv); auto.
    rewrite (extract_read t' b' tv OK).
    destruct sense; simpl; repeat split.
Qed.

Lemma relaxation_agrees_in_primal_mode_witness :
  BB.solveLP 2 true scenarioD_obj scenarioD_cons [mkCon [0; 1]%Q Le 1%Q] =
    BB.LPFeasible [10 # 3; 1]%Q (62 # 3)%Q /\
  Simplex.final
    (Simplex.solve 2
       (Simplex.mkData Simplex.Max scenarioD_obj
          (scenarioD_cons ++ [mkCon [0; 1]%Q Le 1%Q]))) =
    Simplex.OptimalSolution [3.3333; 1]%Q (Simplex.ShownNum 20.6667%Q).
Proof.
  assert (F : Forall (fun con => (- eps10 <= rhs con)%Q)
                (scenarioD_cons ++ [mkCon [0; 1]%Q Le 1%Q])).
  { repeat constructor; vm_compute; discriminate. }
  pose proof (@relaxation_agrees_in_primal_mode 2 Simplex.Max scenarioD_obj
                scenarioD_cons [mkCon [0; 1]%Q Le 1%Q] F eq_refl) as A.
  assert (E : BB.solveLP 2 (isMaxOf Simplex.Max) scenarioD_obj scenarioD_cons
                [mkCon [0; 1]%Q Le 1%Q] = BB.LPFeasible [10 # 3; 1]%Q (62 # 3)%Q)
    by (vm_compute; reflexivity).
  rewrite E in A. destruct A as (A & _).
  split; [exact E|]. rewrite A. vm_compute. reflexivity.
Defined.

(** The claim as stated: the two solvers return the same outcome, with the
    same variable values and the same objective value. *)
Definition same_outcome (numVars : nat) (sense : Simplex.sense) (objCoeffs : list Q)
    (constraints extra : list constraint) : Prop :=
  let r := Simplex.solve numVars (Simplex.mkData sense objCoeffs (constraints ++ extra)) in
  match BB.solveLP numVars (isMaxOf sense) objCoeffs constraints extra with
  | BB.LPInfeasible => Simplex.final r = Simplex.NoFeasibleSolution
  | BB.LPUnbounded => Simplex.final r = Simplex.UnboundedSolution
  | BB.LPFeasible sol z =>
      (exists shownZ, Simplex.final r = Simplex.OptimalSolution sol shownZ) /\
      Simplex.solution r = sol /\ Simplex.finalZ r = z
  end.

(** Maximize [-x1] subject to [-x1 <= -2], that is [x1 >= 2]. *)
Definition negativeRhs_obj : list Q := [-1]%Q.
Definition negativeRhs_cons : list constraint := [ mkCon [-1]%Q Le (-2)%Q ].

(** The cycling problem with the unsatisfiable row [0 = 1] added. *)
Definition cyclingBlocked_cons : list constraint :=
  Simplex.constraints cycling ++ [ mkCon [0; 0; 0; 0]%Q Eq 1%Q ].

(** C8 fails as stated, in three ways.  With a negative right-hand side the
    engine finds [x1 = 2], [Z = -2] by dual Simplex while the relaxation
    solver, which has no dual phase, returns [x1 = 0], [Z = 0] as feasible.
    On [3 x1 <= 1] the engine reports [0.3333] where the relaxation solver
    returns [1/3].  And when the cap is reached with an artificial variable
    still basic the engine shows an optimal solution where the relaxation
    solver says infeasible. *)
Lemma same_outcome_fails :
  ~ same_outcome 1 Simplex.Max negativeRhs_obj negativeRhs_cons [] /\
  ~ same_outcome 1 Simplex.Max [1]%Q [mkCon [3]%Q Le 1%Q] [] /\
  ~ same_outcome 4 Simplex.Max (Simplex.objCoeffs cycling) cyclingBlocked_cons [].
Proof.
  repeat split; intros H; vm_compute in H.
  - destruct H as (_ & H & _). discriminate.
  - destruct H as (_ & H & _). discriminate.
  - discriminate.
Qed.

(** The same defect seen from the search: on the problem with the negative
    right-hand side Branch-and-Bound returns [x1 = 0], which violates
    [x1 >= 2], as the optimal integer solution. *)
Lemma negativeRhs_search :
  BB.solveLP 1 true negativeRhs_obj negativeRhs_cons [] = BB.LPFeasible [0]%Q 0%Q /\
  Simplex.final (Simplex.solve 1 (Simplex.mkData Simplex.Max negativeRhs_obj negativeRhs_cons))
    = Simplex.OptimalSolution [2]%Q (Simplex.ShownNum (-2)%Q) /\
  option_map (BB.displayFinal)
    (BB.branchAndBound 1 true (fun _ => true) 1 negativeRhs_obj negativeRhs_cons)
    = Some (BB.OptimalInteger [0]%Q (BB.Fin 0%Q)).
Proof. vm_compute. repeat split. Qed.

(** ** Frame: a solve leaves every object that existed before it unchanged *)

(** [keeps n0 m P]: run in a store with at least [n0] objects, [m] leaves
    the first [n0] objects as they are, never shrinks the store, and returns
    a value satisfying [P]. *)
Definition keeps (n0 : nat) {A : Type} (m : Store.M A) (P : A -> Prop) : Prop :=
  forall h, n0 <= length h ->
    firstn n0 (snd (m h)) = firstn n0 h /\
    length h <= length (snd (m h)) /\
    P (fst (m h)).

Definition fresh (n0 : nat) (l : Store.loc) : Prop := n0 <= l.

Lemma firstn_upd_fresh {A : Type} (n0 l : nat) (o : A) (h : list A) :
  n0 <= l -> firstn n0 (upd l o h) = firstn n0 h.
Proof.
  revert n0 l; induction h as [|x h IH]; intros [|n0] [|l] H; simpl; auto; try lia.
  f_equal. apply IH. lia.
Qed.

Lemma firstn_app_fresh {A : Type} (n0 : nat) (h t : list A) :
  n0 <= length h -> firstn n0 (h ++ t) = firstn n0 h.
Proof.
  intros H. rewrite firstn_app.
  replace (n0 - length h) with 0 by lia. simpl. apply app_nil_r.
Qed.

Section Keeps.

Variable n0 : nat.

Lemma keeps_ret {A : Type} (a : A) (P : A -> Prop) :
  P a -> keeps n0 (Store.ret a) P.
Proof. intros H h Hh. simpl. auto. Qed.

Lemma keeps_bind {A B : Type} (m : Store.M A) (f : A -> Store.M B)
    (P : A -> Prop) (Q : B -> Prop) :
  keeps n0 m P -> (forall a, P a -> keeps n0 (f a) Q) ->
  keeps n0 (Store.bind m f) Q.
Proof.
  intros Hm Hf h Hh. unfold Store.bind.
  destruct (Hm h Hh) as (F1 & L1 & P1).
  destruct (m h) as [a h1]. simpl in *.
  destruct (Hf a P1 h1) as (F2 & L2 & Q2); [lia|].
  repeat split; auto; try lia. congruence.
Qed.

Lemma keeps_weaken {A : Type} (m : Store.M A) (P Q : A -> Prop) :
  keeps n0 m P -> (forall a, P a -> Q a) -> keeps n0 m Q.
Proof.
  intros Hm HPQ h Hh. destruct (Hm h Hh) as (F & L & p). auto.
Qed.

Lemma keeps_alloc (o : Store.object) : keeps n0 (Store.alloc o) (fresh n0).
Proof.
  intros h Hh. unfold Store.alloc, fresh. simpl.
  rewrite firstn_app_fresh, length_app by lia. repeat split; auto; lia.
Qed.

Lemma keeps_numbers (l : Store.loc) : keeps n0 (Store.numbers l) (fun _ => True).
Proof. intros h Hh. simpl. auto. Qed.

Lemma keeps_readCon (l : Store.loc) : keeps n0 (Store.readCon l) (fun _ => True).
Proof. intros h Hh. simpl. auto. Qed.

Lemma keeps_readRefs (l : Store.loc) : keeps n0 (Store.readRefs l) (fun _ => True).
Proof. intros h Hh. simpl. auto. Qed.

Lemma keeps_readNum (l : Store.loc) (j : nat) :
  keeps n0 (Store.readNum l j) (fun _ => True).
Proof.
  unfold Store.readNum. eapply keeps_bind; [apply keeps_numbers|].
  intros a _. now apply keeps_ret.
Qed.

(** The only write of the code: it leaves the old objects alone when its
    target is a new one. *)
Lemma keeps_writeNum (l : Store.loc) (j : nat) (v : Q) :
  fresh n0 l -> keeps n0 (Store.writeNum l j v) (fun _ => True).
Proof.
  intros Hl h Hh. unfold Store.writeNum. simpl.
  destruct (nth_error h l) as [[a|c t r|rs]|]; simpl; repeat split; auto.
  - now apply firstn_upd_fresh.
  - now rewrite length_upd.
Qed.

Lemma keeps_forEach {A S : Type} (l : list A) (body : S -> A -> Store.M S)
    (Inv : S -> Prop) (s : S) :
  Inv s -> (forall s x, Inv s -> keeps n0 (body s x) Inv) ->
  keeps n0 (Store.forEach l body s) Inv.
Proof.
  revert s; induction l as [|x l IH]; intros s Hs Hb; simpl.
  - now apply keeps_ret.
  - eapply keeps_bind; [now apply Hb|]. intros s' Hs'. now apply IH.
Qed.

Lemma keeps_doUpto (n : nat) (body : nat -> Store.M unit) :
  (forall j, keeps n0 (body j) (fun _ => True)) ->
  keeps n0 (Store.doUpto n body) (fun _ => True).
Proof.
  intros H. unfold Store.doUpto, Store.forUpto.
  apply keeps_forEach; auto.
Qed.

Lemma keeps_loadCon (l : Store.loc) : keeps n0 (Store.loadCon l) (fun _ => True).
Proof.
  unfold Store.loadCon. eapply keeps_bind; [apply keeps_readCon|].
  intros [[c t] r] _. eapply keeps_bind; [apply keeps_numbers|].
  intros a _. now apply keeps_ret.
Qed.

Lemma keeps_loadCons (ls : list Store.loc) :
  keeps n0 (Store.loadCons ls) (fun _ => True).
Proof.
  unfold Store.loadCons. apply keeps_forEach; auto.
  intros acc l _. eapply keeps_bind; [apply keeps_loadCon|].
  intros c _. now apply keeps_ret.
Qed.

Lemma keeps_snapshot (rows : list Store.loc) :
  keeps n0 (Store.snapshot rows) (fun _ => True).
Proof.
  unfold Store.snapshot. apply keeps_forEach; auto.
  intros acc l _. eapply keeps_bind; [apply keeps_numbers|].
  intros c _. now apply keeps_ret.
Qed.

Lemma keeps_readCell (rows : list Store.loc) (i j : nat) :
  keeps n0 (Store.readCell rows i j) (fun _ => True).
Proof.
  unfold Store.readCell. destruct (nth_error rows i).
  - apply keeps_readNum.
  - now apply keeps_ret.
Qed.

Lemma keeps_writeCell (rows : list Store.loc) (i j : nat) (v : Q) :
  Forall (fresh n0) rows -> keeps n0 (Store.writeCell rows i j v) (fun _ => True).
Proof.
  intros F. unfold Store.writeCell. destruct (nth_error rows i) as [l|] eqn:E.
  - apply keeps_writeNum. rewrite Forall_forall in F. apply F.
    eapply nth_error_In; eauto.
  - now apply keeps_ret.
Qed.

(** One step of a proof that a piece of code keeps the old objects: take the
    next statement and use the lemma for it. *)
Ltac keep :=
  lazymatch goal with
  | |- keeps _ (Store.bind (Store.alloc _) _) _ =>
      eapply keeps_bind; [apply keeps_alloc | let x := fresh "v" in let H := fresh "Hv" in intros x H]
  | |- keeps _ (Store.bind (Store.numbers _) _) _ =>
      eapply keeps_bind; [apply keeps_numbers | let x := fresh "v" in intros x _]
  | |- keeps _ (Store.bind (Store.readNum _ _) _) _ =>
      eapply keeps_bind; [apply keeps_readNum | let x := fresh "v" in intros x _]
  | |- keeps _ (Store.bind (Store.readCell _ _ _) _) _ =>
      eapply keeps_bind; [apply keeps_readCell | let x := fresh "v" in intros x _]
  | |- keeps _ (Store.bind (Store.readCon _) _) _ =>
      eapply keeps_bind; [apply keeps_readCon | let c := fresh "c" in let t := fresh "t" in let r := fresh "r" in intros [[c t] r] _]
  | |- keeps _ (Store.bind (Store.readRefs _) _) _ =>
      eapply keeps_bind; [apply keeps_readRefs | let x := fresh "v" in intros x _]
  | |- keeps _ (Store.bind (Store.loadCons _) _) _ =>
      eapply keeps_bind; [apply keeps_loadCons | let x := fresh "v" in intros x _]
  | |- keeps _ (Store.bind (Store.snapshot _) _) _ =>
      eapply keeps_bind; [apply keeps_snapshot | let x := fresh "v" in intros x _]
  | |- keeps _ (Store.bind (Store.writeNum _ _ _) _) _ =>
      eapply keeps_bind; [apply keeps_writeNum; assumption | intros _ _]
  | |- keeps _ (Store.bind (Store.writeCell _ _ _ _) _) _ =>
      eapply keeps_bind; [apply keeps_writeCell; assumption | intros _ _]
  | |- keeps _ (Store.bind (Store.doUpto _ _) _) _ =>
      eapply keeps_bind; [apply keeps_doUpto; let x := fresh "j" in intros x | intros _ _]
  | |- keeps _ (Store.writeNum _ _ _) _ => apply keeps_writeNum; assumption
  | |- keeps _ (Store.writeCell _ _ _ _) _ => apply keeps_writeCell; assumption
  | |- keeps _ (Store.doUpto _ _) _ => apply keeps_doUpto; let x := fresh "j" in intros x
  | |- keeps _ (Store.ret _) _ => apply keeps_ret
  | |- keeps _ (if ?b then _ else _) _ => destruct b
  end.

Lemma keeps_pivot (rows : list Store.loc) (zRow : Store.loc) (r c : nat)
    (b : list nat) (tv : nat) :
  Forall (fresh n0) rows -> fresh n0 zRow ->
  keeps n0 (Store.pivot rows zRow r c b tv) (fun _ => True).
Proof.
  intros F Z. unfold Store.pivot. repeat keep; auto.
Qed.

Lemma keeps_buildRow (numVars tv : nat) (conL : Store.loc) (vi : nat) :
  keeps n0 (Store.buildRow numVars tv conL vi) (fun x => fresh n0 (fst (fst x))).
Proof.
  unfold Store.buildRow. keep. keep. keep.
  - repeat keep; auto.
  - eapply keeps_bind with (P := fun _ => True).
    + destruct t; repeat keep; auto.
    + intros w _. repeat keep; auto.
Qed.

Lemma keeps_buildRows (numVars tv : nat) (conLs : list Store.loc) :
  keeps n0 (Store.buildRows numVars tv conLs)
        (fun x => Forall (fresh n0) (fst (fst x))).
Proof.
  unfold Store.buildRows.
  eapply keeps_bind with (P := fun x => Forall (fresh n0) (fst (fst (fst x)))).
  - apply keeps_forEach; [constructor|].
    intros [[[rows bv] arts] vi] conL F. simpl in F.
    eapply keeps_bind; [apply keeps_buildRow|].
    intros [[row t] v] Hr. simpl in Hr. apply keeps_ret. simpl.
    apply Forall_app. split; auto.
  - intros [[[rows bv] arts] vi] F. now apply keeps_ret.
Qed.

Lemma keeps_buildZRow (numVars tv : nat) (coef : Q -> Q) (objC : Store.loc)
    (rows : list Store.loc) (bv arts : list nat) :
  keeps n0 (Store.buildZRow numVars tv coef objC rows bv arts) (fresh n0).
Proof.
  unfold Store.buildZRow. keep. keep.
  - repeat keep; auto.
  - eapply keeps_bind with (P := fun _ => True).
    + apply keeps_forEach; auto. intros _ a _. now apply keeps_writeNum.
    + intros _ _. repeat keep; auto.
Qed.

Lemma keeps_buildTableau (numVars : nat) (objType : Simplex.sense)
    (objCoeffs constraints : Store.loc) :
  keeps n0 (Store.buildTableau numVars objType objCoeffs constraints)
        (fun st => Forall (fresh n0) (Store.rows st) /\ fresh n0 (Store.zRow st)).
Proof.
  unfold Store.buildTableau.
  eapply keeps_bind with (P := fun _ => True).
  { destruct objType; repeat keep; auto.
    eapply keeps_weaken; [apply keeps_alloc | auto]. }
  intros objC _. keep. keep.
  destruct (Simplex.countKinds v0) as [[sc ec] ac].
  destruct (Simplex.nameVars numVars v0) as [names arts].
  eapply keeps_bind; [apply keeps_buildRows|].
  intros [[rows bv] arts'] F. simpl in F.
  eapply keeps_bind; [apply keeps_buildZRow|].
  intros z Z. apply keeps_ret. simpl. auto.
Qed.

Lemma keeps_doPivot (rows : list Store.loc) (zRow : Store.loc) (v : Store.loopVars)
    (r c tv : nat) :
  Forall (fresh n0) rows -> fresh n0 zRow ->
  keeps n0 (Store.doPivot rows zRow v r c tv) (fun _ => True).
Proof.
  intros F Z. unfold Store.doPivot.
  eapply keeps_bind; [now apply keeps_pivot|].
  intros b _. now apply keeps_ret.
Qed.

Lemma keeps_loopBody (arts : list nat) (tv : nat) (rows : list Store.loc)
    (zRow : Store.loc) (v : Store.loopVars) :
  Forall (fresh n0) rows -> fresh n0 zRow ->
  keeps n0 (Store.loopBody arts tv rows zRow v) (fun _ => True).
Proof.
  intros F Z. unfold Store.loopBody. keep. keep.
  destruct (_ && _).
  - destruct (Simplex.findDualPivotRow _ _); [|now keep].
    destruct (Simplex.findDualPivotCol _ _ _ _); [|now keep].
    eapply keeps_bind; [now apply keeps_doPivot|]. intros; now keep.
  - destruct (Simplex.isOptimal _ _).
    + destruct (Simplex.hasArtificialInBasis _ _ _ _); now keep.
    + destruct (Simplex.findPivotColumn _ _); [|now keep].
      destruct (fst _); [|now keep].
      eapply keeps_bind; [now apply keeps_doPivot|]. intros; now keep.
Qed.

Lemma keeps_loop (fuel : nat) (arts : list nat) (tv : nat) (rows : list Store.loc)
    (zRow : Store.loc) (v : Store.loopVars) :
  Forall (fresh n0) rows -> fresh n0 zRow ->
  keeps n0 (Store.loop fuel arts tv rows zRow v) (fun _ => True).
Proof.
  intros F Z. revert v; induction fuel as [|fuel IH]; intros v; simpl.
  - now keep.
  - eapply keeps_bind; [now apply keeps_loopBody|].
    intros [v'|v'] _; [apply IH | now keep].
Qed.

Lemma keeps_extractSolution (numVars : nat) (rows : list Store.loc) (bv : list nat)
    (names : list Simplex.varName) (tv : nat) :
  keeps n0 (Store.extractSolution numVars rows bv names tv) (fun _ => True).
Proof.
  unfold Store.extractSolution. keep. keep; [|now keep].
  destruct (nth_error names _) as [[k| | |]|]; repeat keep; auto.
Qed.

Lemma keeps_solve (numVars : nat) (objType : Simplex.sense)
    (objCoeffs constraints : Store.loc) :
  keeps n0 (Store.solve numVars objType objCoeffs constraints) (fun _ => True).
Proof.
  unfold Store.solve.
  eapply keeps_bind; [apply keeps_buildTableau|].
  intros st [F Z]. keep.
  eapply keeps_bind; [now apply keeps_loop|].
  intros [lv broke] _.
  eapply keeps_bind; [apply keeps_extractSolution|].
  intros sol _. repeat keep; auto.
Qed.

Lemma keeps_lpLoop (fuel tv : nat) (rows : list Store.loc) (zRow : Store.loc)
    (b : list nat) :
  Forall (fresh n0) rows -> fresh n0 zRow ->
  keeps n0 (Store.lpLoop fuel tv rows zRow b) (fun _ => True).
Proof.
  intros F Z. revert b; induction fuel as [|fuel IH]; intros b; simpl.
  - now keep.
  - keep. keep.
    destruct (BB.selectPivotCol _ _); [|now keep].
    destruct (BB.selectPivotRow _ _ _); [|now keep].
    eapply keeps_bind; [now apply keeps_pivot|]. intros b' _. apply IH.
Qed.

Lemma keeps_solveLP (numVars : nat) (isMax : bool)
    (objCoeffs constraints extra : Store.loc) :
  keeps n0 (Store.solveLP numVars isMax objCoeffs constraints extra) (fun _ => True).
Proof.
  unfold Store.solveLP. keep. keep. keep. keep. keep.
  destruct (BB.countKinds _) as [[sc ec] ac].
  eapply keeps_bind; [apply keeps_buildRows|].
  intros [[rows bv] arts] F. simpl in F.
  eapply keeps_bind; [apply keeps_buildZRow|].
  intros z Z.
  eapply keeps_bind; [now apply keeps_lpLoop|].
  intros [|b] _; [now keep|].
  keep. destruct (BB.artificialRemains _ _ _ _); [now keep|].
  keep. keep.
  - destruct (_ <? _); repeat keep; auto.
  - repeat keep; auto.
Qed.

Lemma keeps_newConstraint (numVars index : nat) (t : rel) (bound : Z) :
  keeps n0 (Store.newConstraint numVars index t bound) (fun _ => True).
Proof.
  unfold Store.newConstraint. keep.
  eapply keeps_bind; [apply keeps_alloc|]. intros con _. repeat keep; auto.
Qed.

Lemma keeps_extend (extra c : Store.loc) :
  keeps n0 (Store.extend extra c) (fun _ => True).
Proof.
  unfold Store.extend. keep.
  eapply keeps_weaken; [apply keeps_alloc | auto].
Qed.

Lemma keeps_visit (numVars : nat) (isMax : bool) (intChecked : nat -> bool)
    (objCoeffs constraints : Store.loc) (s : Store.search) :
  keeps n0 (Store.visit numVars isMax intChecked objCoeffs constraints s)
        (fun _ => True).
Proof.
  unfold Store.visit. destruct (Store.queue s) as [|nd rest]; [now keep|].
  eapply keeps_bind; [apply keeps_solveLP|].
  intros [| |sol z] _; try now keep.
  destruct (_ && _); [now keep|].
  destruct (BB.getFractionalVar _ _ _) as [[i v]|]; [|now keep].
  eapply keeps_bind; [apply keeps_newConstraint|]. intros lc _.
  eapply keeps_bind; [apply keeps_newConstraint|]. intros rc _.
  eapply keeps_bind; [apply keeps_extend|]. intros le _.
  eapply keeps_bind; [apply keeps_extend|]. intros re _.
  now keep.
Qed.

Lemma keeps_explore (numVars : nat) (isMax : bool) (intChecked : nat -> bool)
    (fuel : nat) (objCoeffs constraints : Store.loc) (s : Store.search) :
  keeps n0 (Store.explore numVars isMax intChecked fuel objCoeffs constraints s)
        (fun _ => True).
Proof.
  revert s; induction fuel as [|fuel IH]; intros s; simpl;
    (eapply keeps_bind; [apply keeps_visit|]); intros [s'|] _; try now keep.
  apply IH.
Qed.

Lemma keeps_branchAndBound (numVars : nat) (isMax : bool) (intChecked : nat -> bool)
    (fuel : nat) (objCoeffs constraints : Store.loc) :
  keeps n0 (Store.branchAndBound numVars isMax intChecked fuel objCoeffs constraints)
        (fun _ => True).
Proof.
  unfold Store.branchAndBound. keep. apply keeps_explore.
Qed.

End Keeps.

(** C9.  For every store and every objective and constraint list in it,
    when a solve call returns (the LP engine's [solve], or
    [branchAndBound] after any number of visited nodes) every object that
    existed before the call is as it was: no constraint list, constraint
    record (coefficient array reference, relation, right-hand side),
    coefficient array or objective array of the caller has been changed. *)
Theorem solve_leaves_caller_objects_unchanged :
  (forall numVars objType objCoeffs constraints (h : Store.store),
     firstn (length h)
       (snd (Store.solve numVars objType objCoeffs constraints h)) = h) /\
  (forall numVars isMax intChecked fuel objCoeffs constraints (h : Store.store),
     firstn (length h)
       (snd (Store.branchAndBound numVars isMax intChecked fuel
               objCoeffs constraints h)) = h).
Proof.
  split; intros.
  - destruct (@keeps_solve (length h) numVars objType objCoeffs constraints h (le_n _))
      as (F & _).
    now rewrite F, firstn_all.
  - destruct (@keeps_branchAndBound (length h) numVars isMax intChecked fuel
                objCoeffs constraints h (le_n _)) as (F & _).
    now rewrite F, firstn_all.
Qed.

(** Scenario A laid out in a store: the objective array, and the constraint
    list at location 5 referring to two records and their coefficient
    arrays. *)
Definition storeA : Store.store :=
  [ Store.NumArray [3; 2]%Q;
    Store.NumArray [1; 1]%Q; Store.ConRecord 1 Le 4%Q;
    Store.NumArray [1; 0]%Q; Store.ConRecord 3 Le 3%Q;
    Store.RefArray [2; 4] ].

(** On it the store-passing [solve] returns what [Simplex.solve] returns on
    the values, and the six objects are as before. *)
Lemma store_solve_scenarioA :
  fst (Store.solve 2 Simplex.Max 0 5 storeA) = Simplex.solve 2 scenarioA /\
  firstn 6 (snd (Store.solve 2 Simplex.Max 0 5 storeA)) = storeA.
Proof. split; vm_compute; reflexivity. Qed.

(** Scenario D in a store, and the search on it: the incumbent and the
    statuses of the visited nodes are those of [BB.branchAndBound]. *)
Definition storeD : Store.store :=
  [ Store.NumArray [5; 4]%Q;
    Store.NumArray [6; 4]%Q; Store.ConRecord 1 Le 24%Q;
    Store.NumArray [1; 2]%Q; Store.ConRecord 3 Le 6%Q;
    Store.RefArray [2; 4] ].

Lemma store_search_scenarioD :
  option_map
    (fun s => (Store.bestSolution s, Store.bestZ s,
               map (fun n => (Store.i_id n, Store.i_status n, Store.i_solution n))
                   (Store.nodes s)))
    (fst (Store.branchAndBound 2 true (fun _ => true) 20 0 5 storeD)) =
  option_map
    (fun r => (BB.o_bestSolution r, BB.o_bestZ r,
               map (fun n => (BB.i_id n, BB.i_status n, BB.i_solution n))
                   (BB.o_nodes r)))
    (BB.branchAndBound 2 true (fun _ => true) 20 scenarioD_obj scenarioD_cons) /\
  firstn 6 (snd (Store.branchAndBound 2 true (fun _ => true) 20 0 5 storeD)) = storeD.
Proof. split; vm_compute; reflexivity. Qed.

Unset Implicit Arguments.

(** ** The store-passing code computes what the value-passing code computes *)

(** The contents of the number array at [l]. *)
Definition arr (h : Store.store) (l : Store.loc) : list Q := fst (Store.numbers l h).

(** [runs m h Post]: run in [h], [m] returns a value and a store satisfying
    [Post]. *)
Definition runs {A : Type} (m : Store.M A) (h : Store.store)
    (Post : A -> Store.store -> Prop) : Prop :=
  Post (fst (m h)) (snd (m h)).

Lemma runs_ret {A : Type} (a : A) (h : Store.store) (Post : A -> Store.store -> Prop) :
  Post a h -> runs (Store.ret a) h Post.
Proof. auto. Qed.

Lemma runs_bind {A B : Type} (m : Store.M A) (f : A -> Store.M B) (h : Store.store)
    (P : A -> Store.store -> Prop) (Q : B -> Store.store -> Prop) :
  runs m h P -> (forall a h', P a h' -> runs (f a) h' Q) ->
  runs (Store.bind m f) h Q.
Proof.
  unfold runs, Store.bind. intros Hm Hf.
  destruct (m h) as [a h1]. simpl in *. now apply Hf.
Qed.

Lemma runs_weaken {A : Type} (m : Store.M A) (h : Store.store)
    (P Q : A -> Store.store -> Prop) :
  runs m h P -> (forall a h', P a h' -> Q a h') -> runs m h Q.
Proof. unfold runs. auto. Qed.

Lemma runs_forEach {A S S' : Type} (l : list A) (body : S -> A -> Store.M S)
    (bodyP : S' -> A -> S') (I : Store.store -> S -> S' -> Prop) :
  (forall x h s s', In x l -> I h s s' ->
     runs (body s x) h (fun s2 h2 => I h2 s2 (bodyP s' x))) ->
  forall h s s', I h s s' ->
    runs (Store.forEach l body s) h (fun s2 h2 => I h2 s2 (fold_left bodyP l s')).
Proof.
  induction l as [|x l IH]; intros Hb h s s' Hi; simpl.
  - now apply runs_ret.
  - eapply runs_bind.
    + apply Hb; [now left | exact Hi].
    + intros s2 h2 H2. apply IH; auto. intros; apply Hb; auto. now right.
Qed.

Lemma runs_doUpto {S' : Type} (n : nat) (body : nat -> Store.M unit)
    (bodyP : S' -> nat -> S') (I : Store.store -> S' -> Prop) :
  (forall j h s', j < n -> I h s' -> runs (body j) h (fun _ h2 => I h2 (bodyP s' j))) ->
  forall h s', I h s' ->
    runs (Store.doUpto n body) h (fun _ h2 => I h2 (for_upto n bodyP s')).
Proof.
  intros Hb h s' Hi. unfold Store.doUpto, Store.forUpto, for_upto.
  apply (runs_forEach (seq 0 n) (fun _ j => body j) bodyP
           (fun h _ s' => I h s')); auto.
  intros j h1 _ s1 Hj. apply Hb. apply in_seq in Hj. lia.
Qed.

(** The constraint record at [l] as a value. *)
Definition conAt (h : Store.store) (l : Store.loc) : constraint :=
  fst (Store.loadCon l h).

(** One pass of the tableau-building loop of [solveLP], as a function. *)
Definition rowOf (numVars tv : nat) (con : constraint) (vi : nat) : list Q * nat :=
  let row1 :=
    for_upto numVars (fun row j => upd j (get (coeffs con) j) row)
             (repeat 0%Q (tv + 1)) in
  match type con with
  | Le => (upd tv (rhs con) (upd vi 1%Q row1), vi)
  | Ge => (upd tv (rhs con) (upd (S vi) 1%Q (upd vi (-1)%Q row1)), S vi)
  | Eq => (upd tv (rhs con) (upd vi 1%Q row1), vi)
  end.

Definition addRow (numVars tv : nat)
    (st : list (list Q) * list nat * list nat * nat) (con : constraint)
  : list (list Q) * list nat * list nat * nat :=
  let '(t, bv, arts, vi) := st in
  (t ++ [fst (rowOf numVars tv con vi)], bv ++ [snd (rowOf numVars tv con vi)],
   match type con with Le => arts | _ => arts ++ [snd (rowOf numVars tv con vi)] end,
   S (snd (rowOf numVars tv con vi))).

Lemma buildRows_addRow (numVars tv : nat) (cons : list constraint) :
  BB.buildRows numVars tv cons =
  (fst (fst (fst (fold_left (addRow numVars tv) cons ([], [], [], numVars)))),
   snd (fst (fst (fold_left (addRow numVars tv) cons ([], [], [], numVars)))),
   snd (fst (fold_left (addRow numVars tv) cons ([], [], [], numVars)))).
Proof.
  unfold BB.buildRows.
  match goal with
  | |- context [fold_left ?f cons ?a] =>
      pose proof (fold_left_rel f (addRow numVars tv) eq cons a a eq_refl) as H
  end.
  match type of H with ?A -> _ => assert (HA : A) end.
  { intros [[[t bv] arts] vi] st' con <-. unfold addRow, rowOf.
    destruct (type con); reflexivity. }
  rewrite (H HA).
  destruct (fold_left (addRow numVars tv) cons _) as [[[t bv] arts] vi]. reflexivity.
Qed.

(** The objective row of either script, with [coef] the stored coefficient. *)
Definition zRowOf (numVars tv : nat) (coef : Q -> Q) (objCoeffs : list Q)
    (t : list (list Q)) (bv arts : list nat) : list Q :=
  let z0 := repeat 0%Q (tv + 1) in
  let z1 := for_upto numVars (fun z j => upd j (coef (get objCoeffs j)) z) z0 in
  let z2 := fold_left (fun z artIdx => upd artIdx Simplex.M z) arts z1 in
  for_upto (length bv)
    (fun z i =>
       if includes arts (nth i bv 0) then
         for_upto (tv + 1)
           (fun z j => upd j (nsub (get z j) (nmul Simplex.M (cell t i j))) z) z
       else z)
    z2.

Lemma simplex_zRowOf numVars tv objCoeffs t bv arts :
  Simplex.buildZRow numVars tv objCoeffs t bv arts =
  zRowOf numVars tv nneg objCoeffs t bv arts.
Proof. reflexivity. Qed.

Lemma bb_zRowOf numVars isMax tv objCoeffs t bv arts :
  BB.buildZRow numVars isMax tv objCoeffs t bv arts =
  zRowOf numVars tv (fun c => if isMax then nneg c else c) objCoeffs t bv arts.
Proof. reflexivity. Qed.

Lemma fold_left_snoc_map {A B : Type} (f : A -> B) (l : list A) (acc : list B) :
  fold_left (fun acc x => acc ++ [f x]) l acc = acc ++ map f l.
Proof.
  revert acc; induction l as [|x l IH]; intros acc; simpl.
  - now rewrite app_nil_r.
  - now rewrite IH, <- app_assoc.
Qed.

Lemma fold_left_map {A B C : Type} (f : A -> C -> A) (g : B -> C) (l : list B) (a : A) :
  fold_left f (map g l) a = fold_left (fun a x => f a (g x)) l a.
Proof.
  revert a; induction l as [|x l IH]; intros a; simpl; auto.
Qed.

Section Ownership.

Variable n0 : nat.
Variable h0 : Store.store.

(** The store [h] still holds the first [n0] objects of [h0], and the
    locations [ls] are distinct locations allocated since, holding the
    number arrays [cs]. *)
Definition Live (h : Store.store) (ls : list Store.loc) (cs : list (list Q)) : Prop :=
  firstn n0 h = firstn n0 h0 /\ n0 <= length h /\
  NoDup ls /\ Forall (fun l => n0 <= l < length h) ls /\
  map (arr h) ls = cs.

Lemma nth_error_firstn_lt {A : Type} (n i : nat) (l : list A) :
  i < n -> nth_error (firstn n l) i = nth_error l i.
Proof.
  revert n i; induction l as [|x l IH]; intros [|n] [|i] H; simpl; auto; try lia.
  apply IH. lia.
Qed.

Lemma live_old (h : Store.store) ls cs (l : Store.loc) :
  Live h ls cs -> l < n0 -> nth_error h l = nth_error h0 l.
Proof.
  intros (F & _) Hl.
  rewrite <- (nth_error_firstn_lt n0 l h Hl), F. now apply nth_error_firstn_lt.
Qed.

Lemma live_length h ls cs : Live h ls cs -> length cs = length ls.
Proof. intros (_ & _ & _ & _ & <-). apply length_map. Qed.

Lemma live_nth h ls cs i l :
  Live h ls cs -> nth_error ls i = Some l -> nth i cs [] = arr h l.
Proof.
  intros (_ & _ & _ & _ & <-) E.
  rewrite (nth_error_nth (map (arr h) ls) i [] (map_nth_error _ _ _ E)). reflexivity.
Qed.

Lemma arr_upd (h : Store.store) (l l' : Store.loc) (a : list Q) :
  l < length h ->
  arr (upd l (Store.NumArray a) h) l' = if l =? l' then a else arr h l'.
Proof.
  intros Hl. unfold arr, Store.numbers. simpl.
  destruct (Nat.eqb_spec l l') as [<-|Hne].
  - rewrite (nth_error_nth' _ (Store.NumArray [])) by now rewrite length_upd.
    now rewrite nth_upd_eq.
  - destruct (Nat.ltb_spec l' (length h)).
    + rewrite !(nth_error_nth' _ (Store.NumArray [])) by now rewrite ?length_upd.
      now rewrite nth_upd_neq.
    + assert (E1 : nth_error h l' = None) by now apply nth_error_None.
      assert (E2 : nth_error (upd l (Store.NumArray a) h) l' = None)
        by (apply nth_error_None; now rewrite length_upd).
      now rewrite E1, E2.
Qed.

Lemma upd_nth_same {A : Type} (i : nat) (d : A) (a : list A) :
  upd i (nth i a d) a = a.
Proof.
  revert i; induction a as [|x a IH]; intros [|i]; simpl; auto.
  now rewrite IH.
Qed.

Lemma map_upd_nodup (f : Store.loc -> list Q) (l : Store.loc) (x : list Q)
    (ls : list Store.loc) (i : nat) :
  NoDup ls -> nth_error ls i = Some l ->
  map (fun l' => if l =? l' then x else f l') ls = upd i x (map f ls).
Proof.
  revert i; induction ls as [|y ls IH]; intros [|i] N E; simpl in *; try discriminate.
  - injection E as ->. rewrite Nat.eqb_refl. f_equal.
    inversion N as [|? ? Hn _]; subst.
    apply map_ext_in. intros l' Hl'.
    destruct (Nat.eqb_spec l l'); subst; auto. contradiction.
  - inversion N as [|? ? Hn N']; subst.
    destruct (Nat.eqb_spec l y) as [->|_].
    + exfalso. apply Hn. eapply nth_error_In; eauto.
    + f_equal. now apply IH.
Qed.

(** A write to an owned array is the pure [setCell]. *)
Lemma live_write h ls cs i l j v :
  Live h ls cs -> nth_error ls i = Some l ->
  Live (snd (Store.writeNum l j v h)) ls (setCell cs i j v).
Proof.
  intros Lv E. pose proof (live_nth _ _ _ _ _ Lv E) as Ni.
  destruct Lv as (F & Ln & N & B & M).
  assert (Bl : n0 <= l < length h).
  { rewrite Forall_forall in B. apply B. eapply nth_error_In; eauto. }
  unfold Store.writeNum. simpl.
  destruct (nth_error h l) as [[a|c t r|rs]|] eqn:Hl.
  1: { repeat split.
       - rewrite firstn_upd_fresh; auto; lia.
       - now rewrite length_upd.
       - exact N.
       - eapply Forall_impl; [|exact B]. intros l' ?. now rewrite length_upd.
       - rewrite (map_ext _ _ (fun l' => arr_upd h l l' (upd j v a) (proj2 Bl))).
         rewrite (map_upd_nodup _ _ _ _ _ N E), M. unfold setCell. rewrite Ni.
         unfold arr, Store.numbers. simpl. now rewrite Hl. }
  all: (split; [exact F|]; split; [exact Ln|]; split; [exact N|]; split; [exact B|];
        assert (A0 : arr h l = [])
          by (unfold arr, Store.numbers; simpl; rewrite Hl; reflexivity);
        rewrite M; unfold setCell; rewrite Ni, A0;
        replace (upd j v []) with (nth i cs [])
          by (rewrite Ni, A0; destruct j; reflexivity);
        symmetry; apply upd_nth_same).
Qed.

Lemma arr_app_old (h : Store.store) (o : Store.object) (l : Store.loc) :
  l < length h -> arr (h ++ [o]) l = arr h l.
Proof.
  intros H. unfold arr, Store.numbers. simpl. now rewrite nth_error_app1.
Qed.

Lemma arr_app_new (h : Store.store) (a : list Q) :
  arr (h ++ [Store.NumArray a]) (length h) = a.
Proof.
  unfold arr, Store.numbers. simpl.
  rewrite nth_error_app2, Nat.sub_diag by lia. reflexivity.
Qed.

(** Allocation keeps what is owned. *)
Lemma live_alloc h ls cs (o : Store.object) :
  Live h ls cs -> Live (h ++ [o]) ls cs.
Proof.
  intros (F & Ln & N & B & M). repeat split; auto.
  - rewrite firstn_app_fresh; auto.
  - rewrite length_app. lia.
  - eapply Forall_impl; [|exact B]. intros l' Hl'. cbv beta in *.
    rewrite length_app. simpl. lia.
  - rewrite <- M. apply map_ext_in. intros l' Hl'.
    rewrite Forall_forall in B. apply arr_app_old. now apply B.
Qed.

(** A new number array becomes owned. *)
Lemma live_alloc_own h ls cs (a : list Q) :
  Live h ls cs ->
  Live (h ++ [Store.NumArray a]) (length h :: ls) (a :: cs).
Proof.
  intros Lv. pose proof (live_alloc _ _ _ (Store.NumArray a) Lv) as (F & Ln & N & B & M).
  destruct Lv as (_ & Ln0 & _ & B0 & _).
  repeat split; auto.
  - constructor; auto. intros Hin. rewrite Forall_forall in B0.
    specialize (B0 _ Hin). lia.
  - constructor; auto. rewrite length_app. simpl. lia.
  - simpl. now rewrite arr_app_new, M.
Qed.

Lemma live_tail h l ls c cs : Live h (l :: ls) (c :: cs) -> Live h ls cs.
Proof.
  intros (F & Ln & N & B & M). inversion N; inversion B; subst.
  simpl in M. injection M as _ M. repeat split; auto.
Qed.

Lemma live_snoc h l ls c cs :
  Live h (l :: ls) (c :: cs) -> Live h (ls ++ [l]) (cs ++ [c]).
Proof.
  intros (F & Ln & N & B & M). inversion N; inversion B; subst.
  simpl in M. injection M as Mc M. repeat split; auto.
  - apply NoDup_app; auto.
    + constructor; [intros []|constructor].
    + intros x Hx [<-|[]]. contradiction.
  - apply Forall_app. split; auto.
  - rewrite map_app. simpl. now rewrite M, Mc.
Qed.

Lemma live_nil : n0 <= length h0 -> Live h0 [] [].
Proof. intros H. repeat split; auto; constructor. Qed.

(** Reading what the caller owns, and what the solver owns. *)

Lemma run_numbers_old h ls cs l :
  Live h ls cs -> l < n0 ->
  runs (Store.numbers l) h (fun a h' => a = arr h0 l /\ h' = h).
Proof.
  intros Lv Hl. unfold runs, arr, Store.numbers. simpl.
  now rewrite (live_old _ _ _ _ Lv Hl).
Qed.

Lemma run_readNum_old h ls cs l j :
  Live h ls cs -> l < n0 ->
  runs (Store.readNum l j) h (fun x h' => x = get (arr h0 l) j /\ h' = h).
Proof.
  intros Lv Hl. unfold Store.readNum.
  eapply runs_bind; [now apply (run_numbers_old _ _ _ _ Lv)|].
  intros a h' [-> ->]. now apply runs_ret.
Qed.

Lemma run_readCon_old h ls cs l :
  Live h ls cs -> l < n0 ->
  runs (Store.readCon l) h (fun x h' => x = fst (Store.readCon l h0) /\ h' = h).
Proof.
  intros Lv Hl. unfold runs, Store.readCon. simpl.
  now rewrite (live_old _ _ _ _ Lv Hl).
Qed.

Lemma run_readRefs_old h ls cs l :
  Live h ls cs -> l < n0 ->
  runs (Store.readRefs l) h (fun x h' => x = fst (Store.readRefs l h0) /\ h' = h).
Proof.
  intros Lv Hl. unfold runs, Store.readRefs. simpl.
  now rewrite (live_old _ _ _ _ Lv Hl).
Qed.

Lemma run_numbers_own h ls cs i l :
  Live h ls cs -> nth_error ls i = Some l ->
  runs (Store.numbers l) h (fun a h' => a = nth i cs [] /\ h' = h).
Proof.
  intros Lv E. unfold runs. simpl. split; auto.
  now rewrite (live_nth _ _ _ _ _ Lv E).
Qed.

Lemma run_readNum_own h ls cs i l j :
  Live h ls cs -> nth_error ls i = Some l ->
  runs (Store.readNum l j) h (fun x h' => x = cell cs i j /\ h' = h).
Proof.
  intros Lv E. unfold Store.readNum.
  eapply runs_bind; [now apply (run_numbers_own _ _ _ _ _ Lv E)|].
  intros a h' [-> ->]. now apply runs_ret.
Qed.

Lemma run_writeNum_own h ls cs i l j v :
  Live h ls cs -> nth_error ls i = Some l ->
  runs (Store.writeNum l j v) h (fun _ h' => Live h' ls (setCell cs i j v)).
Proof. intros Lv E. unfold runs. now apply live_write. Qed.

(** The working arrays of a solve: the objective row first, then the rows
    of the tableau. *)
Definition Work (h : Store.store) (zL : Store.loc) (rows : list Store.loc)
    (z : list Q) (t : list (list Q)) : Prop :=
  Live h (zL :: rows) (z :: t).

Lemma work_length h zL rows z t : Work h zL rows z t -> length t = length rows.
Proof. intros W. apply live_length in W. simpl in W. lia. Qed.

Lemma run_readCell h zL rows z t i j :
  Work h zL rows z t ->
  runs (Store.readCell rows i j) h (fun x h' => x = cell t i j /\ h' = h).
Proof.
  intros W. unfold Store.readCell.
  destruct (nth_error rows i) as [l|] eqn:E.
  - apply (run_readNum_own h (zL :: rows) (z :: t) (S i) l j W E).
  - apply runs_ret. split; auto.
    apply nth_error_None in E. rewrite <- (work_length _ _ _ _ _ W) in E.
    now rewrite cell_out_row.
Qed.

Lemma setCell_out (t : list (list Q)) (i j : nat) (v : Q) :
  length t <= i -> setCell t i j v = t.
Proof. intros H. unfold setCell. now apply upd_out. Qed.

Lemma run_writeCell h zL rows z t i j v :
  Work h zL rows z t ->
  runs (Store.writeCell rows i j v) h (fun _ h' => Work h' zL rows z (setCell t i j v)).
Proof.
  intros W. unfold Store.writeCell.
  destruct (nth_error rows i) as [l|] eqn:E.
  - apply (run_writeNum_own h (zL :: rows) (z :: t) (S i) l j v W E).
  - apply runs_ret.
    apply nth_error_None in E. rewrite <- (work_length _ _ _ _ _ W) in E.
    now rewrite setCell_out.
Qed.

Lemma run_readZ h zL rows z t j :
  Work h zL rows z t ->
  runs (Store.readNum zL j) h (fun x h' => x = get z j /\ h' = h).
Proof.
  intros W. apply (run_readNum_own h (zL :: rows) (z :: t) 0 zL j W eq_refl).
Qed.

Lemma run_numbersZ h zL rows z t :
  Work h zL rows z t ->
  runs (Store.numbers zL) h (fun x h' => x = z /\ h' = h).
Proof.
  intros W. apply (run_numbers_own h (zL :: rows) (z :: t) 0 zL W eq_refl).
Qed.

Lemma run_writeZ h zL rows z t j v :
  Work h zL rows z t ->
  runs (Store.writeNum zL j v) h (fun _ h' => Work h' zL rows (upd j v z) t).
Proof.
  intros W. apply (run_writeNum_own h (zL :: rows) (z :: t) 0 zL j v W eq_refl).
Qed.

Lemma firstn_S_skipn {A : Type} (d : A) (k n : nat) (cs : list A) :
  k < length cs ->
  firstn (S n) (skipn k cs) = nth k cs d :: firstn n (skipn (S k) cs).
Proof.
  revert k; induction cs as [|c cs IH]; intros [|k] H; simpl in *; try lia; auto.
  apply IH. lia.
Qed.

Lemma run_snapshot_acc h ls cs (rows : list Store.loc) (k : nat) (acc : list (list Q)) :
  Live h ls cs ->
  (forall i, nth_error rows i = nth_error ls (k + i)) ->
  runs (Store.forEach rows
          (fun acc l => Store.bind (Store.numbers l) (fun a => Store.ret (acc ++ [a])))
          acc) h
       (fun x h' => x = acc ++ firstn (length rows) (skipn k cs) /\ h' = h).
Proof.
  intros Lv. revert k acc. induction rows as [|l rows IH]; intros k acc Hk; simpl.
  - apply runs_ret. now rewrite app_nil_r.
  - pose proof (Hk 0) as E0. simpl in E0. rewrite Nat.add_0_r in E0. symmetry in E0.
    apply runs_bind with (P := fun x h' => x = acc ++ [nth k cs []] /\ h' = h).
    + eapply runs_bind; [apply (run_numbers_own _ _ _ _ _ Lv E0)|].
      intros a h' [-> ->]. apply runs_ret. split; reflexivity.
    + intros x h' [-> ->].
      eapply runs_weaken; [apply (IH (S k))|].
      * intros i. specialize (Hk (S i)). simpl in Hk.
        now replace (S k + i) with (k + S i) by lia.
      * intros x h' [-> ->]. split; auto.
        rewrite <- app_assoc. f_equal. simpl app.
        assert (Hlt : k < length cs).
        { rewrite (live_length _ _ _ Lv). apply nth_error_Some. congruence. }
        symmetry. apply firstn_S_skipn. exact Hlt.
Qed.

Lemma run_snapshot h zL rows z t :
  Work h zL rows z t ->
  runs (Store.snapshot rows) h (fun x h' => x = t /\ h' = h).
Proof.
  intros W. unfold Store.snapshot.
  eapply runs_weaken; [apply (run_snapshot_acc h (zL :: rows) (z :: t) rows 1 [] W)|].
  - intros i. reflexivity.
  - intros x h' [-> ->]. split; auto. simpl.
    rewrite <- (work_length _ _ _ _ _ W). apply firstn_all.
Qed.

(** The three loops of the store-passing [pivot] compute [Simplex.pivot]. *)
Lemma run_pivot h zL rows z t r c b tv :
  Work h zL rows z t ->
  runs (Store.pivot rows zL r c b tv) h
       (fun b' h' =>
          b' = snd (Simplex.pivot t z r c b tv) /\
          Work h' zL rows (snd (fst (Simplex.pivot t z r c b tv)))
                          (fst (fst (Simplex.pivot t z r c b tv)))).
Proof.
  intros W. unfold Store.pivot, Simplex.pivot.
  eapply runs_bind; [apply (run_readCell _ _ _ _ _ _ _ W)|].
  intros p h1 [-> ->].
  eapply runs_bind.
  { apply (runs_doUpto (tv + 1) _
             (fun s j => setCell s r j (ndiv (cell s r j) (cell t r c)))
             (fun h s => Work h zL rows z s)); [|exact W].
    intros j h1 s _ W1.
    eapply runs_bind; [apply (run_readCell _ _ _ _ _ _ _ W1)|].
    intros x h2 [-> ->]. now apply run_writeCell. }
  intros u1 h1 W1. cbv beta in W1.
  set (t1 := for_upto (tv + 1) _ t) in *.
  rewrite <- (work_length _ _ _ _ _ W1).
  eapply runs_bind.
  { apply (runs_doUpto (length t1) _
             (fun t i =>
                if i =? r then t
                else
                  let factor := cell t i c in
                  for_upto (tv + 1)
                    (fun t j => setCell t i j
                                  (nsub (cell t i j) (nmul factor (cell t r j)))) t)
             (fun h s => Work h zL rows z s)); [|exact W1].
    intros i h2 s _ W2.
    destruct (i =? r); [now apply runs_ret|].
    eapply runs_bind; [apply (run_readCell _ _ _ _ _ _ _ W2)|].
    intros f h3 [-> ->]. cbv zeta.
    apply (runs_doUpto (tv + 1) _
             (fun t j => setCell t i j
                           (nsub (cell t i j) (nmul (cell s i c) (cell t r j))))
             (fun h s => Work h zL rows z s)); [|exact W2].
    intros j h3 s3 _ W3.
    eapply runs_bind; [apply (run_readCell _ _ _ _ _ _ _ W3)|].
    intros x h4 [-> ->].
    eapply runs_bind; [apply (run_readCell _ _ _ _ _ _ _ W3)|].
    intros y h4 [-> ->]. now apply run_writeCell. }
  intros u2 h2 W2. cbv beta in W2.
  set (t2 := for_upto (length t1) _ t1) in *.
  eapply runs_bind; [apply (run_readZ _ _ _ _ _ _ W2)|].
  intros zf h3 [-> ->].
  eapply runs_bind.
  { apply (runs_doUpto (tv + 1) _
             (fun s j => upd j (nsub (get s j) (nmul (get z c) (cell t2 r j))) s)
             (fun h s => Work h zL rows s t2)); [|exact W2].
    intros j h3 s _ W3.
    eapply runs_bind; [apply (run_readZ _ _ _ _ _ _ W3)|].
    intros x h4 [-> ->].
    eapply runs_bind; [apply (run_readCell _ _ _ _ _ _ _ W3)|].
    intros y h4 [-> ->]. now apply run_writeZ. }
  intros u3 h3 W3. cbv beta in W3. apply runs_ret. simpl. split; auto.
Qed.

(** The loop variables of the store-passing code and the loop state of the
    value-passing code describe the same situation. *)
Definition Matches (zL : Store.loc) (rows : list Store.loc)
    (h : Store.store) (v : Store.loopVars) (s : Simplex.loopState) : Prop :=
  Work h zL rows (Simplex.l_zRow s) (Simplex.l_tableau s) /\
  Store.v_basicVars v = Simplex.l_basicVars s /\
  Store.v_useDualSimplex v = Simplex.l_useDualSimplex s /\
  Store.v_steps v = Simplex.l_steps s /\
  Store.v_iteration v = Simplex.l_iteration s.

Definition MatchesEnd (zL : Store.loc) (rows : list Store.loc)
    (h : Store.store) (e : Store.passEnd) (e' : Simplex.passEnd) : Prop :=
  match e, e' with
  | Store.Continue v, Simplex.Continue s => Matches zL rows h v s
  | Store.Break v, Simplex.Break s => Matches zL rows h v s
  | _, _ => False
  end.

Lemma run_doPivot h zL rows v s r c tv :
  Matches zL rows h v s ->
  runs (Store.doPivot rows zL v r c tv) h
       (fun v' h' => Matches zL rows h' v' (Simplex.doPivot s r c tv)).
Proof.
  intros (W & Eb & Ed & Es & Ei).
  unfold Store.doPivot, Simplex.doPivot.
  eapply runs_bind; [apply (run_pivot _ _ _ _ _ r c (Store.v_basicVars v) tv W)|].
  intros b' h1 [-> W1]. apply runs_ret. rewrite Eb in *.
  destruct (Simplex.pivot _ _ r c _ tv) as [[t1 z1] b1].
  simpl in *. split; [exact W1|]. repeat split; auto.
Qed.

Lemma run_loopBody h zL rows arts tv v s :
  Matches zL rows h v s ->
  runs (Store.loopBody arts tv rows zL v) h
       (fun e h' => MatchesEnd zL rows h' e (Simplex.loopBody arts tv s)).
Proof.
  intros Mt. pose proof Mt as (W & Eb & Ed & Es & Ei).
  unfold Store.loopBody, Simplex.loopBody.
  eapply runs_bind; [apply (run_snapshot _ _ _ _ _ W)|].
  intros t' h1 [-> ->].
  eapply runs_bind; [apply (run_numbersZ _ _ _ _ _ W)|].
  intros z' h1 [-> ->].
  cbn [Store.v_basicVars Store.v_useDualSimplex Store.v_steps Store.v_iteration
       Simplex.l_tableau Simplex.l_zRow Simplex.l_basicVars Simplex.l_useDualSimplex
       Simplex.l_steps Simplex.l_iteration].
  rewrite Eb, Ed, Es, Ei.
  set (t := Simplex.l_tableau s) in *. set (z := Simplex.l_zRow s) in *.
  assert (MP : forall ty why,
             Matches zL rows h
               (Store.push (Store.mkVars (Simplex.l_basicVars s)
                              (Simplex.l_useDualSimplex s) (Simplex.l_steps s)
                              (S (Simplex.l_iteration s))) ty why)
               (Simplex.push (Simplex.mkLoop t z (Simplex.l_basicVars s)
                                (Simplex.l_useDualSimplex s) (Simplex.l_steps s)
                                (S (Simplex.l_iteration s))) ty why)).
  { intros ty why. split; [exact W|]. repeat split; auto. }
  destruct (Simplex.l_useDualSimplex s && Simplex.hasNegativeRHS t).
  - destruct (Simplex.findDualPivotRow t tv) as [pr|].
    + destruct (Simplex.findDualPivotCol t z pr tv) as [pc|].
      * eapply runs_bind; [apply (run_doPivot _ _ _ _ _ _ _ _ (MP _ _))|].
        intros v' h1 M1. apply runs_ret. exact M1.
      * apply runs_ret. apply MP.
    + apply runs_ret. simpl. split; [exact W|]. repeat split; auto.
  - destruct (Simplex.isOptimal z tv).
    + destruct (Simplex.hasArtificialInBasis t _ arts tv);
        apply runs_ret; apply MP.
    + destruct (Simplex.findPivotColumn z tv) as [pc|].
      * destruct (fst (Simplex.findPivotRow t pc tv)) as [pr|].
        -- eapply runs_bind; [apply (run_doPivot _ _ _ _ _ _ _ _ (MP _ _))|].
           intros v' h1 M1. apply runs_ret. exact M1.
        -- apply runs_ret. apply MP.
      * apply runs_ret. apply MP.
Qed.

Lemma run_loop zL rows arts tv fuel :
  forall h v s, Matches zL rows h v s ->
  runs (Store.loop fuel arts tv rows zL v) h
       (fun x h' =>
          snd x = snd (Simplex.loop fuel arts tv s) /\
          Matches zL rows h' (fst x) (fst (Simplex.loop fuel arts tv s))).
Proof.
  induction fuel as [|fuel IH]; intros h v s Mt; simpl.
  - apply runs_ret. simpl. auto.
  - eapply runs_bind; [apply (run_loopBody _ _ _ _ _ _ _ Mt)|].
    intros e h1 Me. unfold MatchesEnd in Me.
    destruct e as [v'|v'], (Simplex.loopBody arts tv s) as [s'|s']; try contradiction.
    + now apply IH.
    + apply runs_ret. simpl. auto.
Qed.

Lemma run_alloc_own h ls cs (a : list Q) :
  Live h ls cs ->
  runs (Store.alloc (Store.NumArray a)) h
       (fun l h' => l = length h /\ Live h' (l :: ls) (a :: cs)).
Proof.
  intros Lv. unfold runs. simpl. split; auto. now apply live_alloc_own.
Qed.

Lemma run_alloc h ls cs (o : Store.object) :
  Live h ls cs ->
  runs (Store.alloc o) h (fun l h' => l = length h /\ Live h' ls cs).
Proof.
  intros Lv. unfold runs. simpl. split; auto. now apply live_alloc.
Qed.

(** A constraint record of the caller, with its coefficient array. *)
Definition validCon (l : Store.loc) : Prop :=
  l < n0 /\ fst (fst (fst (Store.readCon l h0))) < n0.

Lemma run_loadCon h ls cs l :
  Live h ls cs -> validCon l ->
  runs (Store.loadCon l) h (fun x h' => x = conAt h0 l /\ h' = h).
Proof.
  intros Lv [Hl Hc]. unfold Store.loadCon, conAt, Store.loadCon.
  eapply runs_bind; [apply (run_readCon_old _ _ _ _ Lv Hl)|].
  intros x h' [-> ->].
  unfold Store.bind at 2.
  destruct (Store.readCon l h0) as [[[c t] r] hh] eqn:E.
  assert (hh = h0) by (unfold Store.readCon in E; now injection E). subst hh.
  simpl in *.
  eapply runs_bind; [apply (run_numbers_old _ _ _ _ Lv Hc)|].
  intros a h' [-> ->]. apply runs_ret. split; auto.
Qed.

Lemma run_loadCons h ls cs conLs :
  Live h ls cs -> Forall validCon conLs ->
  runs (Store.loadCons conLs) h (fun x h' => x = map (conAt h0) conLs /\ h' = h).
Proof.
  intros Lv V. unfold Store.loadCons.
  eapply runs_weaken.
  - apply (runs_forEach conLs _ (fun acc l => acc ++ [conAt h0 l])
             (fun h' acc acc' => h' = h /\ acc = acc')).
    + intros l h1 acc acc' Hin [-> ->].
      rewrite Forall_forall in V.
      eapply runs_bind; [apply (run_loadCon _ _ _ _ Lv (V l Hin))|].
      intros x h' [-> ->]. apply runs_ret. auto.
    + split; reflexivity.
  - intros x h' [-> ->]. split; auto. now rewrite fold_left_snoc_map.
Qed.

Lemma conAt_fields l :
  conAt h0 l =
  mkCon (arr h0 (fst (fst (fst (Store.readCon l h0)))))
        (snd (fst (fst (Store.readCon l h0))))
        (snd (fst (Store.readCon l h0))).
Proof.
  unfold conAt, Store.loadCon, Store.bind.
  destruct (Store.readCon l h0) as [[[c t] r] hh] eqn:E.
  assert (hh = h0) by (unfold Store.readCon in E; now injection E). subst hh.
  reflexivity.
Qed.

(** The store-passing row builder writes the row that [rowOf] computes and
    makes it the last owned array. *)
Lemma run_buildRow h rows t numVars tv conL vi :
  Live h rows t -> validCon conL ->
  runs (Store.buildRow numVars tv conL vi) h
       (fun x h' =>
          snd (fst x) = type (conAt h0 conL) /\
          snd x = snd (rowOf numVars tv (conAt h0 conL) vi) /\
          Live h' (rows ++ [fst (fst x)])
               (t ++ [fst (rowOf numVars tv (conAt h0 conL) vi)])).
Proof.
  intros Lv [Hl Hc]. unfold Store.buildRow.
  eapply runs_bind; [apply (run_readCon_old _ _ _ _ Lv Hl)|].
  intros x h' [-> ->].
  rewrite (conAt_fields conL).
  destruct (fst (Store.readCon conL h0)) as [[c ty] r]. simpl in Hc |- *.
  unfold rowOf. simpl coeffs. simpl type. simpl rhs.
  eapply runs_bind; [apply (run_alloc_own _ _ _ (repeat 0%Q (tv + 1)) Lv)|].
  intros row h1 [-> L1].
  eapply runs_bind.
  { apply (runs_doUpto numVars _ (fun s j => upd j (get (arr h0 c) j) s)
             (fun h' s => Live h' (length h :: rows) (s :: t))); [|exact L1].
    intros j h2 s _ L2.
    eapply runs_bind; [apply (run_readNum_old _ _ _ _ _ L2 Hc)|].
    intros y h3 [-> ->].
    apply (run_writeNum_own _ _ _ 0 _ _ _ L2 eq_refl). }
  intros u h2 L2. cbv beta in L2.
  set (row1 := for_upto numVars _ _) in *.
  destruct ty.
  - apply runs_bind with
      (P := fun v h' => v = vi /\ Live h' (length h :: rows) (upd vi 1%Q row1 :: t)).
    { eapply runs_bind; [apply (run_writeNum_own _ _ _ 0 _ vi 1%Q L2 eq_refl)|].
      intros u' h3 L3. apply runs_ret. exact (conj (eq_refl vi) L3). }
    intros v h3 [-> L3].
    eapply runs_bind; [apply (run_writeNum_own _ _ _ 0 _ tv r L3 eq_refl)|].
    intros u' h4 L4. apply runs_ret. simpl.
    split; [reflexivity|]. split; [reflexivity|]. apply live_snoc. exact L4.
  - apply runs_bind with
      (P := fun v h' => v = S vi /\
              Live h' (length h :: rows) (upd (S vi) 1%Q (upd vi (-1)%Q row1) :: t)).
    { eapply runs_bind; [apply (run_writeNum_own _ _ _ 0 _ vi (-1)%Q L2 eq_refl)|].
      intros u' h3 L3.
      eapply runs_bind; [apply (run_writeNum_own _ _ _ 0 _ (S vi) 1%Q L3 eq_refl)|].
      intros u'' h4 L4. apply runs_ret. exact (conj (eq_refl (S vi)) L4). }
    intros v h3 [-> L3].
    eapply runs_bind; [apply (run_writeNum_own _ _ _ 0 _ tv r L3 eq_refl)|].
    intros u' h4 L4. apply runs_ret. simpl.
    split; [reflexivity|]. split; [reflexivity|]. apply live_snoc. exact L4.
  - apply runs_bind with
      (P := fun v h' => v = vi /\ Live h' (length h :: rows) (upd vi 1%Q row1 :: t)).
    { eapply runs_bind; [apply (run_writeNum_own _ _ _ 0 _ vi 1%Q L2 eq_refl)|].
      intros u' h3 L3. apply runs_ret. exact (conj (eq_refl vi) L3). }
    intros v h3 [-> L3].
    eapply runs_bind; [apply (run_writeNum_own _ _ _ 0 _ tv r L3 eq_refl)|].
    intros u' h4 L4. apply runs_ret. simpl.
    split; [reflexivity|]. split; [reflexivity|]. apply live_snoc. exact L4.
Qed.

Lemma run_buildRows h numVars tv conLs :
  Live h [] [] -> Forall validCon conLs ->
  runs (Store.buildRows numVars tv conLs) h
       (fun x h' =>
          snd (fst x) = snd (fst (BB.buildRows numVars tv (map (conAt h0) conLs))) /\
          snd x = snd (BB.buildRows numVars tv (map (conAt h0) conLs)) /\
          Live h' (fst (fst x))
               (fst (fst (BB.buildRows numVars tv (map (conAt h0) conLs))))).
Proof.
  intros Lv V. unfold Store.buildRows.
  rewrite buildRows_addRow, fold_left_map. simpl fst. simpl snd.
  eapply runs_bind.
  - refine (runs_forEach conLs _
             (fun st l => addRow numVars tv st (conAt h0 l))
             (fun h' x y =>
                Live h' (fst (fst (fst x))) (fst (fst (fst y))) /\
                snd (fst (fst x)) = snd (fst (fst y)) /\
                snd (fst x) = snd (fst y) /\ snd x = snd y)
             _ h _ ([], [], [], numVars) _).
    + intros l h1 [[[rows bv] arts] vi] [[[t bv'] arts'] vi'] Hin (L1 & E1 & E2 & E3).
      simpl in L1, E1, E2, E3. subst bv' arts' vi'.
      rewrite Forall_forall in V.
      eapply runs_bind; [apply (run_buildRow _ _ _ numVars tv l vi L1 (V l Hin))|].
      intros [[row ty] v] h2 (T & E & L2). simpl in T, E, L2. subst ty v.
      apply runs_ret. simpl. split; [exact L2|]. repeat split; auto.
    + simpl. split; [exact Lv|]. repeat split; auto.
  - intros [[[rows bv] arts] vi] h1 (L1 & E1 & E2 & E3). simpl in L1, E1, E2, E3.
    apply runs_ret. simpl. split; [exact E1|]. split; [exact E2|]. exact L1.
Qed.

Lemma run_buildZRow h rows t numVars tv coef objC bv arts :
  Live h rows t -> objC < n0 ->
  runs (Store.buildZRow numVars tv coef objC rows bv arts) h
       (fun zL h' => Work h' zL rows (zRowOf numVars tv coef (arr h0 objC) t bv arts) t).
Proof.
  intros Lv Ho. unfold Store.buildZRow, zRowOf.
  eapply runs_bind; [apply (run_alloc_own _ _ _ (repeat 0%Q (tv + 1)) Lv)|].
  intros zL h1 [-> W1]. fold (Work h1 (length h) rows (repeat 0%Q (tv + 1)) t) in W1.
  eapply runs_bind.
  { apply (runs_doUpto numVars _ (fun s j => upd j (coef (get (arr h0 objC) j)) s)
             (fun h' s => Work h' (length h) rows s t)); [|exact W1].
    intros j h2 s _ W2.
    eapply runs_bind; [apply (run_readNum_old _ _ _ _ _ W2 Ho)|].
    intros c h3 [-> ->]. now apply run_writeZ. }
  intros u1 h2 W2. cbv beta in W2.
  eapply runs_bind.
  { apply (runs_forEach arts _ (fun s a => upd a Simplex.M s)
             (fun h' (_ : unit) s => Work h' (length h) rows s t)); [|exact W2].
    intros a h3 u s _ W3.
    eapply runs_weaken; [apply (run_writeZ _ _ _ _ _ a Simplex.M W3)|].
    intros u' h4 W4. exact W4. }
  intros u2 h3 W3. cbv beta in W3.
  eapply runs_bind.
  { apply (runs_doUpto (length bv) _
             (fun s i =>
                if includes arts (nth i bv 0) then
                  for_upto (tv + 1)
                    (fun s j => upd j (nsub (get s j) (nmul Simplex.M (cell t i j))) s) s
                else s)
             (fun h' s => Work h' (length h) rows s t)); [|exact W3].
    intros i h4 s _ W4.
    destruct (includes arts (nth i bv 0)); [|now apply runs_ret].
    apply (runs_doUpto (tv + 1) _
             (fun s j => upd j (nsub (get s j) (nmul Simplex.M (cell t i j))) s)
             (fun h' s => Work h' (length h) rows s t)); [|exact W4].
    intros j h5 s5 _ W5.
    eapply runs_bind; [apply (run_readZ _ _ _ _ _ _ W5)|].
    intros x h6 [-> ->].
    eapply runs_bind; [apply (run_readCell _ _ _ _ _ _ _ W5)|].
    intros y h6 [-> ->]. now apply run_writeZ. }
  intros u3 h4 W4. cbv beta in W4. apply runs_ret. exact W4.
Qed.

Lemma run_extractSolution h zL rows z t numVars bv names tv :
  Work h zL rows z t ->
  runs (Store.extractSolution numVars rows bv names tv) h
       (fun sol h' =>
          Live h' (sol :: zL :: rows)
               (Simplex.extractSolution numVars t bv names tv :: z :: t)).
Proof.
  intros W. unfold Store.extractSolution, Simplex.extractSolution.
  eapply runs_bind; [apply (run_alloc_own _ _ _ (repeat 0%Q numVars) W)|].
  intros sol h1 [-> L1].
  eapply runs_bind.
  { apply (runs_doUpto (length bv) _
             (fun s i =>
                match nth_error names (nth i bv 0) with
                | Some (Simplex.VarX k) => upd (k - 1) (round4 (cell t i tv)) s
                | _ => s
                end)
             (fun h' s => Live h' (length h :: zL :: rows) (s :: z :: t))); [|exact L1].
    intros i h2 s _ L2.
    destruct (nth_error names (nth i bv 0)) as [[k| | |]|]; try now apply runs_ret.
    eapply runs_bind; [apply (run_readCell _ _ _ _ _ _ _ (live_tail _ _ _ _ _ L2))|].
    intros x h3 [-> ->].
    apply (run_writeNum_own _ _ _ 0 _ _ _ L2 eq_refl). }
  intros u h2 L2. cbv beta in L2. apply runs_ret. exact L2.
Qed.

End Ownership.

(** The caller's data: an objective array and an array of constraint
    records, all inside the store, each record with its coefficient array. *)
Definition validInputs (h0 : Store.store) (objL consL : Store.loc) : Prop :=
  objL < length h0 /\ consL < length h0 /\
  Forall (validCon (length h0) h0) (fst (Store.readRefs consL h0)).

(** The data of a solve as a value. *)
Definition dataAt (h0 : Store.store) (objType : Simplex.sense)
    (objL consL : Store.loc) : Simplex.data :=
  Simplex.mkData objType (arr h0 objL)
    (map (conAt h0) (fst (Store.readRefs consL h0))).

(** [h1] is [h0] with possibly more objects after it. *)
Definition extends (h0 h1 : Store.store) : Prop :=
  length h0 <= length h1 /\ forall l, l < length h0 -> nth_error h1 l = nth_error h0 l.

Lemma extends_refl h0 : extends h0 h0.
Proof. split; auto. Qed.

Lemma extends_app h0 o : extends h0 (h0 ++ [o]).
Proof.
  split.
  - rewrite length_app. lia.
  - intros l Hl. now apply nth_error_app1.
Qed.

Lemma extends_arr h0 h1 l : extends h0 h1 -> l < length h0 -> arr h1 l = arr h0 l.
Proof.
  intros [_ E] Hl. unfold arr, Store.numbers. simpl. now rewrite (E l Hl).
Qed.

Lemma extends_readCon h0 h1 l :
  extends h0 h1 -> l < length h0 ->
  fst (Store.readCon l h1) = fst (Store.readCon l h0).
Proof.
  intros [_ E] Hl. unfold Store.readCon. simpl. now rewrite (E l Hl).
Qed.

Lemma extends_readRefs h0 h1 l :
  extends h0 h1 -> l < length h0 ->
  fst (Store.readRefs l h1) = fst (Store.readRefs l h0).
Proof.
  intros [_ E] Hl. unfold Store.readRefs. simpl. now rewrite (E l Hl).
Qed.

Lemma extends_validCon h0 h1 l :
  extends h0 h1 -> validCon (length h0) h0 l -> validCon (length h1) h1 l.
Proof.
  intros X [Hl Hc]. unfold validCon.
  rewrite (extends_readCon _ _ _ X Hl). destruct X as [L _]. lia.
Qed.

Lemma extends_conAt h0 h1 l :
  extends h0 h1 -> validCon (length h0) h0 l -> conAt h1 l = conAt h0 l.
Proof.
  intros X [Hl Hc]. rewrite !conAt_fields.
  rewrite (extends_readCon _ _ _ X Hl), (extends_arr _ _ _ X Hc). reflexivity.
Qed.

(** [buildTableau] over the store builds the arrays that [buildTableau]
    over values returns. *)
Lemma run_buildTableau numVars objType objL consL h0 :
  validInputs h0 objL consL ->
  runs (Store.buildTableau numVars objType objL consL) h0
       (fun st h' =>
          let stP := Simplex.buildTableau numVars (dataAt h0 objType objL consL) in
          (exists h1, Work (length h1) h1 h' (Store.zRow st) (Store.rows st)
                           (Simplex.zRow stP) (Simplex.tableau stP)) /\
          Store.varNames st = Simplex.varNames stP /\
          Store.basicVars st = Simplex.basicVars stP /\
          Store.artificialVarIndices st = Simplex.artificialVarIndices stP /\
          Store.methodsUsed st = Simplex.methodsUsed stP /\
          Store.wasMinimization st = Simplex.wasMinimization stP /\
          Store.totalVars st = Simplex.totalVars stP).
Proof.
  intros (Ho & Hc & V). cbv zeta.
  remember (Simplex.buildTableau numVars (dataAt h0 objType objL consL)) as stP eqn:EP.
  unfold Simplex.buildTableau, dataAt in EP.
  cbn [Simplex.constraints Simplex.objType Simplex.objCoeffs] in EP.
  unfold Store.buildTableau. cbv zeta.
  set (wasMin := match objType with Simplex.Min => true | Simplex.Max => false end) in *.
  set (objCP := if wasMin then map nneg (arr h0 objL) else arr h0 objL) in *.
  set (conLs := fst (Store.readRefs consL h0)) in *.
  set (cons := map (conAt h0) conLs) in *.
  apply runs_bind with
    (P := fun objC h1 => extends h0 h1 /\ objC < length h1 /\ arr h1 objC = objCP).
  { unfold objCP. destruct wasMin.
    - unfold runs, Store.bind. simpl. split; [apply extends_app|]. split.
      + rewrite length_app. simpl. lia.
      + apply arr_app_new.
    - apply runs_ret. split; [apply extends_refl|]. auto. }
  intros objC h1 (X & HoC & EoC).
  assert (L0 : Live (length h1) h1 h1 [] []) by (apply live_nil; lia).
  assert (Hc1 : consL < length h1) by (destruct X; lia).
  eapply runs_bind; [apply (run_readRefs_old _ _ _ _ _ _ L0 Hc1)|].
  intros conLs' h2 [-> ->].
  rewrite (extends_readRefs _ _ _ X Hc). fold conLs.
  assert (V1 : Forall (validCon (length h1) h1) conLs).
  { eapply Forall_impl; [|exact V]. intros l. apply extends_validCon. exact X. }
  assert (EC : map (conAt h1) conLs = cons).
  { apply map_ext_in. intros l Hl. rewrite Forall_forall in V.
    apply (extends_conAt _ _ _ X (V l Hl)). }
  eapply runs_bind; [apply (run_loadCons _ _ _ _ _ _ L0 V1)|].
  intros cons' h2 [-> ->]. rewrite EC.
  destruct (Simplex.countKinds cons) as [[sc ec] ac].
  pose proof (buildRows_eq numVars (numVars + sc + ec + ac) cons) as BE.
  destruct (Simplex.nameVars numVars cons) as [names arts].
  eapply runs_bind;
    [apply (run_buildRows _ _ _ numVars (numVars + sc + ec + ac) _ L0 V1)|].
  intros [[rows bv] arts'] h2 (E1 & E2 & L2).
  rewrite EC, BE in E1, E2, L2.
  destruct (Simplex.buildRows numVars (numVars + sc + ec + ac) cons) as [tb bvs].
  cbn [fst snd] in *. subst bv arts'.
  eapply runs_bind; [apply (run_buildZRow _ _ _ _ _ numVars _ nneg _ bvs arts L2 HoC)|].
  intros zL h3 W3. rewrite EoC in W3.
  apply runs_ret. subst stP.
  cbn [Store.zRow Store.rows Store.varNames Store.basicVars Store.artificialVarIndices
       Store.methodsUsed Store.wasMinimization Store.totalVars
       Simplex.zRow Simplex.tableau Simplex.varNames Simplex.basicVars
       Simplex.artificialVarIndices Simplex.methodsUsed Simplex.wasMinimization
       Simplex.totalVars].
  split; [|repeat split; auto].
  exists h1. exact W3.
Qed.

(** For every store holding the caller's data, the store-passing [solve]
    returns the record that [Simplex.solve] computes from the data as
    values. *)
Theorem store_solve_computes numVars objType objL consL h0 :
  validInputs h0 objL consL ->
  fst (Store.solve numVars objType objL consL h0) =
  Simplex.solve numVars (dataAt h0 objType objL consL).
Proof.
  intros V.
  change (runs (Store.solve numVars objType objL consL) h0
            (fun r _ => r = Simplex.solve numVars (dataAt h0 objType objL consL))).
  unfold Store.solve.
  eapply runs_bind; [apply (run_buildTableau numVars objType objL consL h0 V)|].
  intros st h1 ([hb W] & En & Eb & Ea & Em & Ew & Et). cbv zeta in *.
  set (d := dataAt h0 objType objL consL) in *.
  set (stP := Simplex.buildTableau numVars d) in *.
  eapply runs_bind; [apply (run_snapshot _ _ _ _ _ _ _ W)|].
  intros t0 h2 [-> ->].
  rewrite Ea, Et, Eb, Em, En, Ew.
  eapply runs_bind.
  { apply (run_loop (length hb) hb (Store.zRow st) (Store.rows st)
             (Simplex.artificialVarIndices stP) (Simplex.totalVars stP)
             Simplex.maxIterations h1 _
             (Simplex.mkLoop (Simplex.tableau stP) (Simplex.zRow stP)
                (Simplex.basicVars stP)
                (Simplex.hasNegativeRHS (Simplex.tableau stP))
                [Simplex.mkStep Simplex.StepInitial Simplex.InitialTableau] 0)).
    split; [exact W|]. repeat split; auto. }
  intros [v broke] h2 (Eb2 & (W2 & Fb & Fd & Fs & Fi)). simpl in Eb2, W2, Fb, Fd, Fs, Fi.
  fold (Simplex.run numVars d) in *.
  set (s := fst (Simplex.run numVars d)) in *.
  eapply runs_bind; [apply (run_extractSolution _ _ _ _ _ _ _ numVars
                              (Store.v_basicVars v) (Simplex.varNames stP)
                              (Simplex.totalVars stP) W2)|].
  intros sol h3 L3.
  eapply runs_bind; [apply (run_numbers_own _ _ _ _ _ 0 sol L3 eq_refl)|].
  intros solv h4 [-> ->].
  eapply runs_bind; [apply (run_readNum_own _ _ _ _ _ 1 (Store.zRow st)
                              (Simplex.totalVars stP) L3 eq_refl)|].
  intros zv h4 [-> ->].
  pose proof (live_tail _ _ _ _ _ _ _ L3) as W3.
  eapply runs_bind; [apply (run_snapshot _ _ _ _ _ _ _ W3)|].
  intros tf h4 [-> ->].
  eapply runs_bind; [apply (run_numbersZ _ _ _ _ _ _ _ W3)|].
  intros zf h4 [-> ->].
  apply runs_ret.
  unfold Simplex.solve. cbv zeta. fold d. fold stP. fold s.
  rewrite Fb, Fs, Fi, Eb2. reflexivity.
Qed.

(** *** The relaxation solver *)

Definition MatchesLP (n0 : nat) (hb : Store.store) (zL : Store.loc)
    (rows : list Store.loc) (h : Store.store) (e : Store.loopEnd) (e' : BB.loopEnd)
  : Prop :=
  match e, e' with
  | Store.ReturnUnbounded, BB.ReturnUnbounded => True
  | Store.Fallthrough b, BB.Fallthrough t z b' => b = b' /\ Work n0 hb h zL rows z t
  | _, _ => False
  end.

Lemma run_lpLoop n0 hb zL rows tv fuel :
  forall h z t b, Work n0 hb h zL rows z t ->
  runs (Store.lpLoop fuel tv rows zL b) h
       (fun e h' => MatchesLP n0 hb zL rows h' e (BB.loop fuel tv t z b)).
Proof.
  induction fuel as [|fuel IH]; intros h z t b W; cbn [Store.lpLoop BB.loop].
  - apply runs_ret. simpl. auto.
  - eapply runs_bind; [apply (run_snapshot _ _ _ _ _ _ _ W)|].
    intros t' h1 [-> ->].
    eapply runs_bind; [apply (run_numbersZ _ _ _ _ _ _ _ W)|].
    intros z' h1 [-> ->].
    destruct (BB.selectPivotCol z tv) as [pc|]; [|apply runs_ret; simpl; auto].
    destruct (BB.selectPivotRow t pc tv) as [pr|]; [|apply runs_ret; simpl; auto].
    eapply runs_bind; [apply (run_pivot _ _ _ _ _ _ _ pr pc b tv W)|].
    intros b' h1 [-> W1].
    change (BB.pivotStep t z pr pc b tv) with (Simplex.pivot t z pr pc b tv).
    destruct (Simplex.pivot t z pr pc b tv) as [[t1 z1] b1]. simpl in *.
    now apply IH.
Qed.

Definition validLP (h0 : Store.store) (objL consL extraL : Store.loc) : Prop :=
  objL < length h0 /\ consL < length h0 /\ extraL < length h0 /\
  Forall (validCon (length h0) h0) (fst (Store.readRefs consL h0)) /\
  Forall (validCon (length h0) h0) (fst (Store.readRefs extraL h0)).

(** For every store holding the objective, the constraints and the extra
    constraints, the store-passing [solveLP] returns what [BB.solveLP]
    computes from them as values. *)
Theorem store_solveLP_computes numVars isMax objL consL extraL h0 :
  validLP h0 objL consL extraL ->
  fst (Store.solveLP numVars isMax objL consL extraL h0) =
  BB.solveLP numVars isMax (arr h0 objL)
    (map (conAt h0) (fst (Store.readRefs consL h0)))
    (map (conAt h0) (fst (Store.readRefs extraL h0))).
Proof.
  intros (Ho & Hc & He & Vc & Ve).
  remember (BB.solveLP numVars isMax (arr h0 objL)
              (map (conAt h0) (fst (Store.readRefs consL h0)))
              (map (conAt h0) (fst (Store.readRefs extraL h0)))) as res eqn:ER.
  change (runs (Store.solveLP numVars isMax objL consL extraL) h0
            (fun r _ => r = res)).
  unfold BB.solveLP in ER. rewrite <- map_app in ER.
  set (cs := fst (Store.readRefs consL h0)) in *.
  set (es := fst (Store.readRefs extraL h0)) in *.
  set (cons := map (conAt h0) (cs ++ es)) in *.
  unfold Store.solveLP.
  apply runs_bind with (P := fun x h' => x = cs /\ h' = h0);
    [unfold runs; simpl; auto|].
  intros cs' h' [-> ->].
  apply runs_bind with (P := fun x h' => x = es /\ h' = h0);
    [unfold runs; simpl; auto|].
  intros es' h' [-> ->].
  set (h1 := h0 ++ [Store.RefArray (cs ++ es)]).
  apply runs_bind with (P := fun x h' => x = length h0 /\ h' = h1);
    [unfold runs; simpl; auto|].
  intros a h' [-> ->].
  assert (X : extends h0 h1) by apply extends_app.
  assert (L0 : Live (length h1) h1 h1 [] []) by (apply live_nil; lia).
  apply runs_bind with (P := fun x h' => x = cs ++ es /\ h' = h1).
  { unfold runs, Store.readRefs, h1. simpl.
    rewrite nth_error_app2, Nat.sub_diag by lia. auto. }
  intros conLs h' [-> ->].
  assert (V1 : Forall (validCon (length h1) h1) (cs ++ es)).
  { apply Forall_app. split; (eapply Forall_impl; [|eassumption]);
      intros l; apply extends_validCon; exact X. }
  assert (EC : map (conAt h1) (cs ++ es) = cons).
  { apply map_ext_in. intros l Hl.
    assert (Vl : validCon (length h0) h0 l).
    { apply in_app_or in Hl. rewrite Forall_forall in Vc, Ve.
      destruct Hl; auto. }
    apply (extends_conAt _ _ _ X Vl). }
  eapply runs_bind; [apply (run_loadCons _ _ _ _ _ _ L0 V1)|].
  intros cons' h2 [-> ->]. rewrite EC.
  destruct (BB.countKinds cons) as [[sc ec] ac].
  eapply runs_bind;
    [apply (run_buildRows _ _ _ numVars (numVars + sc + ec + ac) _ L0 V1)|].
  intros [[rows bv] arts'] h2 (E1 & E2 & L2).
  rewrite EC in E1, E2, L2.
  destruct (BB.buildRows numVars (numVars + sc + ec + ac) cons) as [[tb bvs] arts].
  cbn [fst snd] in *. subst bv arts'.
  assert (Ho1 : objL < length h1) by (destruct X; lia).
  eapply runs_bind;
    [apply (run_buildZRow _ _ _ _ _ numVars _
              (fun c => if isMax then nneg c else c) _ bvs arts L2 Ho1)|].
  intros zL h3 W3. rewrite (extends_arr _ _ _ X Ho) in W3.
  rewrite <- bb_zRowOf in W3.
  eapply runs_bind; [apply (run_lpLoop _ _ _ _ _ BB.maxIterations _ _ _ bvs W3)|].
  intros e h4 Me. unfold MatchesLP in Me.
  destruct e as [|b], (BB.loop BB.maxIterations _ tb _ bvs) as [|t' z' b'];
    try contradiction.
  - apply runs_ret. now subst res.
  - destruct Me as [-> W4].
    eapply runs_bind; [apply (run_snapshot _ _ _ _ _ _ _ W4)|].
    intros t'' h5 [-> ->].
    destruct (BB.artificialRemains t' b' arts _); [apply runs_ret; now subst res|].
    eapply runs_bind; [apply (run_alloc_own _ _ _ _ _ (repeat 0%Q numVars) W4)|].
    intros sol h5 [-> L5].
    eapply runs_bind.
    { apply (runs_doUpto (length b') _
               (fun s i =>
                  if nth i b' 0 <? numVars
                  then upd (nth i b' 0) (cell t' i (numVars + sc + ec + ac)) s
                  else s)
               (fun h' s => Live (length h1) h1 h' (length h4 :: zL :: rows)
                                 (s :: z' :: t'))); [|exact L5].
      intros i h6 s _ L6.
      destruct (nth i b' 0 <? numVars); [|now apply runs_ret].
      eapply runs_bind;
        [apply (run_readCell _ _ _ _ _ _ _ _ _ (live_tail _ _ _ _ _ _ _ L6))|].
      intros x h7 [-> ->].
      apply (run_writeNum_own _ _ _ _ _ 0 _ _ _ L6 eq_refl). }
    intros u h6 L6. cbv beta in L6.
    eapply runs_bind; [apply (run_numbers_own _ _ _ _ _ 0 _ L6 eq_refl)|].
    intros solv h7 [-> ->].
    eapply runs_bind; [apply (run_readNum_own _ _ _ _ _ 1 zL
                                (numVars + sc + ec + ac) L6 eq_refl)|].
    intros zv h7 [-> ->].
    apply runs_ret. subst res. reflexivity.
Qed.

(** *** The search *)

Lemma extends_trans h0 h1 h2 : extends h0 h1 -> extends h1 h2 -> extends h0 h2.
Proof.
  intros [L1 E1] [L2 E2]. split; [lia|].
  intros l Hl. rewrite E2 by lia. now apply E1.
Qed.

Lemma keeps_extends {A : Type} (m : Store.M A) (h : Store.store) :
  keeps (length h) m (fun _ => True) -> extends h (snd (m h)).
Proof.
  intros K. destruct (K h (le_n _)) as (F & L & _). split; [exact L|].
  intros l Hl. rewrite firstn_all in F.
  rewrite <- F at 2. symmetry. now apply nth_error_firstn_lt.
Qed.

(** The constraint records listed in the array at [l], as values, and what
    makes the list a list of records of the store. *)
Definition consAt (h : Store.store) (l : Store.loc) : list constraint :=
  map (conAt h) (fst (Store.readRefs l h)).

Definition okRefs (h : Store.store) (l : Store.loc) : Prop :=
  l < length h /\ Forall (validCon (length h) h) (fst (Store.readRefs l h)).

Lemma extends_okRefs h h' l : extends h h' -> okRefs h l -> okRefs h' l.
Proof.
  intros X [Hl V]. split; [destruct X; lia|].
  rewrite (extends_readRefs _ _ _ X Hl).
  eapply Forall_impl; [|exact V]. intros c. now apply extends_validCon.
Qed.

Lemma extends_consAt h h' l : extends h h' -> okRefs h l -> consAt h' l = consAt h l.
Proof.
  intros X [Hl V]. unfold consAt. rewrite (extends_readRefs _ _ _ X Hl).
  apply map_ext_in. intros c Hc. rewrite Forall_forall in V.
  now apply extends_conAt; [|apply V].
Qed.

Definition nodeAt (h : Store.store) (nd : Store.node) : BB.node :=
  BB.mkNode (Store.id nd) (consAt h (Store.extraConstraints nd)) (Store.depth nd)
            (Store.parent nd) (Store.branchInfo nd).

Definition infoAt (h : Store.store) (i : Store.nodeInfo) : BB.nodeInfo :=
  BB.mkInfo (Store.i_id i) (Store.i_depth i) (Store.i_parent i)
            (Store.i_branchInfo i) (consAt h (Store.i_extraConstraints i))
            (Store.i_status i) (Store.i_message i) (Store.i_solution i)
            (Store.i_zValue i) (Store.i_fractionalVar i).

Definition searchAt (h : Store.store) (s : Store.search) : BB.search :=
  BB.mkSearch (map (nodeAt h) (Store.queue s)) (map (infoAt h) (Store.nodes s))
              (Store.bestSolution s) (Store.bestZ s) (Store.nodeId s).

Definition okSearch (h : Store.store) (s : Store.search) : Prop :=
  Forall (fun nd => okRefs h (Store.extraConstraints nd)) (Store.queue s) /\
  Forall (fun i => okRefs h (Store.i_extraConstraints i)) (Store.nodes s).

Lemma extends_nodes h h' q :
  extends h h' ->
  Forall (fun nd => okRefs h (Store.extraConstraints nd)) q ->
  map (nodeAt h') q = map (nodeAt h) q /\
  Forall (fun nd => okRefs h' (Store.extraConstraints nd)) q.
Proof.
  intros X V. split.
  - apply map_ext_in. intros nd Hn. rewrite Forall_forall in V.
    unfold nodeAt. now rewrite (extends_consAt _ _ _ X (V nd Hn)).
  - eapply Forall_impl; [|exact V]. intros nd. now apply extends_okRefs.
Qed.

Lemma extends_infos h h' q :
  extends h h' ->
  Forall (fun i => okRefs h (Store.i_extraConstraints i)) q ->
  map (infoAt h') q = map (infoAt h) q /\
  Forall (fun i => okRefs h' (Store.i_extraConstraints i)) q.
Proof.
  intros X V. split.
  - apply map_ext_in. intros nd Hn. rewrite Forall_forall in V.
    unfold infoAt. now rewrite (extends_consAt _ _ _ X (V nd Hn)).
  - eapply Forall_impl; [|exact V]. intros nd. now apply extends_okRefs.
Qed.

Lemma upd_at_length {A : Type} (h : list A) (x y : A) (r : list A) :
  upd (length h) x (h ++ y :: r) = h ++ x :: r.
Proof. induction h as [|a h IH]; simpl; [reflexivity|now rewrite IH]. Qed.

(** A branching constraint is a new record with the unit coefficients. *)
Lemma run_newConstraint numVars index t bound h :
  runs (Store.newConstraint numVars index t bound) h
       (fun c h' =>
          extends h h' /\ validCon (length h') h' c /\
          conAt h' c = mkCon (BB.unitCoeffs numVars index) t (inject_Z bound)).
Proof.
  set (zeros := repeat 0%Q numVars).
  set (h' := h ++ [Store.NumArray (upd index 1%Q zeros);
                   Store.ConRecord (length h) t (inject_Z bound)]).
  assert (E : Store.newConstraint numVars index t bound h = (S (length h), h')).
  { unfold Store.newConstraint, Store.bind, Store.alloc, Store.writeNum, Store.ret.
    cbn [fst snd]. fold zeros. rewrite <- app_assoc. cbn [app].
    rewrite nth_error_app2, Nat.sub_diag by lia. cbn [nth_error].
    rewrite upd_at_length. f_equal.
    rewrite length_app. cbn [length]. lia. }
  unfold runs. rewrite E. cbn [fst snd].
  assert (Lh : length h' = S (S (length h))).
  { unfold h'. rewrite length_app. simpl. lia. }
  assert (N1 : nth_error h' (length h)
               = Some (Store.NumArray (upd index 1%Q zeros))).
  { unfold h'. now rewrite nth_error_app2, Nat.sub_diag by lia. }
  assert (N2 : nth_error h' (S (length h))
               = Some (Store.ConRecord (length h) t (inject_Z bound))).
  { unfold h'. rewrite nth_error_app2 by lia.
    replace (S (length h) - length h) with 1 by lia. reflexivity. }
  repeat split.
  - lia.
  - intros l Hl. unfold h'. now apply nth_error_app1.
  - lia.
  - unfold Store.readCon. cbn [fst]. rewrite N2. cbn [fst]. lia.
  - rewrite conAt_fields. unfold Store.readCon, arr, Store.numbers. cbn [fst].
    rewrite N2. cbn [fst snd]. rewrite N1. reflexivity.
Qed.

(** [[...extra, c]] is a new array listing the records of [extra] and [c]. *)
Lemma run_extend extra c h :
  okRefs h extra -> validCon (length h) h c ->
  runs (Store.extend extra c) h
       (fun l h' =>
          h' = h ++ [Store.RefArray (fst (Store.readRefs extra h) ++ [c])] /\
          okRefs h' l /\ consAt h' l = consAt h extra ++ [conAt h c]).
Proof.
  intros O V.
  set (h' := h ++ [Store.RefArray (fst (Store.readRefs extra h) ++ [c])]).
  assert (X : extends h h') by apply extends_app.
  assert (R : fst (Store.readRefs (length h) h') = fst (Store.readRefs extra h) ++ [c]).
  { unfold Store.readRefs at 1. cbn [fst]. unfold h'.
    now rewrite nth_error_app2, Nat.sub_diag by lia. }
  assert (E : Store.extend extra c h = (length h, h')) by reflexivity.
  unfold runs. rewrite E. cbn [fst snd].
  split; [reflexivity|]. split.
  - split; [unfold h'; rewrite length_app; simpl; lia|].
    rewrite R. apply Forall_app. split.
    + destruct O as [_ Vs]. eapply Forall_impl; [|exact Vs].
      intros x. now apply extends_validCon.
    + constructor; [|constructor]. now apply (extends_validCon _ _ _ X).
  - unfold consAt at 1. rewrite R, map_app. cbn [map].
    rewrite (extends_conAt _ _ _ X V). f_equal.
    apply map_ext_in. intros x Hx. destruct O as [_ Vs].
    rewrite Forall_forall in Vs. now apply extends_conAt; [|apply Vs].
Qed.

Lemma infos_step h h1 (infos : list Store.nodeInfo) (nd : Store.node)
    st msg sol z fr :
  extends h h1 ->
  Forall (fun i => okRefs h (Store.i_extraConstraints i)) infos ->
  okRefs h (Store.extraConstraints nd) ->
  let info := Store.mkInfo (Store.id nd) (Store.depth nd) (Store.parent nd)
                (Store.branchInfo nd) (Store.extraConstraints nd) st msg sol z fr in
  Forall (fun i => okRefs h1 (Store.i_extraConstraints i)) (infos ++ [info]) /\
  map (infoAt h1) (infos ++ [info]) =
  map (infoAt h) infos ++
  [BB.mkInfo (Store.id nd) (Store.depth nd) (Store.parent nd) (Store.branchInfo nd)
             (consAt h (Store.extraConstraints nd)) st msg sol z fr].
Proof.
  intros X V O info. destruct (extends_infos _ _ _ X V) as [E V1]. split.
  - apply Forall_app. split; [exact V1|].
    constructor; [|constructor]. now apply (extends_okRefs _ _ _ X).
  - rewrite map_app, E. cbn [map]. subst info. unfold infoAt at 2.
    cbn [Store.i_id Store.i_depth Store.i_parent Store.i_branchInfo
         Store.i_extraConstraints Store.i_status Store.i_message Store.i_solution
         Store.i_zValue Store.i_fractionalVar].
    now rewrite (extends_consAt _ _ _ X O).
Qed.

(** One pass over the queue. *)
Lemma run_visit numVars isMax intChecked objL consL s h :
  objL < length h -> okRefs h consL -> okSearch h s ->
  runs (Store.visit numVars isMax intChecked objL consL s) h
       (fun r h' =>
          extends h h' /\
          match r with
          | None =>
              BB.visit numVars isMax intChecked (arr h objL) (consAt h consL)
                       (searchAt h s) = None
          | Some s' =>
              okSearch h' s' /\
              BB.visit numVars isMax intChecked (arr h objL) (consAt h consL)
                       (searchAt h s) = Some (searchAt h' s')
          end).
Proof.
  intros Ho Oc [Vq Vn].
  remember (BB.visit numVars isMax intChecked (arr h objL) (consAt h consL)
              (searchAt h s)) as vis eqn:EV.
  unfold BB.visit in EV. unfold Store.visit.
  cbn [searchAt BB.queue BB.nodes BB.bestSolution BB.bestZ BB.nodeId] in EV.
  destruct (Store.queue s) as [|nd rest]; cbn [map] in EV.
  { apply runs_ret. split; [apply extends_refl | exact EV]. }
  cbn [nodeAt BB.id BB.depth BB.parent BB.branchInfo BB.extraConstraints] in EV.
  inversion Vq as [|x q Ond Vrest]; subst x q.
  set (extra := Store.extraConstraints nd) in *.
  apply runs_bind with
    (P := fun r h' =>
            r = BB.solveLP numVars isMax (arr h objL) (consAt h consL) (consAt h extra)
            /\ extends h h').
  { split.
    - apply store_solveLP_computes. destruct Oc as [Hc Vc], Ond as [He Ve].
      repeat split; assumption.
    - apply keeps_extends, keeps_solveLP. }
  intros result h1 [-> X1]. subst extra.
  destruct (extends_nodes _ _ _ X1 Vrest) as [Er Vr1].
  destruct (BB.solveLP numVars isMax (arr h objL) (consAt h consL)
              (consAt h (Store.extraConstraints nd)))
    as [| |sol z] eqn:ELP; cbv zeta in *.
  - destruct (infos_step _ _ _ nd BB.Infeasible (Some BB.MsgInfeasible) None None None
                X1 Vn Ond) as [V1 E1].
    apply runs_ret. split; [exact X1|]. split; [split; assumption|].
    subst vis. unfold searchAt.
    cbn [Store.queue Store.nodes Store.bestSolution Store.bestZ Store.nodeId].
    now rewrite Er, E1.
  - destruct (infos_step _ _ _ nd BB.Infeasible (Some BB.MsgUnbounded) None None None
                X1 Vn Ond) as [V1 E1].
    apply runs_ret. split; [exact X1|]. split; [split; assumption|].
    subst vis. unfold searchAt.
    cbn [Store.queue Store.nodes Store.bestSolution Store.bestZ Store.nodeId].
    now rewrite Er, E1.
  - destruct (BB.notNull (Store.bestSolution s) &&
              BB.dominated isMax z (Store.bestZ s)).
    { destruct (infos_step _ _ _ nd BB.Pruned
                  (Some (BB.MsgPruned (round4 z) (Store.bestZ s)))
                  (Some (map round4 sol)) (Some (round4 z)) None
                  X1 Vn Ond) as [V1 E1].
      apply runs_ret. split; [exact X1|]. split; [split; assumption|].
      subst vis. unfold searchAt.
    cbn [Store.queue Store.nodes Store.bestSolution Store.bestZ Store.nodeId].
    now rewrite Er, E1. }
    destruct (BB.getFractionalVar numVars intChecked sol) as [[index value]|].
    2:{ destruct (infos_step _ _ _ nd BB.Integer (Some BB.MsgInteger)
                    (Some (map round4 sol)) (Some (round4 z)) None
                    X1 Vn Ond) as [V1 E1].
        apply runs_ret. split; [exact X1|]. split; [split; assumption|].
        subst vis. unfold searchAt.
    cbn [Store.queue Store.nodes Store.bestSolution Store.bestZ Store.nodeId].
    now rewrite Er, E1. }
    eapply runs_bind; [apply run_newConstraint|]. intros lc h2 (X2 & Vl & El).
    eapply runs_bind; [apply run_newConstraint|]. intros rc h3 (X3 & Vrc & Erc).
    assert (X13 : extends h1 h3) by exact (extends_trans _ _ _ X2 X3).
    assert (X03 : extends h h3) by exact (extends_trans _ _ _ X1 X13).
    set (extra := Store.extraConstraints nd) in *.
    assert (O3 : okRefs h3 extra) by exact (extends_okRefs _ _ _ X03 Ond).
    assert (Vl3 : validCon (length h3) h3 lc) by exact (extends_validCon _ _ _ X3 Vl).
    assert (El3 : conAt h3 lc = conAt h2 lc) by exact (extends_conAt _ _ _ X3 Vl).
    eapply runs_bind; [apply (run_extend extra lc h3 O3 Vl3)|].
    intros le h4 (E4 & Ole & Cle).
    assert (X4 : extends h3 h4) by (rewrite E4; apply extends_app).
    assert (O4 : okRefs h4 extra) by exact (extends_okRefs _ _ _ X4 O3).
    assert (Vr4 : validCon (length h4) h4 rc) by exact (extends_validCon _ _ _ X4 Vrc).
    assert (Er4 : conAt h4 rc = conAt h3 rc) by exact (extends_conAt _ _ _ X4 Vrc).
    eapply runs_bind; [apply (run_extend extra rc h4 O4 Vr4)|].
    intros re h5 (E5 & Ore & Cre).
    assert (X5 : extends h4 h5) by (rewrite E5; apply extends_app).
    assert (X05 : extends h h5).
    { exact (extends_trans _ _ _ X03 (extends_trans _ _ _ X4 X5)). }
    destruct (extends_nodes _ _ _ X05 Vrest) as [Er5 Vr5].
    destruct (infos_step _ _ _ nd BB.Branched None
                (Some (map round4 sol)) (Some (round4 z)) (Some (index, value))
                X05 Vn Ond) as [V5 E5'].
    subst extra. apply runs_ret. split; [exact X05|]. split.
    + split; [|exact V5]. cbn [Store.queue].
      apply Forall_app. split; [apply Forall_app; split; [exact Vr5|]|].
      * constructor; [|constructor]. cbn. now apply (extends_okRefs _ _ _ X5).
      * constructor; [|constructor]. exact Ore.
    + subst vis. unfold searchAt. cbn [Store.queue Store.nodes Store.bestSolution
                                       Store.bestZ Store.nodeId].
      rewrite E5', !map_app, Er5. cbn [map]. unfold nodeAt at 3 4.
      cbn [Store.id Store.extraConstraints Store.depth Store.parent Store.branchInfo].
      rewrite (extends_consAt _ _ _ X5 Ole), Cle, Cre.
      rewrite (extends_consAt _ _ _ X4 O3), (extends_consAt _ _ _ X03 Ond).
      rewrite El3, El, Er4, Erc. reflexivity.
Qed.

Lemma extends_searchAt h h' s :
  extends h h' -> okSearch h s -> searchAt h' s = searchAt h s /\ okSearch h' s.
Proof.
  intros X [Vq Vn].
  destruct (extends_nodes _ _ _ X Vq) as [Eq Vq'].
  destruct (extends_infos _ _ _ X Vn) as [En Vn'].
  split; [|split; assumption]. unfold searchAt. now rewrite Eq, En.
Qed.

(** The loop over the queue. *)
Lemma run_explore numVars isMax intChecked objL consL fuel :
  forall s h,
  objL < length h -> okRefs h consL -> okSearch h s ->
  runs (Store.explore numVars isMax intChecked fuel objL consL s) h
       (fun r h' =>
          extends h h' /\
          option_map (searchAt h') r =
          BB.explore numVars isMax intChecked fuel (arr h objL) (consAt h consL)
                     (searchAt h s)).
Proof.
  induction fuel as [|fuel IH]; intros s h Ho Oc Os;
    cbn [Store.explore BB.explore];
    (eapply runs_bind; [apply (run_visit _ _ _ _ _ _ _ Ho Oc Os)|]);
    intros [s'|] h1 [X1 V].
  - destruct V as [_ ->]. apply runs_ret. split; [exact X1|reflexivity].
  - rewrite V. apply runs_ret. split; [exact X1|]. cbn [option_map].
    now rewrite (proj1 (extends_searchAt _ _ _ X1 Os)).
  - destruct V as [Os1 ->].
    assert (Ho1 : objL < length h1) by (destruct X1; lia).
    pose proof (extends_okRefs _ _ _ X1 Oc) as Oc1.
    unfold runs. destruct (IH s' h1 Ho1 Oc1 Os1) as [X2 E2].
    split; [exact (extends_trans _ _ _ X1 X2)|].
    rewrite E2, (extends_arr _ _ _ X1 Ho), (extends_consAt _ _ _ X1 Oc).
    reflexivity.
  - rewrite V. apply runs_ret. split; [exact X1|]. cbn [option_map].
    now rewrite (proj1 (extends_searchAt _ _ _ X1 Os)).
Qed.

(** What [branchAndBound] returns, with the constraint lists of its nodes
    read from the store. *)
Definition outcomeAt (h : Store.store) (s : Store.search) : BB.outcome :=
  BB.mkOutcome (Store.bestSolution s) (Store.bestZ s)
               (map (infoAt h) (Store.nodes s)).

(** For every store holding the objective and the constraints, and every
    number of visited nodes, the store-passing [branchAndBound] returns what
    [BB.branchAndBound] computes from them as values. *)
Theorem store_branchAndBound_computes numVars isMax intChecked fuel objL consL h0 :
  validInputs h0 objL consL ->
  option_map
    (outcomeAt (snd (Store.branchAndBound numVars isMax intChecked fuel objL consL h0)))
    (fst (Store.branchAndBound numVars isMax intChecked fuel objL consL h0)) =
  BB.branchAndBound numVars isMax intChecked fuel (arr h0 objL) (consAt h0 consL).
Proof.
  intros (Ho & Hc & Vc).
  change (runs (Store.branchAndBound numVars isMax intChecked fuel objL consL) h0
            (fun r h' =>
               option_map (outcomeAt h') r =
               BB.branchAndBound numVars isMax intChecked fuel (arr h0 objL)
                                 (consAt h0 consL))).
  unfold Store.branchAndBound, BB.branchAndBound.
  set (h1 := h0 ++ [Store.RefArray []]).
  apply runs_bind with (P := fun x h' => x = length h0 /\ h' = h1);
    [split; reflexivity|].
  intros root h' [-> ->].
  assert (X : extends h0 h1) by apply extends_app.
  assert (Ho1 : objL < length h1) by (destruct X; lia).
  assert (Oc : okRefs h0 consL) by (split; assumption).
  pose proof (extends_okRefs _ _ _ X Oc) as Oc1.
  assert (R : fst (Store.readRefs (length h0) h1) = []).
  { unfold Store.readRefs, h1. cbn [fst].
    now rewrite nth_error_app2, Nat.sub_diag by lia. }
  set (start := Store.mkSearch [Store.mkNode 0 (length h0) 0 None None] [] None
                  (if isMax then BB.NegInf else BB.PosInf) 1).
  assert (Os : okSearch h1 start).
  { split; [|constructor]. constructor; [|constructor]. cbn.
    split; [unfold h1; rewrite length_app; simpl; lia|].
    rewrite R. constructor. }
  unfold runs.
  destruct (run_explore numVars isMax intChecked objL consL fuel start h1 Ho1 Oc1 Os)
    as [X2 E].
  rewrite (extends_arr _ _ _ X Ho), (extends_consAt _ _ _ X Oc) in E.
  assert (Es : searchAt h1 start =
               BB.mkSearch [BB.mkNode 0 [] 0 None None] [] None
                           (if isMax then BB.NegInf else BB.PosInf) 1).
  { unfold searchAt, start. cbn [Store.queue Store.nodes Store.bestSolution
                                 Store.bestZ Store.nodeId map].
    unfold nodeAt, consAt. cbn [Store.id Store.extraConstraints Store.depth
                                Store.parent Store.branchInfo].
    now rewrite R. }
  rewrite Es in E. rewrite <- E.
  destruct (fst (Store.explore numVars isMax intChecked fuel objL consL start h1));
    reflexivity.
Qed.

(** The stores of scenarios A and D hold valid inputs, and read as values
    they are the scenarios' data. *)
Lemma storeA_valid :
  validInputs storeA 0 5 /\ dataAt storeA Simplex.Max 0 5 = scenarioA.
Proof.
  split; [|reflexivity].
  repeat split; simpl; try lia.
  repeat constructor; simpl; lia.
Qed.

Lemma storeD_valid :
  validInputs storeD 0 5 /\
  arr storeD 0 = scenarioD_obj /\ consAt storeD 5 = scenarioD_cons.
Proof.
  split; [|split; reflexivity].
  repeat split; simpl; try lia.
  repeat constructor; simpl; lia.
Qed.


(* ------------------------------------------------------------------ *)
(** * Further properties of the two scripts *)

(** ** Rounding for display *)

(** [Math.round] is within one half of its argument. *)
Lemma Math_round_bounds (y : Q) :
  (inject_Z (Math_round y) - (1 # 2) <= y /\ y < inject_Z (Math_round y) + (1 # 2))%Q.
Proof.
  unfold Math_round.
  pose proof (Qfloor_le (y + (1 # 2))) as L.
  pose proof (Qlt_floor (y + (1 # 2))) as U.
  rewrite inject_Z_plus in U. change (inject_Z 1) with 1%Q in U.
  split; lra.
Qed.

Lemma Math_round_unique (y : Q) (n : Z) :
  (inject_Z n - (1 # 2) <= y)%Q -> (y < inject_Z n + (1 # 2))%Q -> Math_round y = n.
Proof.
  intros L U. unfold Math_round.
  assert (A : (n <= Qfloor (y + (1 # 2)))%Z).
  { rewrite <- (Qfloor_Z n). apply Qfloor_resp_le. lra. }
  assert (B : (Qfloor (y + (1 # 2)) < n + 1)%Z).
  { rewrite Zlt_Qlt, inject_Z_plus. change (inject_Z 1) with 1%Q.
    pose proof (Qfloor_le (y + (1 # 2))). lra. }
  lia.
Qed.

Lemma Math_round_comp (x y : Q) : (x == y)%Q -> Math_round x = Math_round y.
Proof. intros E. unfold Math_round. apply Qfloor_comp. now rewrite E. Qed.

Lemma round4_eq (x : Q) :
  (round4 x == inject_Z (Math_round (x * 10000)) / 10000)%Q.
Proof.
  unfold round4. rewrite ndiv_eq.
  rewrite (Math_round_comp (nmul x 10000) (x * 10000)) by apply nmul_eq.
  reflexivity.
Qed.

(** A value that is shown differs from the value computed by at most
    0.00005. *)
Lemma round4_close (x : Q) : (Qabs (round4 x - x) <= 1 # 20000)%Q.
Proof.
  rewrite round4_eq.
  destruct (Math_round_bounds (x * 10000)) as [L U].
  set (n := inject_Z (Math_round (x * 10000))) in *.
  apply Qabs_Qle_condition. split.
  - apply Qle_minus_iff. 
    setoid_replace (n / 10000 - x + - - (1 # 20000))%Q
      with ((n + (1#2) - x * 10000) / 10000)%Q by field.
    apply Qle_shift_div_l; [reflexivity|]. lra.
  - apply Qle_minus_iff.
    setoid_replace ((1 # 20000) + - (n / 10000 - x))%Q
      with ((x * 10000 - (n - (1#2))) / 10000)%Q by field.
    apply Qle_shift_div_l; [reflexivity|]. lra.
Qed.

Lemma Math_round_mono (x y : Q) : (x <= y)%Q -> (Math_round x <= Math_round y)%Z.
Proof. intros L. unfold Math_round. apply Qfloor_resp_le. lra. Qed.

(** Rounding keeps the order. *)
Lemma round4_mono (x y : Q) : (x <= y)%Q -> (round4 x <= round4 y)%Q.
Proof.
  intros L. rewrite !round4_eq.
  apply Qmult_le_compat_r; [|discriminate].
  rewrite <- Zle_Qle. apply Math_round_mono. lra.
Qed.

(** A multiple of 0.0001 is shown as it is. *)
Lemma round4_multiple (n : Z) (x : Q) :
  (x == inject_Z n / 10000)%Q -> (round4 x == x)%Q.
Proof.
  intros E. rewrite round4_eq.
  rewrite (Math_round_unique (x * 10000) n).
  - now rewrite E.
  - rewrite E. field_simplify. lra.
  - rewrite E. field_simplify. lra.
Qed.

(** Rounding twice is rounding once. *)
Lemma round4_idem (x : Q) : round4 (round4 x) = round4 x.
Proof.
  assert (E : (nmul (round4 x) 10000 == inject_Z (Math_round (nmul x 10000)))%Q).
  { unfold round4. rewrite nmul_eq, ndiv_eq. field. }
  unfold round4 at 1 3. f_equal. f_equal.
  apply Math_round_unique; rewrite E; lra.
Qed.

(** A value within 0.00005 of an integer is shown as that integer. *)
Lemma round4_near_integer (n : Z) (x : Q) :
  (inject_Z n - (1 # 20000) <= x)%Q -> (x < inject_Z n + (1 # 20000))%Q ->
  (round4 x == inject_Z n)%Q.
Proof.
  intros L U. rewrite round4_eq.
  rewrite (Math_round_unique (x * 10000) (n * 10000)).
  - rewrite inject_Z_mult. change (inject_Z 10000) with 10000%Q. field.
  - rewrite inject_Z_mult. change (inject_Z 10000) with 10000%Q. lra.
  - rewrite inject_Z_mult. change (inject_Z 10000) with 10000%Q. lra.
Qed.

(** X1.  Every number shown with four decimals ([Math.round(v * 10000) /
    10000]: the solution values, the reduced costs and shadow prices, the
    node values of the search) is within 0.00005 of the number computed;
    rounding a second time changes nothing, and rounding keeps the order of
    two numbers. *)
Theorem round4_close_idempotent_monotone (x y : Q) :
  (Qabs (round4 x - x) <= 1 # 20000)%Q /\
  round4 (round4 x) = round4 x /\
  ((x <= y)%Q -> (round4 x <= round4 y)%Q).
Proof.
  split; [apply round4_close|]. split; [apply round4_idem|]. apply round4_mono.
Qed.

Lemma round4_close_idempotent_monotone_witness :
  ((1 # 3) <= (1 # 2))%Q /\ (round4 (1 # 3) <= round4 (1 # 2))%Q.
Proof.
  assert (H : ((1 # 3) <= (1 # 2))%Q) by (vm_compute; discriminate).
  split; [exact H|].
  exact (proj2 (proj2 (round4_close_idempotent_monotone (1 # 3) (1 # 2))) H).
Defined.

Lemma Qabs_lt_iff (x y : Q) : (Qabs x < y)%Q <-> (- y < x /\ x < y)%Q.
Proof.
  split.
  - intros H. pose proof (Qle_Qabs x). pose proof (Qabs_ge_opp x). split; lra.
  - intros [L U]. apply Qabs_case; intros; lra.
Qed.

Lemma M_half : (ndiv Simplex.M 2 == 500000)%Q.
Proof. vm_compute. reflexivity. Qed.

(** X2.  What [roundNum] shows: the text [M] exactly for a number of at
    least [M / 2 = 500000], the text [-M] exactly for a number of at most
    [-500000], and otherwise a number within 0.00005 of the number given. *)
Theorem roundNum_shows (num : Q) :
  match Simplex.roundNum num with
  | Simplex.ShownM => (500000 <= num)%Q
  | Simplex.ShownNegM => (num <= - 500000)%Q
  | Simplex.ShownNum q =>
      (- 500000 < num)%Q /\ (num < 500000)%Q /\ (Qabs (q - num) <= 1 # 20000)%Q
  end.
Proof.
  unfold Simplex.roundNum.
  destruct (nlt (Qabs num) eps10) eqn:E0.
  - apply nlt_iff in E0. apply Qabs_lt_iff in E0. destruct E0 as [L U].
    unfold eps10 in *.
    split; [lra|]. split; [lra|].
    apply Qabs_Qle_condition. split; lra.
  - destruct (nge (Qabs num) (ndiv Simplex.M 2)) eqn:E1.
    + apply nge_iff in E1. rewrite M_half in E1.
      destruct (ngt num 0) eqn:E2.
      * apply ngt_iff in E2. rewrite Qabs_pos in E1 by lra. exact E1.
      * unfold ngt in E2. apply nlt_false_iff in E2.
        rewrite Qabs_neg in E1 by exact E2. lra.
    + assert (L : (Qabs num < 500000)%Q).
      { apply Qnot_le_lt. intros C. rewrite <- M_half in C.
        apply nge_iff in C. congruence. }
      apply Qabs_lt_iff in L. destruct L as [L U].
      split; [exact L|]. split; [exact U|]. apply round4_close.
Qed.

(** ** The selection rules *)

(** A scan that keeps the least value below a running minimum starting at
    zero, as [findPivotColumn] and [findDualPivotRow] do. *)
Lemma least_negative_scan (f : nat -> Q) (n : nat) :
  let '(m, p) :=
    for_upto n
      (fun '(minVal, pivot) j => if nlt (f j) minVal then (f j, Some j) else (minVal, pivot))
      (0%Q, None) in
  match p with
  | None => m = 0%Q /\ forall j, j < n -> (0 <= f j)%Q
  | Some c =>
      c < n /\ m = f c /\ (f c < 0)%Q /\
      (forall j, j < n -> (f c <= f j)%Q) /\
      (forall j, j < c -> (f c < f j)%Q)
  end.
Proof.
  induction n as [|n IH].
  - rewrite for_upto_0. split; [reflexivity|]. intros j Hj. lia.
  - rewrite for_upto_S.
    destruct (for_upto n _ (0%Q, None)) as [m p].
    destruct (nlt (f n) m) eqn:E.
    + apply nlt_iff in E. destruct p as [c|].
      * destruct IH as (Hc & -> & Hneg & Hmin & Hfirst).
        split; [lia|]. split; [reflexivity|]. split; [lra|]. split.
        -- intros j Hj. destruct (Nat.eq_dec j n) as [->|]; [lra|].
           assert (j < n) by lia. specialize (Hmin j H). lra.
        -- intros j Hj. destruct (Nat.lt_ge_cases j c) as [Hjc|Hjc].
           ++ specialize (Hfirst j Hjc). lra.
           ++ assert (Hjn : j < n) by lia. specialize (Hmin j Hjn). lra.
      * destruct IH as (-> & Hall).
        split; [lia|]. split; [reflexivity|]. split; [exact E|]. split.
        -- intros j Hj. destruct (Nat.eq_dec j n) as [->|]; [lra|].
           assert (j < n) by lia. specialize (Hall j H). lra.
        -- intros j Hj. specialize (Hall j Hj). lra.
    + apply nlt_false_iff in E. destruct p as [c|].
      * destruct IH as (Hc & -> & Hneg & Hmin & Hfirst).
        split; [lia|]. split; [reflexivity|]. split; [exact Hneg|]. split; [|exact Hfirst].
        intros j Hj. destruct (Nat.eq_dec j n) as [->|]; [exact E|].
        apply Hmin. lia.
      * destruct IH as (-> & Hall). split; [reflexivity|].
        intros j Hj. destruct (Nat.eq_dec j n) as [->|]; [exact E|].
        apply Hall. lia.
Qed.

Lemma findPivotColumn_scan (z : list Q) (tv : nat) :
  match Simplex.findPivotColumn z tv with
  | None => forall j, j < tv -> (0 <= get z j)%Q
  | Some c =>
      c < tv /\ (get z c < 0)%Q /\
      (forall j, j < tv -> (get z c <= get z j)%Q) /\
      (forall j, j < c -> (get z c < get z j)%Q)
  end.
Proof.
  pose proof (least_negative_scan (get z) tv) as S.
  unfold Simplex.findPivotColumn.
  destruct (for_upto tv _ (0%Q, None)) as [m [c|]]; simpl; tauto.
Qed.

Lemma findDualPivotRow_scan (t : list (list Q)) (tv : nat) :
  match Simplex.findDualPivotRow t tv with
  | None => forall i, i < length t -> (0 <= cell t i tv)%Q
  | Some r =>
      r < length t /\ (cell t r tv < 0)%Q /\
      (forall i, i < length t -> (cell t r tv <= cell t i tv)%Q) /\
      (forall i, i < r -> (cell t r tv < cell t i tv)%Q)
  end.
Proof.
  pose proof (least_negative_scan (fun i => cell t i tv) (length t)) as S.
  unfold Simplex.findDualPivotRow.
  destruct (for_upto (length t) _ (0%Q, None)) as [m [c|]]; simpl; tauto.
Qed.

(** X3.  The entering column of the primal method: [findPivotColumn]
    returns the column of the least objective-row entry among the first
    [totalVars], provided it is negative, and the first such column when the
    least entry occurs more than once; it returns [-1] exactly when no
    entry is negative. *)
Theorem findPivotColumn_most_negative (z : list Q) (tv : nat) :
  match Simplex.findPivotColumn z tv with
  | None => forall j, j < tv -> (0 <= get z j)%Q
  | Some c =>
      c < tv /\ (get z c < 0)%Q /\
      (forall j, j < tv -> (get z c <= get z j)%Q) /\
      (forall j, j < c -> (get z c < get z j)%Q)
  end.
Proof. apply findPivotColumn_scan. Qed.

(** X4.  The leaving row of the dual method: [findDualPivotRow] returns the
    row of the least right-hand side, provided it is negative, and the first
    such row on a tie; it returns [-1] exactly when no right-hand side is
    negative. *)
Theorem findDualPivotRow_most_negative (t : list (list Q)) (tv : nat) :
  match Simplex.findDualPivotRow t tv with
  | None => forall i, i < length t -> (0 <= cell t i tv)%Q
  | Some r =>
      r < length t /\ (cell t r tv < 0)%Q /\
      (forall i, i < length t -> (cell t r tv <= cell t i tv)%Q) /\
      (forall i, i < r -> (cell t r tv < cell t i tv)%Q)
  end.
Proof. apply findDualPivotRow_scan. Qed.

(** The ratio of row [i] in the ratio test, and the rows that take part in
    it: coefficient above [1e-10] and ratio not negative. *)
Definition ratio (t : list (list Q)) (c tv i : nat) : Q :=
  ndiv (cell t i tv) (cell t i c).

Definition eligible (t : list (list Q)) (c tv i : nat) : Prop :=
  (eps10 < cell t i c)%Q /\ (0 <= ratio t c tv i)%Q.

Lemma findPivotRow_scan (t : list (list Q)) (c tv n : nat) :
  let '(mr, pr, ratios) :=
    for_upto n
      (fun '(minRatio, pivotRow, ratios) i =>
         let rhs := cell t i tv in
         let coeff := cell t i c in
         if ngt coeff eps10 then
           let ratio := ndiv rhs coeff in
           let ratios' := ratios ++ [(i, Some ratio)] in
           if nge ratio 0%Q &&
              match minRatio with None => true | Some m => nlt ratio m end
           then (Some ratio, Some i, ratios')
           else (minRatio, pivotRow, ratios')
         else (minRatio, pivotRow, ratios ++ [(i, None)]))
      (None, None, []) in
  ratios =
    map (fun i => (i, if ngt (cell t i c) eps10 then Some (ratio t c tv i) else None))
        (seq 0 n) /\
  match pr with
  | None => mr = None /\ forall i, i < n -> ~ eligible t c tv i
  | Some r =>
      r < n /\ eligible t c tv r /\ mr = Some (ratio t c tv r) /\
      (forall i, i < n -> eligible t c tv i -> (ratio t c tv r <= ratio t c tv i)%Q) /\
      (forall i, i < r -> eligible t c tv i -> (ratio t c tv r < ratio t c tv i)%Q)
  end.
Proof.
  induction n as [|n IH].
  - rewrite for_upto_0. split; [reflexivity|]. split; [reflexivity|]. intros i Hi. lia.
  - rewrite for_upto_S.
    destruct (for_upto n _ (None, None, [])) as [[mr pr] ratios].
    destruct IH as [ER IH]. cbv zeta. fold (ratio t c tv n).
    rewrite seq_S, map_app. cbn [map Nat.add].
    destruct (ngt (cell t n c) eps10) eqn:EC.
    2:{ split; [now rewrite ER|].
        assert (NE : ~ eligible t c tv n).
        { intros [H _]. apply ngt_iff in H. congruence. }
        destruct pr as [r|].
        - destruct IH as (Hr & El & Em & Hmin & Hfirst).
          split; [lia|]. split; [exact El|]. split; [exact Em|]. split; [|exact Hfirst].
          intros i Hi Ei. destruct (Nat.eq_dec i n) as [->|]; [contradiction|].
          apply Hmin; [lia|exact Ei].
        - destruct IH as (Em & Hnone). split; [exact Em|].
          intros i Hi. destruct (Nat.eq_dec i n) as [->|]; [exact NE|].
          apply Hnone. lia. }
    apply ngt_iff in EC.
    destruct (nge (ratio t c tv n) 0) eqn:EP; cbn [andb].
    2:{ split; [now rewrite ER|].
        assert (NE : ~ eligible t c tv n).
        { intros [_ H]. apply nge_iff in H. congruence. }
        destruct pr as [r|].
        - destruct IH as (Hr & El & Em & Hmin & Hfirst).
          split; [lia|]. split; [exact El|]. split; [exact Em|]. split; [|exact Hfirst].
          intros i Hi Ei. destruct (Nat.eq_dec i n) as [->|]; [contradiction|].
          apply Hmin; [lia|exact Ei].
        - destruct IH as (Em & Hnone). split; [exact Em|].
          intros i Hi. destruct (Nat.eq_dec i n) as [->|]; [exact NE|].
          apply Hnone. lia. }
    apply nge_iff in EP.
    assert (El : eligible t c tv n) by (split; assumption).
    destruct pr as [r|].
    + destruct IH as (Hr & Er & -> & Hmin & Hfirst).
      destruct (nlt (ratio t c tv n) (ratio t c tv r)) eqn:EL.
      * apply nlt_iff in EL. split; [now rewrite ER|].
        split; [lia|]. split; [exact El|]. split; [reflexivity|]. split.
        -- intros i Hi Ei. destruct (Nat.eq_dec i n) as [->|]; [lra|].
           assert (Hin : i < n) by lia. specialize (Hmin i Hin Ei). lra.
        -- intros i Hi Ei. destruct (Nat.lt_ge_cases i r) as [Hir|Hir].
           ++ specialize (Hfirst i Hir Ei). lra.
           ++ assert (Hin : i < n) by lia. specialize (Hmin i Hin Ei). lra.
      * apply nlt_false_iff in EL. split; [now rewrite ER|].
        split; [lia|]. split; [exact Er|]. split; [reflexivity|]. split; [|exact Hfirst].
        intros i Hi Ei. destruct (Nat.eq_dec i n) as [->|]; [exact EL|].
        apply Hmin; [lia|exact Ei].
    + destruct IH as (-> & Hnone). split; [now rewrite ER|].
      split; [lia|]. split; [exact El|]. split; [reflexivity|]. split.
      * intros i Hi Ei. destruct (Nat.eq_dec i n) as [->|]; [lra|].
        exfalso. apply (Hnone i); [lia|exact Ei].
      * intros i Hi Ei. exfalso. apply (Hnone i); [lia|exact Ei].
Qed.

Lemma findPivotRow_some (t : list (list Q)) (c tv : nat) :
  match fst (Simplex.findPivotRow t c tv) with
  | None => forall i, i < length t -> ~ eligible t c tv i
  | Some r =>
      r < length t /\ eligible t c tv r /\
      (forall i, i < length t -> eligible t c tv i ->
         (ratio t c tv r <= ratio t c tv i)%Q) /\
      (forall i, i < r -> eligible t c tv i -> (ratio t c tv r < ratio t c tv i)%Q)
  end.
Proof.
  pose proof (findPivotRow_scan t c tv (length t)) as S.
  unfold Simplex.findPivotRow.
  destruct (for_upto (length t) _ (None, None, [])) as [[mr [r|]] ratios];
    simpl; tauto.
Qed.

(** The rows of scenario A with their slack columns. *)
Definition scenarioA_rows : list (list Q) :=
  [ [1; 1; 1; 0; 4]%Q; [1; 0; 0; 1; 3]%Q ].

Lemma scenarioA_rowsWide : rowsWide scenarioA_rows 4.
Proof.
  intros i Hi. destruct i as [|[|i]]; [reflexivity|reflexivity|simpl in Hi; lia].
Defined.

(** X5.  The minimum-ratio test on a tableau whose rows have
    [totalVars + 1] entries: [findPivotRow] returns, among the rows
    whose pivot-column coefficient is above [1e-10] and whose ratio
    [rhs / coefficient] is not negative, the row of the least ratio, the
    first such row on a tie, and [-1] exactly when there is no such row;
    the list [ratios] shown next to the tableau has one entry per row, the
    ratio for a coefficient above [1e-10] and [null] otherwise. *)
Theorem findPivotRow_min_ratio (t : list (list Q)) (c tv : nat) :
  rowsWide t tv ->
  snd (Simplex.findPivotRow t c tv) =
    map (fun i => (i, if ngt (cell t i c) eps10 then Some (ratio t c tv i) else None))
        (seq 0 (length t)) /\
  match fst (Simplex.findPivotRow t c tv) with
  | None => forall i, i < length t -> ~ eligible t c tv i
  | Some r =>
      r < length t /\ eligible t c tv r /\
      (forall i, i < length t -> eligible t c tv i ->
         (ratio t c tv r <= ratio t c tv i)%Q) /\
      (forall i, i < r -> eligible t c tv i -> (ratio t c tv r < ratio t c tv i)%Q)
  end.
Proof.
  intros _. split; [|apply findPivotRow_some].
  pose proof (findPivotRow_scan t c tv (length t)) as S.
  unfold Simplex.findPivotRow.
  destruct (for_upto (length t) _ (None, None, [])) as [[mr pr] ratios].
  simpl. tauto.
Qed.

Lemma findPivotRow_min_ratio_witness :
  fst (Simplex.findPivotRow scenarioA_rows 0 4) = Some 1 /\
  (snd (Simplex.findPivotRow scenarioA_rows 0 4) =
     map (fun i => (i, if ngt (cell scenarioA_rows i 0) eps10
                       then Some (ratio scenarioA_rows 0 4 i) else None))
         (seq 0 (length scenarioA_rows)) /\
   match fst (Simplex.findPivotRow scenarioA_rows 0 4) with
   | None => forall i, i < length scenarioA_rows -> ~ eligible scenarioA_rows 0 4 i
   | Some r =>
       r < length scenarioA_rows /\ eligible scenarioA_rows 0 4 r /\
       (forall i, i < length scenarioA_rows -> eligible scenarioA_rows 0 4 i ->
          (ratio scenarioA_rows 0 4 r <= ratio scenarioA_rows 0 4 i)%Q) /\
       (forall i, i < r -> eligible scenarioA_rows 0 4 i ->
          (ratio scenarioA_rows 0 4 r < ratio scenarioA_rows 0 4 i)%Q)
   end).
Proof.
  split; [vm_compute; reflexivity|].
  exact (findPivotRow_min_ratio scenarioA_rows 0 4 scenarioA_rowsWide).
Defined.

(** The ratio of column [j] in the dual ratio test. *)
Definition dualRatio (t : list (list Q)) (z : list Q) (r j : nat) : Q :=
  Qabs (ndiv (get z j) (cell t r j)).

Lemma findDualPivotCol_scan (t : list (list Q)) (z : list Q) (r n : nat) :
  let '(mr, pc) :=
    for_upto n
      (fun '(minRatio, pivotCol) j =>
         let aij := cell t r j in
         if nlt aij (- eps10)%Q then
           let ratio := Qabs (ndiv (get z j) aij) in
           if match minRatio with None => true | Some m => nlt ratio m end
           then (Some ratio, Some j)
           else (minRatio, pivotCol)
         else (minRatio, pivotCol))
      (None, None) in
  match pc with
  | None => mr = None /\ forall j, j < n -> (- eps10 <= cell t r j)%Q
  | Some c =>
      c < n /\ (cell t r c < - eps10)%Q /\ mr = Some (dualRatio t z r c) /\
      (forall j, j < n -> (cell t r j < - eps10)%Q ->
         (dualRatio t z r c <= dualRatio t z r j)%Q) /\
      (forall j, j < c -> (cell t r j < - eps10)%Q ->
         (dualRatio t z r c < dualRatio t z r j)%Q)
  end.
Proof.
  induction n as [|n IH].
  - rewrite for_upto_0. split; [reflexivity|]. intros j Hj. lia.
  - rewrite for_upto_S.
    destruct (for_upto n _ (None, None)) as [mr pc].
    cbv zeta. fold (dualRatio t z r n).
    destruct (nlt (cell t r n) (- eps10)) eqn:EC.
    2:{ apply nlt_false_iff in EC.
        destruct pc as [c|].
        - destruct IH as (Hc & El & Em & Hmin & Hfirst).
          split; [lia|]. split; [exact El|]. split; [exact Em|]. split; [|exact Hfirst].
          intros j Hj Ej. destruct (Nat.eq_dec j n) as [->|]; [lra|].
          apply Hmin; [lia|exact Ej].
        - destruct IH as (Em & Hnone). split; [exact Em|].
          intros j Hj. destruct (Nat.eq_dec j n) as [->|]; [exact EC|].
          apply Hnone. lia. }
    apply nlt_iff in EC.
    destruct pc as [c|].
    + destruct IH as (Hc & Ec & -> & Hmin & Hfirst).
      destruct (nlt (dualRatio t z r n) (dualRatio t z r c)) eqn:EL.
      * apply nlt_iff in EL.
        split; [lia|]. split; [exact EC|]. split; [reflexivity|]. split.
        -- intros j Hj Ej. destruct (Nat.eq_dec j n) as [->|]; [lra|].
           assert (Hjn : j < n) by lia. specialize (Hmin j Hjn Ej). lra.
        -- intros j Hj Ej. destruct (Nat.lt_ge_cases j c) as [Hjc|Hjc].
           ++ specialize (Hfirst j Hjc Ej). lra.
           ++ assert (Hjn : j < n) by lia. specialize (Hmin j Hjn Ej). lra.
      * apply nlt_false_iff in EL.
        split; [lia|]. split; [exact Ec|]. split; [reflexivity|]. split; [|exact Hfirst].
        intros j Hj Ej. destruct (Nat.eq_dec j n) as [->|]; [exact EL|].
        apply Hmin; [lia|exact Ej].
    + destruct IH as (-> & Hnone).
      split; [lia|]. split; [exact EC|]. split; [reflexivity|]. split.
      * intros j Hj Ej. destruct (Nat.eq_dec j n) as [->|]; [lra|].
        assert (Hjn : j < n) by lia. specialize (Hnone j Hjn). lra.
      * intros j Hj Ej. specialize (Hnone j Hj). lra.
Qed.

Lemma findDualPivotCol_some (t : list (list Q)) (z : list Q) (r tv : nat) :
  match Simplex.findDualPivotCol t z r tv with
  | None => forall j, j < tv -> (- eps10 <= cell t r j)%Q
  | Some c =>
      c < tv /\ (cell t r c < - eps10)%Q /\
      (forall j, j < tv -> (cell t r j < - eps10)%Q ->
         (dualRatio t z r c <= dualRatio t z r j)%Q) /\
      (forall j, j < c -> (cell t r j < - eps10)%Q ->
         (dualRatio t z r c < dualRatio t z r j)%Q)
  end.
Proof.
  pose proof (findDualPivotCol_scan t z r tv) as S.
  unfold Simplex.findDualPivotCol.
  destruct (for_upto tv _ (None, None)) as [mr [c|]]; simpl; tauto.
Qed.

(** X6.  The entering column of the dual method, for a pivot row of the
    tableau and an objective row of [totalVars + 1] entries: among the
    columns whose entry in the pivot row is below [-1e-10],
    [findDualPivotCol] returns
    the one with the least [|zRow[j] / entry|], the first such column on a
    tie, and [-1] exactly when the pivot row has no entry below [-1e-10]. *)
Theorem findDualPivotCol_min_ratio (t : list (list Q)) (z : list Q) (r tv : nat) :
  r < length t -> length z = tv + 1 ->
  match Simplex.findDualPivotCol t z r tv with
  | None => forall j, j < tv -> (- eps10 <= cell t r j)%Q
  | Some c =>
      c < tv /\ (cell t r c < - eps10)%Q /\
      (forall j, j < tv -> (cell t r j < - eps10)%Q ->
         (dualRatio t z r c <= dualRatio t z r j)%Q) /\
      (forall j, j < c -> (cell t r j < - eps10)%Q ->
         (dualRatio t z r c < dualRatio t z r j)%Q)
  end.
Proof. intros _ _. apply findDualPivotCol_some. Qed.

(** One row [-x1 - 2 x2 + s1 = -2] under the objective row [2, 1, 0]: the
    ratios are 2 and 1/2, and the second column enters. *)
Lemma findDualPivotCol_min_ratio_witness :
  Simplex.findDualPivotCol [[-1; -2; 1; -2]%Q] [2; 1; 0; 0]%Q 0 3 = Some 1 /\
  match Simplex.findDualPivotCol [[-1; -2; 1; -2]%Q] [2; 1; 0; 0]%Q 0 3 with
  | None => forall j, j < 3 -> (- eps10 <= cell [[-1; -2; 1; -2]%Q] 0 j)%Q
  | Some c =>
      c < 3 /\ (cell [[-1; -2; 1; -2]%Q] 0 c < - eps10)%Q /\
      (forall j, j < 3 -> (cell [[-1; -2; 1; -2]%Q] 0 j < - eps10)%Q ->
         (dualRatio [[-1; -2; 1; -2]%Q] [2; 1; 0; 0]%Q 0 c <=
          dualRatio [[-1; -2; 1; -2]%Q] [2; 1; 0; 0]%Q 0 j)%Q) /\
      (forall j, j < c -> (cell [[-1; -2; 1; -2]%Q] 0 j < - eps10)%Q ->
         (dualRatio [[-1; -2; 1; -2]%Q] [2; 1; 0; 0]%Q 0 c <
          dualRatio [[-1; -2; 1; -2]%Q] [2; 1; 0; 0]%Q 0 j)%Q)
  end.
Proof.
  split; [vm_compute; reflexivity|].
  exact (findDualPivotCol_min_ratio [[-1; -2; 1; -2]%Q] [2; 1; 0; 0]%Q 0 3
           (Nat.lt_0_succ 0) eq_refl).
Defined.

(** ** The initial tableau *)

(** The number of columns a constraint adds: a slack, a surplus and an
    artificial, or an artificial. *)
Definition width (con : constraint) : nat :=
  match type con with Le => 1 | Ge => 2 | Eq => 1 end.

Definition widthSum (cons : list constraint) : nat :=
  fold_right (fun con n => width con + n) 0 cons.

(** The rows, the basic columns and the artificial columns of a list of
    constraints whose first new column is [vi]. *)
Fixpoint rowsFrom (numVars tv vi : nat) (cons : list constraint) : list (list Q) :=
  match cons with
  | [] => []
  | con :: rest =>
      fst (rowOf numVars tv con vi) :: rowsFrom numVars tv (vi + width con) rest
  end.

Fixpoint basisFrom (vi : nat) (cons : list constraint) : list nat :=
  match cons with
  | [] => []
  | con :: rest =>
      (match type con with Ge => S vi | _ => vi end) :: basisFrom (vi + width con) rest
  end.

Fixpoint artsFrom (vi : nat) (cons : list constraint) : list nat :=
  match cons with
  | [] => []
  | con :: rest =>
      match type con with
      | Le => artsFrom (vi + width con) rest
      | Ge => S vi :: artsFrom (vi + width con) rest
      | Eq => vi :: artsFrom (vi + width con) rest
      end
  end.

Lemma fold_addRow (numVars tv : nat) (cons : list constraint) :
  forall t bv arts vi,
  fold_left (addRow numVars tv) cons (t, bv, arts, vi) =
  (t ++ rowsFrom numVars tv vi cons, bv ++ basisFrom vi cons,
   arts ++ artsFrom vi cons, vi + widthSum cons).
Proof.
  induction cons as [|con rest IH]; intros t bv arts vi.
  - simpl. now rewrite !app_nil_r, Nat.add_0_r.
  - change (widthSum (con :: rest)) with (width con + widthSum rest).
    cbn [fold_left rowsFrom basisFrom artsFrom].
    change (addRow numVars tv (t, bv, arts, vi) con)
      with (t ++ [fst (rowOf numVars tv con vi)], bv ++ [snd (rowOf numVars tv con vi)],
            match type con with
            | Le => arts
            | _ => arts ++ [snd (rowOf numVars tv con vi)]
            end, S (snd (rowOf numVars tv con vi))).
    rewrite IH. unfold rowOf, width.
    destruct (type con); cbn [fst snd]; rewrite <- !app_assoc; cbn [app];
      replace (vi + 1) with (S vi) by lia; replace (vi + 2) with (S (S vi)) by lia;
      f_equal; lia.
Qed.

Lemma bb_buildRows_layout (numVars tv : nat) (cons : list constraint) :
  BB.buildRows numVars tv cons =
  (rowsFrom numVars tv numVars cons, basisFrom numVars cons, artsFrom numVars cons).
Proof.
  rewrite buildRows_addRow, fold_addRow. reflexivity.
Qed.

Lemma simplex_buildRows_layout (numVars tv : nat) (cons : list constraint) :
  Simplex.buildRows numVars tv cons =
    (rowsFrom numVars tv numVars cons, basisFrom numVars cons) /\
  snd (Simplex.nameVars numVars cons) = artsFrom numVars cons.
Proof.
  pose proof (buildRows_eq numVars tv cons) as E.
  rewrite bb_buildRows_layout in E.
  destruct (Simplex.buildRows numVars tv cons) as [t b].
  cbn [fst snd] in E. injection E as E1 E2 E3. subst. auto.
Qed.

Lemma countKinds_from (cons : list constraint) :
  forall sc ec ac,
  let '(sc', ec', ac') :=
    fold_left
      (fun '(slackCount, surplusCount, artificialCount) con =>
         match type con with
         | Le => (S slackCount, surplusCount, artificialCount)
         | Ge => (slackCount, S surplusCount, S artificialCount)
         | Eq => (slackCount, surplusCount, S artificialCount)
         end)
      cons (sc, ec, ac) in
  sc' + ec' + ac' = sc + ec + ac + widthSum cons /\
  sc' = sc + length (filter (fun con => rel_eqb (type con) Le) cons).
Proof.
  induction cons as [|con rest IH]; intros sc ec ac; simpl.
  - lia.
  - unfold width. destruct (type con); simpl.
    + specialize (IH (S sc) ec ac). destruct (fold_left _ rest _) as [[a b] c]. lia.
    + specialize (IH sc (S ec) (S ac)). destruct (fold_left _ rest _) as [[a b] c]. lia.
    + specialize (IH sc ec (S ac)). destruct (fold_left _ rest _) as [[a b] c]. lia.
Qed.

Lemma countKinds_width (numVars : nat) (cons : list constraint) :
  let '(sc, ec, ac) := Simplex.countKinds cons in
  sc + ec + ac = widthSum cons /\
  sc = length (filter (fun con => rel_eqb (type con) Le) cons).
Proof.
  pose proof (countKinds_from cons 0 0 0) as H. unfold Simplex.countKinds.
  destruct (fold_left _ cons _) as [[a b] c]. simpl in H. lia.
Qed.

Lemma length_rowsFrom numVars tv cons :
  forall vi, length (rowsFrom numVars tv vi cons) = length cons.
Proof. induction cons; intros; simpl; auto. Qed.

Lemma length_basisFrom cons : forall vi, length (basisFrom vi cons) = length cons.
Proof. induction cons; intros; simpl; auto. Qed.

(** The first new column of constraint [i]. *)
Definition startCol (vi : nat) (cons : list constraint) (i : nat) : nat :=
  vi + widthSum (firstn i cons).

Lemma widthSum_app a b : widthSum (a ++ b) = widthSum a + widthSum b.
Proof. induction a; simpl; auto. rewrite IHa. lia. Qed.

Lemma widthSum_firstn_le cons i : widthSum (firstn i cons) <= widthSum cons.
Proof.
  rewrite <- (firstn_skipn i cons) at 2. rewrite widthSum_app. lia.
Qed.

Lemma firstn_S_nth {A : Type} (d : A) (l : list A) (i : nat) :
  i < length l -> firstn (S i) l = firstn i l ++ [nth i l d].
Proof.
  revert i; induction l as [|x l IH]; intros i H; simpl in *; [lia|].
  destruct i; simpl; auto. rewrite IH by lia. reflexivity.
Qed.

Definition noCon : constraint := mkCon [] Le 0%Q.

Lemma nth_basisFrom cons :
  forall vi i, i < length cons ->
  nth i (basisFrom vi cons) 0 =
  match type (nth i cons noCon) with
  | Ge => S (startCol vi cons i)
  | _ => startCol vi cons i
  end.
Proof.
  unfold startCol.
  induction cons as [|con rest IH]; intros vi i Hi; simpl in *; [lia|].
  destruct i; simpl.
  - now rewrite Nat.add_0_r.
  - rewrite IH by lia. rewrite Nat.add_assoc. reflexivity.
Qed.

Lemma nth_rowsFrom numVars tv cons :
  forall vi i, i < length cons ->
  nth i (rowsFrom numVars tv vi cons) [] =
  fst (rowOf numVars tv (nth i cons noCon) (startCol vi cons i)).
Proof.
  unfold startCol.
  induction cons as [|con rest IH]; intros vi i Hi; simpl in *; [lia|].
  destruct i; simpl.
  - now rewrite Nat.add_0_r.
  - rewrite IH by lia. rewrite Nat.add_assoc. reflexivity.
Qed.

Lemma startCol_S vi cons i :
  i < length cons ->
  startCol vi cons (S i) = startCol vi cons i + width (nth i cons noCon).
Proof.
  intros Hi. unfold startCol. rewrite (firstn_S_nth noCon) by exact Hi.
  rewrite widthSum_app. simpl. lia.
Qed.

Lemma startCol_mono vi cons i k :
  i <= k -> k <= length cons -> startCol vi cons i <= startCol vi cons k.
Proof.
  induction 1 as [|k Hik IH]; intros Hk; [lia|].
  rewrite startCol_S by lia. specialize (IH ltac:(lia)). lia.
Qed.

Lemma width_pos con : 1 <= width con.
Proof. unfold width. destruct (type con); lia. Qed.

Lemma startCol_end vi cons i :
  i < length cons ->
  startCol vi cons i + width (nth i cons noCon) <= vi + widthSum cons.
Proof.
  intros Hi. rewrite <- startCol_S by exact Hi.
  unfold startCol. pose proof (widthSum_firstn_le cons (S i)). lia.
Qed.

(** The basic column of row [i] lies in the columns of constraint [i]. *)
Lemma basis_in_block vi cons i :
  i < length cons ->
  let b := nth i (basisFrom vi cons) 0 in
  startCol vi cons i <= b /\ b < startCol vi cons i + width (nth i cons noCon) /\
  (type (nth i cons noCon) = Ge -> b = S (startCol vi cons i)) /\
  (type (nth i cons noCon) <> Ge -> b = startCol vi cons i).
Proof.
  intros Hi b. subst b. rewrite nth_basisFrom by exact Hi.
  unfold width. destruct (type (nth i cons noCon)); repeat split; try lia; congruence.
Qed.

Lemma basis_bounds vi cons i :
  i < length cons ->
  vi <= nth i (basisFrom vi cons) 0 /\ nth i (basisFrom vi cons) 0 < vi + widthSum cons.
Proof.
  intros Hi. destruct (basis_in_block vi cons i Hi) as (L & U & _).
  pose proof (startCol_end vi cons i Hi). unfold startCol in L at 1. lia.
Qed.

(** The blocks of two different constraints do not meet. *)
Lemma blocks_apart vi cons i k :
  i < k -> k < length cons ->
  startCol vi cons i + width (nth i cons noCon) <= startCol vi cons k.
Proof.
  intros Hik Hk. rewrite <- startCol_S by lia. apply startCol_mono; lia.
Qed.

(** Case analysis on the comparisons of indices in the goal. *)
Ltac cases_nat :=
  repeat match goal with
         | |- context [?a =? ?b] => destruct (Nat.eqb_spec a b)
         | |- context [?a <? ?b] => destruct (Nat.ltb_spec a b)
         end;
  cbn [andb]; try reflexivity; try lia.

Lemma get_coeff_loop (numVars tv : nat) (con : constraint) (j : nat) :
  get (for_upto numVars (fun row j => upd j (get (coeffs con) j) row)
         (repeat 0%Q (tv + 1))) j =
  if (j <? numVars) && (j <? tv + 1) then get (coeffs con) j else 0%Q.
Proof.
  destruct (@vecLoop_spec (fun _ j => get (coeffs con) j) (fun j => get (coeffs con) j)
              (repeat 0%Q (tv + 1)) numVars) as [_ C].
  { intros; reflexivity. }
  cbv zeta in C. rewrite C, repeat_length, get_repeat_0. reflexivity.
Qed.

(** The entries of the row of one constraint whose first new column is
    [vi]: the coefficients, the slack / surplus / artificial entries and the
    right-hand side. *)
Lemma rowOf_cells (numVars tv : nat) (con : constraint) (vi : nat) :
  numVars <= vi -> vi + width con <= tv ->
  let row := fst (rowOf numVars tv con vi) in
  let b := snd (rowOf numVars tv con vi) in
  length row = tv + 1 /\
  b = (match type con with Ge => S vi | _ => vi end) /\
  forall j,
    get row j =
      if j =? tv then rhs con
      else if j =? b then 1%Q
      else if (j =? vi) && rel_eqb (type con) Ge then (-1)%Q
      else if j <? numVars then get (coeffs con) j
      else 0%Q.
Proof.
  intros Hv Hw. unfold rowOf, width in *.
  set (row1 := for_upto numVars _ _).
  assert (L1 : length row1 = tv + 1).
  { unfold row1. rewrite (length_for_upto_upd numVars (fun _ j => get (coeffs con) j)).
    apply repeat_length. }
  assert (G1 : forall j, get row1 j =
                 if (j <? numVars) && (j <? tv + 1) then get (coeffs con) j else 0%Q).
  { intros j. apply get_coeff_loop. }
  destruct (type con); cbn [fst snd rel_eqb]; (split; [now rewrite !length_upd|]);
    (split; [reflexivity|]); intros j; rewrite !get_upd, !length_upd, L1, G1;
    rewrite ?andb_false_r; cases_nat.
Qed.

(** The initial tableau of a list of constraints, cell by cell. *)
Lemma initial_cells (numVars tv : nat) (cons : list constraint) (i j : nat) :
  numVars + widthSum cons <= tv -> i < length cons ->
  let t := rowsFrom numVars tv numVars cons in
  let bv := basisFrom numVars cons in
  let con := nth i cons noCon in
  length (nth i t []) = tv + 1 /\
  cell t i j =
    if j =? tv then rhs con
    else if j =? nth i bv 0 then 1%Q
    else if (j =? startCol numVars cons i) && rel_eqb (type con) Ge then (-1)%Q
    else if j <? numVars then get (coeffs con) j
    else 0%Q.
Proof.
  intros Htv Hi t bv con. subst t bv con. unfold cell.
  rewrite nth_rowsFrom by exact Hi.
  pose proof (startCol_end numVars cons i Hi) as He.
  assert (Hs : numVars <= startCol numVars cons i) by (unfold startCol; lia).
  destruct (rowOf_cells numVars tv (nth i cons noCon) (startCol numVars cons i) Hs
              ltac:(lia)) as (L & B & C).
  split; [exact L|]. rewrite C, B, nth_basisFrom by exact Hi. reflexivity.
Qed.

Lemma initial_rowsWide (numVars tv : nat) (cons : list constraint) :
  numVars + widthSum cons <= tv ->
  rowsWide (rowsFrom numVars tv numVars cons) tv.
Proof.
  intros Htv i Hi. rewrite length_rowsFrom in Hi.
  apply (initial_cells numVars tv cons i 0 Htv Hi).
Qed.

Lemma basis_distinct (vi : nat) (cons : list constraint) (i k : nat) :
  i < length cons -> k < length cons -> i <> k ->
  nth i (basisFrom vi cons) 0 <> nth k (basisFrom vi cons) 0 /\
  nth k (basisFrom vi cons) 0 <> startCol vi cons i \/
  type (nth i cons noCon) <> Ge /\
  nth i (basisFrom vi cons) 0 <> nth k (basisFrom vi cons) 0.
Proof.
  intros Hi Hk Hne.
  destruct (basis_in_block vi cons i Hi) as (Li & Ui & Gi & Ni).
  destruct (basis_in_block vi cons k Hk) as (Lk & Uk & Gk & Nk).
  cbv zeta in *.
  destruct (Nat.lt_ge_cases i k) as [Hik|Hik].
  - pose proof (blocks_apart vi cons i k Hik Hk). left. lia.
  - assert (Hki : k < i) by lia.
    pose proof (blocks_apart vi cons k i Hki Hi). left. lia.
Qed.

(** The initial basis: the columns of the slack and artificial variables
    form an identity submatrix. *)
Lemma initial_identity (numVars tv : nat) (cons : list constraint) :
  numVars + widthSum cons <= tv ->
  identityColumns (rowsFrom numVars tv numVars cons) (basisFrom numVars cons).
Proof.
  intros Htv. split.
  - now rewrite length_basisFrom, length_rowsFrom.
  - intros i k Hi Hk. rewrite length_rowsFrom in Hi, Hk.
    destruct (initial_cells numVars tv cons i (nth k (basisFrom numVars cons) 0) Htv Hi)
      as [_ C]. cbv zeta in C. rewrite C. clear C.
    destruct (basis_bounds numVars cons k Hk) as [Lk Uk].
    destruct (Nat.eqb_spec (nth k (basisFrom numVars cons) 0) tv); [lia|].
    destruct (Nat.eqb_spec i k) as [->|Hne].
    + rewrite Nat.eqb_refl. reflexivity.
    + destruct (basis_distinct numVars cons i k Hi Hk Hne) as [[D1 D2]|[D1 D2]].
      * destruct (Nat.eqb_spec (nth k (basisFrom numVars cons) 0)
                               (nth i (basisFrom numVars cons) 0)); [congruence|].
        destruct (Nat.eqb_spec (nth k (basisFrom numVars cons) 0)
                               (startCol numVars cons i)); [congruence|].
        cbn [andb].
        destruct (Nat.ltb_spec (nth k (basisFrom numVars cons) 0) numVars); [lia|].
        reflexivity.
      * destruct (Nat.eqb_spec (nth k (basisFrom numVars cons) 0)
                               (nth i (basisFrom numVars cons) 0)); [congruence|].
        destruct (type (nth i cons noCon)); try congruence;
          cbn [rel_eqb]; rewrite andb_false_r;
          (destruct (Nat.ltb_spec (nth k (basisFrom numVars cons) 0) numVars); [lia|]);
          reflexivity.
Qed.

(** ** Sums *)

(** [f 0 + ... + f (n - 1)]. *)
Fixpoint sumQ (f : nat -> Q) (n : nat) : Q :=
  match n with
  | O => 0%Q
  | S n' => (sumQ f n' + f n')%Q
  end.

Lemma sumQ_ext (f g : nat -> Q) (n : nat) :
  (forall i, i < n -> (f i == g i)%Q) -> (sumQ f n == sumQ g n)%Q.
Proof.
  induction n as [|n IH]; intros H; simpl; [reflexivity|].
  rewrite IH, H by auto. reflexivity.
Qed.

Lemma sumQ_zero (f : nat -> Q) (n : nat) :
  (forall i, i < n -> (f i == 0)%Q) -> (sumQ f n == 0)%Q.
Proof.
  induction n as [|n IH]; intros H; simpl; [reflexivity|].
  rewrite IH, H by auto. reflexivity.
Qed.

Lemma sumQ_single (f : nat -> Q) (n k : nat) :
  k < n -> (forall i, i < n -> i <> k -> (f i == 0)%Q) -> (sumQ f n == f k)%Q.
Proof.
  induction n as [|n IH]; intros Hk H; [lia|]. simpl.
  destruct (Nat.eq_dec k n) as [->|Hne].
  - rewrite sumQ_zero; [ring|]. intros i Hi. apply H; lia.
  - rewrite IH, (H n) by (auto; lia). ring.
Qed.





(** ** The initial objective row *)

Lemma get_artLoop (arts : list nat) (z : list Q) (j : nat) :
  get (fold_left (fun z artIdx => upd artIdx Simplex.M z) arts z) j =
  if includes arts j && (j <? length z) then Simplex.M else get z j.
Proof.
  revert z; induction arts as [|a arts IH]; intros z; simpl; [reflexivity|].
  rewrite IH, length_upd, get_upd.
  destruct (includes arts j); destruct (Nat.eqb_spec a j), (Nat.eqb_spec j a);
    try congruence; subst; cbn [andb orb];
    try (destruct (j <? length z); reflexivity); reflexivity.
Qed.

Lemma length_artLoop (arts : list nat) (z : list Q) :
  length (fold_left (fun z artIdx => upd artIdx Simplex.M z) arts z) = length z.
Proof.
  revert z; induction arts as [|a arts IH]; intros z; simpl; [reflexivity|].
  now rewrite IH, length_upd.
Qed.

(** The elimination of the artificial basic variables from the objective
    row, entry by entry: [M] times every row whose basic variable is
    artificial has been subtracted. *)
Lemma zElim_cells (t : list (list Q)) (bv arts : list nat) (tv : nat) (z : list Q)
    (m : nat) :
  let z' :=
    for_upto m
      (fun z i =>
         if includes arts (nth i bv 0) then
           for_upto (tv + 1)
             (fun z j => upd j (nsub (get z j) (nmul Simplex.M (cell t i j))) z) z
         else z)
      z in
  length z' = length z /\
  forall j, j < length z -> j <= tv ->
    (get z' j ==
     get z j -
     Simplex.M * sumQ (fun i => if includes arts (nth i bv 0%nat) then cell t i j else 0) m)%Q.
Proof.
  induction m as [|m IH]; cbv zeta.
  - rewrite for_upto_0. split; [reflexivity|]. intros j _ _. simpl. ring.
  - rewrite for_upto_S. cbv zeta in IH. destruct IH as [L C].
    set (zm := for_upto m _ z) in *.
    destruct (includes arts (nth m bv 0)) eqn:EA.
    + destruct (@vecLoop_spec
                  (fun z' j => nsub (get z' j) (nmul Simplex.M (cell t m j)))
                  (fun j => nsub (get zm j) (nmul Simplex.M (cell t m j)))
                  zm (tv + 1)) as [L' C'].
      { intros z' j _ Hc. rewrite Hc by lia. reflexivity. }
      cbv zeta in L', C'. split; [now rewrite L'|].
      intros j Hj Hjt. rewrite C', L.
      replace (j <? tv + 1) with true by (symmetry; apply Nat.ltb_lt; lia).
      replace (j <? length z) with true by (symmetry; apply Nat.ltb_lt; lia).
      cbn [andb]. rewrite nsub_eq, nmul_eq, (C j Hj Hjt). simpl. rewrite EA. ring.
    + split; [exact L|]. intros j Hj Hjt. rewrite (C j Hj Hjt). simpl. rewrite EA. ring.
Qed.

(** The objective row with which either script starts, entry by entry:
    the stored objective coefficient on a decision column, [M] on an
    artificial column, zero elsewhere, less [M] times the rows whose basic
    variable is artificial. *)
Lemma zRowOf_cells (numVars tv : nat) (coef : Q -> Q) (objCoeffs : list Q)
    (t : list (list Q)) (bv arts : list nat) :
  let z := zRowOf numVars tv coef objCoeffs t bv arts in
  length z = tv + 1 /\
  forall j, j <= tv ->
    (get z j ==
     (if includes arts j then Simplex.M
      else if j <? numVars then coef (get objCoeffs j) else 0) -
     Simplex.M *
       sumQ (fun i => if includes arts (nth i bv 0%nat) then cell t i j else 0) (length bv))%Q.
Proof.
  unfold zRowOf.
  set (z1 := for_upto numVars _ (repeat 0%Q (tv + 1))).
  set (z2 := fold_left _ arts z1).
  assert (L1 : length z1 = tv + 1).
  { unfold z1. rewrite (length_for_upto_upd numVars (fun _ j => coef (get objCoeffs j))).
    apply repeat_length. }
  assert (G1 : forall j, get z1 j =
                 if (j <? numVars) && (j <? tv + 1) then coef (get objCoeffs j) else 0%Q).
  { intros j.
    destruct (@vecLoop_spec (fun _ j => coef (get objCoeffs j))
                (fun j => coef (get objCoeffs j)) (repeat 0%Q (tv + 1)) numVars) as [_ C].
    { intros; reflexivity. }
    cbv zeta in C. unfold z1. rewrite C, repeat_length, get_repeat_0. reflexivity. }
  assert (L2 : length z2 = tv + 1) by (unfold z2; now rewrite length_artLoop).
  destruct (zElim_cells t bv arts tv z2 (length bv)) as [L C]. cbv zeta in L, C.
  split; [now rewrite L|].
  intros j Hj. rewrite C by lia.
  unfold z2 at 1. rewrite get_artLoop, L1, G1.
  replace (j <? tv + 1) with true by (symmetry; apply Nat.ltb_lt; lia).
  rewrite !andb_true_r. reflexivity.
Qed.

(** ** The canonical form kept by the iteration *)

(** A tableau in canonical form: rows and objective row of [totalVars + 1]
    entries, basic columns among the first [totalVars] forming an identity
    submatrix, and a zero objective-row entry in every basic column. *)
Definition canonical (t : list (list Q)) (z : list Q) (bv : list nat) (tv : nat)
  : Prop :=
  rowsWide t tv /\ length z = tv + 1 /\ identityColumns t bv /\
  (forall k, k < length t -> nth k bv 0 < tv) /\
  (forall k, k < length t -> (get z (nth k bv 0%nat) == 0)%Q).

Lemma initial_canonical (numVars : nat) (coef : Q -> Q) (objCoeffs : list Q)
    (cons : list constraint) :
  let tv := numVars + widthSum cons in
  let t := rowsFrom numVars tv numVars cons in
  let bv := basisFrom numVars cons in
  canonical t (zRowOf numVars tv coef objCoeffs t bv (artsFrom numVars cons)) bv tv.
Proof.
  intros tv t bv.
  assert (Htv : numVars + widthSum cons <= tv) by (unfold tv; lia).
  pose proof (initial_rowsWide numVars tv cons Htv) as W.
  pose proof (initial_identity numVars tv cons Htv) as I.
  destruct (zRowOf_cells numVars tv coef objCoeffs t bv (artsFrom numVars cons)) as [LZ CZ].
  fold t bv in W, I. cbv zeta in LZ, CZ.
  assert (Lt : length t = length cons) by apply length_rowsFrom.
  assert (Lb : length bv = length cons) by apply length_basisFrom.
  split; [exact W|]. split; [exact LZ|]. split; [exact I|]. split.
  - intros k Hk. rewrite Lt in Hk. apply (basis_bounds numVars cons k Hk).
  - intros k Hk. pose proof Hk as Hk'. rewrite Lt in Hk'.
    destruct (basis_bounds numVars cons k Hk') as [Lk Uk]. fold bv in Lk, Uk.
    rewrite CZ by (unfold tv; lia).
    destruct I as [_ I].
    rewrite (sumQ_single _ (length bv) k).
    + destruct (includes (artsFrom numVars cons) (nth k bv 0)).
      * rewrite (I k k Hk Hk), Nat.eqb_refl. ring.
      * destruct (Nat.ltb_spec (nth k bv 0) numVars); [lia|]. ring.
    + lia.
    + intros i Hi Hne.
      destruct (includes (artsFrom numVars cons) (nth i bv 0)); [|reflexivity].
      rewrite (I i k) by lia.
      destruct (Nat.eqb_spec i k); [contradiction|reflexivity].
Qed.

(** A pivot on a non-zero element of a canonical tableau gives a canonical
    tableau. *)
Lemma pivot_canonical (t : list (list Q)) (z : list Q) (bv : list nat) (r c tv : nat) :
  canonical t z bv tv -> r < length t -> c < tv -> ~ (cell t r c == 0)%Q ->
  canonical (fst (fst (Simplex.pivot t z r c bv tv)))
            (snd (fst (Simplex.pivot t z r c bv tv)))
            (snd (Simplex.pivot t z r c bv tv)) tv.
Proof.
  intros (W & LZ & [Lbv I] & B & Z0) Hr Hc Hp.
  pose proof (@pivot_spec t z r c bv tv W Hr) as S. cbv zeta in S.
  destruct (Simplex.pivot t z r c bv tv) as [[t' z'] bv'].
  destruct S as (L & W' & -> & Cr & Co & LZ' & CZ & _).
  cbn [fst snd].
  assert (Zr : forall k, k < length t -> k <> r ->
                 (cell t r (nth k bv 0%nat) == 0)%Q).
  { intros k Hk Hne. rewrite (I r k Hr Hk).
    destruct (Nat.eqb_spec r k); [congruence|reflexivity]. }
  split; [exact W'|]. split; [now rewrite LZ'|]. split; [split|split].
  - now rewrite length_upd, L.
  - intros i k Hi Hk. rewrite L in Hi, Hk. rewrite nth_upd.
    replace (r <? length bv) with true by (symmetry; apply Nat.ltb_lt; lia).
    rewrite andb_true_r.
    destruct (Nat.eqb_spec r k) as [<-|Hrk].
    + destruct (Nat.eqb_spec i r) as [->|Hir].
      * rewrite (Cr c) by lia. rewrite ndiv_eq. now field.
      * rewrite (Co i c Hir Hi) by lia. rewrite nsub_eq, nmul_eq, ndiv_eq. now field.
    + specialize (B k Hk).
      destruct (Nat.eqb_spec i r) as [->|Hir].
      * rewrite (Cr _) by lia. rewrite ndiv_eq, (Zr k Hk) by auto.
        destruct (Nat.eqb_spec r k); [congruence|]. now field.
      * rewrite (Co i _ Hir Hi) by lia.
        rewrite nsub_eq, nmul_eq, ndiv_eq, (Zr k Hk) by auto.
        rewrite <- (I i k Hi Hk). now field.
  - intros k Hk. rewrite L in Hk. rewrite nth_upd.
    replace (r <? length bv) with true by (symmetry; apply Nat.ltb_lt; lia).
    rewrite andb_true_r. destruct (Nat.eqb_spec r k); [exact Hc|]. now apply B.
  - intros k Hk. rewrite L in Hk. rewrite nth_upd.
    replace (r <? length bv) with true by (symmetry; apply Nat.ltb_lt; lia).
    rewrite andb_true_r.
    destruct (Nat.eqb_spec r k) as [<-|Hrk].
    + rewrite CZ by lia. rewrite nsub_eq, nmul_eq, ndiv_eq. now field.
    + specialize (B k Hk). rewrite CZ by lia.
      rewrite nsub_eq, nmul_eq, ndiv_eq, (Zr k Hk), (Z0 k Hk) by auto. now field.
Qed.

Lemma hasNegativeRHS_iff (t : list (list Q)) (tv : nat) :
  rowsWide t tv ->
  (Simplex.hasNegativeRHS t = true <->
   exists i, i < length t /\ (cell t i tv < - eps10)%Q).
Proof.
  intros W. unfold Simplex.hasNegativeRHS. rewrite existsb_exists. split.
  - intros [row [Hin N]]. destruct (In_nth _ _ [] Hin) as [i [Hi E]].
    exists i. split; [exact Hi|]. apply nlt_iff in N.
    rewrite <- E, (W i Hi) in N. replace (tv + 1 - 1) with tv in N by lia.
    unfold cell. exact N.
  - intros [i [Hi N]]. exists (nth i t []). split; [now apply nth_In|].
    apply nlt_iff. rewrite (W i Hi). replace (tv + 1 - 1) with tv by lia. exact N.
Qed.

(** The state of the loop is canonical. *)
Definition canonicalState (tv : nat) (s : Simplex.loopState) : Prop :=
  canonical (Simplex.l_tableau s) (Simplex.l_zRow s) (Simplex.l_basicVars s) tv.

Lemma eps10_pos : (0 < eps10)%Q.
Proof. reflexivity. Qed.

(** One pass of the loop from a canonical state: the state stays canonical,
    exactly one step is recorded, the counter goes up by one and the mode
    flag keeps its value. *)
Lemma loopBody_pass (arts : list nat) (tv : nat) (s : Simplex.loopState) :
  canonicalState tv s ->
  let s' := match Simplex.loopBody arts tv s with
            | Simplex.Continue s' => s'
            | Simplex.Break s' => s'
            end in
  canonicalState tv s' /\
  (exists st, Simplex.l_steps s' = Simplex.l_steps s ++ [st] /\
              Simplex.step_reason st <> Simplex.NoNegativeCoefficient /\
              Simplex.step_reason st <> Simplex.InitialTableau) /\
  Simplex.l_iteration s' = S (Simplex.l_iteration s) /\
  Simplex.l_useDualSimplex s' = Simplex.l_useDualSimplex s.
Proof.
  intros C. pose proof C as (W & LZ & I & B & Z0).
  unfold Simplex.loopBody.
  cbn [Simplex.l_tableau Simplex.l_zRow Simplex.l_basicVars Simplex.l_useDualSimplex
       Simplex.l_steps Simplex.l_iteration].
  assert (PV : forall ty why r c,
             r < length (Simplex.l_tableau s) -> c < tv ->
             ~ (cell (Simplex.l_tableau s) r c == 0)%Q ->
             why <> Simplex.NoNegativeCoefficient -> why <> Simplex.InitialTableau ->
             let s' :=
               Simplex.doPivot
                 (Simplex.push
                    (Simplex.mkLoop (Simplex.l_tableau s) (Simplex.l_zRow s)
                       (Simplex.l_basicVars s) (Simplex.l_useDualSimplex s)
                       (Simplex.l_steps s) (S (Simplex.l_iteration s))) ty why)
                 r c tv in
             canonicalState tv s' /\
             (exists st, Simplex.l_steps s' = Simplex.l_steps s ++ [st] /\
                         Simplex.step_reason st <> Simplex.NoNegativeCoefficient /\
                         Simplex.step_reason st <> Simplex.InitialTableau) /\
             Simplex.l_iteration s' = S (Simplex.l_iteration s) /\
             Simplex.l_useDualSimplex s' = Simplex.l_useDualSimplex s).
  { intros ty why r c Hr Hc Hp N1 N2. unfold Simplex.doPivot, Simplex.push.
    cbn [Simplex.l_tableau Simplex.l_zRow Simplex.l_basicVars Simplex.l_useDualSimplex
         Simplex.l_steps Simplex.l_iteration].
    pose proof (pivot_canonical _ _ _ r c tv C Hr Hc Hp) as PC.
    destruct (Simplex.pivot _ _ r c _ tv) as [[t' z'] b']. cbn [fst snd] in PC.
    cbv zeta. unfold canonicalState.
    cbn [Simplex.l_tableau Simplex.l_zRow Simplex.l_basicVars Simplex.l_useDualSimplex
         Simplex.l_steps Simplex.l_iteration].
    split; [exact PC|]. split; [|split; reflexivity].
    eexists. split; [reflexivity|]. split; assumption. }
  assert (BR : forall ty why,
             why <> Simplex.NoNegativeCoefficient -> why <> Simplex.InitialTableau ->
             let s' :=
               Simplex.push
                 (Simplex.mkLoop (Simplex.l_tableau s) (Simplex.l_zRow s)
                    (Simplex.l_basicVars s) (Simplex.l_useDualSimplex s)
                    (Simplex.l_steps s) (S (Simplex.l_iteration s))) ty why in
             canonicalState tv s' /\
             (exists st, Simplex.l_steps s' = Simplex.l_steps s ++ [st] /\
                         Simplex.step_reason st <> Simplex.NoNegativeCoefficient /\
                         Simplex.step_reason st <> Simplex.InitialTableau) /\
             Simplex.l_iteration s' = S (Simplex.l_iteration s) /\
             Simplex.l_useDualSimplex s' = Simplex.l_useDualSimplex s).
  { intros ty why N1 N2. cbv zeta. unfold Simplex.push, canonicalState.
    cbn [Simplex.l_tableau Simplex.l_zRow Simplex.l_basicVars Simplex.l_useDualSimplex
         Simplex.l_steps Simplex.l_iteration].
    split; [exact C|]. split; [|split; reflexivity].
    eexists. split; [reflexivity|]. split; assumption. }
  destruct (Simplex.l_useDualSimplex s && Simplex.hasNegativeRHS (Simplex.l_tableau s))
    eqn:D.
  - apply andb_true_iff in D. destruct D as [_ N].
    apply (hasNegativeRHS_iff _ tv W) in N. destruct N as [i [Hi Ni]].
    pose proof (findDualPivotRow_scan (Simplex.l_tableau s) tv) as FR.
    destruct (Simplex.findDualPivotRow (Simplex.l_tableau s) tv) as [r|].
    2:{ exfalso. specialize (FR i Hi). pose proof eps10_pos. lra. }
    destruct FR as (Hr & _).
    pose proof (findDualPivotCol_some (Simplex.l_tableau s) (Simplex.l_zRow s) r tv) as FC.
    destruct (Simplex.findDualPivotCol _ _ r tv) as [c|].
    + destruct FC as (Hc & Nc & _).
      apply PV; try assumption; try discriminate.
      intros E. rewrite E in Nc. pose proof eps10_pos. lra.
    + apply BR; discriminate.
  - destruct (Simplex.isOptimal (Simplex.l_zRow s) tv) eqn:O.
    + destruct (Simplex.hasArtificialInBasis _ _ _ _); apply BR; discriminate.
    + destruct (findPivotColumn_not_optimal _ _ O) as [_ NN].
      pose proof (findPivotColumn_scan (Simplex.l_zRow s) tv) as FC.
      destruct (Simplex.findPivotColumn (Simplex.l_zRow s) tv) as [c|]; [|congruence].
      destruct FC as (Hc & _).
      pose proof (findPivotRow_some (Simplex.l_tableau s) c tv) as FR.
      destruct (fst (Simplex.findPivotRow (Simplex.l_tableau s) c tv)) as [r|].
      * destruct FR as (Hr & [Er _] & _).
        apply PV; try assumption; try discriminate.
        intros E. rewrite E in Er. pose proof eps10_pos. lra.
      * apply BR; discriminate.
Qed.

Lemma identity_nodup (t : list (list Q)) (bv : list nat) :
  identityColumns t bv -> NoDup bv.
Proof.
  intros [L I]. apply (NoDup_nth bv 0). intros i k Hi Hk E.
  destruct (Nat.eq_dec i k) as [|Hne]; [assumption|exfalso].
  rewrite L in Hi, Hk.
  pose proof (I i i Hi Hi) as E1. pose proof (I i k Hi Hk) as E2.
  rewrite <- E, E1 in E2. rewrite Nat.eqb_refl in E2.
  destruct (Nat.eqb_spec i k); [contradiction|discriminate].
Qed.

(** The state that [buildTableau] returns, in terms of the layout of the
    constraints. *)
Lemma buildTableau_layout (numVars : nat) (d : Simplex.data) :
  let cons := Simplex.constraints d in
  let tv := numVars + widthSum cons in
  let st := Simplex.buildTableau numVars d in
  let objC := if negb (isMaxOf (Simplex.objType d))
              then map nneg (Simplex.objCoeffs d) else Simplex.objCoeffs d in
  Simplex.totalVars st = tv /\
  Simplex.tableau st = rowsFrom numVars tv numVars cons /\
  Simplex.basicVars st = basisFrom numVars cons /\
  Simplex.artificialVarIndices st = artsFrom numVars cons /\
  Simplex.varNames st = fst (Simplex.nameVars numVars cons) /\
  Simplex.zRow st =
    zRowOf numVars tv nneg objC (rowsFrom numVars tv numVars cons)
           (basisFrom numVars cons) (artsFrom numVars cons).
Proof.
  intros cons tv st objC.
  pose proof (buildTableau_fields numVars d) as F. cbv zeta in F.
  pose proof (countKinds_width numVars cons) as CW. fold cons in F.
  destruct (Simplex.countKinds cons) as [[sc ec] ac].
  destruct CW as [CW _].
  replace (numVars + sc + ec + ac) with tv in F by (unfold tv; lia).
  destruct (simplex_buildRows_layout numVars tv cons) as [ER EA].
  rewrite ER, EA in F. cbn [fst snd] in F.
  destruct F as (F1 & F2 & F3 & F4 & F5 & _ & F7).
  fold st in F1, F2, F3, F4, F5, F7.
  repeat split; assumption.
Qed.

Lemma buildTableau_canonical (numVars : nat) (d : Simplex.data) :
  let st := Simplex.buildTableau numVars d in
  canonical (Simplex.tableau st) (Simplex.zRow st) (Simplex.basicVars st)
            (Simplex.totalVars st).
Proof.
  intros st.
  destruct (buildTableau_layout numVars d) as (E1 & E2 & E3 & _ & _ & E6).
  fold st in E1, E2, E3, E6. rewrite E1, E2, E3, E6.
  apply initial_canonical.
Qed.

(** What holds of the state of the loop whenever the loop of [solve] is
    left. *)
Lemma run_invariant (numVars : nat) (d : Simplex.data) :
  let st := Simplex.buildTableau numVars d in
  let s := fst (Simplex.run numVars d) in
  canonicalState (Simplex.totalVars st) s /\
  length (Simplex.l_steps s) = Simplex.l_iteration s + 1 /\
  Forall (fun x => Simplex.step_reason x <> Simplex.NoNegativeCoefficient)
         (Simplex.l_steps s) /\
  Simplex.l_useDualSimplex s = Simplex.hasNegativeRHS (Simplex.tableau st).
Proof.
  intros st s. subst s. unfold Simplex.run. fold st.
  set (Inv := fun s : Simplex.loopState =>
                canonicalState (Simplex.totalVars st) s /\
                length (Simplex.l_steps s) = Simplex.l_iteration s + 1 /\
                Forall (fun x => Simplex.step_reason x <> Simplex.NoNegativeCoefficient)
                       (Simplex.l_steps s) /\
                Simplex.l_useDualSimplex s = Simplex.hasNegativeRHS (Simplex.tableau st)).
  assert (Step : forall s, Inv s ->
            Inv (match Simplex.loopBody (Simplex.artificialVarIndices st)
                         (Simplex.totalVars st) s with
                 | Simplex.Continue s' => s'
                 | Simplex.Break s' => s'
                 end)).
  { intros s (C & L & F & U).
    destruct (loopBody_pass (Simplex.artificialVarIndices st) (Simplex.totalVars st) s C)
      as (C' & [x (Es & Nx & _)] & Ei & Eu).
    cbv zeta in C', Es, Ei, Eu.
    split; [exact C'|]. split; [|split].
    - rewrite Es, length_app, Ei, L. simpl. lia.
    - rewrite Es. apply Forall_app. split; [exact F|]. constructor; [exact Nx|constructor].
    - now rewrite Eu. }
  apply (@loop_inv (Simplex.artificialVarIndices st) (Simplex.totalVars st) Inv
           (fun s _ => Inv s)).
  - intros s s' I E. specialize (Step s I). now rewrite E in Step.
  - intros s s' I E. specialize (Step s I). now rewrite E in Step.
  - auto.
  - split; [apply buildTableau_canonical|].
    split; [reflexivity|]. split; [|reflexivity].
    constructor; [discriminate|constructor].
Qed.

(** X7.  From the initial tableau that [buildTableau] returns to the state
    in which the loop of [solve] is left (by [break] or at the iteration
    cap), the tableau is in canonical form: every row and the objective row
    have [totalVars + 1] entries, the basic columns lie among the first
    [totalVars] and form an identity submatrix, the objective row is zero in
    every basic column, and no variable is basic in two rows. *)
Theorem solve_keeps_canonical_form (numVars : nat) (d : Simplex.data) :
  let st := Simplex.buildTableau numVars d in
  let r := Simplex.solve numVars d in
  canonical (Simplex.tableau st) (Simplex.zRow st) (Simplex.basicVars st)
            (Simplex.totalVars st) /\
  canonical (Simplex.lastOptimalTableau r) (Simplex.lastOptimalZRow r)
            (Simplex.lastOptimalBasicVars r) (Simplex.lastTotalVars r) /\
  NoDup (Simplex.lastOptimalBasicVars r).
Proof.
  intros st r.
  destruct (run_invariant numVars d) as (C & _).
  split; [apply buildTableau_canonical|].
  split; [exact C|].
  destruct C as (_ & _ & I & _). apply (identity_nodup _ _ I).
Qed.

(** X8.  Every pass through the loop of [solve] records exactly one step:
    the list of steps has one entry more than the iteration counter.  Two
    branches of the loop are never taken: in the dual mode a negative
    right-hand side always yields a pivot row, so the flag [useDualSimplex]
    keeps the value it was given before the loop, and the step "No negative
    coefficient in Z row" is never recorded. *)
Theorem one_step_per_iteration (numVars : nat) (d : Simplex.data) :
  let r := Simplex.solve numVars d in
  length (Simplex.steps r) = Simplex.iterations r + 1 /\
  Forall (fun x => Simplex.step_reason x <> Simplex.NoNegativeCoefficient)
         (Simplex.steps r) /\
  Simplex.l_useDualSimplex (fst (Simplex.run numVars d)) =
    Simplex.hasNegativeRHS (Simplex.tableau (Simplex.buildTableau numVars d)).
Proof.
  intros r. destruct (run_invariant numVars d) as (_ & L & F & U).
  repeat split; assumption.
Qed.

(** ** The equations of the tableau *)








(** What one pass of the loop does to the tableau of a canonical state:
    nothing, or a pivot on an element that is not zero. *)
Lemma loopBody_cases (arts : list nat) (tv : nat) (s : Simplex.loopState) :
  canonicalState tv s ->
  let s' := match Simplex.loopBody arts tv s with
            | Simplex.Continue s' => s'
            | Simplex.Break s' => s'
            end in
  (Simplex.l_tableau s' = Simplex.l_tableau s /\
   Simplex.l_zRow s' = Simplex.l_zRow s /\
   Simplex.l_basicVars s' = Simplex.l_basicVars s) \/
  exists r c,
    r < length (Simplex.l_tableau s) /\ c < tv /\
    ~ (cell (Simplex.l_tableau s) r c == 0)%Q /\
    (Simplex.l_tableau s', Simplex.l_zRow s', Simplex.l_basicVars s') =
    Simplex.pivot (Simplex.l_tableau s) (Simplex.l_zRow s) r c (Simplex.l_basicVars s) tv.
Proof.
  intros C. pose proof C as (W & LZ & I & B & Z0).
  unfold Simplex.loopBody.
  cbn [Simplex.l_tableau Simplex.l_zRow Simplex.l_basicVars Simplex.l_useDualSimplex
       Simplex.l_steps Simplex.l_iteration].
  assert (PV : forall u steps it r c,
             r < length (Simplex.l_tableau s) -> c < tv ->
             ~ (cell (Simplex.l_tableau s) r c == 0)%Q ->
             let s' :=
               Simplex.doPivot
                 (Simplex.mkLoop (Simplex.l_tableau s) (Simplex.l_zRow s)
                    (Simplex.l_basicVars s) u steps it) r c tv in
             (Simplex.l_tableau s' = Simplex.l_tableau s /\
              Simplex.l_zRow s' = Simplex.l_zRow s /\
              Simplex.l_basicVars s' = Simplex.l_basicVars s) \/
             exists r c,
               r < length (Simplex.l_tableau s) /\ c < tv /\
               ~ (cell (Simplex.l_tableau s) r c == 0)%Q /\
               (Simplex.l_tableau s', Simplex.l_zRow s', Simplex.l_basicVars s') =
               Simplex.pivot (Simplex.l_tableau s) (Simplex.l_zRow s) r c
                             (Simplex.l_basicVars s) tv).
  { intros u steps it r c Hr Hc Hp. right. exists r, c.
    split; [exact Hr|]. split; [exact Hc|]. split; [exact Hp|].
    unfold Simplex.doPivot.
    cbn [Simplex.l_tableau Simplex.l_zRow Simplex.l_basicVars Simplex.l_useDualSimplex
         Simplex.l_steps Simplex.l_iteration].
    destruct (Simplex.pivot _ _ r c _ tv) as [[t' z'] b']. reflexivity. }
  unfold Simplex.push.
  cbn [Simplex.l_tableau Simplex.l_zRow Simplex.l_basicVars Simplex.l_useDualSimplex
       Simplex.l_steps Simplex.l_iteration].
  destruct (Simplex.l_useDualSimplex s && Simplex.hasNegativeRHS (Simplex.l_tableau s)).
  - pose proof (findDualPivotRow_scan (Simplex.l_tableau s) tv) as FR.
    destruct (Simplex.findDualPivotRow (Simplex.l_tableau s) tv) as [r|];
      [|left; repeat split].
    destruct FR as (Hr & _).
    pose proof (findDualPivotCol_some (Simplex.l_tableau s) (Simplex.l_zRow s) r tv) as FC.
    destruct (Simplex.findDualPivotCol _ _ r tv) as [c|]; [|left; repeat split].
    destruct FC as (Hc & Nc & _).
    apply PV; try assumption.
    intros E. rewrite E in Nc. pose proof eps10_pos. lra.
  - destruct (Simplex.isOptimal (Simplex.l_zRow s) tv).
    + destruct (Simplex.hasArtificialInBasis _ _ _ _); left; repeat split.
    + pose proof (findPivotColumn_scan (Simplex.l_zRow s) tv) as FC.
      destruct (Simplex.findPivotColumn (Simplex.l_zRow s) tv) as [c|];
        [|left; repeat split].
      destruct FC as (Hc & _).
      pose proof (findPivotRow_some (Simplex.l_tableau s) c tv) as FR.
      destruct (fst (Simplex.findPivotRow (Simplex.l_tableau s) c tv)) as [r|];
        [|left; repeat split].
      destruct FR as (Hr & [Er _] & _).
      apply PV; try assumption.
      intros E. rewrite E in Er. pose proof eps10_pos. lra.
Qed.



(** ** The basic solution *)







Lemma arts_bounds (cons : list constraint) :
  forall vi j, In j (artsFrom vi cons) -> vi <= j /\ j < vi + widthSum cons.
Proof.
  induction cons as [|con rest IH]; intros vi j Hin; simpl in *; [contradiction|].
  unfold width in *.
  destruct (type con); simpl in Hin.
  - apply IH in Hin. lia.
  - destruct Hin as [<-|Hin]; [lia|]. apply IH in Hin. lia.
  - destruct Hin as [<-|Hin]; [lia|]. apply IH in Hin. lia.
Qed.





(** ** The sensitivity report *)

(** The names of the columns that a list of constraints adds, and the
    columns of its slack variables. *)
Fixpoint namesFrom (s e a : nat) (cons : list constraint) : list Simplex.varName :=
  match cons with
  | [] => []
  | con :: rest =>
      match type con with
      | Le => Simplex.VarS s :: namesFrom (S s) e a rest
      | Ge => Simplex.VarE e :: Simplex.VarA a :: namesFrom s (S e) (S a) rest
      | Eq => Simplex.VarA a :: namesFrom s e (S a) rest
      end
  end.

Fixpoint slackCols (vi : nat) (cons : list constraint) : list nat :=
  match cons with
  | [] => []
  | con :: rest =>
      match type con with
      | Le => vi :: slackCols (S vi) rest
      | Ge => slackCols (S (S vi)) rest
      | Eq => slackCols (S vi) rest
      end
  end.

Lemma nameVars_layout (numVars : nat) (cons : list constraint) :
  fst (Simplex.nameVars numVars cons) =
  map (fun j => Simplex.VarX (j + 1)) (seq 0 numVars) ++ namesFrom 1 1 1 cons.
Proof.
  unfold Simplex.nameVars.
  set (names0 := map (fun j => Simplex.VarX (j + 1)) (seq 0 numVars)).
  assert (G : forall cons names s e a arts,
             fst (fst (fst (fst
               (fold_left
                  (fun '(names, slackIdx, surplusIdx, artificialIdx, arts) con =>
                     match type con with
                     | Le => (names ++ [Simplex.VarS slackIdx], S slackIdx, surplusIdx,
                              artificialIdx, arts)
                     | Ge =>
                         let names1 := names ++ [Simplex.VarE surplusIdx] in
                         let names2 := names1 ++ [Simplex.VarA artificialIdx] in
                         (names2, slackIdx, S surplusIdx, S artificialIdx,
                          arts ++ [length names2 - 1])
                     | Eq =>
                         let names1 := names ++ [Simplex.VarA artificialIdx] in
                         (names1, slackIdx, surplusIdx, S artificialIdx,
                          arts ++ [length names1 - 1])
                     end)
                  cons (names, s, e, a, arts))))) = names ++ namesFrom s e a cons).
  { clear. induction cons as [|con rest IH]; intros names s e a arts; simpl.
    - now rewrite app_nil_r.
    - destruct (type con); rewrite IH, <- ?app_assoc; reflexivity. }
  specialize (G cons names0 1 1 1 []).
  destruct (fold_left _ cons _) as [[[[names s] e] a] arts]. exact G.
Qed.

Lemma length_namesFrom (cons : list constraint) :
  forall s e a, length (namesFrom s e a cons) = widthSum cons.
Proof.
  induction cons as [|con rest IH]; intros s e a; simpl; [reflexivity|].
  unfold width. destruct (type con); simpl; rewrite IH; reflexivity.
Qed.

(** The number of ["<="] constraints of a list. *)
Definition countLe (cons : list constraint) : nat :=
  length (filter (fun con => rel_eqb (type con) Le) cons).

(** The shadow-price entries for a list of slack columns, the first of
    which is labelled [C(idx + 1)]. *)
Fixpoint shadowFrom (z : list Q) (idx : nat) (cols : list nat) : list (nat * Q) :=
  match cols with
  | [] => []
  | c :: rest => (S idx, round4 (nneg (get z c))) :: shadowFrom z (S idx) rest
  end.

Lemma shadow_loop (z : list Q) (pre : list Simplex.varName) (cons : list constraint) :
  forall s e a vi idx acc,
  vi = length pre ->
  fold_left
    (fun st j =>
       match st with
       | None => None
       | Some (slackIdx, acc) =>
           match nth_error (pre ++ namesFrom s e a cons) j with
           | None => None
           | Some (Simplex.VarS _) =>
               Some (S slackIdx, acc ++ [(S slackIdx, round4 (nneg (get z j)))])
           | Some _ => Some (slackIdx, acc)
           end
       end)
    (seq vi (widthSum cons)) (Some (idx, acc)) =
  Some (idx + countLe cons, acc ++ shadowFrom z idx (slackCols vi cons)).
Proof.
  revert pre. induction cons as [|con rest IH]; intros pre s e a vi idx acc Hvi; subst vi.
  - simpl. now rewrite Nat.add_0_r, app_nil_r.
  - unfold countLe in *.
    change (widthSum (con :: rest)) with (width con + widthSum rest).
    cbn [namesFrom slackCols filter].
    unfold width. destruct (type con) eqn:T; cbn [rel_eqb Nat.add seq fold_left].
    + rewrite nth_error_app2, Nat.sub_diag by lia. cbn [nth_error].
      specialize (IH (pre ++ [Simplex.VarS s]) (S s) e a (S (length pre)) (S idx)
                     (acc ++ [(S idx, round4 (nneg (get z (length pre))))])).
      rewrite <- app_assoc in IH. cbn [app] in IH.
      rewrite IH by (rewrite length_app; simpl; lia).
      cbn [length shadowFrom]. rewrite <- app_assoc. cbn [app].
      f_equal. f_equal. lia.
    + rewrite (nth_error_app2 pre _ (le_n (length pre))), Nat.sub_diag.
      rewrite (nth_error_app2 pre _ (le_S _ _ (le_n (length pre)))).
      replace (S (length pre) - length pre) with 1 by lia. cbn [nth_error].
      specialize (IH (pre ++ [Simplex.VarE e; Simplex.VarA a]) s (S e) (S a)
                     (S (S (length pre))) idx acc).
      rewrite <- app_assoc in IH. cbn [app] in IH.
      rewrite IH by (rewrite length_app; simpl; lia). reflexivity.
    + rewrite nth_error_app2, Nat.sub_diag by lia. cbn [nth_error].
      specialize (IH (pre ++ [Simplex.VarA a]) s e (S a) (S (length pre)) idx acc).
      rewrite <- app_assoc in IH. cbn [app] in IH.
      rewrite IH by (rewrite length_app; simpl; lia). reflexivity.
Qed.

Lemma length_shadowFrom z idx cols : length (shadowFrom z idx cols) = length cols.
Proof. revert idx; induction cols; intros; simpl; auto. Qed.

Lemma nth_shadowFrom z cols :
  forall idx k, k < length cols ->
  nth_error (shadowFrom z idx cols) k =
  Some (idx + k + 1, round4 (nneg (get z (nth k cols 0)))).
Proof.
  induction cols as [|c rest IH]; intros idx k Hk; simpl in *; [lia|].
  destruct k; simpl.
  - replace (idx + 0 + 1) with (S idx) by lia. reflexivity.
  - rewrite IH by lia. replace (S idx + k + 1) with (idx + S k + 1) by lia.
    reflexivity.
Qed.

Lemma length_slackCols cons : forall vi, length (slackCols vi cons) = countLe cons.
Proof.
  unfold countLe. induction cons as [|con rest IH]; intros vi; simpl; [reflexivity|].
  destruct (type con); simpl; rewrite IH; reflexivity.
Qed.

Lemma countLe_app a b : countLe (a ++ b) = countLe a + countLe b.
Proof. unfold countLe. now rewrite filter_app, length_app. Qed.

(** The slack column of a ["<="] constraint is the first column of its
    block, and its position among the slack columns is the number of ["<="]
    constraints before it. *)
Lemma nth_slackCols cons :
  forall vi i, i < length cons -> type (nth i cons noCon) = Le ->
  countLe (firstn i cons) < length (slackCols vi cons) /\
  nth (countLe (firstn i cons)) (slackCols vi cons) 0 = startCol vi cons i.
Proof.
  unfold startCol, countLe.
  induction cons as [|con rest IH]; intros vi i Hi T; simpl in *; [lia|].
  destruct i; simpl in *.
  - rewrite T. simpl. split; [lia|lia].
  - unfold width. destruct (type con); simpl;
      destruct (IH (S vi) i ltac:(lia) T) as [L1 E1];
      destruct (IH (S (S vi)) i ltac:(lia) T) as [L2 E2]; split; try lia.
Qed.

Lemma filter_includes_length (bv : list nat) (tv : nat) :
  NoDup bv -> (forall b, In b bv -> b < tv) ->
  length (filter (fun j => includes bv j) (seq 0 tv)) = length bv.
Proof.
  intros ND B. apply Nat.le_antisymm.
  - apply NoDup_incl_length.
    + apply NoDup_filter, seq_NoDup.
    + intros j Hj. apply filter_In in Hj. now apply includes_In.
  - apply NoDup_incl_length; [exact ND|].
    intros b Hb. apply filter_In. split.
    + apply in_seq. specialize (B b Hb). lia.
    + now apply includes_In.
Qed.

Lemma reduced_loop (bv : list nat) (names : list Simplex.varName) (z : list Q) (n : nat) :
  for_upto n
    (fun acc j =>
       if includes bv j then acc
       else acc ++ [(nth_error names j, round4 (get z j))])
    [] =
  map (fun j => (nth_error names j, round4 (get z j)))
      (filter (fun j => negb (includes bv j)) (seq 0 n)).
Proof.
  induction n as [|n IH]; [reflexivity|].
  rewrite for_upto_S, IH, seq_S, filter_app, map_app. cbn [filter Nat.add].
  destruct (includes bv n); cbn [negb map]; [now rewrite app_nil_r|reflexivity].
Qed.

Lemma filter_negb_length {A : Type} (f : A -> bool) (l : list A) :
  length (filter (fun x => negb (f x)) l) + length (filter f l) = length l.
Proof.
  induction l as [|x l IH]; simpl; [reflexivity|].
  destruct (f x); simpl; lia.
Qed.

(** The tableau keeps its number of rows. *)
Lemma run_length (numVars : nat) (d : Simplex.data) :
  length (Simplex.l_tableau (fst (Simplex.run numVars d))) =
  length (Simplex.constraints d).
Proof.
  unfold Simplex.run.
  set (st := Simplex.buildTableau numVars d).
  set (tv := Simplex.totalVars st).
  set (Inv := fun s : Simplex.loopState =>
                canonicalState tv s /\
                length (Simplex.l_tableau s) = length (Simplex.constraints d)).
  assert (Step : forall s, Inv s ->
            Inv (match Simplex.loopBody (Simplex.artificialVarIndices st) tv s with
                 | Simplex.Continue s' => s'
                 | Simplex.Break s' => s'
                 end)).
  { intros s (C & L).
    destruct (loopBody_pass (Simplex.artificialVarIndices st) tv s C) as (C' & _).
    destruct (loopBody_cases (Simplex.artificialVarIndices st) tv s C)
      as [(E1 & _)|(r & c & Hr & Hc & Hp & EP)]; cbv zeta in *.
    - split; [exact C'|]. now rewrite E1.
    - split; [exact C'|]. destruct C as (W & _).
      pose proof (@pivot_spec (Simplex.l_tableau s) (Simplex.l_zRow s) r c
                    (Simplex.l_basicVars s) tv W Hr) as S.
      cbv zeta in S. rewrite <- EP in S. destruct S as (L' & _). now rewrite L'. }
  apply (@loop_inv (Simplex.artificialVarIndices st) tv Inv
           (fun s _ => length (Simplex.l_tableau s) = length (Simplex.constraints d))).
  - intros s s' I E. specialize (Step s I). now rewrite E in Step.
  - intros s s' I E. specialize (Step s I). rewrite E in Step. apply Step.
  - intros s I. apply I.
  - split; [apply buildTableau_canonical|].
    destruct (buildTableau_layout numVars d) as (_ & E2 & _).
    cbn [Simplex.l_tableau]. fold st in E2. rewrite E2. apply length_rowsFrom.
Qed.

(** X11.  The sensitivity report of a solve.  [performSensitivityAnalysis]
    does not fail on the state that [solve] hands it; it lists a reduced
    cost for each of the [totalVars - m] columns that are not basic ([m]
    the number of constraints), and one shadow price per ["<="] constraint.
    The shadow price labelled [Ck] is the negated objective-row entry, to
    four decimals, of the slack column of the [k]-th ["<="] constraint: the
    label counts the ["<="] constraints only, so [Ck] is constraint [k] of
    the problem only when no [">="] or ["="] constraint comes before it. *)
Theorem sensitivity_report (numVars : nat) (d : Simplex.data) :
  let r := Simplex.solve numVars d in
  let cons := Simplex.constraints d in
  let z := Simplex.lastOptimalZRow r in
  exists a,
    Simplex.performSensitivityAnalysis numVars (Simplex.lastOptimalTableau r) z
      (Simplex.lastOptimalBasicVars r) (Simplex.lastVarNames r)
      (Simplex.lastTotalVars r) = Some a /\
    length (Simplex.reducedCosts a) + length cons = Simplex.lastTotalVars r /\
    length (Simplex.shadowPrices a) = countLe cons /\
    forall i, i < length cons -> type (nth i cons noCon) = Le ->
      let k := countLe (firstn i cons) in
      nth i (Simplex.basicVars (Simplex.buildTableau numVars d)) 0 =
        startCol numVars cons i /\
      nth_error (Simplex.shadowPrices a) k =
        Some (k + 1, round4 (nneg (get z (startCol numVars cons i)))).
Proof.
  intros r cons z.
  destruct (run_invariant numVars d) as (C & _).
  pose proof (run_length numVars d) as RL.
  destruct (buildTableau_layout numVars d) as (E1 & E2 & E3 & E4 & E5 & E6).
  cbv zeta in E1, E2, E3, E4, E5, E6. fold cons in E1, E2, E3, E4, E5, E6, RL.
  set (st := Simplex.buildTableau numVars d) in *.
  set (s := fst (Simplex.run numVars d)) in *.
  change (Simplex.lastOptimalTableau r) with (Simplex.l_tableau s).
  change (Simplex.lastOptimalBasicVars r) with (Simplex.l_basicVars s).
  change (Simplex.lastVarNames r) with (Simplex.varNames st).
  change (Simplex.lastTotalVars r) with (Simplex.totalVars st).
  assert (Ez : z = Simplex.l_zRow s) by reflexivity.
  unfold Simplex.performSensitivityAnalysis.
  rewrite E5, nameVars_layout, E1.
  replace (numVars + widthSum cons - numVars) with (widthSum cons) by lia.
  rewrite (shadow_loop z (map (fun j => Simplex.VarX (j + 1)) (seq 0 numVars)) cons
             1 1 1 numVars 0 [])
    by now rewrite length_map, length_seq.
  eexists. split; [reflexivity|].
  cbn [Simplex.reducedCosts Simplex.shadowPrices app].
  destruct C as (W & LZ & I & B & Z0).
  pose proof (identity_nodup _ _ I) as ND. destruct I as [Lbv _].
  split; [|split].
  - rewrite reduced_loop, length_map.
    pose proof (filter_negb_length (fun j => includes (Simplex.l_basicVars s) j)
                  (seq 0 (numVars + widthSum cons))) as FL.
    rewrite length_seq in FL.
    rewrite (filter_includes_length (Simplex.l_basicVars s) (numVars + widthSum cons) ND)
      in FL.
    + rewrite Lbv, RL in FL. exact FL.
    + intros b Hb. destruct (In_nth _ _ 0 Hb) as [k [Hk <-]].
      rewrite <- E1. apply B. now rewrite <- Lbv.
  - now rewrite length_shadowFrom, length_slackCols.
  - intros i Hi T.
    destruct (nth_slackCols cons numVars i Hi T) as [Lk Ek].
    split.
    + rewrite E3, nth_basisFrom by exact Hi. now rewrite T.
    + rewrite nth_shadowFrom by exact Lk. rewrite Ek. reflexivity.
Qed.

(** ** The what-if analyses *)

Definition countLeT (types : list rel) : nat :=
  length (filter (fun t => rel_eqb t Le) types).

Definition isLeAt (types : list rel) (i : nat) : bool :=
  match nth_error types i with Some Le => true | _ => false end.

Lemma firstn_S_error {A : Type} (l : list A) (n : nat) :
  firstn (S n) l =
  firstn n l ++ match nth_error l n with Some x => [x] | None => [] end.
Proof.
  revert n; induction l as [|x l IH]; intros n.
  - destruct n; reflexivity.
  - destruct n; [reflexivity|].
    change (firstn (S (S n)) (x :: l)) with (x :: firstn (S n) l).
    rewrite IH. reflexivity.
Qed.

Lemma countLeT_S (types : list rel) (n : nat) :
  countLeT (firstn (S n) types) =
  countLeT (firstn n types) + (if isLeAt types n then 1 else 0).
Proof.
  unfold countLeT, isLeAt. rewrite firstn_S_error, filter_app, length_app.
  destruct (nth_error types n) as [[| |]|]; reflexivity.
Qed.

(** The scan for the slack column, up to constraint [n]. *)
Lemma findSlackVar_scan (numVars : nat) (optional : bool) (types : list rel)
    (idx n : nat) :
  n <= idx + 1 -> optional = true \/ n <= length types ->
  for_upto n
    (fun st i =>
       match st with
       | None => None
       | Some (slackVar, slackCount) =>
           match nth_error types i with
           | None => if optional then Some (slackVar, slackCount) else None
           | Some Le =>
               Some (if (i =? idx)%nat then Some (numVars + slackCount)%nat else slackVar,
                     S slackCount)
           | Some _ => Some (slackVar, slackCount)
           end
       end)
    (Some (None, 0)) =
  Some (if (idx <? n) && isLeAt types idx
        then Some (numVars + countLeT (firstn idx types)) else None,
        countLeT (firstn n types)).
Proof.
  induction n as [|n IH]; intros Hn Ho.
  - rewrite for_upto_0. reflexivity.
  - rewrite for_upto_S, IH by first [lia | destruct Ho; [now left|right; lia]].
    rewrite countLeT_S.
    destruct (nth_error types n) as [t|] eqn:EN.
    + assert (EL : isLeAt types n = rel_eqb t Le).
      { unfold isLeAt. rewrite EN. destruct t; reflexivity. }
      destruct (Nat.eqb_spec n idx) as [->|Hne].
      * rewrite Nat.ltb_irrefl.
        replace (idx <? S idx) with true by (symmetry; apply Nat.ltb_lt; lia).
        cbn [andb]. rewrite EL.
        destruct t; cbn [rel_eqb]; rewrite ?Nat.add_0_r, ?Nat.add_1_r; reflexivity.
      * replace (idx <? n) with false by (symmetry; apply Nat.ltb_ge; lia).
        replace (idx <? S n) with false by (symmetry; apply Nat.ltb_ge; lia).
        cbn [andb]. rewrite EL.
        destruct t; cbn [rel_eqb]; rewrite ?Nat.add_0_r, ?Nat.add_1_r; reflexivity.
    + assert (EL : isLeAt types n = false).
      { unfold isLeAt. now rewrite EN. }
      assert (Hl : length types <= n) by now apply nth_error_None.
      destruct Ho as [->|Ho]; [|lia].
      rewrite EL, Nat.add_0_r.
      destruct (Nat.eqb_spec n idx) as [->|Hne].
      * rewrite EL, !andb_false_r. reflexivity.
      * replace (idx <? n) with false by (symmetry; apply Nat.ltb_ge; lia).
        replace (idx <? S n) with false by (symmetry; apply Nat.ltb_ge; lia).
        reflexivity.
Qed.

Lemma findSlackVar_found (numVars : nat) (optional : bool) (types : list rel)
    (idx : nat) :
  optional = true \/ idx < length types ->
  Simplex.findSlackVar numVars optional types idx =
  Some (if isLeAt types idx
        then Some (numVars + countLeT (firstn idx types)) else None).
Proof.
  intros Ho. unfold Simplex.findSlackVar.
  rewrite (findSlackVar_scan numVars optional types idx (idx + 1))
    by first [lia | destruct Ho; [now left|right; lia]].
  replace (idx <? idx + 1) with true by (symmetry; apply Nat.ltb_lt; lia).
  reflexivity.
Qed.

Lemma countLeT_map (cons : list constraint) :
  countLeT (map type cons) = countLe cons.
Proof.
  unfold countLeT, countLe. induction cons as [|con rest IH]; simpl; [reflexivity|].
  destruct (type con); simpl; now rewrite IH.
Qed.

Lemma isLeAt_map (cons : list constraint) (i : nat) :
  i < length cons ->
  isLeAt (map type cons) i = rel_eqb (type (nth i cons noCon)) Le.
Proof.
  intros Hi. unfold isLeAt.
  rewrite nth_error_map, (nth_error_nth' cons noCon Hi). simpl.
  destruct (type (nth i cons noCon)); reflexivity.
Qed.

Lemma countLe_le_width (cons : list constraint) : countLe cons <= widthSum cons.
Proof.
  unfold countLe. induction cons as [|con rest IH]; simpl; [lia|].
  unfold width. destruct (type con); simpl; lia.
Qed.

(** The count of the ["<="] constraints is the number of columns they add
    exactly when there is no other constraint. *)
Lemma countLe_width_iff (cons : list constraint) :
  countLe cons = widthSum cons <-> Forall (fun con => type con = Le) cons.
Proof.
  induction cons as [|con rest IH]; simpl.
  - split; [constructor|reflexivity].
  - pose proof (countLe_le_width rest) as Hle.
    unfold countLe in *. simpl. unfold width.
    destruct (type con) eqn:T; simpl.
    + split.
      * intros E. constructor; [exact T|]. apply IH. lia.
      * intros F. inversion F; subst. apply IH in H2. lia.
    + split; [lia|]. intros F. inversion F; subst. congruence.
    + split; [lia|]. intros F. inversion F; subst. congruence.
Qed.

Lemma change_bi_column (numVars : nat) (d : Simplex.data) (r : Simplex.solved)
    (conIdx : nat) (newValue originalValue : Q) :
  let cons := Simplex.constraints d in
  let slackCol := nth conIdx (Simplex.basicVars (Simplex.buildTableau numVars d)) 0 in
  let col := numVars + countLe (firstn conIdx cons) in
  conIdx < length cons ->
  match type (nth conIdx cons noCon) with
  | Le =>
      let shadowPrice := nneg (get (Simplex.lastOptimalZRow r) col) in
      let deltaZ := nmul shadowPrice (nsub newValue originalValue) in
      Simplex.analyzeChangeBi numVars r (map type cons) conIdx newValue originalValue =
        Some (Simplex.ShadowEstimate shadowPrice deltaZ (nadd (Simplex.finalZ r) deltaZ)) /\
      col <= slackCol /\
      (col = slackCol <-> Forall (fun con => type con = Le) (firstn conIdx cons))
  | _ =>
      Simplex.analyzeChangeBi numVars r (map type cons) conIdx newValue originalValue =
        Some Simplex.NoSlackResolve
  end.
Proof.
  intros cons slackCol col Hi.
  unfold Simplex.analyzeChangeBi.
  rewrite findSlackVar_found by (right; now rewrite length_map).
  rewrite isLeAt_map by exact Hi. rewrite firstn_map, countLeT_map.
  destruct (buildTableau_layout numVars d) as (_ & _ & E3 & _).
  cbv zeta in E3. fold cons in E3.
  destruct (type (nth conIdx cons noCon)) eqn:T; cbn [rel_eqb]; try reflexivity.
  split; [reflexivity|].
  assert (Es : slackCol = numVars + widthSum (firstn conIdx cons)).
  { unfold slackCol. rewrite E3, nth_basisFrom by exact Hi. now rewrite T. }
  pose proof (countLe_le_width (firstn conIdx cons)) as Hle.
  pose proof (countLe_width_iff (firstn conIdx cons)) as Hiff.
  split; [unfold col; lia|].
  rewrite <- Hiff. unfold col. split; lia.
Qed.

(** X12.  The what-if analysis of a right-hand side after a solve.  For a
    ["<="] constraint [analyzeChangeBi] takes as shadow price the negated
    objective-row entry of column [numVars + (number of "<=" constraints
    before it)], and estimates the change in Z as shadow price times the
    change of the right-hand side; for a [">="] or ["="] constraint it
    advises to re-solve.  The column it reads is the slack column of the
    constraint exactly when every earlier constraint is ["<="]; after a
    [">="] or ["="] constraint it lies to the left of the slack column. *)
Theorem change_bi_reads_column (numVars : nat) (d : Simplex.data)
    (conIdx : nat) (newValue originalValue : Q) :
  let r := Simplex.solve numVars d in
  let cons := Simplex.constraints d in
  let slackCol := nth conIdx (Simplex.basicVars (Simplex.buildTableau numVars d)) 0 in
  let col := numVars + countLe (firstn conIdx cons) in
  conIdx < length cons ->
  match type (nth conIdx cons noCon) with
  | Le =>
      let shadowPrice := nneg (get (Simplex.lastOptimalZRow r) col) in
      let deltaZ := nmul shadowPrice (nsub newValue originalValue) in
      Simplex.analyzeChangeBi numVars r (map type cons) conIdx newValue originalValue =
        Some (Simplex.ShadowEstimate shadowPrice deltaZ (nadd (Simplex.finalZ r) deltaZ)) /\
      col <= slackCol /\
      (col = slackCol <-> Forall (fun con => type con = Le) (firstn conIdx cons))
  | _ =>
      Simplex.analyzeChangeBi numVars r (map type cons) conIdx newValue originalValue =
        Some Simplex.NoSlackResolve
  end.
Proof. apply (change_bi_column numVars d (Simplex.solve numVars d)). Qed.

Lemma change_bi_reads_column_witness :
  Simplex.analyzeChangeBi 2 (Simplex.solve 2 scenarioA)
    (map type (Simplex.constraints scenarioA)) 1 4 3 =
  Some (Simplex.ShadowEstimate (-1) (-1) 10).
Proof.
  assert (H : 1 < length (Simplex.constraints scenarioA)) by (simpl; lia).
  exact (proj1 (change_bi_reads_column 2 scenarioA 1 4 3 H)).
Defined.

(** The loop that accumulates a left-hand side. *)
Lemma dot_loop (f g : nat -> Q) (n : nat) :
  (for_upto n (fun acc j => nadd acc (nmul (f j) (g j))) 0 ==
   sumQ (fun j => f j * g j) n)%Q.
Proof.
  induction n as [|n IH]; [reflexivity|].
  rewrite for_upto_S, nadd_eq, nmul_eq, IH. reflexivity.
Qed.

Definition stillSatisfied (v : Simplex.addConVerdict) : Prop :=
  match v with Simplex.StillSatisfied _ _ => True | Simplex.Violated _ => False end.

(** X13.  The what-if analysis of a new constraint, given one coefficient
    per decision variable, evaluates the left-hand side at the stored
    solution, that is at the values rounded to four decimals, and answers
    "satisfied" exactly when
    [lhs <= rhs + 1e-10] for ["<="], [lhs >= rhs - 1e-10] for [">="] and
    [|lhs - rhs| < 1e-10] for ["="]; so a constraint judged satisfied as an
    equation is judged satisfied as either inequality. *)
Theorem add_constraint_verdict (numVars : nat) (r : Simplex.solved) (coeffs : list Q)
    (rhs : Q) :
  length coeffs = numVars ->
  let lhs := sumQ (fun j => get coeffs j * get (Simplex.solution r) j)%Q numVars in
  (stillSatisfied (Simplex.analyzeAddConstraint numVars r coeffs Le rhs) <->
   (lhs <= rhs + eps10)%Q) /\
  (stillSatisfied (Simplex.analyzeAddConstraint numVars r coeffs Ge rhs) <->
   (rhs - eps10 <= lhs)%Q) /\
  (stillSatisfied (Simplex.analyzeAddConstraint numVars r coeffs Eq rhs) <->
   (Qabs (lhs - rhs) < eps10)%Q) /\
  (stillSatisfied (Simplex.analyzeAddConstraint numVars r coeffs Eq rhs) ->
   stillSatisfied (Simplex.analyzeAddConstraint numVars r coeffs Le rhs) /\
   stillSatisfied (Simplex.analyzeAddConstraint numVars r coeffs Ge rhs)).
Proof.
  intros _ lhs.
  pose proof (dot_loop (get coeffs) (get (Simplex.solution r)) numVars) as DL.
  fold lhs in DL.
  assert (A : stillSatisfied (Simplex.analyzeAddConstraint numVars r coeffs Le rhs) <->
              (lhs <= rhs + eps10)%Q).
  { unfold Simplex.analyzeAddConstraint.
    destruct (nle _ _) eqn:E; cbn [stillSatisfied].
    - apply nle_iff in E. rewrite nadd_eq, DL in E. tauto.
    - split; [contradiction|]. intros H. exfalso.
      assert (E' : nle (for_upto numVars
                          (fun lhs j => nadd lhs (nmul (get coeffs j)
                                                   (get (Simplex.solution r) j))) 0%Q)
                       (nadd rhs eps10) = true)
        by (apply nle_iff; rewrite nadd_eq, DL; exact H).
      congruence. }
  assert (B : stillSatisfied (Simplex.analyzeAddConstraint numVars r coeffs Ge rhs) <->
              (rhs - eps10 <= lhs)%Q).
  { unfold Simplex.analyzeAddConstraint.
    destruct (nge _ _) eqn:E; cbn [stillSatisfied].
    - apply nge_iff in E. rewrite nsub_eq, DL in E. tauto.
    - split; [contradiction|]. intros H. exfalso.
      assert (E' : nge (for_upto numVars
                          (fun lhs j => nadd lhs (nmul (get coeffs j)
                                                   (get (Simplex.solution r) j))) 0%Q)
                       (nsub rhs eps10) = true)
        by (apply nge_iff; rewrite nsub_eq, DL; exact H).
      congruence. }
  assert (C : stillSatisfied (Simplex.analyzeAddConstraint numVars r coeffs Eq rhs) <->
              (Qabs (lhs - rhs) < eps10)%Q).
  { unfold Simplex.analyzeAddConstraint.
    destruct (nlt _ _) eqn:E; cbn [stillSatisfied].
    - apply nlt_iff in E. rewrite nsub_eq, DL in E. tauto.
    - split; [contradiction|]. intros H. exfalso.
      assert (E' : nlt (Qabs (nsub (for_upto numVars
                          (fun lhs j => nadd lhs (nmul (get coeffs j)
                                                   (get (Simplex.solution r) j))) 0%Q) rhs))
                       eps10 = true)
        by (apply nlt_iff; rewrite nsub_eq, DL; exact H).
      congruence. }
  split; [exact A|]. split; [exact B|]. split; [exact C|].
  intros H. apply C in H. apply Qabs_lt_iff in H. destruct H as [L U].
  split; [apply A|apply B]; lra.
Qed.

(** Scenario A and the new constraint [x1 + x2 <= 4], which its solution
    [(3, 1)] meets with equality. *)
Lemma add_constraint_verdict_witness :
  Simplex.analyzeAddConstraint 2 (Simplex.solve 2 scenarioA) [1; 1]%Q Le 4%Q =
    Simplex.StillSatisfied 4%Q (Simplex.ShownNum 11%Q) /\
  let lhs := sumQ (fun j => get [1; 1]%Q j * get (Simplex.solution (Simplex.solve 2 scenarioA)) j)%Q 2 in
  (stillSatisfied (Simplex.analyzeAddConstraint 2 (Simplex.solve 2 scenarioA) [1; 1]%Q Le 4%Q) <->
   (lhs <= 4 + eps10)%Q) /\
  (stillSatisfied (Simplex.analyzeAddConstraint 2 (Simplex.solve 2 scenarioA) [1; 1]%Q Ge 4%Q) <->
   (4 - eps10 <= lhs)%Q) /\
  (stillSatisfied (Simplex.analyzeAddConstraint 2 (Simplex.solve 2 scenarioA) [1; 1]%Q Eq 4%Q) <->
   (Qabs (lhs - 4) < eps10)%Q) /\
  (stillSatisfied (Simplex.analyzeAddConstraint 2 (Simplex.solve 2 scenarioA) [1; 1]%Q Eq 4%Q) ->
   stillSatisfied (Simplex.analyzeAddConstraint 2 (Simplex.solve 2 scenarioA) [1; 1]%Q Le 4%Q) /\
   stillSatisfied (Simplex.analyzeAddConstraint 2 (Simplex.solve 2 scenarioA) [1; 1]%Q Ge 4%Q)).
Proof.
  split; [vm_compute; reflexivity|].
  exact (add_constraint_verdict 2 (Simplex.solve 2 scenarioA) [1; 1]%Q 4%Q eq_refl).
Defined.


(** The term that constraint [i] contributes to the reduced cost of a new
    variable. *)
Definition priceTerm (numVars : nat) (z : list Q) (types : list rel) (conCoefs : list Q)
    (i : nat) : Q :=
  if isLeAt types i
  then (- get z (numVars + countLeT (firstn i types)) * get conCoefs i)%Q
  else 0%Q.

Lemma reducedCost_loop (numVars : nat) (z : list Q) (types : list rel)
    (conCoefs : list Q) (objCoef : Q) (m : nat) :
  (for_upto m
     (fun reducedCost i =>
        match Simplex.findSlackVar numVars true types i with
        | Some (Some slackVarIdx) =>
            nsub reducedCost (nmul (nneg (get z slackVarIdx)) (get conCoefs i))
        | _ => reducedCost
        end)
     objCoef ==
   objCoef - sumQ (priceTerm numVars z types conCoefs) m)%Q.
Proof.
  induction m as [|m IH]; [rewrite for_upto_0; cbn [sumQ]; ring|].
  rewrite for_upto_S, findSlackVar_found by now left.
  cbn [sumQ].
  set (S := sumQ (priceTerm numVars z types conCoefs) m) in *.
  unfold priceTerm.
  destruct (isLeAt types m).
  - rewrite nsub_eq, nmul_eq, IH. unfold nneg. ring.
  - rewrite IH. ring.
Qed.

Lemma add_variable_cost (numVars : nat) (r : Simplex.solved) (types : list rel)
    (objCoef : Q) (conCoefs : list Q) :
  let rc :=
    (objCoef -
     sumQ (priceTerm numVars (Simplex.lastOptimalZRow r) types conCoefs)
          (length (Simplex.lastOptimalBasicVars r)))%Q in
  match Simplex.analyzeAddVariable numVars r types objCoef conCoefs with
  | Simplex.StaysOptimal c z =>
      (c == rc)%Q /\ (- eps10 <= rc)%Q /\ z = Simplex.roundNum (Simplex.finalZ r)
  | Simplex.ShouldEnter c => (c == rc)%Q /\ (rc < - eps10)%Q
  end.
Proof.
  intros rc. unfold Simplex.analyzeAddVariable.
  pose proof (reducedCost_loop numVars (Simplex.lastOptimalZRow r) types conCoefs objCoef
                (length (Simplex.lastOptimalBasicVars r))) as RL.
  fold rc in RL.
  destruct (nge _ _) eqn:E.
  - apply nge_iff in E. rewrite RL in E. repeat split; assumption.
  - split; [exact RL|]. apply Qnot_le_lt. intros H.
    rewrite <- RL in H. apply nge_iff in H. congruence.
Qed.

(** X14.  The what-if analysis of a new variable after a solve, given one
    coefficient per constraint, computes [c - sum_i y_i * a_i] over the
    constraints [i] that the form shows as ["<="], where [y_i] is the
    negated objective-row entry of column
    [numVars + (number of "<=" constraints before i)] and [a_i] the new
    variable's coefficient in constraint [i], and answers "remains optimal"
    exactly when that number is at least [-1e-10]. *)
Theorem add_variable_verdict (numVars : nat) (d : Simplex.data) (types : list rel)
    (objCoef : Q) (conCoefs : list Q) :
  let r := Simplex.solve numVars d in
  length (Simplex.constraints d) <= length conCoefs ->
  let rc :=
    (objCoef -
     sumQ (priceTerm numVars (Simplex.lastOptimalZRow r) types conCoefs)
          (length (Simplex.constraints d)))%Q in
  match Simplex.analyzeAddVariable numVars r types objCoef conCoefs with
  | Simplex.StaysOptimal c z =>
      (c == rc)%Q /\ (- eps10 <= rc)%Q /\ z = Simplex.roundNum (Simplex.finalZ r)
  | Simplex.ShouldEnter c => (c == rc)%Q /\ (rc < - eps10)%Q
  end.
Proof.
  intros r _.
  assert (L : length (Simplex.lastOptimalBasicVars r) = length (Simplex.constraints d)).
  { destruct (run_invariant numVars d) as (C & _). unfold canonicalState in C.
    destruct C as (_ & _ & [Lb _] & _).
    pose proof (run_length numVars d) as Lt.
    change (Simplex.lastOptimalBasicVars r)
      with (Simplex.l_basicVars (fst (Simplex.run numVars d))).
    congruence. }
  rewrite <- L. apply add_variable_cost.
Qed.

(** Scenario A and a new variable with objective coefficient 1 and
    coefficient 1 in both constraints: the shadow prices are [-2] and [-1],
    the reduced cost is [1 - (-2) - (-1) = 4]. *)
Lemma add_variable_verdict_witness :
  Simplex.analyzeAddVariable 2 (Simplex.solve 2 scenarioA) [Le; Le] 1%Q [1; 1]%Q =
    Simplex.StaysOptimal 4%Q (Simplex.ShownNum 11%Q) /\
  match Simplex.analyzeAddVariable 2 (Simplex.solve 2 scenarioA) [Le; Le] 1%Q [1; 1]%Q with
  | Simplex.StaysOptimal c z =>
      (c == 1 - sumQ (priceTerm 2 (Simplex.lastOptimalZRow (Simplex.solve 2 scenarioA))
                        [Le; Le] [1; 1]%Q) 2)%Q /\
      (- eps10 <= 1 - sumQ (priceTerm 2 (Simplex.lastOptimalZRow (Simplex.solve 2 scenarioA))
                              [Le; Le] [1; 1]%Q) 2)%Q /\
      z = Simplex.roundNum (Simplex.finalZ (Simplex.solve 2 scenarioA))
  | Simplex.ShouldEnter c =>
      (c == 1 - sumQ (priceTerm 2 (Simplex.lastOptimalZRow (Simplex.solve 2 scenarioA))
                        [Le; Le] [1; 1]%Q) 2)%Q /\
      (1 - sumQ (priceTerm 2 (Simplex.lastOptimalZRow (Simplex.solve 2 scenarioA))
                   [Le; Le] [1; 1]%Q) 2 < - eps10)%Q
  end.
Proof.
  split; [vm_compute; reflexivity|].
  exact (add_variable_verdict 2 scenarioA [Le; Le] 1%Q [1; 1]%Q (Nat.le_refl 2)).
Defined.

Lemma slackCols_bounds (cons : list constraint) :
  forall vi c, In c (slackCols vi cons) -> vi <= c /\ c < vi + widthSum cons.
Proof.
  induction cons as [|con rest IH]; intros vi c Hin; simpl in *; [contradiction|].
  unfold width in *.
  destruct (type con); simpl in Hin.
  - destruct Hin as [<-|Hin]; [lia|]. apply IH in Hin. lia.
  - apply IH in Hin. lia.
  - apply IH in Hin. lia.
Qed.

Lemma In_shadowFrom (z : list Q) (cols : list nat) :
  forall idx k v, In (k, v) (shadowFrom z idx cols) ->
  exists c, In c cols /\ v = round4 (nneg (get z c)).
Proof.
  induction cols as [|c rest IH]; intros idx k v Hin; simpl in *; [contradiction|].
  destruct Hin as [E|Hin].
  - injection E as _ <-. exists c. auto.
  - destruct (IH _ _ _ Hin) as [c' [Hc E]]. exists c'. auto.
Qed.

Lemma round4_nonneg (x : Q) : (- eps10 <= x)%Q -> (0 <= round4 x)%Q.
Proof.
  intros H. apply round4_mono in H.
  assert (E : (round4 (- eps10) == 0)%Q) by (vm_compute; reflexivity).
  rewrite E in H. exact H.
Qed.

Lemma round4_nonpos (x : Q) : (x <= eps10)%Q -> (round4 x <= 0)%Q.
Proof.
  intros H. apply round4_mono in H.
  assert (E : (round4 eps10 == 0)%Q) by (vm_compute; reflexivity).
  rewrite E in H. exact H.
Qed.

(** A solve that ends on an "optimal" step has an objective row without an
    entry below [-1e-10]. *)
Lemma optimal_exit (numVars : nat) (d : Simplex.data) :
  let r := Simplex.solve numVars d in
  Simplex.whatIfShown r = true ->
  Simplex.isOptimal (Simplex.lastOptimalZRow r) (Simplex.lastTotalVars r) = true.
Proof.
  intros r H. pose proof (run_exit numVars d) as X. cbv zeta in X.
  unfold r, Simplex.solve in H. cbn [Simplex.whatIfShown] in H.
  change (Simplex.lastOptimalZRow r) with (Simplex.l_zRow (fst (Simplex.run numVars d))).
  change (Simplex.lastTotalVars r)
    with (Simplex.totalVars (Simplex.buildTableau numVars d)).
  set (s := fst (Simplex.run numVars d)) in *.
  destruct X as [R|_ T _|_ _ T _|O _ _ _|_ T]; unfold lastType in *.
  - destruct R as [R|R]; unfold lastType in R; rewrite R in H; discriminate.
  - rewrite T in H. discriminate.
  - rewrite T in H. discriminate.
  - exact O.
  - rewrite T in H. discriminate.
Qed.

(** X15.  The signs of an optimal report.  When [solve] ends on an
    "optimal" step, no entry of the objective row is below [-1e-10]; hence
    every reduced cost of the sensitivity report is at least zero, every
    shadow price of the report, being a negated entry, is at most zero, and
    the shadow price that [analyzeChangeBi] uses is at most [1e-10]. *)
Theorem optimal_report_signs (numVars : nat) (d : Simplex.data) :
  let r := Simplex.solve numVars d in
  let cons := Simplex.constraints d in
  Simplex.whatIfShown r = true ->
  (forall a,
     Simplex.performSensitivityAnalysis numVars (Simplex.lastOptimalTableau r)
       (Simplex.lastOptimalZRow r) (Simplex.lastOptimalBasicVars r)
       (Simplex.lastVarNames r) (Simplex.lastTotalVars r) = Some a ->
     (forall name v, In (name, v) (Simplex.reducedCosts a) -> (0 <= v)%Q) /\
     (forall k v, In (k, v) (Simplex.shadowPrices a) -> (v <= 0)%Q)) /\
  (forall conIdx newValue originalValue sp dz nz,
     conIdx < length cons ->
     Simplex.analyzeChangeBi numVars r (map type cons) conIdx newValue originalValue =
       Some (Simplex.ShadowEstimate sp dz nz) ->
     (sp <= eps10)%Q).
Proof.
  intros r cons H.
  pose proof (optimal_exit numVars d H) as O. fold r in O.
  destruct (buildTableau_layout numVars d) as (E1 & _ & _ & _ & E5 & _).
  cbv zeta in E1, E5. fold cons in E1, E5.
  change (Simplex.lastTotalVars r)
    with (Simplex.totalVars (Simplex.buildTableau numVars d)) in *.
  change (Simplex.lastVarNames r)
    with (Simplex.varNames (Simplex.buildTableau numVars d)) in *.
  set (z := Simplex.lastOptimalZRow r) in *.
  rewrite E1 in *.
  assert (Zj : forall j, j < numVars + widthSum cons -> (- eps10 <= get z j)%Q).
  { intros j Hj. now apply (@isOptimal_entry z (numVars + widthSum cons) j). }
  split.
  - intros a Ha. unfold Simplex.performSensitivityAnalysis in Ha.
    rewrite E5, nameVars_layout in Ha.
    replace (numVars + widthSum cons - numVars) with (widthSum cons) in Ha by lia.
    rewrite (shadow_loop z (map (fun j => Simplex.VarX (j + 1)) (seq 0 numVars)) cons
               1 1 1 numVars 0 []) in Ha
      by now rewrite length_map, length_seq.
    injection Ha as <-. cbn [Simplex.reducedCosts Simplex.shadowPrices app]. split.
    + intros name v Hin. rewrite reduced_loop in Hin.
      apply in_map_iff in Hin. destruct Hin as [j [E Hj]].
      injection E as _ <-. apply filter_In in Hj. destruct Hj as [Hj _].
      apply in_seq in Hj. apply round4_nonneg, Zj. lia.
    + intros k v Hin. apply In_shadowFrom in Hin. destruct Hin as [c [Hc ->]].
      apply slackCols_bounds in Hc. apply round4_nonpos.
      specialize (Zj c ltac:(lia)). unfold nneg. lra.
  - intros conIdx nv ov sp dz nz Hi E.
    pose proof (change_bi_column numVars d r conIdx nv ov Hi) as T.
    cbv zeta in T. fold cons in T.
    destruct (type (nth conIdx cons noCon)) eqn:Ty.
    + destruct T as (T & Hle & _). rewrite T in E. injection E as <- _ _.
      assert (Hs : nth conIdx (Simplex.basicVars (Simplex.buildTableau numVars d)) 0
                   < numVars + widthSum cons).
      { destruct (buildTableau_layout numVars d) as (_ & _ & E3 & _).
        cbv zeta in E3. fold cons in E3. rewrite E3.
        apply (basis_bounds numVars cons conIdx Hi). }
      fold z. specialize (Zj _ (Nat.le_lt_trans _ _ _ Hle Hs)).
      change (- get z (numVars + countLe (firstn conIdx cons)) <= eps10)%Q. lra.
    + rewrite T in E. discriminate.
    + rewrite T in E. discriminate.
Qed.


(** Scenario A ends on an "optimal" step; the shadow price used for its
    second constraint is [-1]. *)
Lemma optimal_report_signs_witness :
  Simplex.whatIfShown (Simplex.solve 2 scenarioA) = true /\ (-1 <= eps10)%Q.
Proof.
  assert (H : Simplex.whatIfShown (Simplex.solve 2 scenarioA) = true)
    by (vm_compute; reflexivity).
  assert (Hi : 1 < length (Simplex.constraints scenarioA)) by (simpl; lia).
  assert (E : Simplex.analyzeChangeBi 2 (Simplex.solve 2 scenarioA)
                (map type (Simplex.constraints scenarioA)) 1 4 3 =
              Some (Simplex.ShadowEstimate (-1) (-1) 10))
    by (vm_compute; reflexivity).
  split; [exact H|].
  exact (proj2 (optimal_report_signs 2 scenarioA H) 1 4%Q 3%Q (-1)%Q (-1)%Q 10%Q Hi E).
Defined.

(** ** The initial tableau in closed form *)

Lemma basisFrom_ge (cons : list constraint) :
  forall vi i, i < length cons -> vi <= nth i (basisFrom vi cons) 0.
Proof.
  intros vi i Hi. destruct (basis_in_block vi cons i Hi) as (L & _).
  unfold startCol in L. lia.
Qed.

(** The basic column of a row is artificial exactly when the constraint is
    not a ["<="] constraint. *)
Lemma basis_artificial_iff (cons : list constraint) :
  forall vi i, i < length cons ->
  (In (nth i (basisFrom vi cons) 0) (artsFrom vi cons) <->
   type (nth i cons noCon) <> Le).
Proof.
  induction cons as [|con rest IH]; intros vi i Hi; [simpl in Hi; lia|].
  cbn [basisFrom artsFrom]. destruct i as [|i].
  - cbn [nth]. unfold width. destruct (type con) eqn:T.
    + split; [|congruence]. intros H. apply arts_bounds in H. lia.
    + split; [discriminate|]. intros _. now left.
    + split; [discriminate|]. intros _. now left.
  - cbn [nth]. cbn [length] in Hi. assert (Hi' : i < length rest) by lia.
    pose proof (basisFrom_ge rest (vi + width con) i Hi') as G.
    specialize (IH (vi + width con) i Hi').
    unfold width in *. destruct (type con).
    + exact IH.
    + rewrite <- IH. split; [intros [E|H]; [lia|exact H]|intros H; now right].
    + rewrite <- IH. split; [intros [E|H]; [lia|exact H]|intros H; now right].
Qed.

(** X16.  The tableau that [buildTableau] returns for data with one
    coefficient per decision variable everywhere, in closed form.  There
    is one column per decision variable, then one for each ["<="] and ["="]
    constraint and two for each [">="] constraint, in the order of the
    constraints.  Row [i] holds the coefficients of constraint [i], a [1] in
    its basic column (the slack or the artificial column), a [-1] in the
    surplus column of a [">="] constraint, zeros elsewhere, and the
    right-hand side last; the basic column is artificial exactly when the
    constraint is not ["<="].  The objective row holds, in the column of a
    decision variable, the negated coefficient (the coefficient itself when
    minimizing), and in its last entry zero, each less [M] times the sum of
    the entries of that column over the rows of the [">="] and ["="]
    constraints. *)
Theorem initial_tableau_closed_form (numVars : nat) (d : Simplex.data) :
  length (Simplex.objCoeffs d) = numVars ->
  Forall (fun con => length (coeffs con) = numVars) (Simplex.constraints d) ->
  let st := Simplex.buildTableau numVars d in
  let cons := Simplex.constraints d in
  let tv := Simplex.totalVars st in
  let con := fun i => nth i cons noCon in
  let basic := fun i => nth i (Simplex.basicVars st) 0 in
  tv = numVars + widthSum cons /\
  length (Simplex.tableau st) = length cons /\
  length (Simplex.basicVars st) = length cons /\
  (forall i, i < length cons ->
     basic i = match type (con i) with
               | Ge => S (startCol numVars cons i)
               | _ => startCol numVars cons i
               end /\
     (In (basic i) (Simplex.artificialVarIndices st) <-> type (con i) <> Le) /\
     forall j,
       cell (Simplex.tableau st) i j =
         if j =? tv then rhs (con i)
         else if j =? basic i then 1%Q
         else if (j =? startCol numVars cons i) && rel_eqb (type (con i)) Ge then (-1)%Q
         else if j <? numVars then get (coeffs (con i)) j
         else 0%Q) /\
  (forall j, j < numVars ->
     (get (Simplex.zRow st) j ==
      (match Simplex.objType d with
       | Simplex.Max => - get (Simplex.objCoeffs d) j
       | Simplex.Min => get (Simplex.objCoeffs d) j
       end) -
      Simplex.M *
      sumQ (fun i => if rel_eqb (type (con i)) Le then 0 else get (coeffs (con i)) j)
           (length cons))%Q) /\
  (get (Simplex.zRow st) tv ==
   - (Simplex.M *
      sumQ (fun i => if rel_eqb (type (con i)) Le then 0 else rhs (con i))
           (length cons)))%Q.
Proof.
  intros _ _ st cons tv con basic.
  destruct (buildTableau_layout numVars d) as (E1 & E2 & E3 & E4 & _ & E6).
  cbv zeta in E1, E2, E3, E4, E6. fold cons st in E1, E2, E3, E4, E6.
  fold tv in E1. rewrite <- E1 in E2, E6.
  assert (Htv : numVars + widthSum cons <= tv) by (rewrite E1; lia).
  assert (Art : forall i, i < length cons ->
            includes (artsFrom numVars cons) (nth i (basisFrom numVars cons) 0) =
            negb (rel_eqb (type (con i)) Le)).
  { intros i Hi. pose proof (basis_artificial_iff cons numVars i Hi) as B.
    fold (con i) in B.
    destruct (includes _ _) eqn:I.
    - apply includes_In in I. apply B in I.
      destruct (type (con i)); [congruence|reflexivity|reflexivity].
    - destruct (type (con i)) eqn:T; [reflexivity| |];
        (exfalso; apply Bool.not_true_iff_false in I; apply I; apply includes_In;
         apply B; discriminate). }
  split; [exact E1|]. split; [rewrite E2; apply length_rowsFrom|].
  split; [rewrite E3; apply length_basisFrom|]. split; [|split].
  - intros i Hi. unfold basic. rewrite E3, E4. split; [|split].
    + now apply nth_basisFrom.
    + now apply basis_artificial_iff.
    + intros j. rewrite E2.
      destruct (initial_cells numVars tv cons i j Htv Hi) as [_ C]. exact C.
  - intros j Hj.
    destruct (zRowOf_cells numVars tv nneg
                (if negb (isMaxOf (Simplex.objType d))
                 then map nneg (Simplex.objCoeffs d) else Simplex.objCoeffs d)
                (rowsFrom numVars tv numVars cons) (basisFrom numVars cons)
                (artsFrom numVars cons)) as [_ CZ].
    cbv zeta in CZ. rewrite <- E6 in CZ. rewrite (CZ j) by lia.
    assert (NA : includes (artsFrom numVars cons) j = false).
    { destruct (includes _ j) eqn:I; [|reflexivity].
      apply includes_In, arts_bounds in I. lia. }
    rewrite NA. destruct (Nat.ltb_spec j numVars) as [_|]; [|lia].
    rewrite length_basisFrom.
    rewrite (sumQ_ext _
               (fun i => if rel_eqb (type (con i)) Le then 0
                         else get (coeffs (con i)) j)%Q).
    + destruct (Simplex.objType d); cbn [isMaxOf negb].
      * unfold nneg. reflexivity.
      * rewrite get_map_nneg. unfold nneg. ring.
    + intros i Hi. rewrite (Art i Hi).
      destruct (initial_cells numVars tv cons i j Htv Hi) as [_ C]. cbv zeta in C.
      pose proof (basisFrom_ge cons numVars i Hi) as G.
      assert (Hv : numVars <= startCol numVars cons i) by (unfold startCol; lia).
      destruct (rel_eqb (type (con i)) Le); cbn [negb]; [reflexivity|].
      rewrite C.
      destruct (Nat.eqb_spec j tv); [lia|].
      destruct (Nat.eqb_spec j (nth i (basisFrom numVars cons) 0)); [lia|].
      destruct (Nat.eqb_spec j (startCol numVars cons i)); [lia|]. cbn [andb].
      destruct (Nat.ltb_spec j numVars); [reflexivity|lia].
  - destruct (zRowOf_cells numVars tv nneg
                (if negb (isMaxOf (Simplex.objType d))
                 then map nneg (Simplex.objCoeffs d) else Simplex.objCoeffs d)
                (rowsFrom numVars tv numVars cons) (basisFrom numVars cons)
                (artsFrom numVars cons)) as [_ CZ].
    cbv zeta in CZ. rewrite <- E6 in CZ. rewrite (CZ tv) by lia.
    assert (NA : includes (artsFrom numVars cons) tv = false).
    { destruct (includes _ tv) eqn:I; [|reflexivity].
      apply includes_In, arts_bounds in I. lia. }
    rewrite NA. destruct (Nat.ltb_spec tv numVars) as [|_]; [lia|].
    rewrite length_basisFrom.
    rewrite (sumQ_ext _
               (fun i => if rel_eqb (type (con i)) Le then 0 else rhs (con i))%Q).
    + ring.
    + intros i Hi. rewrite (Art i Hi).
      destruct (initial_cells numVars tv cons i tv Htv Hi) as [_ C]. cbv zeta in C.
      destruct (rel_eqb (type (con i)) Le); cbn [negb]; [reflexivity|].
      rewrite C, Nat.eqb_refl. reflexivity.
Qed.

(** Scenario A: two slack columns, no artificial one, and the objective
    row [-3, -2, 0, 0, 0]. *)
Lemma initial_tableau_closed_form_witness :
  Simplex.tableau (Simplex.buildTableau 2 scenarioA) =
    [ [1; 1; 1; 0; 4]%Q; [1; 0; 0; 1; 3]%Q ] /\
  Simplex.zRow (Simplex.buildTableau 2 scenarioA) = [-3; -2; 0; 0; 0]%Q /\
  Simplex.totalVars (Simplex.buildTableau 2 scenarioA) =
    2 + widthSum (Simplex.constraints scenarioA).
Proof.
  split; [vm_compute; reflexivity|]. split; [vm_compute; reflexivity|].
  refine (proj1 (initial_tableau_closed_form 2 scenarioA eq_refl _)).
  repeat constructor.
Defined.

Lemma nle_false_iff (a b : Q) : nle a b = false <-> (b < a)%Q.
Proof.
  unfold nle. rewrite <- Bool.not_true_iff_false, Qle_bool_iff. split; lra.
Qed.

(** X17.  The what-if analysis of an objective coefficient after an optimal
    solve: a basic variable always yields the recommendation to re-solve;
    for a non-basic variable the new reduced cost is the objective-row entry
    plus the change, the basis is reported to remain optimal when it is at
    least [-1e-10], and re-optimization is required otherwise, which happens
    only when the coefficient is lowered. *)
Theorem change_cj_verdict (numVars : nat) (d : Simplex.data) (varIdx : nat)
    (newValue originalValue : Q) :
  let r := Simplex.solve numVars d in
  Simplex.whatIfShown r = true -> varIdx < numVars ->
  match Simplex.analyzeChangeCj r varIdx newValue originalValue with
  | Simplex.RecommendResolve => In varIdx (Simplex.lastOptimalBasicVars r)
  | Simplex.RemainsOptimal z =>
      ~ In varIdx (Simplex.lastOptimalBasicVars r) /\
      z = Simplex.roundNum (Simplex.finalZ r) /\
      (- eps10 <= get (Simplex.lastOptimalZRow r) varIdx + (newValue - originalValue))%Q
  | Simplex.ReoptimizationRequired =>
      ~ In varIdx (Simplex.lastOptimalBasicVars r) /\
      (get (Simplex.lastOptimalZRow r) varIdx + (newValue - originalValue) < - eps10)%Q /\
      (newValue < originalValue)%Q
  end.
Proof.
  intros r W Hv. unfold Simplex.analyzeChangeCj.
  pose proof (optimal_exit numVars d W) as O. fold r in O.
  assert (Zj : (- eps10 <= get (Simplex.lastOptimalZRow r) varIdx)%Q).
  { apply (@isOptimal_entry _ _ varIdx O).
    pose proof (totalVars_ge numVars d). subst r. simpl. lia. }
  destruct (existsb _ (Simplex.lastOptimalBasicVars r)) eqn:B.
  - apply existsb_exists in B. destruct B as (bv & Hin & E).
    apply Nat.eqb_eq in E. now subst.
  - assert (NB : ~ In varIdx (Simplex.lastOptimalBasicVars r)).
    { intros Hin. apply Bool.not_true_iff_false in B. apply B.
      apply existsb_exists. exists varIdx. split; [exact Hin|apply Nat.eqb_refl]. }
    destruct (nge _ _) eqn:G.
    + apply nge_iff in G. rewrite nadd_eq, nsub_eq in G. auto.
    + unfold nge in G. apply nle_false_iff in G. rewrite nadd_eq, nsub_eq in G.
      split; [exact NB|]. split; [exact G|]. lra.
Qed.

Lemma change_cj_verdict_witness :
  Simplex.analyzeChangeCj (Simplex.solve 2 oneConstraint) 1 0%Q 2%Q =
    Simplex.ReoptimizationRequired /\
  (~ In 1 (Simplex.lastOptimalBasicVars (Simplex.solve 2 oneConstraint)) /\
   (get (Simplex.lastOptimalZRow (Simplex.solve 2 oneConstraint)) 1 + (0 - 2) < - eps10)%Q /\
   (0 < 2)%Q).
Proof.
  assert (W : Simplex.whatIfShown (Simplex.solve 2 oneConstraint) = true)
    by (vm_compute; reflexivity).
  assert (E : Simplex.analyzeChangeCj (Simplex.solve 2 oneConstraint) 1 0%Q 2%Q =
              Simplex.ReoptimizationRequired) by (vm_compute; reflexivity).
  split; [exact E|].
  pose proof (change_cj_verdict 2 oneConstraint 1 0%Q 2%Q W (Nat.lt_succ_diag_r 1)) as H.
  rewrite E in H. exact H.
Defined.

(** ** What a report of "infeasible" or "unbounded" rests on *)

(** The searches that failed when the loop was left with an "infeasible" or
    an "unbounded" step. *)
Definition certified (arts : list nat) (tv : nat) (s : Simplex.loopState) : Prop :=
  match lastType s with
  | Some Simplex.StepUnbounded =>
      Simplex.isOptimal (Simplex.l_zRow s) tv = false /\
      exists c, Simplex.findPivotColumn (Simplex.l_zRow s) tv = Some c /\
                fst (Simplex.findPivotRow (Simplex.l_tableau s) c tv) = None
  | Some Simplex.StepInfeasible =>
      (Simplex.isOptimal (Simplex.l_zRow s) tv = true /\
       Simplex.hasArtificialInBasis (Simplex.l_tableau s) (Simplex.l_basicVars s)
         arts tv = true) \/
      (Simplex.hasNegativeRHS (Simplex.l_tableau s) = true /\
       exists r, Simplex.findDualPivotRow (Simplex.l_tableau s) tv = Some r /\
                 Simplex.findDualPivotCol (Simplex.l_tableau s) (Simplex.l_zRow s) r tv =
                   None)
  | _ => True
  end.

Lemma loopBody_certified (arts : list nat) (tv : nat) (s s' : Simplex.loopState) :
  Simplex.loopBody arts tv s = Simplex.Break s' -> certified arts tv s'.
Proof.
  unfold Simplex.loopBody, certified, lastType, Simplex.push.
  cbn [Simplex.l_tableau Simplex.l_zRow Simplex.l_basicVars Simplex.l_useDualSimplex
       Simplex.l_steps Simplex.l_iteration].
  destruct (Simplex.l_useDualSimplex s && Simplex.hasNegativeRHS (Simplex.l_tableau s)) eqn:D.
  - apply andb_true_iff in D. destruct D as [_ D].
    destruct (Simplex.findDualPivotRow _ _) as [pr|] eqn:R; [|discriminate].
    destruct (Simplex.findDualPivotCol _ _ _ _) as [pc|] eqn:C.
    + unfold Simplex.doPivot. destruct (Simplex.pivot _ _ _ _ _ _) as [[? ?] ?].
      discriminate.
    + intros E; injection E as <-.
      cbn [Simplex.l_tableau Simplex.l_zRow Simplex.l_basicVars Simplex.l_steps].
      rewrite last_opt_app. cbn [option_map Simplex.step_type].
      right. split; [exact D|]. exists pr. auto.
  - destruct (Simplex.isOptimal (Simplex.l_zRow s) tv) eqn:O.
    + destruct (Simplex.hasArtificialInBasis _ _ _ _) eqn:A;
        intros E; injection E as <-;
        cbn [Simplex.l_tableau Simplex.l_zRow Simplex.l_basicVars Simplex.l_steps];
        rewrite last_opt_app; cbn [option_map Simplex.step_type]; auto.
    + destruct (Simplex.findPivotColumn _ _) as [pc|] eqn:C.
      * destruct (fst (Simplex.findPivotRow _ _ _)) as [pr|] eqn:R.
        -- unfold Simplex.doPivot. destruct (Simplex.pivot _ _ _ _ _ _) as [[? ?] ?].
           discriminate.
        -- intros E; injection E as <-.
           cbn [Simplex.l_tableau Simplex.l_zRow Simplex.l_basicVars Simplex.l_steps].
           rewrite last_opt_app. cbn [option_map Simplex.step_type].
           split; [exact O|]. exists pc. auto.
      * intros E; injection E as <-.
        cbn [Simplex.l_tableau Simplex.l_zRow Simplex.l_basicVars Simplex.l_steps].
        rewrite last_opt_app. cbn [option_map Simplex.step_type]. exact I.
Qed.

Lemma run_certified (numVars : nat) (d : Simplex.data) :
  let st := Simplex.buildTableau numVars d in
  certified (Simplex.artificialVarIndices st) (Simplex.totalVars st)
            (fst (Simplex.run numVars d)).
Proof.
  intros st. unfold Simplex.run. fold st.
  apply (@loop_inv (Simplex.artificialVarIndices st) (Simplex.totalVars st) running
           (fun s _ => certified (Simplex.artificialVarIndices st) (Simplex.totalVars st) s)).
  - intros s s' R E. exact (@running_continue _ _ s s' R E).
  - intros s s' _ E. exact (loopBody_certified _ _ s s' E).
  - intros s [R|R]; unfold certified; rewrite R; exact I.
  - left. reflexivity.
Qed.

Lemma not_optimal_entry (z : list Q) (tv c : nat) :
  Simplex.isOptimal z tv = false ->
  (forall j, j < tv -> (get z c <= get z j)%Q) -> (get z c < - eps10)%Q.
Proof.
  intros O Min. destruct (Qlt_le_dec (get z c) (- eps10)) as [L|G]; [exact L|].
  exfalso. apply Bool.not_true_iff_false in O. apply O.
  unfold Simplex.isOptimal. apply forallb_forall. intros j Hj. apply in_seq in Hj.
  apply negb_true_iff, nlt_false_iff.
  assert (H : j < tv) by lia. specialize (Min j H). lra.
Qed.

(** X18.  What a report "Unbounded Solution" rests on: in the last tableau
    the column [c] of the least objective-row entry has an entry below
    [-1e-10], and no row passes the ratio test for it: every row has a
    coefficient of at most [1e-10] in column [c] or a negative ratio. *)
Theorem unbounded_report_certificate (numVars : nat) (d : Simplex.data) :
  let r := Simplex.solve numVars d in
  let t := Simplex.lastOptimalTableau r in
  let z := Simplex.lastOptimalZRow r in
  let tv := Simplex.lastTotalVars r in
  Simplex.final r = Simplex.UnboundedSolution ->
  exists c,
    c < tv /\ (get z c < - eps10)%Q /\
    (forall j, j < tv -> (get z c <= get z j)%Q) /\
    (forall i, i < length t -> ~ eligible t c tv i).
Proof.
  intros r t z tv F.
  pose proof (run_certified numVars d) as C. cbv zeta in C.
  unfold certified in C.
  assert (T : lastType (fst (Simplex.run numVars d)) = Some Simplex.StepUnbounded).
  { unfold r, Simplex.solve in F. cbn [Simplex.final] in F.
    rewrite displayFinal_type in F. unfold lastType.
    destruct (option_map Simplex.step_type _) as [[| | | |]|]; try discriminate.
    reflexivity. }
  rewrite T in C. destruct C as (O & c & Hc & Hr).
  change (Simplex.l_zRow (fst (Simplex.run numVars d))) with z in O, Hc.
  change (Simplex.l_tableau (fst (Simplex.run numVars d))) with t in Hr.
  change (Simplex.totalVars (Simplex.buildTableau numVars d)) with tv in O, Hc, Hr.
  pose proof (findPivotColumn_scan z tv) as Sc. rewrite Hc in Sc.
  destruct Sc as (Lc & _ & Min & _).
  pose proof (findPivotRow_some t c tv) as Sr. rewrite Hr in Sr.
  exists c. split; [exact Lc|]. split; [now apply (not_optimal_entry z tv c)|].
  split; assumption.
Qed.

(** X19.  What a report "No Feasible Solution" rests on.  Either the dual
    method stopped: some right-hand side of the last tableau is below
    [-1e-10] and the row of the least one has no entry below [-1e-10] among
    its first [totalVars].  Or no objective-row entry is below [-1e-10] and
    some row whose basic variable is artificial has a right-hand side of
    absolute value above [1e-10]. *)
Theorem infeasible_report_certificate (numVars : nat) (d : Simplex.data) :
  let r := Simplex.solve numVars d in
  let t := Simplex.lastOptimalTableau r in
  let z := Simplex.lastOptimalZRow r in
  let tv := Simplex.lastTotalVars r in
  Simplex.final r = Simplex.NoFeasibleSolution ->
  (exists row,
     row < length t /\ (cell t row tv < - eps10)%Q /\
     (forall i, i < length t -> (cell t row tv <= cell t i tv)%Q) /\
     (forall j, j < tv -> (- eps10 <= cell t row j)%Q)) \/
  ((forall j, j < tv -> (- eps10 <= get z j)%Q) /\ artificialNonzero r).
Proof.
  intros r t z tv F.
  pose proof (run_certified numVars d) as C. cbv zeta in C.
  unfold certified in C.
  assert (T : lastType (fst (Simplex.run numVars d)) = Some Simplex.StepInfeasible).
  { unfold r, Simplex.solve in F. cbn [Simplex.final] in F.
    rewrite displayFinal_type in F. unfold lastType.
    destruct (option_map Simplex.step_type _) as [[| | | |]|]; try discriminate.
    reflexivity. }
  rewrite T in C.
  change (Simplex.l_zRow (fst (Simplex.run numVars d))) with z in C.
  change (Simplex.l_tableau (fst (Simplex.run numVars d))) with t in C.
  change (Simplex.totalVars (Simplex.buildTableau numVars d)) with tv in C.
  destruct C as [(O & A)|(N & row & Hr & Hc)].
  - right. split.
    + intros j Hj. exact (@isOptimal_entry z tv j O Hj).
    + apply hasArtificialInBasis_iff in A. exact A.
  - left. destruct (run_invariant numVars d) as ((W & _) & _).
    change (Simplex.l_tableau (fst (Simplex.run numVars d))) with t in W.
    change (Simplex.totalVars (Simplex.buildTableau numVars d)) with tv in W.
    apply (hasNegativeRHS_iff t tv W) in N. destruct N as (i & Hi & Ni).
    pose proof (findDualPivotRow_scan t tv) as Sr. rewrite Hr in Sr.
    destruct Sr as (Lr & _ & Min & _).
    pose proof (findDualPivotCol_some t z row tv) as Sc. rewrite Hc in Sc.
    exists row. split; [exact Lr|]. split.
    + specialize (Min i Hi). lra.
    + split; assumption.
Qed.

(** Maximize [x1] subject to [x1 - x2 <= 1]. *)
Definition unboundedProblem : Simplex.data :=
  Simplex.mkData Simplex.Max [1; 0]%Q [ mkCon [1; -1]%Q Le 1%Q ].

Lemma unbounded_report_certificate_witness :
  Simplex.final (Simplex.solve 2 unboundedProblem) = Simplex.UnboundedSolution /\
  exists c,
    c < Simplex.lastTotalVars (Simplex.solve 2 unboundedProblem) /\
    (get (Simplex.lastOptimalZRow (Simplex.solve 2 unboundedProblem)) c < - eps10)%Q /\
    (forall j, j < Simplex.lastTotalVars (Simplex.solve 2 unboundedProblem) ->
       (get (Simplex.lastOptimalZRow (Simplex.solve 2 unboundedProblem)) c <=
        get (Simplex.lastOptimalZRow (Simplex.solve 2 unboundedProblem)) j)%Q) /\
    (forall i, i < length (Simplex.lastOptimalTableau (Simplex.solve 2 unboundedProblem)) ->
       ~ eligible (Simplex.lastOptimalTableau (Simplex.solve 2 unboundedProblem)) c
           (Simplex.lastTotalVars (Simplex.solve 2 unboundedProblem)) i).
Proof.
  assert (F : Simplex.final (Simplex.solve 2 unboundedProblem) = Simplex.UnboundedSolution)
    by (vm_compute; reflexivity).
  split; [exact F|].
  exact (unbounded_report_certificate 2 unboundedProblem F).
Defined.

Lemma infeasible_report_certificate_witness :
  Simplex.final (Simplex.solve 1 dualInfeasible) = Simplex.NoFeasibleSolution /\
  ((exists row,
      row < length (Simplex.lastOptimalTableau (Simplex.solve 1 dualInfeasible)) /\
      (cell (Simplex.lastOptimalTableau (Simplex.solve 1 dualInfeasible)) row
            (Simplex.lastTotalVars (Simplex.solve 1 dualInfeasible)) < - eps10)%Q /\
      (forall i, i < length (Simplex.lastOptimalTableau (Simplex.solve 1 dualInfeasible)) ->
         (cell (Simplex.lastOptimalTableau (Simplex.solve 1 dualInfeasible)) row
               (Simplex.lastTotalVars (Simplex.solve 1 dualInfeasible)) <=
          cell (Simplex.lastOptimalTableau (Simplex.solve 1 dualInfeasible)) i
               (Simplex.lastTotalVars (Simplex.solve 1 dualInfeasible)))%Q) /\
      (forall j, j < Simplex.lastTotalVars (Simplex.solve 1 dualInfeasible) ->
         (- eps10 <= cell (Simplex.lastOptimalTableau (Simplex.solve 1 dualInfeasible))
                          row j)%Q)) \/
   ((forall j, j < Simplex.lastTotalVars (Simplex.solve 1 dualInfeasible) ->
       (- eps10 <= get (Simplex.lastOptimalZRow (Simplex.solve 1 dualInfeasible)) j)%Q) /\
    artificialNonzero (Simplex.solve 1 dualInfeasible))).
Proof.
  assert (F : Simplex.final (Simplex.solve 1 dualInfeasible) = Simplex.NoFeasibleSolution)
    by (vm_compute; reflexivity).
  split; [exact F|].
  exact (infeasible_report_certificate 1 dualInfeasible F).
Defined.

(** ** The optimal report bounds the objective *)




(** ** The relaxation solved at each node *)

(** The entering-column scan of [solveLP]: the running minimum starts at
    [-1e-10]. *)
Lemma selectPivotCol_scan (z : list Q) (tv : nat) :
  match BB.selectPivotCol z tv with
  | None => forall j, j < tv -> (- eps10 <= get z j)%Q
  | Some c =>
      c < tv /\ (get z c < - eps10)%Q /\
      (forall j, j < tv -> (get z c <= get z j)%Q) /\
      (forall j, j < c -> (get z c < get z j)%Q)
  end.
Proof.
  unfold BB.selectPivotCol.
  assert (S : let '(p, m) :=
                for_upto tv
                  (fun '(pivotCol, minVal) j =>
                     if nlt (get z j) minVal then (Some j, get z j)
                     else (pivotCol, minVal))
                  (None, (- eps10)%Q) in
              match p with
              | None => m = (- eps10)%Q /\ forall j, j < tv -> (- eps10 <= get z j)%Q
              | Some c =>
                  c < tv /\ m = get z c /\ (get z c < - eps10)%Q /\
                  (forall j, j < tv -> (get z c <= get z j)%Q) /\
                  (forall j, j < c -> (get z c < get z j)%Q)
              end).
  { induction tv as [|n IH].
    - rewrite for_upto_0. split; [reflexivity|]. intros j Hj. lia.
    - rewrite for_upto_S.
      destruct (for_upto n _ (None, (- eps10)%Q)) as [p m].
      destruct (nlt (get z n) m) eqn:E.
      + apply nlt_iff in E. destruct p as [c|].
        * destruct IH as (Hc & -> & Hneg & Hmin & Hfirst).
          split; [lia|]. split; [reflexivity|]. split; [lra|]. split.
          -- intros j Hj. destruct (Nat.eq_dec j n) as [->|]; [lra|].
             assert (H : j < n) by lia. specialize (Hmin j H). lra.
          -- intros j Hj. destruct (Nat.lt_ge_cases j c) as [Hjc|Hjc].
             ++ specialize (Hfirst j Hjc). lra.
             ++ assert (Hjn : j < n) by lia. specialize (Hmin j Hjn). lra.
        * destruct IH as (-> & Hall).
          split; [lia|]. split; [reflexivity|]. split; [exact E|]. split.
          -- intros j Hj. destruct (Nat.eq_dec j n) as [->|]; [lra|].
             assert (H : j < n) by lia. specialize (Hall j H). lra.
          -- intros j Hj. specialize (Hall j Hj). lra.
      + apply nlt_false_iff in E. destruct p as [c|].
        * destruct IH as (Hc & -> & Hneg & Hmin & Hfirst).
          split; [lia|]. split; [reflexivity|]. split; [exact Hneg|].
          split; [|exact Hfirst].
          intros j Hj. destruct (Nat.eq_dec j n) as [->|]; [exact E|].
          apply Hmin. lia.
        * destruct IH as (-> & Hall). split; [reflexivity|].
          intros j Hj. destruct (Nat.eq_dec j n) as [->|]; [exact E|].
          apply Hall. lia. }
  destruct (for_upto tv _ (None, (- eps10)%Q)) as [[c|] m]; simpl; tauto.
Qed.

Lemma selectPivotRow_scan (t : list (list Q)) (c tv : nat) :
  match BB.selectPivotRow t c tv with
  | None => forall i, i < length t -> ~ eligible t c tv i
  | Some r =>
      r < length t /\ eligible t c tv r /\
      (forall i, i < length t -> eligible t c tv i ->
         (ratio t c tv r <= ratio t c tv i)%Q) /\
      (forall i, i < r -> eligible t c tv i -> (ratio t c tv r < ratio t c tv i)%Q)
  end.
Proof. rewrite selectPivotRow_eq. apply findPivotRow_some. Qed.

(** X21.  The entering column of [solveLP]: the column of the least
    objective-row entry among the first [totalVars], provided it lies below
    [-1e-10], and the first such column on a tie; the loop breaks exactly
    when no entry lies below [-1e-10]. *)
Theorem relaxation_entering_column (z : list Q) (tv : nat) :
  match BB.selectPivotCol z tv with
  | None => forall j, j < tv -> (- eps10 <= get z j)%Q
  | Some c =>
      c < tv /\ (get z c < - eps10)%Q /\
      (forall j, j < tv -> (get z c <= get z j)%Q) /\
      (forall j, j < c -> (get z c < get z j)%Q)
  end.
Proof. apply selectPivotCol_scan. Qed.

(** X22.  The leaving row of [solveLP], on a tableau whose rows have
    [totalVars + 1] entries: among the rows whose entry in the
    pivot column exceeds [1e-10] and whose ratio is not negative, the row of
    the least ratio, and the first such row on a tie; the relaxation is
    reported unbounded exactly when there is no such row. *)
Theorem relaxation_leaving_row (t : list (list Q)) (c tv : nat) :
  rowsWide t tv ->
  match BB.selectPivotRow t c tv with
  | None => forall i, i < length t -> ~ eligible t c tv i
  | Some r =>
      r < length t /\ eligible t c tv r /\
      (forall i, i < length t -> eligible t c tv i ->
         (ratio t c tv r <= ratio t c tv i)%Q) /\
      (forall i, i < r -> eligible t c tv i -> (ratio t c tv r < ratio t c tv i)%Q)
  end.
Proof. intros _. apply selectPivotRow_scan. Qed.

Lemma relaxation_leaving_row_witness :
  BB.selectPivotRow scenarioA_rows 0 4 = Some 1 /\
  match BB.selectPivotRow scenarioA_rows 0 4 with
  | None => forall i, i < length scenarioA_rows -> ~ eligible scenarioA_rows 0 4 i
  | Some r =>
      r < length scenarioA_rows /\ eligible scenarioA_rows 0 4 r /\
      (forall i, i < length scenarioA_rows -> eligible scenarioA_rows 0 4 i ->
         (ratio scenarioA_rows 0 4 r <= ratio scenarioA_rows 0 4 i)%Q) /\
      (forall i, i < r -> eligible scenarioA_rows 0 4 i ->
         (ratio scenarioA_rows 0 4 r < ratio scenarioA_rows 0 4 i)%Q)
  end.
Proof.
  split; [vm_compute; reflexivity|].
  exact (relaxation_leaving_row scenarioA_rows 0 4 scenarioA_rowsWide).
Defined.



(** The solution of a relaxation has one entry per decision variable. *)
Lemma readSolution_length (numVars : nat) (t : list (list Q)) (b : list nat) (tv : nat) :
  length (BB.readSolution numVars t b tv) = numVars.
Proof.
  unfold BB.readSolution. generalize (length b) as n.
  induction n as [|n IH]; [apply repeat_length|].
  rewrite for_upto_S. destruct (_ <? _); [now rewrite length_upd|exact IH].
Qed.

Lemma solveLP_length (numVars : nat) (isMax : bool) (objCoeffs : list Q)
    (constraints extra : list constraint) (sol : list Q) (z : Q) :
  BB.solveLP numVars isMax objCoeffs constraints extra = BB.LPFeasible sol z ->
  length sol = numVars.
Proof.
  unfold BB.solveLP.
  destruct (BB.countKinds _) as [[sc ec] ac].
  destruct (BB.buildRows _ _ _) as [[t b] arts].
  destruct (BB.loop _ _ _ _ _) as [|t' z' b']; [discriminate|].
  destruct (BB.artificialRemains _ _ _ _); [discriminate|].
  intros E; injection E as <- _. apply readSolution_length.
Qed.










(** ** The search tree of Branch-and-Bound *)

Section Tree.

Variable numVars : nat.
Variable isMax : bool.
Variable intChecked : nat -> bool.
Variable objCoeffs : list Q.
Variable constraints : list constraint.

(** The record of a node copies the fields of the queue entry. *)
Definition recordOf (nd : BB.node) (info : BB.nodeInfo) : Prop :=
  BB.i_id info = BB.id nd /\ BB.i_depth info = BB.depth nd /\
  BB.i_parent info = BB.parent nd /\ BB.i_branchInfo info = BB.branchInfo nd /\
  BB.i_extraConstraints info = BB.extraConstraints nd.

(** The four ways in which one pass over the queue changes the variables
    of the search: the relaxation of the node has no solution, the node is
    pruned, the node has an integer solution, the node is branched on. *)
Inductive visited (s s' : BB.search) : Prop :=
| VisitInfeasible (nd : BB.node) (rest : list BB.node) (info : BB.nodeInfo) :
    BB.queue s = nd :: rest -> recordOf nd info ->
    BB.solveLP numVars isMax objCoeffs constraints (BB.extraConstraints nd) =
      BB.LPInfeasible \/
    BB.solveLP numVars isMax objCoeffs constraints (BB.extraConstraints nd) =
      BB.LPUnbounded ->
    BB.i_status info = BB.Infeasible ->
    BB.i_solution info = None -> BB.i_zValue info = None ->
    BB.i_fractionalVar info = None ->
    BB.queue s' = rest -> BB.nodes s' = BB.nodes s ++ [info] ->
    BB.bestSolution s' = BB.bestSolution s -> BB.bestZ s' = BB.bestZ s ->
    BB.nodeId s' = BB.nodeId s ->
    visited s s'
| VisitPruned (nd : BB.node) (rest : list BB.node) (info : BB.nodeInfo)
    (sol : list Q) (z : Q) :
    BB.queue s = nd :: rest -> recordOf nd info ->
    BB.solveLP numVars isMax objCoeffs constraints (BB.extraConstraints nd) =
      BB.LPFeasible sol z ->
    BB.notNull (BB.bestSolution s) && BB.dominated isMax z (BB.bestZ s) = true ->
    BB.i_status info = BB.Pruned ->
    BB.i_solution info = Some (map round4 sol) ->
    BB.i_zValue info = Some (round4 z) ->
    BB.i_fractionalVar info = None ->
    BB.queue s' = rest -> BB.nodes s' = BB.nodes s ++ [info] ->
    BB.bestSolution s' = BB.bestSolution s -> BB.bestZ s' = BB.bestZ s ->
    BB.nodeId s' = BB.nodeId s ->
    visited s s'
| VisitInteger (nd : BB.node) (rest : list BB.node) (info : BB.nodeInfo)
    (sol : list Q) (z : Q) :
    BB.queue s = nd :: rest -> recordOf nd info ->
    BB.solveLP numVars isMax objCoeffs constraints (BB.extraConstraints nd) =
      BB.LPFeasible sol z ->
    BB.notNull (BB.bestSolution s) && BB.dominated isMax z (BB.bestZ s) = false ->
    BB.getFractionalVar numVars intChecked sol = None ->
    BB.i_status info = BB.Integer ->
    BB.i_solution info = Some (map round4 sol) ->
    BB.i_zValue info = Some (round4 z) ->
    BB.i_fractionalVar info = None ->
    BB.queue s' = rest -> BB.nodes s' = BB.nodes s ++ [info] ->
    BB.nodeId s' = BB.nodeId s ->
    BB.bestSolution s' =
      (if (if isMax then BB.gt_ext z (BB.bestZ s) else BB.lt_ext z (BB.bestZ s))
       then Some (map round4 sol) else BB.bestSolution s) ->
    BB.bestZ s' =
      (if (if isMax then BB.gt_ext z (BB.bestZ s) else BB.lt_ext z (BB.bestZ s))
       then BB.Fin (round4 z) else BB.bestZ s) ->
    visited s s'
| VisitBranched (nd : BB.node) (rest : list BB.node) (info : BB.nodeInfo)
    (sol : list Q) (z : Q) (index : nat) (value : Q) :
    BB.queue s = nd :: rest -> recordOf nd info ->
    BB.solveLP numVars isMax objCoeffs constraints (BB.extraConstraints nd) =
      BB.LPFeasible sol z ->
    BB.notNull (BB.bestSolution s) && BB.dominated isMax z (BB.bestZ s) = false ->
    BB.getFractionalVar numVars intChecked sol = Some (index, value) ->
    BB.i_status info = BB.Branched ->
    BB.i_solution info = Some (map round4 sol) ->
    BB.i_zValue info = Some (round4 z) ->
    BB.i_fractionalVar info = Some (index, value) ->
    BB.queue s' =
      rest ++
      [BB.mkNode (BB.nodeId s)
         (BB.extraConstraints nd ++
          [mkCon (BB.unitCoeffs numVars index) Le (inject_Z (Math_floor value))])
         (BB.depth nd + 1) (Some (BB.id nd))
         (Some (BB.mkBranch (index + 1) Le (Math_floor value)));
       BB.mkNode (S (BB.nodeId s))
         (BB.extraConstraints nd ++
          [mkCon (BB.unitCoeffs numVars index) Ge (inject_Z (Math_ceil value))])
         (BB.depth nd + 1) (Some (BB.id nd))
         (Some (BB.mkBranch (index + 1) Ge (Math_ceil value)))] ->
    BB.nodes s' = BB.nodes s ++ [info] ->
    BB.bestSolution s' = BB.bestSolution s -> BB.bestZ s' = BB.bestZ s ->
    BB.nodeId s' = S (S (BB.nodeId s)) ->
    visited s s'.

Lemma visit_visited (s s' : BB.search) :
  BB.visit numVars isMax intChecked objCoeffs constraints s = Some s' -> visited s s'.
Proof.
  unfold BB.visit.
  destruct (BB.queue s) as [|nd rest] eqn:Q; [discriminate|].
  destruct (BB.solveLP _ _ _ _ _) as [| |sol z] eqn:LP.
  - intros E; injection E as <-.
    eapply (VisitInfeasible s _ nd rest); cbn [BB.queue BB.nodes BB.bestSolution BB.bestZ
                                              BB.nodeId].
    9: reflexivity.
    all: try reflexivity; try exact Q.
    + repeat split.
    + now left.
  - intros E; injection E as <-.
    eapply (VisitInfeasible s _ nd rest); cbn [BB.queue BB.nodes BB.bestSolution BB.bestZ
                                              BB.nodeId].
    9: reflexivity.
    all: try reflexivity; try exact Q.
    + repeat split.
    + now right.
  - destruct (BB.notNull _ && BB.dominated _ _ _) eqn:D.
    + intros E; injection E as <-.
      eapply (VisitPruned s _ nd rest _ sol z);
        cbn [BB.queue BB.nodes BB.bestSolution BB.bestZ BB.nodeId].
      10: reflexivity.
      all: try reflexivity; try exact Q; try exact LP; try exact D.
      repeat split.
    + destruct (BB.getFractionalVar _ _ _) as [[index value]|] eqn:F.
      * intros E; injection E as <-.
        eapply (VisitBranched s _ nd rest _ sol z index value);
          cbn [BB.queue BB.nodes BB.bestSolution BB.bestZ BB.nodeId].
        11: reflexivity.
        all: try reflexivity; try exact Q; try exact LP; try exact F; try exact D.
        -- repeat split.
        -- now rewrite <- app_assoc.
      * intros E; injection E as <-.
        eapply (VisitInteger s _ nd rest _ sol z);
          cbn [BB.queue BB.nodes BB.bestSolution BB.bestZ BB.nodeId].
        11: reflexivity.
        all: try reflexivity; try exact Q; try exact LP; try exact F; try exact D.
        repeat split.
Qed.

(** A property kept by every pass holds when the search ends, and the
    queue is empty then. *)
Lemma explore_inv (Inv : BB.search -> Prop) :
  (forall s s', Inv s -> visited s s' -> Inv s') ->
  forall fuel s sf, Inv s ->
    BB.explore numVars isMax intChecked fuel objCoeffs constraints s = Some sf ->
    Inv sf /\ BB.queue sf = [].
Proof.
  intros Step. induction fuel as [|fuel IH]; intros s sf I; simpl.
  - destruct (BB.visit _ _ _ _ _ _) eqn:V; [discriminate|].
    intros E; injection E as <-. split; [exact I|].
    unfold BB.visit in V. destruct (BB.queue s); [reflexivity|].
    destruct (BB.solveLP _ _ _ _ _); try discriminate.
    destruct (_ && _); try discriminate.
    destruct (BB.getFractionalVar _ _ _) as [[? ?]|]; discriminate.
  - destruct (BB.visit _ _ _ _ _ _) as [s1|] eqn:V.
    + apply IH. apply (Step s s1 I). now apply visit_visited.
    + intros E; injection E as <-. split; [exact I|].
      unfold BB.visit in V. destruct (BB.queue s); [reflexivity|].
      destruct (BB.solveLP _ _ _ _ _); try discriminate.
      destruct (_ && _); try discriminate.
      destruct (BB.getFractionalVar _ _ _) as [[? ?]|]; discriminate.
Qed.

Definition start : BB.search :=
  BB.mkSearch [BB.mkNode 0 [] 0 None None] [] None
              (if isMax then BB.NegInf else BB.PosInf) 1.

Lemma branchAndBound_inv (Inv : BB.search -> Prop) (fuel : nat) (r : BB.outcome) :
  Inv start ->
  (forall s s', Inv s -> visited s s' -> Inv s') ->
  BB.branchAndBound numVars isMax intChecked fuel objCoeffs constraints = Some r ->
  exists sf, Inv sf /\ BB.queue sf = [] /\
             r = BB.mkOutcome (BB.bestSolution sf) (BB.bestZ sf) (BB.nodes sf).
Proof.
  intros I0 Step. unfold BB.branchAndBound. fold start.
  destruct (BB.explore _ _ _ _ _ _ start) as [sf|] eqn:E; [|discriminate].
  intros R; injection R as <-.
  destruct (explore_inv Inv Step fuel start sf I0 E) as [I Q].
  exists sf. auto.
Qed.

(** *** Order and number of the nodes *)

Definition countBranched (l : list BB.nodeInfo) : nat :=
  length (filter (fun i => match BB.i_status i with BB.Branched => true | _ => false end)
                 l).

(** The bookkeeping of the search: the recorded nodes carry the numbers
    [0, 1, ...] in order, the queue continues the numbering, [nodeId] is the
    next number, and the nodes seen so far are one more than twice the
    branched ones. *)
Definition numbered (s : BB.search) : Prop :=
  map BB.i_id (BB.nodes s) = seq 0 (length (BB.nodes s)) /\
  map BB.id (BB.queue s) = seq (length (BB.nodes s)) (length (BB.queue s)) /\
  BB.nodeId s = length (BB.nodes s) + length (BB.queue s) /\
  length (BB.nodes s) + length (BB.queue s) = 2 * countBranched (BB.nodes s) + 1.

Lemma countBranched_snoc (l : list BB.nodeInfo) (i : BB.nodeInfo) :
  countBranched (l ++ [i]) =
  countBranched l + match BB.i_status i with BB.Branched => 1 | _ => 0 end.
Proof.
  unfold countBranched. rewrite filter_app, length_app. simpl.
  destruct (BB.i_status i); reflexivity.
Qed.

Lemma numbered_start : numbered start.
Proof. repeat split. Qed.

Lemma numbered_step (s s' : BB.search) : numbered s -> visited s s' -> numbered s'.
Proof.
  intros (N1 & N2 & N3 & N4) V.
  assert (Head : forall nd rest, BB.queue s = nd :: rest ->
            BB.id nd = length (BB.nodes s) /\
            map BB.id rest = seq (S (length (BB.nodes s))) (length rest)).
  { intros nd rest Q. rewrite Q in N2. simpl in N2. injection N2 as E1 E2. auto. }
  destruct V as [nd rest info Q R LP St So Zv Fr Q' Nd' B1 B2 Id'
                |nd rest info sol z Q R LP Dom St So Zv Fr Q' Nd' B1 B2 Id'
                |nd rest info sol z Q R LP Dom F St So Zv Fr Q' Nd' Id' B1 B2
                |nd rest info sol z index value Q R LP Dom F St So Zv Fr Q' Nd' B1 B2 Id'];
    destruct (Head nd rest Q) as [H1 H2]; destruct R as (R1 & _);
    rewrite Q in N3, N4; simpl in N3, N4;
    unfold numbered; rewrite Nd', Q', Id', !length_app, map_app, countBranched_snoc;
    simpl length; simpl map.
  - repeat split.
    + rewrite N1, R1, H1, Nat.add_1_r, seq_S. reflexivity.
    + rewrite H2. f_equal. lia.
    + lia.
    + rewrite St. lia.
  - repeat split.
    + rewrite N1, R1, H1, Nat.add_1_r, seq_S. reflexivity.
    + rewrite H2. f_equal. lia.
    + lia.
    + rewrite St. lia.
  - repeat split.
    + rewrite N1, R1, H1, Nat.add_1_r, seq_S. reflexivity.
    + rewrite H2. f_equal. lia.
    + lia.
    + rewrite St. lia.
  - repeat split.
    + rewrite N1, R1, H1, Nat.add_1_r, seq_S. reflexivity.
    + rewrite map_app, H2. simpl map.
      replace (length rest + 2) with (S (S (length rest))) by lia.
      rewrite !seq_S.
      replace (length (BB.nodes s) + 1) with (S (length (BB.nodes s))) by lia.
      rewrite <- app_assoc. simpl. repeat f_equal; lia.
    + lia.
    + rewrite St. lia.
Qed.

(** *** The shape of the tree *)

(** How a node hangs in the tree recorded in [nodes]: the root has number 0,
    depth 0 and no extra constraint; any other node refers to a branched
    node recorded before it, lies one level deeper, and carries its parent's
    extra constraints followed by one bound on the parent's branching
    variable, [x <= floor value] or [x >= ceil value], where the parent's
    relaxed [value] lies strictly between the two bounds. *)
Definition hangs (nodes : list BB.nodeInfo) (id depth : nat) (parent : option nat)
    (branchInfo : option BB.branch) (extra : list constraint) : Prop :=
  match parent with
  | None => id = 0 /\ depth = 0 /\ branchInfo = None /\ extra = []
  | Some p =>
      p < id /\
      exists par index value,
        nth_error nodes p = Some par /\
        BB.i_status par = BB.Branched /\
        BB.i_fractionalVar par = Some (index, value) /\
        depth = BB.i_depth par + 1 /\
        index < numVars /\ intChecked index = true /\
        (inject_Z (Math_floor value) < value)%Q /\
        (value < inject_Z (Math_ceil value))%Q /\
        Math_ceil value = (Math_floor value + 1)%Z /\
        ((branchInfo = Some (BB.mkBranch (index + 1) Le (Math_floor value)) /\
          extra = BB.i_extraConstraints par ++
                  [mkCon (BB.unitCoeffs numVars index) Le (inject_Z (Math_floor value))])
         \/
         (branchInfo = Some (BB.mkBranch (index + 1) Ge (Math_ceil value)) /\
          extra = BB.i_extraConstraints par ++
                  [mkCon (BB.unitCoeffs numVars index) Ge (inject_Z (Math_ceil value))]))
  end.

Definition infoHangs (nodes : list BB.nodeInfo) (i : BB.nodeInfo) : Prop :=
  hangs nodes (BB.i_id i) (BB.i_depth i) (BB.i_parent i) (BB.i_branchInfo i)
        (BB.i_extraConstraints i).

Definition nodeHangs (nodes : list BB.nodeInfo) (nd : BB.node) : Prop :=
  hangs nodes (BB.id nd) (BB.depth nd) (BB.parent nd) (BB.branchInfo nd)
        (BB.extraConstraints nd).

Definition treeShaped (s : BB.search) : Prop :=
  numbered s /\
  Forall (infoHangs (BB.nodes s)) (BB.nodes s) /\
  Forall (nodeHangs (BB.nodes s)) (BB.queue s).

Lemma hangs_snoc nodes info id depth parent branchInfo extra :
  hangs nodes id depth parent branchInfo extra ->
  hangs (nodes ++ [info]) id depth parent branchInfo extra.
Proof.
  unfold hangs. destruct parent as [p|]; [|auto].
  intros (Hp & par & index & value & N & R).
  split; [exact Hp|]. exists par, index, value. split; [|exact R].
  rewrite nth_error_app1; [exact N|]. apply nth_error_Some. congruence.
Qed.

(** A value that passes the test of [getFractionalVar] lies strictly
    between its floor and its ceiling, which are one apart. *)
Lemma fractional_between (v : Q) :
  deviates v ->
  (inject_Z (Math_floor v) < v)%Q /\ (v < inject_Z (Math_ceil v))%Q /\
  Math_ceil v = (Math_floor v + 1)%Z.
Proof.
  intros D. unfold Math_floor, Math_ceil.
  pose proof (Qfloor_le v) as F1. pose proof (Qlt_floor v) as F2.
  pose proof (Qle_ceiling v) as C1. pose proof (Qceiling_lt v) as C2.
  rewrite inject_Z_plus in F2. change (inject_Z 1) with 1%Q in F2.
  unfold Z.sub in C2. rewrite inject_Z_plus in C2. change (inject_Z (-1)) with (-1)%Q in C2.
  pose proof (D (Qfloor v)) as D1.
  assert (L : (inject_Z (Qfloor v) < v)%Q).
  { rewrite Qabs_pos in D1 by lra. unfold eps6 in D1. lra. }
  assert (E : Qceiling v = (Qfloor v + 1)%Z).
  { assert (A : (Qfloor v < Qceiling v)%Z) by (rewrite Zlt_Qlt; lra).
    assert (B : (Qceiling v - 1 < Qfloor v + 1)%Z).
    { rewrite Zlt_Qlt. unfold Z.sub. rewrite !inject_Z_plus.
      change (inject_Z (-1)) with (-1)%Q. change (inject_Z 1) with 1%Q. lra. }
    lia. }
  split; [exact L|]. split; [|exact E].
  pose proof (D (Qceiling v)) as D2.
  rewrite Qabs_neg in D2 by lra. unfold eps6 in D2. lra.
Qed.

Lemma integerVars_In (j : nat) :
  In j (BB.integerVars numVars intChecked) -> j < numVars /\ intChecked j = true.
Proof.
  unfold BB.integerVars. intros H. apply filter_In in H. destruct H as [H1 H2].
  apply in_seq in H1. split; [lia|exact H2].
Qed.

Lemma treeShaped_start : treeShaped start.
Proof.
  split; [apply numbered_start|]. split; [constructor|].
  constructor; [|constructor]. repeat split.
Qed.

Lemma treeShaped_step (s s' : BB.search) : treeShaped s -> visited s s' -> treeShaped s'.
Proof.
  intros (N & TN & TQ) V.
  pose proof (numbered_step s s' N V) as N'.
  split; [exact N'|].
  destruct N as (N1 & N2 & N3 & N4).
  assert (Grow : forall nd rest info,
            BB.queue s = nd :: rest -> recordOf nd info ->
            Forall (infoHangs (BB.nodes s ++ [info])) (BB.nodes s ++ [info]) /\
            Forall (nodeHangs (BB.nodes s ++ [info])) rest /\
            BB.id nd = length (BB.nodes s) /\ BB.id nd < BB.nodeId s).
  { intros nd rest info Q (R1 & R2 & R3 & R4 & R5).
    rewrite Q in TQ, N2, N3. inversion TQ as [|x l Hnd Hrest]; subst x l.
    simpl in N2, N3. injection N2 as E1 E2.
    split; [|split; [|split; [exact E1|lia]]].
    - apply Forall_app. split.
      + eapply Forall_impl; [|exact TN]. intros i. apply hangs_snoc.
      + constructor; [|constructor]. unfold infoHangs.
        rewrite R1, R2, R3, R4, R5. apply hangs_snoc. exact Hnd.
    - eapply Forall_impl; [|exact Hrest]. intros x. apply hangs_snoc. }
  destruct V as [nd rest info Q R LP St So Zv Fr Q' Nd' B1 B2 Id'
                |nd rest info sol z Q R LP Dom St So Zv Fr Q' Nd' B1 B2 Id'
                |nd rest info sol z Q R LP Dom F St So Zv Fr Q' Nd' Id' B1 B2
                |nd rest info sol z index value Q R LP Dom F St So Zv Fr Q' Nd' B1 B2 Id'];
    destruct (Grow nd rest info Q R) as (G1 & G2 & G3 & G4); rewrite Nd', Q'.
  - split; assumption.
  - split; assumption.
  - split; assumption.
  - split; [exact G1|]. apply Forall_app. split; [exact G2|].
    destruct (@getFractionalVar_some numVars intChecked sol index value F) as (_ & Hin & D & _).
    destruct (integerVars_In index Hin) as [Hi Hc].
    destruct (fractional_between value D) as (FB1 & FB2 & FB3).
    destruct R as (R1 & R2 & R3 & R4 & R5).
    assert (Par : nth_error (BB.nodes s ++ [info]) (BB.id nd) = Some info).
    { rewrite G3, nth_error_app2, Nat.sub_diag by lia. reflexivity. }
    constructor; [|constructor; [|constructor]]; unfold nodeHangs, hangs;
      cbn [BB.id BB.depth BB.parent BB.branchInfo BB.extraConstraints];
      (split; [lia|]); exists info, index, value;
      rewrite R2, R5; repeat (split; [assumption || reflexivity|]).
    + left. split; reflexivity.
    + right. split; reflexivity.
Qed.
(** *** The incumbent *)

(** A value that does not pass the test of [getFractionalVar] is shown as
    an integer. *)
Lemma not_fractional_round (v : Q) :
  BB.isFractional v = false -> exists k : Z, (round4 v == inject_Z k)%Q.
Proof.
  unfold BB.isFractional, Math_floor. cbv zeta. intros H.
  pose proof (Qfloor_le v) as F1. pose proof (Qlt_floor v) as F2.
  rewrite inject_Z_plus in F2. change (inject_Z 1) with 1%Q in F2.
  apply andb_false_iff in H. destruct H as [H|H].
  - unfold ngt in H. apply nlt_false_iff in H. rewrite nsub_eq in H.
    exists (Qfloor v). apply round4_near_integer; unfold eps6 in H; lra.
  - apply nlt_false_iff in H. rewrite !nsub_eq in H.
    exists (Qfloor v + 1)%Z. rewrite inject_Z_plus. change (inject_Z 1) with 1%Q.
    assert (E : (round4 v == inject_Z (Qfloor v + 1))%Q).
    { apply round4_near_integer; rewrite inject_Z_plus;
        change (inject_Z 1) with 1%Q; unfold eps6 in H; lra. }
    rewrite E, inject_Z_plus. reflexivity.
Qed.

(** Every integer-designated entry is an integer. *)
Definition integral (sol : list Q) : Prop :=
  length sol = numVars /\
  forall j, j < numVars -> intChecked j = true ->
    exists k : Z, (get sol j == inject_Z k)%Q.

Lemma get_map_round4 (sol : list Q) (j : nat) :
  get (map round4 sol) j = round4 (get sol j).
Proof.
  unfold get. rewrite <- round4_0 at 1. apply map_nth.
Qed.

Lemma integral_rounded (sol : list Q) :
  length sol = numVars ->
  BB.getFractionalVar numVars intChecked sol = None ->
  integral (map round4 sol).
Proof.
  intros L F. split; [now rewrite length_map|].
  intros j Hj Hc. rewrite get_map_round4. apply not_fractional_round.
  unfold BB.getFractionalVar in F.
  destruct (find _ _) as [i|] eqn:E; [discriminate|].
  apply (find_none _ _ E j). unfold BB.integerVars. apply filter_In.
  split; [apply in_seq; lia|exact Hc].
Qed.

(** [z] is at least as good as [z'] for the sense of the problem. *)
Definition atLeastAsGood (z z' : Q) : Prop :=
  if isMax then (z' <= z)%Q else (z <= z')%Q.

Definition isInteger (i : BB.nodeInfo) : bool :=
  match BB.i_status i with BB.Integer => true | _ => false end.

(** The last recorded node with an integer solution. *)
Definition lastInteger (nodes : list BB.nodeInfo) : option BB.nodeInfo :=
  find isInteger (rev nodes).

(** [bestSolution] and [bestZ] against the recorded nodes.  As long as no
    node with an integer solution is recorded there is no incumbent, [bestZ]
    is the starting infinity and no node is pruned.  Afterwards the
    incumbent and [bestZ] are the shown solution and objective value of the
    last node recorded with an integer solution, its integer-designated
    entries are integers, and no pruned node and no node with an integer
    solution shows a better objective value. *)
Definition incumbentIn (nodes : list BB.nodeInfo) (bestSolution : option (list Q))
    (bestZ : BB.ext) : Prop :=
  match lastInteger nodes with
  | None =>
      bestSolution = None /\
      bestZ = (if isMax then BB.NegInf else BB.PosInf) /\
      forall i, In i nodes -> BB.i_status i <> BB.Pruned
  | Some last =>
      exists sol zq,
        bestSolution = Some sol /\ bestZ = BB.Fin zq /\
        BB.i_solution last = Some sol /\ BB.i_zValue last = Some zq /\
        round4 zq = zq /\ integral sol /\
        forall i, In i nodes ->
          BB.i_status i = BB.Integer \/ BB.i_status i = BB.Pruned ->
          exists z', BB.i_zValue i = Some z' /\ atLeastAsGood zq z'
  end.

Definition incumbentOK (s : BB.search) : Prop :=
  incumbentIn (BB.nodes s) (BB.bestSolution s) (BB.bestZ s).

Lemma incumbentOK_start : incumbentOK start.
Proof. split; [reflexivity|]. split; [reflexivity|]. intros i []. Qed.

Lemma lastInteger_snoc (nodes : list BB.nodeInfo) (info : BB.nodeInfo) :
  lastInteger (nodes ++ [info]) =
  if isInteger info then Some info else lastInteger nodes.
Proof. unfold lastInteger. rewrite rev_app_distr. reflexivity. Qed.

Lemma lastInteger_In (nodes : list BB.nodeInfo) (i : BB.nodeInfo) :
  lastInteger nodes = Some i -> In i nodes /\ BB.i_status i = BB.Integer.
Proof.
  unfold lastInteger. intros F. apply find_some in F. destruct F as [H1 H2].
  split; [now apply in_rev|].
  unfold isInteger in H2. destruct (BB.i_status i); congruence.
Qed.

Lemma lastInteger_None (nodes : list BB.nodeInfo) (i : BB.nodeInfo) :
  lastInteger nodes = None -> In i nodes -> BB.i_status i <> BB.Integer.
Proof.
  unfold lastInteger. intros F Hi St.
  apply in_rev in Hi. apply (find_none _ _ F i) in Hi.
  unfold isInteger in Hi. rewrite St in Hi. discriminate.
Qed.

(** A shown value is a multiple of [1/10000]. *)
Lemma shown_multiple (zq : Q) :
  round4 zq = zq -> exists k : Z, (zq * 10000 == inject_Z k)%Q.
Proof.
  intros R. exists (Math_round (zq * 10000)).
  pose proof (round4_eq zq) as E. rewrite R in E. rewrite E at 1. field.
Qed.

(** A shown value stays on its side of a bound that is itself a shown
    value, also when the comparison allows for [1e-6]. *)
Lemma round4_below (z zq : Q) :
  round4 zq = zq -> (z <= zq + eps6)%Q -> (round4 z <= zq)%Q.
Proof.
  intros R H. destruct (shown_multiple zq R) as [k Hk].
  assert (E : (round4 (zq + eps6) == zq)%Q).
  { rewrite round4_eq.
    rewrite (Math_round_unique ((zq + eps6) * 10000) k).
    - rewrite <- Hk. field.
    - unfold eps6. lra.
    - unfold eps6. lra. }
  rewrite <- E. apply round4_mono. exact H.
Qed.

Lemma round4_above (z zq : Q) :
  round4 zq = zq -> (zq - eps6 <= z)%Q -> (zq <= round4 z)%Q.
Proof.
  intros R H. destruct (shown_multiple zq R) as [k Hk].
  assert (E : (round4 (zq - eps6) == zq)%Q).
  { rewrite round4_eq.
    rewrite (Math_round_unique ((zq - eps6) * 10000) k).
    - rewrite <- Hk. field.
    - unfold eps6. lra.
    - unfold eps6. lra. }
  rewrite <- E. apply round4_mono. exact H.
Qed.

(** Kept nodes (neither pruned nor with an integer solution) leave the
    incumbent as it is. *)
Lemma incumbentOK_other (s s' : BB.search) (info : BB.nodeInfo) :
  incumbentOK s -> BB.nodes s' = BB.nodes s ++ [info] ->
  BB.i_status info <> BB.Integer -> BB.i_status info <> BB.Pruned ->
  BB.bestSolution s' = BB.bestSolution s -> BB.bestZ s' = BB.bestZ s ->
  incumbentOK s'.
Proof.
  unfold incumbentOK, incumbentIn. intros I Nd St1 St2 B1 B2.
  rewrite B1, B2, Nd, lastInteger_snoc.
  assert (E : isInteger info = false).
  { unfold isInteger. destruct (BB.i_status info); congruence. }
  rewrite E.
  destruct (lastInteger (BB.nodes s)) as [last|].
  - destruct I as (sol & zq & E1 & E2 & E3 & E4 & R & Int & All).
    exists sol, zq. repeat (split; [assumption|]).
    intros i Hi S'. apply in_app_or in Hi. destruct Hi as [Hi|[<-|[]]].
    + now apply All.
    + destruct S'; contradiction.
  - destruct I as (E1 & E2 & All). repeat (split; [assumption|]).
    intros i Hi. apply in_app_or in Hi. destruct Hi as [Hi|[<-|[]]]; auto.
Qed.

Lemma incumbentOK_step (s s' : BB.search) : incumbentOK s -> visited s s' -> incumbentOK s'.
Proof.
  intros I V.
  destruct V as [nd rest info Q R LP St So Zv Fr Q' Nd' B1 B2 Id'
                |nd rest info sol z Q R LP Dom St So Zv Fr Q' Nd' B1 B2 Id'
                |nd rest info sol z Q R LP Dom F St So Zv Fr Q' Nd' Id' B1 B2
                |nd rest info sol z index value Q R LP Dom F St So Zv Fr Q' Nd' B1 B2 Id'].
  - apply (incumbentOK_other s s' info I Nd'); try assumption; rewrite St; discriminate.
  - (* pruned *)
    unfold incumbentOK, incumbentIn in *. rewrite B1, B2, Nd', lastInteger_snoc.
    assert (E : isInteger info = false) by (unfold isInteger; now rewrite St).
    rewrite E. apply andb_true_iff in Dom. destruct Dom as [NN Dom].
    destruct (lastInteger (BB.nodes s)) as [last|].
    + destruct I as (sol0 & zq & E1 & E2 & E3 & E4 & Rz & Int & All).
      exists sol0, zq. repeat (split; [assumption|]).
      intros i Hi S'. apply in_app_or in Hi. destruct Hi as [Hi|[<-|[]]].
      * now apply All.
      * exists (round4 z). split; [exact Zv|].
        rewrite E2 in Dom. unfold BB.dominated, atLeastAsGood in *.
        destruct isMax; cbn [BB.le_plus_eps BB.ge_minus_eps] in Dom.
        -- apply nle_iff in Dom. rewrite nadd_eq in Dom. now apply round4_below.
        -- apply nge_iff in Dom. rewrite nsub_eq in Dom. now apply round4_above.
    + destruct I as (E1 & _). rewrite E1 in NN. discriminate.
  - (* integer: the node becomes the incumbent *)
    pose proof (integral_rounded sol (solveLP_length _ _ _ _ _ _ _ LP) F) as Int.
    unfold incumbentOK, incumbentIn in *. rewrite B1, B2, Nd', lastInteger_snoc.
    assert (E : isInteger info = true) by (unfold isInteger; now rewrite St).
    rewrite E.
    destruct (lastInteger (BB.nodes s)) as [last|] eqn:LI.
    + destruct I as (sol0 & zq & E1 & E2 & E3 & E4 & Rz & Int0 & All).
      rewrite E1, E2 in Dom. cbn [BB.notNull andb] in Dom.
      rewrite E2. unfold BB.dominated, atLeastAsGood in *.
      destruct isMax; cbn [BB.le_plus_eps BB.ge_minus_eps BB.gt_ext BB.lt_ext] in *.
      * apply nle_false_iff in Dom. rewrite nadd_eq in Dom.
        assert (G : ngt z zq = true) by (apply ngt_iff; unfold eps6 in Dom; lra).
        rewrite G. exists (map round4 sol), (round4 z).
        repeat (split; [assumption || reflexivity || apply round4_idem|]).
        assert (Le1 : (zq <= round4 z)%Q).
        { rewrite <- Rz. apply round4_mono. unfold eps6 in Dom. lra. }
        intros i Hi S'. apply in_app_or in Hi. destruct Hi as [Hi|[<-|[]]].
        -- destruct (All i Hi S') as (z' & Ez & Hz). exists z'. split; [exact Ez|]. lra.
        -- exists (round4 z). split; [exact Zv|]. lra.
      * unfold nge in Dom. apply nle_false_iff in Dom. rewrite nsub_eq in Dom.
        assert (G : nlt z zq = true) by (apply nlt_iff; unfold eps6 in Dom; lra).
        rewrite G. exists (map round4 sol), (round4 z).
        repeat (split; [assumption || reflexivity || apply round4_idem|]).
        assert (Le1 : (round4 z <= zq)%Q).
        { rewrite <- Rz. apply round4_mono. unfold eps6 in Dom. lra. }
        intros i Hi S'. apply in_app_or in Hi. destruct Hi as [Hi|[<-|[]]].
        -- destruct (All i Hi S') as (z' & Ez & Hz). exists z'. split; [exact Ez|]. lra.
        -- exists (round4 z). split; [exact Zv|]. lra.
    + destruct I as (E1 & E2 & All). rewrite E2.
      assert (Bt : (if isMax then BB.gt_ext z (if isMax then BB.NegInf else BB.PosInf)
                    else BB.lt_ext z (if isMax then BB.NegInf else BB.PosInf)) = true)
        by (destruct isMax; reflexivity).
      rewrite Bt. exists (map round4 sol), (round4 z).
      repeat (split; [assumption || reflexivity || apply round4_idem|]).
      intros i Hi S'. apply in_app_or in Hi. destruct Hi as [Hi|[<-|[]]].
      * exfalso. destruct S' as [S'|S'].
        -- now apply (lastInteger_None _ i LI Hi).
        -- now apply (All i Hi).
      * exists (round4 z). split; [exact Zv|].
        unfold atLeastAsGood. destruct isMax; apply Qle_refl.
  - apply (incumbentOK_other s s' info I Nd'); try assumption; rewrite St; discriminate.
Qed.
(** *** Both children of a branched node are solved *)

(** What a queue entry and its record have in common. *)
Definition entry : Type :=
  (nat * nat * option nat * option BB.branch * list constraint)%type.

Definition viewNode (nd : BB.node) : entry :=
  (BB.id nd, BB.depth nd, BB.parent nd, BB.branchInfo nd, BB.extraConstraints nd).

Definition viewInfo (i : BB.nodeInfo) : entry :=
  (BB.i_id i, BB.i_depth i, BB.i_parent i, BB.i_branchInfo i, BB.i_extraConstraints i).

(** The nodes created so far: the recorded ones, then the waiting ones. *)
Definition entries (s : BB.search) : list entry :=
  map viewInfo (BB.nodes s) ++ map viewNode (BB.queue s).

Definition leftChild (k : nat) (par : BB.nodeInfo) (index : nat) (value : Q) : entry :=
  (k, BB.i_depth par + 1, Some (BB.i_id par),
   Some (BB.mkBranch (index + 1) Le (Math_floor value)),
   BB.i_extraConstraints par ++
   [mkCon (BB.unitCoeffs numVars index) Le (inject_Z (Math_floor value))]).

Definition rightChild (k : nat) (par : BB.nodeInfo) (index : nat) (value : Q) : entry :=
  (k, BB.i_depth par + 1, Some (BB.i_id par),
   Some (BB.mkBranch (index + 1) Ge (Math_ceil value)),
   BB.i_extraConstraints par ++
   [mkCon (BB.unitCoeffs numVars index) Ge (inject_Z (Math_ceil value))]).

Lemma recordOf_view (nd : BB.node) (info : BB.nodeInfo) :
  recordOf nd info -> viewInfo info = viewNode nd.
Proof.
  intros (R1 & R2 & R3 & R4 & R5). unfold viewInfo, viewNode. congruence.
Qed.

(** One pass either moves the head of the queue to the record, or does so
    and appends the two children of that node. *)
Lemma entries_visited (s s' : BB.search) :
  visited s s' ->
  exists info,
    BB.nodes s' = BB.nodes s ++ [info] /\ In (viewInfo info) (entries s) /\
    ((BB.i_status info <> BB.Branched /\ entries s' = entries s /\
      BB.nodeId s' = BB.nodeId s) \/
     (exists index value,
        BB.i_status info = BB.Branched /\
        BB.i_fractionalVar info = Some (index, value) /\
        index < numVars /\ intChecked index = true /\
        entries s' = entries s ++ [leftChild (BB.nodeId s) info index value;
                                   rightChild (S (BB.nodeId s)) info index value] /\
        BB.nodeId s' = S (S (BB.nodeId s)))).
Proof.
  intros V.
  assert (Move : forall nd rest info,
            BB.queue s = nd :: rest -> recordOf nd info ->
            In (viewInfo info) (entries s) /\
            map viewInfo (BB.nodes s ++ [info]) ++ map viewNode rest = entries s).
  { intros nd rest info Q R. unfold entries. rewrite Q.
    rewrite (recordOf_view nd info R). split.
    - apply in_or_app. right. now left.
    - rewrite map_app, <- app_assoc. cbn [map app]. now rewrite (recordOf_view nd info R). }
  destruct V as [nd rest info Q R LP St So Zv Fr Q' Nd' B1 B2 Id'
                |nd rest info sol z Q R LP Dom St So Zv Fr Q' Nd' B1 B2 Id'
                |nd rest info sol z Q R LP Dom F St So Zv Fr Q' Nd' Id' B1 B2
                |nd rest info sol z index value Q R LP Dom F St So Zv Fr Q' Nd' B1 B2 Id'];
    destruct (Move nd rest info Q R) as [M1 M2];
    exists info; (split; [exact Nd'|]); (split; [exact M1|]).
  - left. split; [rewrite St; discriminate|]. split; [|exact Id'].
    unfold entries at 1. rewrite Nd', Q'. exact M2.
  - left. split; [rewrite St; discriminate|]. split; [|exact Id'].
    unfold entries at 1. rewrite Nd', Q'. exact M2.
  - left. split; [rewrite St; discriminate|]. split; [|exact Id'].
    unfold entries at 1. rewrite Nd', Q'. exact M2.
  - right. exists index, value.
    destruct (@getFractionalVar_some numVars intChecked sol index value F) as (_ & Hin & _).
    destruct (integerVars_In index Hin) as [Hi Hc].
    repeat (split; [assumption|]). split; [|exact Id'].
    unfold entries at 1. rewrite Nd', Q', (map_app viewNode), app_assoc, M2.
    destruct R as (R1 & R2 & R3 & R4 & R5).
    unfold leftChild, rightChild. rewrite R1, R2, R5. reflexivity.
Qed.

(** A bound on one integer-designated variable. *)
Definition isBound (c : constraint) : Prop :=
  exists index k,
    index < numVars /\ intChecked index = true /\
    coeffs c = BB.unitCoeffs numVars index /\
    (type c = Le \/ type c = Ge) /\ rhs c = inject_Z k.

Definition boundsOf (e : entry) : Prop :=
  let '(_, depth, _, _, extra) := e in
  length extra = depth /\ Forall isBound extra.

(** The bookkeeping over the nodes created so far: [nodeId] counts them, a
    node at depth [d] carries [d] bounds, and both children of each
    branched node are among them, one after the other. *)
Definition childrenKept (s : BB.search) : Prop :=
  BB.nodeId s = length (entries s) /\
  Forall boundsOf (entries s) /\
  forall par, In par (BB.nodes s) -> BB.i_status par = BB.Branched ->
    exists index value k,
      BB.i_fractionalVar par = Some (index, value) /\
      nth_error (entries s) k = Some (leftChild k par index value) /\
      nth_error (entries s) (S k) = Some (rightChild (S k) par index value).

Lemma childrenKept_start : childrenKept start.
Proof.
  split; [reflexivity|]. split.
  - constructor; [|constructor]. split; [reflexivity|constructor].
  - intros par [].
Qed.

Lemma childrenKept_step (s s' : BB.search) :
  childrenKept s -> visited s s' -> childrenKept s'.
Proof.
  intros (C1 & C2 & C3) V.
  destruct (entries_visited s s' V) as (info & Nd & Hin & [(St & E & Id)|Br]).
  - split; [congruence|]. split; [now rewrite E|].
    intros par Hp Sp. rewrite Nd in Hp. apply in_app_or in Hp.
    destruct Hp as [Hp|[<-|[]]]; [|contradiction].
    rewrite E. now apply C3.
  - destruct Br as (index & value & St & Fr & Hi & Hc & E & Id).
    assert (Binfo : boundsOf (viewInfo info)).
    { rewrite Forall_forall in C2. now apply C2. }
    destruct Binfo as [L F].
    split; [rewrite E, Id, length_app, C1; simpl; lia|]. split.
    + rewrite E. apply Forall_app. split; [exact C2|].
      constructor; [|constructor; [|constructor]]; unfold leftChild, rightChild, boundsOf.
      * split; [rewrite length_app, L; reflexivity|].
        apply Forall_app. split; [exact F|]. constructor; [|constructor].
        exists index, (Math_floor value). cbn [coeffs type rhs]. repeat split; auto.
      * split; [rewrite length_app, L; reflexivity|].
        apply Forall_app. split; [exact F|]. constructor; [|constructor].
        exists index, (Math_ceil value). cbn [coeffs type rhs]. repeat split; auto.
    + intros par Hp Sp. rewrite Nd in Hp. apply in_app_or in Hp.
      destruct Hp as [Hp|[<-|[]]].
      * destruct (C3 par Hp Sp) as (i & v & k & F1 & F2 & F3).
        exists i, v, k. split; [exact F1|]. rewrite E.
        split; (rewrite nth_error_app1; [assumption|]); apply nth_error_Some; congruence.
      * exists index, value, (BB.nodeId s). split; [exact Fr|]. rewrite E, C1.
        split.
        -- rewrite nth_error_app2, Nat.sub_diag by lia. reflexivity.
        -- rewrite nth_error_app2 by lia.
           replace (S (length (entries s)) - length (entries s)) with 1 by lia.
           reflexivity.
Qed.
(** *** What [branchAndBound] returns *)

(** All the invariants of the search at once. *)
Definition searchOK (s : BB.search) : Prop :=
  treeShaped s /\ childrenKept s /\ incumbentOK s.

Lemma searchOK_start : searchOK start.
Proof.
  split; [apply treeShaped_start|]. split; [apply childrenKept_start|].
  apply incumbentOK_start.
Qed.

Lemma searchOK_step (s s' : BB.search) : searchOK s -> visited s s' -> searchOK s'.
Proof.
  intros (T & C & I) V. split; [now apply (treeShaped_step s s')|].
  split; [now apply (childrenKept_step s s')|now apply (incumbentOK_step s s')].
Qed.

Lemma branchAndBound_ok (fuel : nat) (r : BB.outcome) :
  BB.branchAndBound numVars isMax intChecked fuel objCoeffs constraints = Some r ->
  exists sf, searchOK sf /\ BB.queue sf = [] /\
             BB.o_bestSolution r = BB.bestSolution sf /\
             BB.o_bestZ r = BB.bestZ sf /\ BB.o_nodes r = BB.nodes sf.
Proof.
  intros H.
  destruct (branchAndBound_inv searchOK fuel r searchOK_start searchOK_step H)
    as (sf & I & Q & ->).
  exists sf. auto.
Qed.

Lemma entries_done (s : BB.search) :
  BB.queue s = [] -> entries s = map viewInfo (BB.nodes s).
Proof. intros Q. unfold entries. rewrite Q. apply app_nil_r. Qed.

(** X24.  When [branchAndBound] returns, the nodes it recorded carry the
    numbers [0, 1, 2, ...] in the order of the list, and their number is one
    more than twice the number of branched nodes. *)
Theorem nodes_numbered_in_order (fuel : nat) (r : BB.outcome) :
  BB.branchAndBound numVars isMax intChecked fuel objCoeffs constraints = Some r ->
  map BB.i_id (BB.o_nodes r) = seq 0 (length (BB.o_nodes r)) /\
  length (BB.o_nodes r) = 2 * countBranched (BB.o_nodes r) + 1.
Proof.
  intros H. destruct (branchAndBound_ok fuel r H) as (sf & (T & _) & Q & _ & _ & ->).
  destruct T as ((N1 & _ & _ & N4) & _). rewrite Q in N4. simpl in N4.
  split; [exact N1|lia].
Qed.

(** X25.  The recorded nodes form a tree: the root is node 0 at depth 0
    without extra constraints; every other node names as parent a branched
    node recorded before it, lies one level below it, and carries the
    parent's extra constraints followed by [x <= floor v] or [x >= ceil v],
    where [x] is the integer-designated variable the parent branched on, [v]
    its relaxed value, [floor v < v < ceil v] and [ceil v = floor v + 1]. *)
Theorem recorded_nodes_form_tree (fuel : nat) (r : BB.outcome) :
  BB.branchAndBound numVars isMax intChecked fuel objCoeffs constraints = Some r ->
  Forall (infoHangs (BB.o_nodes r)) (BB.o_nodes r).
Proof.
  intros H. destruct (branchAndBound_ok fuel r H) as (sf & (T & _) & _ & _ & _ & ->).
  exact (proj1 (proj2 T)).
Qed.

(** X26.  No branch is dropped: for every branched node the list holds, at
    two consecutive positions, its left child with the bound [<= floor v]
    and its right child with the bound [>= ceil v]. *)
Theorem both_children_recorded (fuel : nat) (r : BB.outcome) (par : BB.nodeInfo) :
  BB.branchAndBound numVars isMax intChecked fuel objCoeffs constraints = Some r ->
  In par (BB.o_nodes r) -> BB.i_status par = BB.Branched ->
  exists index value k left right,
    BB.i_fractionalVar par = Some (index, value) /\
    nth_error (BB.o_nodes r) k = Some left /\
    nth_error (BB.o_nodes r) (S k) = Some right /\
    viewInfo left = leftChild k par index value /\
    viewInfo right = rightChild (S k) par index value.
Proof.
  intros H Hp Sp.
  destruct (branchAndBound_ok fuel r H) as (sf & (_ & C & _) & Q & _ & _ & E).
  rewrite E in *. destruct C as (_ & _ & C3).
  destruct (C3 par Hp Sp) as (index & value & k & F1 & F2 & F3).
  rewrite (entries_done sf Q) in F2, F3.
  rewrite nth_error_map in F2, F3.
  destruct (nth_error (BB.nodes sf) k) as [left|] eqn:L; [|discriminate].
  destruct (nth_error (BB.nodes sf) (S k)) as [right|] eqn:R; [|discriminate].
  cbn [option_map] in F2, F3.
  exists index, value, k, left, right.
  repeat split; try assumption; congruence.
Qed.

(** X27.  A recorded node at depth [d] carries exactly [d] extra
    constraints, and each of them bounds a single integer-designated
    variable by an integer, with [<=] or [>=]. *)
Theorem depth_counts_bounds (fuel : nat) (r : BB.outcome) :
  BB.branchAndBound numVars isMax intChecked fuel objCoeffs constraints = Some r ->
  Forall (fun i => length (BB.i_extraConstraints i) = BB.i_depth i /\
                   Forall isBound (BB.i_extraConstraints i))
         (BB.o_nodes r).
Proof.
  intros H.
  destruct (branchAndBound_ok fuel r H) as (sf & (_ & C & _) & Q & _ & _ & ->).
  destruct C as (_ & C2 & _). rewrite (entries_done sf Q) in C2.
  rewrite Forall_map in C2. exact C2.
Qed.

(** X28.  The returned incumbent is the last integer node of the list:
    without such a node [bestSolution] is [null] and [bestZ] is still the
    starting infinity; with one, [bestSolution] and [bestZ] are the shown
    solution and the shown objective value of the last of them. *)
Theorem incumbent_is_last_integer_node (fuel : nat) (r : BB.outcome) :
  BB.branchAndBound numVars isMax intChecked fuel objCoeffs constraints = Some r ->
  match lastInteger (BB.o_nodes r) with
  | None =>
      BB.o_bestSolution r = None /\
      BB.o_bestZ r = (if isMax then BB.NegInf else BB.PosInf)
  | Some last =>
      exists sol zq,
        BB.i_solution last = Some sol /\ BB.i_zValue last = Some zq /\
        BB.o_bestSolution r = Some sol /\ BB.o_bestZ r = BB.Fin zq
  end.
Proof.
  intros H.
  destruct (branchAndBound_ok fuel r H) as (sf & (_ & _ & I) & _ & -> & -> & ->).
  unfold incumbentOK, incumbentIn in I.
  destruct (lastInteger (BB.nodes sf)) as [last|].
  - destruct I as (sol & zq & E1 & E2 & E3 & E4 & _). exists sol, zq. auto.
  - destruct I as (E1 & E2 & _). auto.
Qed.

(** X29.  Pruning and the incumbent: a node is pruned only once there is an
    incumbent, and no pruned node and no integer node shows an objective
    value better than the returned [bestZ] (larger when maximizing, smaller
    when minimizing). *)
Theorem incumbent_not_beaten (fuel : nat) (r : BB.outcome) (i : BB.nodeInfo) :
  BB.branchAndBound numVars isMax intChecked fuel objCoeffs constraints = Some r ->
  In i (BB.o_nodes r) ->
  BB.i_status i = BB.Integer \/ BB.i_status i = BB.Pruned ->
  exists zq z',
    BB.o_bestZ r = BB.Fin zq /\ BB.o_bestSolution r <> None /\
    BB.i_zValue i = Some z' /\ atLeastAsGood zq z'.
Proof.
  intros H Hi St.
  destruct (branchAndBound_ok fuel r H) as (sf & (_ & _ & I) & _ & E1 & E2 & E3).
  rewrite E1, E2. rewrite E3 in Hi. unfold incumbentOK, incumbentIn in I.
  destruct (lastInteger (BB.nodes sf)) as [last|] eqn:LI.
  - destruct I as (sol & zq & B1 & B2 & _ & _ & _ & _ & All).
    destruct (All i Hi St) as (z' & Ez & Hz).
    exists zq, z'. rewrite B1. repeat split; try assumption. discriminate.
  - exfalso. destruct I as (_ & _ & NoP). destruct St as [St|St].
    + exact (lastInteger_None _ i LI Hi St).
    + exact (NoP i Hi St).
Qed.

(** X30.  The returned incumbent has one entry per decision variable, and
    each entry of an integer-designated variable is an integer. *)
Theorem incumbent_is_integral (fuel : nat) (r : BB.outcome) (sol : list Q) :
  BB.branchAndBound numVars isMax intChecked fuel objCoeffs constraints = Some r ->
  BB.o_bestSolution r = Some sol ->
  length sol = numVars /\
  forall j, j < numVars -> intChecked j = true ->
    exists k : Z, (get sol j == inject_Z k)%Q.
Proof.
  intros H B.
  destruct (branchAndBound_ok fuel r H) as (sf & (_ & _ & I) & _ & E1 & _ & _).
  rewrite E1 in B. unfold incumbentOK, incumbentIn in I.
  destruct (lastInteger (BB.nodes sf)) as [last|].
  - destruct I as (sol0 & zq & B1 & _ & _ & _ & _ & Int & _).
    rewrite B in B1. injection B1 as <-. exact Int.
  - destruct I as (B1 & _). congruence.
Qed.

End Tree.

(** The search of scenario D: five nodes, two of them branched. *)
Definition scenarioD_outcome : BB.outcome :=
  match BB.branchAndBound 2 true (fun _ => true) 20 scenarioD_obj scenarioD_cons with
  | Some r => r
  | None => BB.mkOutcome None BB.NegInf []
  end.

Lemma scenarioD_returns :
  BB.branchAndBound 2 true (fun _ => true) 20 scenarioD_obj scenarioD_cons =
  Some scenarioD_outcome.
Proof. vm_compute. reflexivity. Defined.

Definition scenarioD_node (k : nat) : BB.nodeInfo :=
  nth k (BB.o_nodes scenarioD_outcome)
      (BB.mkInfo 0 0 None None [] BB.Infeasible None None None None).

Lemma nodes_numbered_in_order_witness :
  map BB.i_id (BB.o_nodes scenarioD_outcome) = [0; 1; 2; 3; 4] /\
  countBranched (BB.o_nodes scenarioD_outcome) = 2 /\
  (map BB.i_id (BB.o_nodes scenarioD_outcome) =
     seq 0 (length (BB.o_nodes scenarioD_outcome)) /\
   length (BB.o_nodes scenarioD_outcome) =
     2 * countBranched (BB.o_nodes scenarioD_outcome) + 1).
Proof.
  split; [vm_compute; reflexivity|]. split; [vm_compute; reflexivity|].
  exact (nodes_numbered_in_order 2 true (fun _ => true) scenarioD_obj scenarioD_cons 20
           scenarioD_outcome scenarioD_returns).
Defined.

Lemma recorded_nodes_form_tree_witness :
  map BB.i_parent (BB.o_nodes scenarioD_outcome) = [None; Some 0; Some 0; Some 1; Some 1] /\
  Forall (infoHangs 2 (fun _ => true) (BB.o_nodes scenarioD_outcome))
         (BB.o_nodes scenarioD_outcome).
Proof.
  split; [vm_compute; reflexivity|].
  exact (recorded_nodes_form_tree 2 true (fun _ => true) scenarioD_obj scenarioD_cons 20
           scenarioD_outcome scenarioD_returns).
Defined.

Lemma both_children_recorded_witness :
  BB.i_status (scenarioD_node 1) = BB.Branched /\
  exists index value k left right,
    BB.i_fractionalVar (scenarioD_node 1) = Some (index, value) /\
    nth_error (BB.o_nodes scenarioD_outcome) k = Some left /\
    nth_error (BB.o_nodes scenarioD_outcome) (S k) = Some right /\
    viewInfo left = leftChild 2 k (scenarioD_node 1) index value /\
    viewInfo right = rightChild 2 (S k) (scenarioD_node 1) index value.
Proof.
  assert (St : BB.i_status (scenarioD_node 1) = BB.Branched) by (vm_compute; reflexivity).
  split; [exact St|].
  refine (both_children_recorded 2 true (fun _ => true) scenarioD_obj scenarioD_cons 20
            scenarioD_outcome (scenarioD_node 1) scenarioD_returns _ St).
  vm_compute. right. left. reflexivity.
Defined.

Lemma depth_counts_bounds_witness :
  map BB.i_depth (BB.o_nodes scenarioD_outcome) = [0; 1; 1; 2; 2] /\
  Forall (fun i => length (BB.i_extraConstraints i) = BB.i_depth i /\
                   Forall (isBound 2 (fun _ => true)) (BB.i_extraConstraints i))
         (BB.o_nodes scenarioD_outcome).
Proof.
  split; [vm_compute; reflexivity|].
  exact (depth_counts_bounds 2 true (fun _ => true) scenarioD_obj scenarioD_cons 20
           scenarioD_outcome scenarioD_returns).
Defined.

Lemma incumbent_is_last_integer_node_witness :
  lastInteger (BB.o_nodes scenarioD_outcome) = Some (scenarioD_node 4) /\
  match lastInteger (BB.o_nodes scenarioD_outcome) with
  | None =>
      BB.o_bestSolution scenarioD_outcome = None /\
      BB.o_bestZ scenarioD_outcome = BB.NegInf
  | Some last =>
      exists sol zq,
        BB.i_solution last = Some sol /\ BB.i_zValue last = Some zq /\
        BB.o_bestSolution scenarioD_outcome = Some sol /\
        BB.o_bestZ scenarioD_outcome = BB.Fin zq
  end.
Proof.
  split; [vm_compute; reflexivity|].
  exact (incumbent_is_last_integer_node 2 true (fun _ => true) scenarioD_obj
           scenarioD_cons 20 scenarioD_outcome scenarioD_returns).
Defined.

Lemma incumbent_not_beaten_witness :
  BB.i_status (scenarioD_node 2) = BB.Integer /\
  exists zq z',
    BB.o_bestZ scenarioD_outcome = BB.Fin zq /\
    BB.o_bestSolution scenarioD_outcome <> None /\
    BB.i_zValue (scenarioD_node 2) = Some z' /\ atLeastAsGood true zq z'.
Proof.
  assert (St : BB.i_status (scenarioD_node 2) = BB.Integer) by (vm_compute; reflexivity).
  split; [exact St|].
  refine (incumbent_not_beaten 2 true (fun _ => true) scenarioD_obj scenarioD_cons 20
            scenarioD_outcome (scenarioD_node 2) scenarioD_returns _ (or_introl St)).
  vm_compute. right. right. left. reflexivity.
Defined.

Lemma incumbent_is_integral_witness :
  BB.o_bestSolution scenarioD_outcome = Some [4; 0]%Q /\
  length [4; 0]%Q = 2 /\
  forall j, j < 2 -> (fun _ : nat => true) j = true ->
    exists k : Z, (get [4; 0]%Q j == inject_Z k)%Q.
Proof.
  assert (B : BB.o_bestSolution scenarioD_outcome = Some [4; 0]%Q)
    by (vm_compute; reflexivity).
  split; [exact B|].
  exact (incumbent_is_integral 2 true (fun _ => true) scenarioD_obj scenarioD_cons 20
           scenarioD_outcome [4; 0]%Q scenarioD_returns B).
Defined.
